(** * GraphTEASAR: a shallow embedding of the skeletonization core

    The development embeds [GraphTEASAR/__init__.py] (the component
    skeletonizer [graph_teasar_component]), [GraphTEASAR/find_root.py]
    (the double-sweep root finder) and [GraphTEASAR/utils.py]
    ([get_path], [create_spatial_csgraph]) and proves properties of the
    invalidation-covering loop.

    Numbers.  The Python code computes with float64 arrays.  Edge weights
    are modelled as non-negative integers and array cells as [float64]
    values that are either an integer or one of the special values +inf,
    -inf, NaN.  Arithmetic comes at two levels.  The functions of the
    first part add and subtract without rounding ([scan_edge], [fsub]):
    they are the code as long as every sum is an integer below 2^53.
    Module [B64] repeats every function that adds, subtracts or calls the
    search with the rounding of binary64 ([round64]: a 53-bit
    significand, ties to even).  On a graph with [small_weights] the two
    levels return the same values; beyond, they differ, and the
    statements about distances are made of [B64].

    Effects.  Every function that may raise, loop or call the shortest
    path provider lives in the monad [M]: an outcome together with the
    number of shortest-path computations performed so far. *)

From Stdlib Require Import String ZArith List Bool Lia Arith Sorted.
Import ListNotations.
Open Scope Z_scope.


(** ** float64 cells *)

Inductive float64 : Type :=
| Fin (z : Z)
| PInf
| NInf
| NaN.

Definition isinf (x : float64) : bool :=
  match x with PInf | NInf => true | _ => false end.

Definition isnan (x : float64) : bool :=
  match x with NaN => true | _ => false end.

(** [x < y] and [x <= y] as IEEE comparisons: false as soon as a NaN is
    involved. *)
Definition flt (x y : float64) : bool :=
  match x, y with
  | NaN, _ | _, NaN => false
  | Fin a, Fin b => a <? b
  | NInf, NInf => false
  | NInf, _ => true
  | _, NInf => false
  | PInf, _ => false
  | Fin _, PInf => true
  end.

Definition fle (x y : float64) : bool :=
  match x, y with
  | NaN, _ | _, NaN => false
  | Fin a, Fin b => a <=? b
  | NInf, _ => true
  | _, NInf => false
  | _, PInf => true
  | PInf, Fin _ => false
  end.

(** [x - y] without rounding; [B64.fsub] rounds. *)
Definition fsub (x y : float64) : float64 :=
  match x, y with
  | NaN, _ | _, NaN => NaN
  | Fin a, Fin b => Fin (a - b)
  | PInf, PInf | NInf, NInf => NaN
  | PInf, _ => PInf
  | NInf, _ => NInf
  | Fin _, PInf => NInf
  | Fin _, NInf => PInf
  end.

(** [x * b] for a boolean [b] (numpy promotes it to 1.0 or 0.0):
    an infinity times [False] is NaN, a finite value times [False] is
    zero. *)
Definition fmul_bool (x : float64) (b : bool) : float64 :=
  if b then x
  else match x with
       | Fin _ => Fin 0
       | _ => NaN
       end.

(** ** Outcomes and the monad of the model *)

Inductive exn : Type :=
| ValueError (msg : string)
| IndexError
| TypeError
| AssertionError.

Inductive outcome (A : Type) : Type :=
| Ok (a : A)
| Raise (e : exn)
| OutOfFuel.

Arguments Ok {A} a.
Arguments Raise {A} e.
Arguments OutOfFuel {A}.

(** An outcome together with the number of shortest-path computations
    that were performed to obtain it. *)
Definition M (A : Type) : Type := (outcome A * nat)%type.

Definition ret {A} (a : A) : M A := (Ok a, O).

Definition raise {A} (e : exn) : M A := (Raise e, O).

Definition diverge {A} : M A := (OutOfFuel, O).

Definition bind {A B} (m : M A) (f : A -> M B) : M B :=
  match m with
  | (Ok a, k) => let (r, k') := f a in (r, (k + k')%nat)
  | (Raise e, k) => (Raise e, k)
  | (OutOfFuel, k) => (OutOfFuel, k)
  end.

Notation "x <- m ;; f" := (bind m (fun x => f))
  (at level 61, m at next level, right associativity).
Notation "' pat <- m ;; f" := (bind m (fun x => match x with pat => f end))
  (at level 61, pat pattern, m at next level, right associativity).

(** A pure step that may raise. *)
Definition lift {A} (o : option A) (e : exn) : M A :=
  match o with
  | Some a => ret a
  | None => raise e
  end.

(** ** numpy arrays as lists *)

(** [a[i]] for a Python integer [i]: negative indices count from the end,
    anything else out of range raises IndexError. *)
Definition np_index (len : nat) (i : Z) : option nat :=
  if (0 <=? i) && (i <? Z.of_nat len) then Some (Z.to_nat i)
  else if (- Z.of_nat len <=? i) && (i <? 0) then Some (Z.to_nat (Z.of_nat len + i))
  else None.

Definition np_get {A} (a : list A) (i : Z) : option A :=
  match np_index (length a) i with
  | Some k => nth_error a k
  | None => None
  end.

Definition getitem {A} (a : list A) (i : Z) : M A := lift (np_get a i) IndexError.

(** [np.sum(valid)] of a boolean array. *)
Definition np_sum (valid : list bool) : nat := count_occ bool_dec valid true.

(** Element-wise binary operation with numpy's broadcasting of
    one-dimensional arrays: equal lengths, or one operand of length 1. *)
Definition broadcast2 {A B C} (f : A -> B -> C) (a : list A) (b : list B)
  : option (list C) :=
  if Nat.eqb (length a) (length b) then Some (map (fun p : A * B => f (fst p) (snd p)) (combine a b))
  else match a, b with
       | [x], _ => Some (map (f x) b)
       | _, [y] => Some (map (fun x => f x y) a)
       | _, _ => None
       end.

Definition broadcast_error : exn :=
  ValueError "operands could not be broadcast together".

(** The scan of [np.argmax] / [np.argmin]: the running best is replaced
    when the new cell is not [<=] (not [>=]) it, and the scan stops at the
    first NaN. *)
Fixpoint arg_scan (worse_eq : float64 -> float64 -> bool) (a : list float64)
  (i : nat) (best_i : nat) (best : float64) : nat :=
  match a with
  | [] => best_i
  | x :: a' =>
      if isnan best then best_i
      else if worse_eq x best then arg_scan worse_eq a' (S i) best_i best
      else arg_scan worse_eq a' (S i) i x
  end.

Definition np_argmax (a : list float64) : option nat :=
  match a with
  | [] => None
  | x :: a' => Some (arg_scan fle a' 1%nat O x)
  end.

Definition np_argmin (a : list float64) : option nat :=
  match a with
  | [] => None
  | x :: a' => Some (arg_scan (fun x best => fle best x) a' 1%nat O x)
  end.

(** [np.nanargmax]: NaN cells are replaced by -inf; an all-NaN array and
    an empty array raise ValueError, each with its own message. *)
Definition np_nanargmax (a : list float64) : option nat :=
  if forallb isnan a then None
  else np_argmax (map (fun x => if isnan x then NInf else x) a).

Definition nanargmax_error (a : list float64) : exn :=
  match a with
  | [] => ValueError "attempt to get argmax of an empty sequence"
  | _ => ValueError "All-NaN slice encountered"
  end.

(** [a[mask] = c] for a boolean mask: lengths must agree. *)
Definition mask_assign {A} (a : list A) (mask : list bool) (c : A) : option (list A) :=
  if Nat.eqb (length a) (length mask)
  then Some (map (fun p : A * bool => if snd p then c else fst p) (combine a mask))
  else None.

(** ** Sparse graphs *)

(** A [scipy.sparse.csr_matrix]: its shape and its stored entries
    (row, column, weight).  A stored zero is a zero-weight edge. *)
Record csgraph : Type := {
  shape0 : nat;
  shape1 : nat;
  entries : list (nat * nat * N)
}.

Definition n_vertices (g : csgraph) : nat := Nat.max (shape0 g) (shape1 g).

(** Structural well-formedness of a square CSR matrix. *)
Definition wf_entry (n : nat) (e : nat * nat * N) : bool :=
  let '(i, j, _) := e in Nat.ltb i n && Nat.ltb j n.

Definition wf_csgraph (g : csgraph) : bool :=
  Nat.eqb (shape0 g) (shape1 g) && forallb (wf_entry (shape0 g)) (entries g).

(** Edges seen by an undirected search ([directed=False]): the search may
    move from [u] along a stored entry of row [u] or of column [u]. *)
Definition neighbors (g : csgraph) (u : nat) : list (nat * N) :=
  flat_map (fun e => let '(i, j, w) := e in
                     (if Nat.eqb i u then [(j, w)] else []) ++
                     (if Nat.eqb j u then [(i, w)] else []))
           (entries g).

Definition all_positive (g : csgraph) : bool :=
  forallb (fun e => let '(_, _, w) := e in N.ltb 0 w) (entries g).

(** ** The shortest-path provider

    Modelled from the spec: [scipy.sparse.csgraph.dijkstra] is the external
    ShortestPathOracle of the repository (single- or multi-source search
    on the undirected graph, optional radius [limit], distance,
    predecessor and nearest-source arrays).  The model is Dijkstra's
    algorithm as the library runs it: a vertex popped from the frontier is
    SCANNED, each of its edges proposes [val u + w] to a neighbour that is
    not SCANNED, and a proposal above [limit] is dropped.  Unreached cells
    hold +inf and the sentinel [-9999].  The sums [val u + w] are exact
    here; [B64.scan_edge] rounds them.  The properties proved later use
    only the contract lemmas, not the order in which ties are broken. *)

Definition NO_PRED : Z := -9999.

Record nodes : Type := {
  val : nat -> option Z;
  prd : nat -> Z;
  source : nat -> Z
}.

Definition touch (nd : nodes) (v : nat) (d p s : Z) : nodes :=
  {| val := fun x => if Nat.eqb x v then Some d else val nd x;
     prd := fun x => if Nat.eqb x v then p else prd nd x;
     source := fun x => if Nat.eqb x v then s else source nd x |}.

Definition is_scanned (scanned : list nat) (v : nat) : bool :=
  existsb (Nat.eqb v) scanned.

Definition scan_edge (limit : float64) (scanned : list nat) (u : nat) (du su : Z)
  (nd : nodes) (e : nat * N) : nodes :=
  let '(v, w) := e in
  if is_scanned scanned v then nd
  else
    let next_val := du + Z.of_N w in
    if fle (Fin next_val) limit then
      match val nd v with
      | None => touch nd v next_val (Z.of_nat u) su
      | Some dv => if next_val <? dv then touch nd v next_val (Z.of_nat u) su else nd
      end
    else nd.

Fixpoint min_node (vals : nat -> option Z) (cands : list nat) (best : option (nat * Z))
  : option (nat * Z) :=
  match cands with
  | [] => best
  | v :: cs =>
      match vals v with
      | None => min_node vals cs best
      | Some d =>
          match best with
          | Some (_, bd) =>
              if d <? bd then min_node vals cs (Some (v, d)) else min_node vals cs best
          | None => min_node vals cs (Some (v, d))
          end
      end
  end.

Definition remove_min (n : nat) (scanned : list nat) (nd : nodes) : option (nat * Z) :=
  min_node (val nd) (filter (fun v => negb (is_scanned scanned v)) (seq 0 n)) None.

Fixpoint dijkstra_loop (fuel : nat) (g : csgraph) (limit : float64)
  (scanned : list nat) (nd : nodes) : list nat * nodes :=
  match fuel with
  | O => (scanned, nd)
  | S fuel' =>
      match remove_min (shape0 g) scanned nd with
      | None => (scanned, nd)
      | Some (u, du) =>
          let scanned' := u :: scanned in
          dijkstra_loop fuel' g limit scanned'
            (fold_left (scan_edge limit scanned' u du (source nd u)) (neighbors g u) nd)
      end
  end.

Definition init_nodes (srcs : list nat) : nodes :=
  {| val := fun v => if existsb (Nat.eqb v) srcs then Some 0 else None;
     prd := fun _ => NO_PRED;
     source := fun v => if existsb (Nat.eqb v) srcs then Z.of_nat v else NO_PRED |}.

Definition dist_cell (o : option Z) : float64 :=
  match o with Some d => Fin d | None => PInf end.

(** The three arrays read off the final search state. *)
Definition dijkstra_arrays (g : csgraph) (srcs : list nat) (limit : float64)
  : list float64 * list Z * list Z :=
  let n := shape0 g in
  let nd := snd (dijkstra_loop n g limit [] (init_nodes srcs)) in
  (map (fun v => dist_cell (val nd v)) (seq 0 n),
   map (prd nd) (seq 0 n),
   map (source nd) (seq 0 n)).

(** Source indices as the library normalises them: a negative index has
    [N] added once. *)
Definition norm_index (n : nat) (i : Z) : Z :=
  if i <? 0 then i + Z.of_nat n else i.

Definition index_ok (n : nat) (i : Z) : bool :=
  (0 <=? norm_index n i) && (norm_index n i <? Z.of_nat n).

(** [sparse.csgraph.dijkstra(csgraph, False, indices, limit=limit,
    min_only=True, return_predecessors=True)]; with a single source the
    first two arrays are what the call without [min_only] returns. *)
Definition dijkstra (g : csgraph) (indices : list Z) (limit : float64)
  : M (list float64 * list Z * list Z) :=
  if negb (Nat.eqb (shape0 g) (shape1 g))
  then raise (ValueError "compressed-sparse graph must be shape (N, N)")
  else if negb (forallb (index_ok (shape0 g)) indices)
  then raise (ValueError "indices out of range 0...N")
  else if flt limit (Fin 0)
  then raise (ValueError "limit must be >= 0")
  else (Ok (dijkstra_arrays g (map (fun i => Z.to_nat (norm_index (shape0 g) i)) indices) limit),
        1%nat).

(** Graphs of the test-suite: the unit square and the line with two side
    branches (weights scaled by 10 so that radii 1.1, 3.1, 5.1 are the
    integers 11, 31, 51; the last edge of the second branch joins (5,-2)
    to (5,-5) and has length 3). *)
Definition undirected (n : nat) (w : N) (es : list (nat * nat)) : csgraph :=
  {| shape0 := n; shape1 := n;
     entries := map (fun e => (fst e, snd e, w)) es ++ map (fun e => (snd e, fst e, w)) es |}.

Definition square_graph : csgraph :=
  undirected 4 1 [(0, 1); (1, 2); (2, 3); (3, 0)]%nat.

Definition branches_graph : csgraph :=
  let g := undirected 17 10
    [(0, 1); (1, 2); (2, 3); (3, 4); (4, 5); (5, 6); (6, 7); (7, 8); (8, 9); (9, 10);
     (2, 11); (11, 12); (12, 13); (5, 14); (14, 15)]%nat in
  {| shape0 := 17; shape1 := 17;
     entries := entries g ++ [(15, 16, 30%N); (16, 15, 30%N)]%nat |}.


(** ** utils.get_path *)

(** The [while p != root] loop: [path] grows by appending. *)
Fixpoint get_path_loop (fuel : nat) (root : Z) (pred : list Z) (p : Z) (path : list Z)
  : M (list Z) :=
  if p =? root then ret path
  else match fuel with
       | O => diverge
       | S fuel' =>
           p' <- getitem pred p ;;
           get_path_loop fuel' root pred p' (path ++ [p'])
       end.

Definition get_path (fuel : nat) (root target : Z) (pred : list Z) : M (list Z) :=
  path <- get_path_loop fuel root pred target [target] ;;
  ret (rev path).

(** ** find_root.py *)

(** [np.where(valid)[0][0]]. *)
Fixpoint first_true (valid : list bool) : option nat :=
  match valid with
  | [] => None
  | true :: _ => Some O
  | false :: v => option_map S (first_true v)
  end.

Definition far_points_result : Type :=
  (Z * Z * option (list Z) * float64 * option (list float64))%type.

(** The [while 1] loop of [find_far_points_graph]. *)
Fixpoint far_points_loop (fuel : nat) (mesh_graph : csgraph) (valid : list bool)
  (best_root current_root : Z) (pred : option (list Z))
  (max_observed_distance : float64) (dist_to_root : option (list float64))
  : M far_points_result :=
  match fuel with
  | O => diverge
  | S fuel' =>
      '(dist_to_current, predn, _) <- dijkstra mesh_graph [current_root] PInf ;;
      dist_to_current <- lift (mask_assign dist_to_current (map negb valid) (Fin (-1)))
                              IndexError ;;
      far_from_current <- lift (np_argmax dist_to_current)
                               (ValueError "attempt to get argmax of an empty sequence") ;;
      current_distance <- getitem dist_to_current (Z.of_nat far_from_current) ;;
      if flt max_observed_distance current_distance
      then far_points_loop fuel' mesh_graph valid current_root (Z.of_nat far_from_current)
             (Some predn) current_distance (Some dist_to_current)
      else ret (best_root, current_root, pred, max_observed_distance, dist_to_root)
  end.

Definition find_far_points_graph (fuel : nat) (mesh_graph : csgraph)
  (valid : option (list bool)) : M far_points_result :=
  '(valid, current_root) <-
     match valid with
     | None => ret (repeat true (shape0 mesh_graph), 0)
     | Some valid =>
         r <- lift (first_true valid) IndexError ;;
         ret (valid, Z.of_nat r)
     end ;;
  far_points_loop fuel mesh_graph valid current_root current_root None (Fin 0) None.

(** Component labels as [sparse.csgraph.connected_components] numbers
    them: vertices are visited in index order and a vertex without a label
    starts the next component. *)
Fixpoint label_components (g : csgraph) (vs : list nat) (labels : list (option nat))
  (next : nat) : list (option nat) :=
  match vs with
  | [] => labels
  | v :: vs' =>
      match nth v labels None with
      | Some _ => label_components g vs' labels next
      | None =>
          let reach := fst (fst (dijkstra_arrays g [v] PInf)) in
          label_components g vs'
            (map (fun p : option nat * float64 =>
                    if isinf (snd p) then fst p else Some next)
                 (combine labels reach))
            (S next)
      end
  end.

Definition connected_components (g : csgraph) : M (list nat) :=
  if negb (Nat.eqb (shape0 g) (shape1 g))
  then raise (ValueError "compressed-sparse graph must be shape (N, N)")
  else ret (map (fun l => match l with Some c => c | None => O end)
              (label_components g (seq 0 (shape0 g)) (repeat None (shape0 g)) O)).

(** [connected_component_slice(G, return_boolean=True)]: the mask of the
    largest component (the first one among the largest). *)
Definition connected_component_slice (G : csgraph) : M (list bool) :=
  labels <- connected_components G ;;
  let label_vals := seq 0 (S (fold_right Nat.max O labels)) in
  let cnt := map (fun l => Fin (Z.of_nat (count_occ Nat.eq_dec labels l))) label_vals in
  match labels with
  | [] => raise (ValueError "attempt to get argmax of an empty sequence")
  | _ =>
      ind <- lift (np_argmax cnt) (ValueError "attempt to get argmax of an empty sequence") ;;
      ret (map (Nat.eqb ind) labels)
  end.

Definition find_graph_root (fuel : nat) (mesh_graph : csgraph) (valid : option (list bool))
  : M (Z * option (list Z) * option (list float64) * list bool) :=
  valid <- match valid with
           | None => connected_component_slice mesh_graph
           | Some valid => ret valid
           end ;;
  '(best_root, _, pred, _, dist_to_root) <- find_far_points_graph fuel mesh_graph (Some valid) ;;
  ret (best_root, pred, dist_to_root, valid).

(** ** graph_teasar_component *)

(** The state the [while] loop of [graph_teasar_component] carries.
    [mesh_to_skeleton] holds [mesh_to_skeleton_dist] and
    [mesh_to_skeleton_map] when [return_map] is set. *)
Record teasar_state : Type := {
  valid : list bool;
  visited_nodes : list Z;
  paths : list (list Z);
  path_lengths : list float64;
  mesh_to_skeleton : option (list float64 * list float64);
  k : nat
}.

(** [target = np.nanargmax(root_ds * valid)] and the defensive check on
    [root_ds[target]]. *)
Definition select_target (root_ds : list float64) (valid : list bool) : M Z :=
  prod <- lift (broadcast2 fmul_bool root_ds valid) broadcast_error ;;
  target <- lift (np_nanargmax prod) (nanargmax_error prod) ;;
  d <- getitem root_ds (Z.of_nat target) ;;
  if isinf d then raise (ValueError "target cannot be reached")
  else ret (Z.of_nat target).

(** [while max_branch not in visited_nodes: max_branch = root_pred[max_branch]]. *)
Fixpoint find_max_branch (fuel : nat) (root_pred : option (list Z)) (visited_nodes : list Z)
  (max_branch : Z) : M Z :=
  if existsb (Z.eqb max_branch) visited_nodes then ret max_branch
  else match fuel with
       | O => diverge
       | S fuel' =>
           match root_pred with
           | None => raise TypeError
           | Some root_pred' =>
               p <- getitem root_pred' max_branch ;;
               find_max_branch fuel' root_pred visited_nodes p
           end
       end.

(** [ds[visited_nodes]]. *)
Fixpoint take (ds : list float64) (idx : list Z) : M (list float64) :=
  match idx with
  | [] => ret []
  | i :: idx' =>
      d <- getitem ds i ;;
      r <- take ds idx' ;;
      ret (d :: r)
  end.

(** One cell of the vertex-to-skeleton update: the distance and the
    source are replaced together when the new distance is smaller. *)
Definition update_cell (c : (float64 * Z) * (float64 * float64)) : float64 * float64 :=
  let '((d, s), (best, m)) := c in
  if negb (isinf d) && flt d best then (d, Fin s) else (best, m).

Definition update_map (dm : list float64) (sources : list Z)
  (mesh_to_skeleton_dist mesh_to_skeleton_map : list float64)
  : option (list float64 * list float64) :=
  if Nat.eqb (length dm) (length mesh_to_skeleton_dist)
     && Nat.eqb (length dm) (length mesh_to_skeleton_map)
     && Nat.eqb (length dm) (length sources)
  then Some (split (map update_cell
                      (combine (combine dm sources)
                               (combine mesh_to_skeleton_dist mesh_to_skeleton_map))))
  else None.

(** The body of the [while np.sum(valid) > 0] loop. *)
Definition teasar_iteration (fuel : nat) (csgraph : csgraph) (root_ds : list float64)
  (root_pred : option (list Z)) (invalidation_d : float64) (st : teasar_state)
  : M teasar_state :=
  target <- select_target root_ds (valid st) ;;
  max_branch <- find_max_branch fuel root_pred (visited_nodes st) target ;;
  d_target <- getitem root_ds target ;;
  d_branch <- getitem root_ds max_branch ;;
  let max_path_length := fsub d_target d_branch in
  '(ds, pred_t, _) <- dijkstra csgraph [target] max_path_length ;;
  ds_visited <- take ds (visited_nodes st) ;;
  min_node <- lift (np_argmin ds_visited)
                   (ValueError "attempt to get argmin of an empty sequence") ;;
  branch <- lift (nth_error (visited_nodes st) min_node) IndexError ;;
  path <- get_path fuel target branch pred_t ;;
  let visited_nodes' := visited_nodes st ++ removelast path in
  length_ <- getitem ds branch ;;
  if isinf length_ then raise AssertionError
  else
    '(dm, _, sources) <- dijkstra csgraph path invalidation_d ;;
    let nodes_to_update := map (fun d => negb (isinf d)) dm in
    mesh_to_skeleton' <-
      match mesh_to_skeleton st with
      | None => ret None
      | Some (mesh_to_skeleton_dist, mesh_to_skeleton_map) =>
          r <- lift (update_map dm sources mesh_to_skeleton_dist mesh_to_skeleton_map)
                    IndexError ;;
          ret (Some r)
      end ;;
    valid' <- lift (mask_assign (valid st) nodes_to_update false) IndexError ;;
    ret {| valid := valid';
           visited_nodes := visited_nodes';
           paths := paths st ++ [path];
           path_lengths := path_lengths st ++ [length_];
           mesh_to_skeleton := mesh_to_skeleton';
           k := S (k st) |}.

(** The loop; [fuel] bounds its iterations and [inner] the two inner
    [while] loops of each iteration. *)
Fixpoint teasar_loop (fuel inner : nat) (csgraph : csgraph) (root_ds : list float64)
  (root_pred : option (list Z)) (invalidation_d : float64) (st : teasar_state)
  : M teasar_state :=
  if Nat.ltb 0 (np_sum (valid st)) then
    match fuel with
    | O => diverge
    | S fuel' =>
        st' <- teasar_iteration inner csgraph root_ds root_pred invalidation_d st ;;
        teasar_loop fuel' inner csgraph root_ds root_pred invalidation_d st'
    end
  else ret st.

(** The state on entry to the loop. *)
Definition initial_state (root : Z) (valid : list bool)
  (mesh_to_skeleton : option (list float64 * list float64)) : teasar_state :=
  {| valid := valid;
     visited_nodes := [root];
     paths := [];
     path_lengths := [];
     mesh_to_skeleton := mesh_to_skeleton;
     k := O |}.

(** [mesh_to_skeleton_dist] and [mesh_to_skeleton_map] as [np.full]
    creates them when [return_map] is set. *)
Definition mesh_init (g : csgraph) (return_map : bool)
  : option (list float64 * list float64) :=
  if return_map
  then Some (repeat PInf (n_vertices g), repeat NaN (n_vertices g))
  else None.

Definition root_function : Type :=
  csgraph -> option (list bool) ->
  M (Z * option (list Z) * option (list float64) * list bool).

(** Everything [graph_teasar_component] does before its loop: the root,
    its distance field, the mask and the two precondition checks. *)
Definition teasar_setup (csgraph : csgraph) (root : option Z) (valid : option (list bool))
  (root_ds : option (list float64)) (root_pred : option (list Z))
  (find_root_func : root_function) (return_map : bool)
  : M (list float64 * option (list Z) * teasar_state) :=
  let n_vertices := n_vertices csgraph in
  '(root, root_pred, root_ds, valid) <-
     match root with
     | None =>
         '(root, root_pred, root_ds, valid) <- find_root_func csgraph valid ;;
         ret (root, root_pred, root_ds, Some valid)
     | Some root => ret (root, root_pred, root_ds, valid)
     end ;;
  '(root_ds, root_pred) <-
     match root_ds with
     | None =>
         '(root_ds, root_pred, _) <- dijkstra csgraph [root] PInf ;;
         ret (root_ds, Some root_pred)
     | Some root_ds => ret (root_ds, root_pred)
     end ;;
  valid <-
     match valid with
     | None =>
         i <- lift (np_index n_vertices root) IndexError ;;
         ret (map (fun v => negb (Nat.eqb v i)) (seq 0 n_vertices))
     | Some valid =>
         if negb (Nat.eqb (length valid) n_vertices)
         then raise (ValueError "valid must be length of vertices")
         else ret valid
     end ;;
  let mesh_to_skeleton := mesh_init csgraph return_map in
  unreachable <- lift (broadcast2 (fun d v => isinf d && v) root_ds valid) broadcast_error ;;
  if negb (Nat.eqb (np_sum unreachable) 0)
  then raise (ValueError "all valid vertices should be reachable from root")
  else ret (root_ds, root_pred, initial_state root valid mesh_to_skeleton).

Definition graph_teasar_component (fuel : nat) (csgraph : csgraph) (root : option Z)
  (valid : option (list bool)) (root_ds : option (list float64))
  (root_pred : option (list Z)) (find_root_func : root_function)
  (invalidation_d : float64) (return_map : bool)
  : M (list (list Z) * list float64 * option (list float64)) :=
  '(root_ds, root_pred, st) <-
     teasar_setup csgraph root valid root_ds root_pred find_root_func return_map ;;
  st <- teasar_loop fuel fuel csgraph root_ds root_pred invalidation_d st ;;
  ret (paths st, path_lengths st, option_map snd (mesh_to_skeleton st)).

Definition all_but (n : nat) (r : nat) : list bool :=
  map (fun v => negb (Nat.eqb v r)) (seq 0 n).


(** ** utils.create_spatial_csgraph *)

(** A numpy integer array: its shape and its cells in row-major order. *)
Record ndarray : Type := {
  shape : list nat;
  data : list Z
}.

Definition ndim (a : ndarray) : nat := length (shape a).

Definition rows (a : ndarray) : list (list Z) :=
  let K := nth 1 (shape a) O in
  map (fun i => firstn K (skipn (i * K) (data a))) (seq 0 (nth 0 (shape a) O)).

(** Insertion of one COO triple into the stored entries, duplicates
    summed. *)
Fixpoint coo_add (es : list (nat * nat * N)) (i j : nat) (w : N) : list (nat * nat * N) :=
  match es with
  | [] => [(i, j, w)]
  | (i', j', w') :: es' =>
      if Nat.eqb i i' && Nat.eqb j j' then (i', j', (w' + w)%N) :: es'
      else (i', j', w') :: coo_add es' i j w
  end.

(** [sparse.csr_matrix((weights, (row, col)), shape=[n, n])]: indices are
    checked against the shape (the library's two messages are shortened);
    the narrowing to the matrix dtype is not modelled. *)
Definition csr_matrix (weights : list N) (row col : list Z) (n : nat) : M csgraph :=
  if existsb (fun i => i <? 0) (row ++ col)
  then raise (ValueError "negative index found")
  else if existsb (fun i => Z.of_nat n <=? i) (row ++ col)
  then raise (ValueError "index exceeds matrix dimensions")
  else ret {| shape0 := n; shape1 := n;
              entries := fold_left (fun es t => let '(i, j, w) := t in
                                                coo_add es (Z.to_nat i) (Z.to_nat j) w)
                                   (combine (combine row col) weights) [] |}.

Section Spatial.

(** [np.linalg.norm] of a coordinate difference; the library function is
    left abstract. *)
Variable linalg_norm : list Z -> N.

Definition create_spatial_csgraph (vertices edges : ndarray)
  (euclidean_weight directed : bool) : M csgraph :=
  if negb (Nat.eqb (ndim vertices) 2) || Nat.ltb (nth 1 (shape vertices) O) 1
  then raise (ValueError "vertices must be a NxK array with K > 0")
  else if negb (Nat.eqb (ndim edges) 2) || negb (Nat.eqb (nth 1 (shape edges) O) 2)
  then raise (ValueError "edges must be a Mx2 array")
  else
    let edges := filter (fun e => negb (nth 0 e 0 =? nth 1 e 0)) (rows edges) in
    let e0 := map (fun e => nth 0 e 0) edges in
    let e1 := map (fun e => nth 1 e 0) edges in
    weights <-
      (if euclidean_weight then
         (fix norms (es : list (list Z)) : M (list N) :=
            match es with
            | [] => ret []
            | e :: es' =>
                xs <- getitem (rows vertices) (nth 0 e 0) ;;
                ys <- getitem (rows vertices) (nth 1 e 0) ;;
                r <- norms es' ;;
                ret (linalg_norm (map (fun p : Z * Z => fst p - snd p) (combine xs ys)) :: r)
            end) edges
       else ret (map (fun _ => 1%N) edges)) ;;
    let '(row, col, weights) :=
      if directed then (e0, e1, weights)
      else (e0 ++ e1, e1 ++ e0, weights ++ weights) in
    csr_matrix weights row col (nth 0 (shape vertices) O).

End Spatial.

Definition norm1 (d : list Z) : N := Z.to_N (fold_right (fun x acc => Z.abs x + acc) 0 d).

(** ** Walks and distances (specification side) *)

(** [walk g s v l]: a walk of total weight [l] from [s] to [v] along
    undirected edges. *)
Inductive walk (g : csgraph) (s : nat) : nat -> Z -> Prop :=
| walk_here : (s < shape0 g)%nat -> walk g s s 0
| walk_edge : forall u v w l,
    walk g s u l -> In (v, w) (neighbors g u) -> walk g s v (l + Z.of_N w).

(** [d] is the exact distance from the nearest of [srcs] to [v]. *)
Definition shortest (g : csgraph) (srcs : list nat) (v : nat) (d : Z) : Prop :=
  (exists s, In s srcs /\ walk g s v d) /\
  (forall s l, In s srcs -> walk g s v l -> d <= l).

(** ** Invariant of the search *)

(** Time at which a vertex was scanned (0 when it was not). *)
Fixpoint scan_rank (scanned : list nat) (x : nat) : nat :=
  match scanned with
  | [] => O
  | y :: s => if Nat.eqb x y then S (length s) else scan_rank s x
  end.

Record search_inv (g : csgraph) (srcs : list nat) (limit : float64)
  (scanned : list nat) (nd : nodes) : Prop := {
  inv_nodup : NoDup scanned;
  inv_range : forall v d, val nd v = Some d -> (v < shape0 g)%nat;
  inv_scanned : forall u, In u scanned -> exists d, val nd u = Some d;
  inv_order : forall u x du dx,
      In u scanned -> ~ In x scanned ->
      val nd u = Some du -> val nd x = Some dx -> du <= dx;
  inv_closed : forall u v w du,
      In u scanned -> In (v, w) (neighbors g u) -> val nd u = Some du ->
      fle (Fin (du + Z.of_N w)) limit = true ->
      exists dv, val nd v = Some dv /\ dv <= du + Z.of_N w;
  inv_walk : forall v d,
      val nd v = Some d ->
      0 <= d /\ exists s, In s srcs /\ source nd v = Z.of_nat s /\ walk g s v d;
  inv_limit : forall v d,
      val nd v = Some d -> d = 0 \/ fle (Fin d) limit = true;
  inv_pred : forall v d,
      val nd v = Some d -> ~ In v srcs ->
      exists u w du,
        prd nd v = Z.of_nat u /\ In u scanned /\ In (v, w) (neighbors g u) /\
        val nd u = Some du /\ d = du + Z.of_N w /\ source nd v = source nd u /\
        (In v scanned -> (scan_rank scanned u < scan_rank scanned v)%nat);
  inv_src : forall s,
      In s srcs -> val nd s = Some 0 /\ prd nd s = NO_PRED /\ source nd s = Z.of_nat s;
  inv_none : forall v, val nd v = None -> prd nd v = NO_PRED /\ source nd v = NO_PRED
}.

Arguments inv_nodup {g srcs limit scanned nd} _.
Arguments inv_range {g srcs limit scanned nd} _ _ _ _.
Arguments inv_scanned {g srcs limit scanned nd} _ _ _.
Arguments inv_order {g srcs limit scanned nd} _ _ _ _ _ _ _ _ _.
Arguments inv_closed {g srcs limit scanned nd} _ _ _ _ _ _ _ _ _.
Arguments inv_walk {g srcs limit scanned nd} _ _ _ _.
Arguments inv_limit {g srcs limit scanned nd} _ _ _ _.
Arguments inv_pred {g srcs limit scanned nd} _ _ _ _ _.
Arguments inv_src {g srcs limit scanned nd} _ _ _.
Arguments inv_none {g srcs limit scanned nd} _ _ _.

(** What scanning the edges [es] of [u] does to the frontier. *)
Definition relaxed (limit : float64) (scanned : list nat) (u : nat) (du su : Z)
  (es : list (nat * N)) (nd0 nd : nodes) : Prop :=
  (forall x,
      (val nd x = val nd0 x /\ prd nd x = prd nd0 x /\ source nd x = source nd0 x) \/
      (~ In x scanned /\
       exists w, In (x, w) es /\ val nd x = Some (du + Z.of_N w) /\
                 prd nd x = Z.of_nat u /\ source nd x = su /\
                 fle (Fin (du + Z.of_N w)) limit = true /\
                 forall d0, val nd0 x = Some d0 -> du + Z.of_N w < d0)) /\
  (forall x w, In (x, w) es -> ~ In x scanned ->
               fle (Fin (du + Z.of_N w)) limit = true ->
               exists d, val nd x = Some d /\ d <= du + Z.of_N w) /\
  (forall x d0, val nd0 x = Some d0 -> exists d, val nd x = Some d /\ d <= d0).

(** ** Contract of the shortest-path provider

    What the rest of the development uses of a search from [srcs] with
    radius [limit]: exact distances within the radius, +inf beyond it,
    predecessors that step along an edge towards the sources, and the
    nearest-source attribution. *)
Record oracle_contract (g : csgraph) (srcs : list nat) (limit : float64)
  (ds : list float64) (pred src : list Z) : Prop := {
  oc_len_ds : length ds = shape0 g;
  oc_len_pred : length pred = shape0 g;
  oc_len_src : length src = shape0 g;
  oc_cell : forall v x, nth_error ds v = Some x -> x = PInf \/ exists d, x = Fin d;
  oc_sound : forall v d,
      nth_error ds v = Some (Fin d) ->
      shortest g srcs v d /\ (d = 0 \/ fle (Fin d) limit = true);
  oc_complete : forall v d,
      shortest g srcs v d -> fle (Fin d) limit = true ->
      nth_error ds v = Some (Fin d);
  oc_inf : forall v,
      nth_error ds v = Some PInf ->
      nth_error pred v = Some NO_PRED /\ nth_error src v = Some NO_PRED;
  oc_src : forall s,
      In s srcs ->
      nth_error ds s = Some (Fin 0) /\ nth_error pred s = Some NO_PRED /\
      nth_error src s = Some (Z.of_nat s);
  oc_far : forall v s l,
      nth_error ds v = Some PInf -> In s srcs -> walk g s v l ->
      fle (Fin l) limit = false;
  oc_pred : exists rank : nat -> nat,
      (forall v, (rank v <= shape0 g)%nat) /\
      forall v d,
        nth_error ds v = Some (Fin d) -> ~ In v srcs ->
        exists u w,
          nth_error pred v = Some (Z.of_nat u) /\ In (v, w) (neighbors g u) /\
          nth_error ds u = Some (Fin (d - Z.of_N w)) /\
          nth_error src v = nth_error src u /\ (rank u < rank v)%nat;
  oc_source : forall v d,
      nth_error ds v = Some (Fin d) ->
      exists s, In s srcs /\ nth_error src v = Some (Z.of_nat s) /\ walk g s v d
}.

Arguments oc_len_ds {g srcs limit ds pred src} _.
Arguments oc_len_pred {g srcs limit ds pred src} _.
Arguments oc_len_src {g srcs limit ds pred src} _.
Arguments oc_cell {g srcs limit ds pred src} _ _ _ _.
Arguments oc_sound {g srcs limit ds pred src} _ _ _ _.
Arguments oc_complete {g srcs limit ds pred src} _ _ _ _ _.
Arguments oc_inf {g srcs limit ds pred src} _ _ _.
Arguments oc_src {g srcs limit ds pred src} _ _ _.
Arguments oc_far {g srcs limit ds pred src} _ _ _ _ _ _ _.
Arguments oc_pred {g srcs limit ds pred src} _.
Arguments oc_source {g srcs limit ds pred src} _ _ _ _.

(** ** Specification vocabulary for the skeletonizer *)

Definition vertex (g : csgraph) (v : Z) : Prop := 0 <= v < Z.of_nat (shape0 g).

(** [a] and [b] are joined by an edge of the graph. *)
Definition edge (g : csgraph) (a b : Z) : Prop :=
  vertex g a /\ vertex g b /\ exists w, In (Z.to_nat b, w) (neighbors g (Z.to_nat a)).

(** Every consecutive pair of [p] is joined by an edge. *)
Fixpoint chain (g : csgraph) (p : list Z) : Prop :=
  match p with
  | a :: (b :: _) as tl => edge g a b /\ chain g tl
  | _ => True
  end.

(** [d] is the exact shortest-path distance between [a] and [b]. *)
Definition distance (g : csgraph) (a b : Z) (d : Z) : Prop :=
  vertex g a /\ vertex g b /\ shortest g [Z.to_nat a] (Z.to_nat b) d.

(** Vertex [i] lies within radius [r] of [a]. *)
Definition within (g : csgraph) (a : Z) (i : nat) (r : float64) : Prop :=
  vertex g a /\ exists l, walk g (Z.to_nat a) i l /\ fle (Fin l) r = true.

(** The list [p; pred[p]; pred[pred[p]]; ...; r] that [get_path] collects
    before reversing it. *)
Inductive follows (pred : list Z) (r : Z) : Z -> list Z -> Prop :=
| follows_stop : follows pred r r [r]
| follows_step : forall p p' l,
    p <> r -> np_get pred p = Some p' -> follows pred r p' l ->
    follows pred r p (p :: l).

(** The walk up the root's predecessor field to the first visited
    vertex, with its number of steps. *)
Inductive climbs (pred : list Z) (visited : list Z) : nat -> Z -> Z -> Prop :=
| climbs_stop : forall p, In p visited -> climbs pred visited O p p
| climbs_step : forall n p p' b,
    ~ In p visited -> np_get pred p = Some p' -> climbs pred visited n p' b ->
    climbs pred visited (S n) p b.

(** The intermediate values of one iteration of the loop. *)
Record iter_trace : Type := {
  it_target : Z;
  it_max_branch : Z;
  it_max_path_length : float64;
  it_ds : list float64;
  it_pred : list Z;
  it_branch : Z;
  it_path : list Z;
  it_length : float64;
  it_dm : list float64;
  it_sources : list Z
}.

(** [iteration_of ... st tr st']: the loop body run on [st] completes,
    computes the values of [tr] on the way and leaves [st']. *)
Definition iteration_of (fuel : nat) (g : csgraph) (root_ds : list float64)
  (root_pred : option (list Z)) (invalidation_d : float64)
  (st : teasar_state) (tr : iter_trace) (st' : teasar_state) : Prop :=
  select_target root_ds (valid st) = (Ok (it_target tr), O) /\
  find_max_branch fuel root_pred (visited_nodes st) (it_target tr)
    = (Ok (it_max_branch tr), O) /\
  (exists d_target d_branch,
      np_get root_ds (it_target tr) = Some d_target /\
      np_get root_ds (it_max_branch tr) = Some d_branch /\
      it_max_path_length tr = fsub d_target d_branch) /\
  (exists src, dijkstra g [it_target tr] (it_max_path_length tr)
               = (Ok (it_ds tr, it_pred tr, src), 1%nat)) /\
  (exists ds_visited min_node,
      take (it_ds tr) (visited_nodes st) = (Ok ds_visited, O) /\
      np_argmin ds_visited = Some min_node /\
      nth_error (visited_nodes st) min_node = Some (it_branch tr)) /\
  get_path fuel (it_target tr) (it_branch tr) (it_pred tr) = (Ok (it_path tr), O) /\
  np_get (it_ds tr) (it_branch tr) = Some (it_length tr) /\
  isinf (it_length tr) = false /\
  (exists pred_m, dijkstra g (it_path tr) invalidation_d
                  = (Ok (it_dm tr, pred_m, it_sources tr), 1%nat)) /\
  match mesh_to_skeleton st with
  | None => mesh_to_skeleton st' = None
  | Some (dist, map) =>
      exists r, update_map (it_dm tr) (it_sources tr) dist map = Some r /\
                mesh_to_skeleton st' = Some r
  end /\
  mask_assign (valid st) (map (fun d => negb (isinf d)) (it_dm tr)) false
    = Some (valid st') /\
  visited_nodes st' = visited_nodes st ++ removelast (it_path tr) /\
  paths st' = paths st ++ [it_path tr] /\
  path_lengths st' = path_lengths st ++ [it_length tr] /\
  k st' = S (k st).

(** States the loop passes through when started in [st0]. *)
Inductive reachable (fuel : nat) (g : csgraph) (root_ds : list float64)
  (root_pred : option (list Z)) (invalidation_d : float64) (st0 : teasar_state)
  : teasar_state -> Prop :=
| reach_init : reachable fuel g root_ds root_pred invalidation_d st0 st0
| reach_step : forall st st' q,
    reachable fuel g root_ds root_pred invalidation_d st0 st ->
    (0 < np_sum (valid st))%nat ->
    teasar_iteration fuel g root_ds root_pred invalidation_d st = (Ok st', q) ->
    reachable fuel g root_ds root_pred invalidation_d st0 st'.

(** The preconditions of the component skeletonizer: a well-formed graph,
    a root vertex with its exact distance and predecessor fields, a
    non-negative radius, and a mask of the right length whose vertices
    all have finite distance from the root. *)
Record teasar_pre (g : csgraph) (root : Z) (valid0 : list bool)
  (root_ds : list float64) (root_pred : list Z) (invalidation_d : float64) : Prop := {
  pre_wf : wf_csgraph g = true;
  pre_root : vertex g root;
  pre_field : exists src, oracle_contract g [Z.to_nat root] PInf root_ds root_pred src;
  pre_radius : fle (Fin 0) invalidation_d = true;
  pre_len : length valid0 = shape0 g;
  pre_reach : forall i, nth_error valid0 i = Some true ->
                        exists d, nth_error root_ds i = Some (Fin d)
}.

Arguments pre_wf {g root valid0 root_ds root_pred invalidation_d} _.
Arguments pre_root {g root valid0 root_ds root_pred invalidation_d} _.
Arguments pre_field {g root valid0 root_ds root_pred invalidation_d} _.
Arguments pre_radius {g root valid0 root_ds root_pred invalidation_d} _.
Arguments pre_len {g root valid0 root_ds root_pred invalidation_d} _.
Arguments pre_reach {g root valid0 root_ds root_pred invalidation_d} _ _ _.

(** What a completed iteration establishes on a well-formed graph. *)
Record iter_facts (g : csgraph) (invalidation_d : float64) (st : teasar_state)
  (tr : iter_trace) : Prop := {
  if_target : vertex g (it_target tr);
  if_branch : In (it_branch tr) (visited_nodes st);
  if_search : exists src,
      oracle_contract g [Z.to_nat (it_target tr)] (it_max_path_length tr)
        (it_ds tr) (it_pred tr) src;
  if_length : exists d,
      it_length tr = Fin d /\
      nth_error (it_ds tr) (Z.to_nat (it_branch tr)) = Some (Fin d);
  if_nearest : forall v x,
      In v (visited_nodes st) -> nth_error (it_ds tr) (Z.to_nat v) = Some x ->
      fle (it_length tr) x = true;
  if_follows : exists l,
      follows (it_pred tr) (it_target tr) (it_branch tr) l /\ it_path tr = rev l;
  if_path_range : Forall (vertex g) (it_path tr);
  if_chain : chain g (it_path tr);
  if_sweep : exists pred_m,
      oracle_contract g (map Z.to_nat (it_path tr)) invalidation_d
        (it_dm tr) pred_m (it_sources tr)
}.

Arguments if_target {g invalidation_d st tr} _.
Arguments if_branch {g invalidation_d st tr} _.
Arguments if_search {g invalidation_d st tr} _.
Arguments if_length {g invalidation_d st tr} _.
Arguments if_nearest {g invalidation_d st tr} _ _ _ _ _.
Arguments if_follows {g invalidation_d st tr} _.
Arguments if_path_range {g invalidation_d st tr} _.
Arguments if_chain {g invalidation_d st tr} _.
Arguments if_sweep {g invalidation_d st tr} _.

(** Vertex [i] is within the invalidation radius of a vertex of a
    recorded path. *)
Definition covered (g : csgraph) (invalidation_d : float64) (ps : list (list Z))
  (i : nat) : Prop :=
  exists p u, In p ps /\ In u p /\ within g u i invalidation_d.

(** A recorded path with its recorded length: consecutive vertices are
    joined by edges, and the length is the exact distance between its
    first vertex and its last vertex. *)
Definition path_ok (g : csgraph) (p : list Z) (len : float64) : Prop :=
  chain g p /\
  exists t b d l, p = t :: l /\ last p t = b /\ len = Fin d /\ distance g t b d.

(** Invariant of the loop under the preconditions [teasar_pre]. *)
Record good_state (g : csgraph) (root : Z) (root_ds : list float64)
  (st : teasar_state) : Prop := {
  gs_len : length (valid st) = shape0 g;
  gs_visited : Forall (vertex g) (visited_nodes st);
  gs_root : In root (visited_nodes st);
  gs_reach : forall i, nth_error (valid st) i = Some true ->
                       exists d, nth_error root_ds i = Some (Fin d);
  gs_zero : forall i, nth_error (valid st) i = Some true ->
                      nth_error root_ds i = Some (Fin 0) -> paths st = [];
  gs_first : paths st = [] -> visited_nodes st = [root];
  gs_mesh : forall dist map,
      mesh_to_skeleton st = Some (dist, map) ->
      length dist = shape0 g /\ length map = shape0 g
}.

Arguments gs_len {g root root_ds st} _.
Arguments gs_visited {g root root_ds st} _.
Arguments gs_root {g root root_ds st} _.
Arguments gs_reach {g root root_ds st} _ _ _.
Arguments gs_zero {g root root_ds st} _ _ _ _.
Arguments gs_first {g root root_ds st} _ _.
Arguments gs_mesh {g root root_ds st} _ _ _ _.

(** Invariant of the loop when the weights are positive and the root is
    invalid on entry: visited vertices are invalid and pairwise distinct,
    and every recorded path has two distinct vertices. *)
Record distinct_state (st : teasar_state) : Prop := {
  ds_invalid : forall v, In v (visited_nodes st) ->
                         nth_error (valid st) (Z.to_nat v) = Some false;
  ds_nodup : NoDup (visited_nodes st);
  ds_paths : forall p, In p (paths st) -> exists a b, In a p /\ In b p /\ a <> b
}.

Arguments ds_invalid {st} _ _ _.
Arguments ds_nodup {st} _.
Arguments ds_paths {st} _ _ _.

(** The vertices of the recorded paths: the sources of all sweeps. *)
Definition path_vertices (ps : list (list Z)) : list nat := map Z.to_nat (concat ps).

(** One entry of the vertex-to-skeleton map against the recorded paths:
    either no path vertex is within the radius and the entry is still
    (+inf, NaN), or the entry holds the exact distance to the nearest path
    vertex and a path vertex at that distance. *)
Definition map_entry_ok (g : csgraph) (invalidation_d : float64) (ps : list (list Z))
  (i : nat) (x m : float64) : Prop :=
  (x = PInf /\ m = NaN /\
   forall s l, In s (path_vertices ps) -> walk g s i l -> fle (Fin l) invalidation_d = false) \/
  (exists d u,
      x = Fin d /\ m = Fin u /\ shortest g (path_vertices ps) i d /\
      fle (Fin d) invalidation_d = true /\
      In u (concat ps) /\ vertex g u /\ walk g (Z.to_nat u) i d).

Definition map_state (g : csgraph) (invalidation_d : float64) (st : teasar_state) : Prop :=
  exists dist map,
    mesh_to_skeleton st = Some (dist, map) /\
    length dist = shape0 g /\ length map = shape0 g /\
    forall i x m, nth_error dist i = Some x -> nth_error map i = Some m ->
                  map_entry_ok g invalidation_d (paths st) i x m.

(** How one sweep changes an entry: not at all, or to the sweep's
    distance and source when that distance is strictly smaller. *)
Definition entry_update (tr : iter_trace) (i : nat) (x m x' m' : float64) : Prop :=
  (x' = x /\ m' = m) \/
  (exists d s,
      nth_error (it_dm tr) i = Some (Fin d) /\ nth_error (it_sources tr) i = Some s /\
      flt (Fin d) x = true /\ x' = Fin d /\ m' = Fin s).

(** ** Concrete inputs used by the examples *)

(** Two vertices joined by one edge of weight 1. *)
Definition edge_graph : csgraph := undirected 2 1 [(0, 1)]%nat.

(** A single vertex without edges. *)
Definition single_vertex_graph : csgraph := undirected 1 1 [].

(** Two vertices and no edge. *)
Definition two_isolated : csgraph := undirected 2 1 [].

(** The unit square seen from root 0: distance and predecessor fields,
    and the mask of all vertices but the root. *)
Definition square_root_ds : list float64 :=
  fst (fst (dijkstra_arrays square_graph [0%nat] PInf)).

Definition square_root_pred : list Z :=
  snd (fst (dijkstra_arrays square_graph [0%nat] PInf)).

Definition square_valid : list bool := [false; true; true; true].

Definition square_start : teasar_state :=
  initial_state 0 square_valid (mesh_init square_graph true).

(** The state after the first iteration on the unit square. *)
Definition square_after_one : teasar_state :=
  match fst (teasar_iteration 4 square_graph square_root_ds (Some square_root_pred)
               (Fin 1) square_start) with
  | Ok st => st
  | _ => square_start
  end.

(** The line with two side branches seen from root 0. *)
Definition branches_valid : list bool :=
  map (fun v => negb (Nat.eqb v 0)) (seq 0 17).

Definition branches_paths : list (list Z) :=
  [[10; 9; 8; 7; 6; 5; 4; 3; 2; 1; 0]; [16; 15; 14; 5]; [13; 12; 11; 2]].

(** A vertex array of shape 2x1 and an edge array of shape 2x2 holding
    the self-loop (0,0) and the edge (0,1). *)
Definition two_points : ndarray := {| shape := [2; 1]%nat; data := [0; 1] |}.

Definition loop_and_edge : ndarray := {| shape := [2; 2]%nat; data := [0; 0; 0; 1] |}.

(** ** Skeleton structure *)

(** Every recorded path is non-empty and ends on the root or on a vertex
    of a path recorded before it. *)
Definition attached (root : Z) (ps : list (list Z)) : Prop :=
  forall i p, nth_error ps i = Some p ->
              exists t l, p = t :: l /\ In (last p t) (root :: concat (firstn i ps)).

(** ** One sweep of the root finder *)

(** The body of the [while 1] loop of [find_far_points_graph] up to its
    comparison: the masked distances from [current_root], the
    predecessors, the farthest index and its distance. *)
Definition far_sweep (mesh_graph : csgraph) (valid : list bool) (current_root : Z)
  : M (list float64 * list Z * nat * float64) :=
  '(dist_to_current, predn, _) <- dijkstra mesh_graph [current_root] PInf ;;
  dist_to_current <- lift (mask_assign dist_to_current (map negb valid) (Fin (-1)))
                          IndexError ;;
  far_from_current <- lift (np_argmax dist_to_current)
                           (ValueError "attempt to get argmax of an empty sequence") ;;
  current_distance <- getitem dist_to_current (Z.of_nat far_from_current) ;;
  ret (dist_to_current, predn, far_from_current, current_distance).

(** A predecessor array with a chain 2 -> 1 -> 0. *)
Definition chain_pred : list Z := [-9999; 0; 1].

(** What [find_far_points_graph] knows when it enters its loop with the
    variables [best_root], [current_root], [pred], [max_observed_distance]
    and [dist_to_root]: before the first sweep nothing, afterwards the
    arrays of the sweep from [best_root], in which [current_root] is a
    farthest valid vertex. *)
Definition far_state (g : csgraph) (valid : list bool) (best_root current_root : Z)
  (pred : option (list Z)) (max_observed_distance : float64)
  (dist_to_root : option (list float64)) : Prop :=
  vertex g current_root /\ nth_error valid (Z.to_nat current_root) = Some true /\
  ((pred = None /\ dist_to_root = None /\ best_root = current_root /\
    max_observed_distance = Fin 0) \/
   (exists raw p src dc,
       dijkstra g [best_root] PInf = (Ok (raw, p, src), 1%nat) /\
       pred = Some p /\ dist_to_root = Some dc /\
       mask_assign raw (map negb valid) (Fin (-1)) = Some dc /\
       np_get dc current_root = Some max_observed_distance /\
       (forall x, In x dc -> fle x max_observed_distance = true) /\
       vertex g best_root /\ nth_error valid (Z.to_nat best_root) = Some true /\
       flt (Fin 0) max_observed_distance = true)).

(** ** utils.py: from paths to a spatial skeleton *)

Fixpoint mapM {A B : Type} (f : A -> M B) (l : list A) : M (list B) :=
  match l with
  | [] => ret []
  | a :: l' =>
      b <- f a ;;
      bs <- mapM f l' ;;
      ret (b :: bs)
  end.

(** [np.vstack((x, y)).T] for two one-dimensional arrays: the rows
    [(x[i], y[i])]; the two lengths must agree. *)
Definition vstack_pair_T (x y : list Z) : M ndarray :=
  if Nat.eqb (length x) (length y)
  then ret {| shape := [length x; 2]%nat;
              data := flat_map (fun p : Z * Z => [fst p; snd p]) (combine x y) |}
  else raise (ValueError "all the input array dimensions except for the concatenation axis must match exactly").

(** [np.atleast_2d]. *)
Definition atleast_2d (a : ndarray) : ndarray :=
  match shape a with
  | [] => {| shape := [1; 1]%nat; data := data a |}
  | [n] => {| shape := [1; n]%nat; data := data a |}
  | _ => a
  end.

Definition shape_eqb (s1 s2 : list nat) : bool :=
  Nat.eqb (length s1) (length s2) &&
  forallb (fun p : nat * nat => Nat.eqb (fst p) (snd p)) (combine s1 s2).

(** [np.vstack(arrays)]: the arrays are stacked along their first axis;
    the other axes must agree, and an empty sequence is an error.  The
    dtype of the result is not modelled. *)
Definition np_vstack (arrays : list ndarray) : M ndarray :=
  match map atleast_2d arrays with
  | [] => raise (ValueError "need at least one array to concatenate")
  | a :: rest =>
      if forallb (fun b => shape_eqb (tl (shape b)) (tl (shape a))) rest
      then ret {| shape := fold_right (fun b n => (nth 0 (shape b) O + n)%nat) O (a :: rest)
                           :: tl (shape a);
                  data := flat_map data (a :: rest) |}
      else raise (ValueError "all the input array dimensions except for the concatenation axis must match exactly")
  end.

(** [paths_to_edges]: each path [p] gives the array of its consecutive
    pairs, [np.vstack((p[0:-1], p[1:])).T]. *)
Definition paths_to_edges (path_list : list (list Z)) : M ndarray :=
  arrays <- mapM (fun path => vstack_pair_T (removelast path) (tl path)) path_list ;;
  np_vstack arrays.

Definition all_paths_to_edges (all_paths : list (list (list Z))) : M ndarray :=
  all_edges <- mapM paths_to_edges all_paths ;;
  if Nat.ltb 0 (length all_edges) then np_vstack all_edges
  else raise (ValueError "No edges found!").

(** [np.unique] of a flat integer array: its distinct values in
    increasing order. *)
Fixpoint insert_sorted (x : Z) (l : list Z) : list Z :=
  match l with
  | [] => [x]
  | y :: l' =>
      if x <? y then x :: l
      else if x =? y then l
      else y :: insert_sorted x l'
  end.

Definition np_unique (l : list Z) : list Z := fold_right insert_sorted [] l.

(** [np.searchsorted(a, v)] on a sorted array: the first index whose
    cell is not below [v]. *)
Fixpoint searchsorted (a : list Z) (v : Z) : nat :=
  match a with
  | [] => O
  | y :: a' => if v <=? y then O else S (searchsorted a' v)
  end.

(** [a[idx, :]]: the listed blocks of the first axis; the array needs at
    least two axes and every index must be in range. *)
Definition take_rows (a : ndarray) (idx : list Z) : M ndarray :=
  match shape a with
  | n :: (_ :: _) as rest =>
      let K := fold_right Nat.mul 1%nat rest in
      blocks <- mapM (fun i => k <- lift (np_index n i) IndexError ;;
                               ret (firstn K (skipn (k * K) (data a)))) idx ;;
      ret {| shape := length idx :: rest; data := concat blocks |}
  | _ => raise IndexError
  end.

(** [reduce_verts]: the vertices that [faces] uses, and [faces]
    re-indexed into them. *)
Definition reduce_verts (verts faces : ndarray) : M (ndarray * ndarray * list Z) :=
  let used_verts := np_unique (data faces) in
  new_verts <- take_rows verts used_verts ;;
  if Nat.ltb (ndim faces) 2 then raise IndexError
  else
    let new_face := {| shape := shape faces;
                       data := map (fun v => Z.of_nat (searchsorted used_verts v))
                                   (data faces) |} in
    ret (new_verts, new_face, used_verts).

Definition create_spatial_skeleton (all_paths : list (list (list Z))) (vertices : ndarray)
  : M (ndarray * ndarray * list Z) :=
  all_edges <- all_paths_to_edges all_paths ;;
  reduce_verts vertices all_edges.

(** An array whose data fill its shape. *)
Definition wf_ndarray (a : ndarray) : Prop :=
  length (data a) = fold_right Nat.mul 1%nat (shape a).

(** Row [i] of a two-dimensional array. *)
Definition row (a : ndarray) (i : nat) : list Z :=
  firstn (nth 1 (shape a) O) (skipn (i * nth 1 (shape a) O) (data a)).

(** The pairs of consecutive vertices of a path, and the array whose
    rows are the pairs of a list. *)
Definition path_pairs (p : list Z) : list (Z * Z) := combine (removelast p) (tl p).

Definition pair_rows (es : list (Z * Z)) : ndarray :=
  {| shape := [length es; 2]%nat;
     data := flat_map (fun ab : Z * Z => [fst ab; snd ab]) es |}.

(** ** The driver graph_teasar *)

(** [n_components] as [sparse.csgraph.connected_components] returns it
    with the labels [0 .. n_components - 1]. *)
Definition count_components (labels : list nat) : nat :=
  match labels with
  | [] => O
  | _ => S (fold_right Nat.max O labels)
  end.

(** [valid[root] = False]. *)
Definition clear_at (valid : list bool) (root : Z) : M (list bool) :=
  i <- lift (np_index (length valid) root) IndexError ;;
  ret (firstn i valid ++ false :: skipn (S i) valid).

(** [mesh_to_skeleton_map[~np.isnan(single)] = single[~np.isnan(single)]]. *)
Definition merge_map (mesh_to_skeleton_map single : list float64) : M (list float64) :=
  if Nat.eqb (length mesh_to_skeleton_map) (length single)
  then ret (map (fun p : float64 * float64 => if isnan (snd p) then fst p else snd p)
                (combine mesh_to_skeleton_map single))
  else raise IndexError.

Definition teasar_output : Type :=
  (list (list (list Z)) * list Z * list (list float64) * option (list float64))%type.

(** The body of [for k in range(n_components)]. *)
Definition graph_teasar_body (fuel : nat) (csgraph : csgraph) (root_index : option Z)
  (root_function : root_function) (invalidation_d : float64) (cc_vertex_thresh : Z)
  (return_map : bool) (labels comp_counts : list nat) (acc : teasar_output) (k : nat)
  : M teasar_output :=
  let '(all_paths, roots, tot_path_lengths, mesh_to_skeleton_map) := acc in
  if Z.of_nat (nth k comp_counts O) >? cc_vertex_thresh then
    let mask := map (Nat.eqb k) labels in
    '(root, pred, root_ds, valid) <-
      match root_index with
      | Some root =>
          l <- getitem labels root ;;
          if Nat.eqb l k then
            '(root_ds, pred, _) <- dijkstra csgraph [root] PInf ;;
            ret (root, Some pred, Some root_ds, mask)
          else root_function csgraph (Some mask)
      | None => root_function csgraph (Some mask)
      end ;;
    valid <- clear_at valid root ;;
    '(paths, path_lengths, single) <-
      graph_teasar_component fuel csgraph (Some root) (Some valid) root_ds pred
        (find_graph_root fuel) invalidation_d return_map ;;
    mesh_to_skeleton_map <-
      match mesh_to_skeleton_map, single with
      | Some m, Some s => r <- merge_map m s ;; ret (Some r)
      | m, _ => ret m
      end ;;
    if Nat.ltb 0 (length path_lengths)
    then ret (all_paths ++ [paths], roots ++ [root], tot_path_lengths ++ [path_lengths],
              mesh_to_skeleton_map)
    else ret (all_paths, roots, tot_path_lengths, mesh_to_skeleton_map)
  else ret acc.

Fixpoint graph_teasar_loop (fuel : nat) (csgraph : csgraph) (root_index : option Z)
  (root_function : root_function) (invalidation_d : float64) (cc_vertex_thresh : Z)
  (return_map : bool) (labels comp_counts : list nat) (ks : list nat) (acc : teasar_output)
  : M teasar_output :=
  match ks with
  | [] => ret acc
  | k :: ks' =>
      acc' <- graph_teasar_body fuel csgraph root_index root_function invalidation_d
                cc_vertex_thresh return_map labels comp_counts acc k ;;
      graph_teasar_loop fuel csgraph root_index root_function invalidation_d
        cc_vertex_thresh return_map labels comp_counts ks' acc'
  end.

Definition graph_teasar (fuel : nat) (csgraph : csgraph) (root_index : option Z)
  (root_function : root_function) (invalidation_d : float64) (cc_vertex_thresh : Z)
  (return_map : bool) : M teasar_output :=
  let n_vertices := n_vertices csgraph in
  labels <- connected_components csgraph ;;
  let n_components := count_components labels in
  let comp_counts := map (fun l => count_occ Nat.eq_dec labels l) (seq 0 n_components) in
  let mesh_to_skeleton_map := if return_map then Some (repeat NaN n_vertices) else None in
  graph_teasar_loop fuel csgraph root_index root_function invalidation_d cc_vertex_thresh
    return_map labels comp_counts (seq 0 n_components) ([], [], [], mesh_to_skeleton_map).

(** The second graph of the test-suite: the unit square and a separate
    edge. *)
Definition square_and_edge : csgraph :=
  undirected 6 1 [(0, 1); (1, 2); (2, 3); (3, 0); (4, 5)]%nat.

(** One entry of the driver's result: the root of a component with its
    paths and their lengths. *)
Definition skeleton_ok (g : csgraph) (root : Z) (paths : list (list Z))
  (lens : list float64) : Prop :=
  vertex g root /\ paths <> [] /\ attached root paths /\ Forall2 (path_ok g) paths lens.

(** Labels that are constant along edges. *)
Definition labels_closed (g : csgraph) (L : list (option nat)) : Prop :=
  length L = shape0 g /\
  forall x y w c, In (y, w) (neighbors g x) ->
                  nth_error L x = Some (Some c) -> nth_error L y = Some (Some c).

(** The coordinates of the unit square and the edge array of the path
    3 - 1 - 0. *)
Definition square_points : ndarray :=
  {| shape := [4; 2]%nat; data := [0; 0; 0; 1; 1; 1; 1; 0] |}.

Definition edges_310 : ndarray := {| shape := [2; 2]%nat; data := [3; 1; 1; 0] |}.

(** Invariant of the driver's loop over the components: the three
    result lists run in parallel, every entry is a skeleton hanging from
    its root, and the components handled so far that pass the size
    threshold and have more than one vertex are covered. *)
Definition driver_inv (g : csgraph) (invalidation_d : float64) (cc_vertex_thresh : Z)
  (labels comp_counts : list nat) (acc : teasar_output) (done : list nat) : Prop :=
  let '(all_paths, roots, tot_path_lengths, _) := acc in
  length all_paths = length roots /\ length tot_path_lengths = length roots /\
  (forall i root, nth_error roots i = Some root ->
                  exists paths lens,
                    nth_error all_paths i = Some paths /\
                    nth_error tot_path_lengths i = Some lens /\
                    skeleton_ok g root paths lens) /\
  (forall k v u, In k done -> cc_vertex_thresh < Z.of_nat (nth k comp_counts O) ->
                 nth_error labels v = Some k -> nth_error labels u = Some k -> u <> v ->
                 exists paths, In paths all_paths /\ covered g invalidation_d paths v).

(** One component with the single path 3 - 1 - 0. *)
Definition paths_310 : list (list (list Z)) := [[[3; 1; 0]]].

(** Second invariant of the driver's loop: the recorded roots lie in
    pairwise different components among those handled so far, and every
    entry of the vertex-to-skeleton map is either empty, no vertex of a
    recorded path lying within the invalidation radius, or names a
    vertex of a recorded path within the radius. *)
Definition driver_inv2 (g : csgraph) (root_index : option Z) (invalidation_d : float64)
  (return_map : bool) (labels : list nat) (acc : teasar_output) (done : list nat) : Prop :=
  let '(all_paths, roots, _, mesh_to_skeleton_map) := acc in
  (return_map = false -> mesh_to_skeleton_map = None) /\
  (exists ks, NoDup ks /\ (forall k, In k ks -> In k done) /\
              Forall2 (fun root k =>
                         nth_error labels (Z.to_nat root) = Some k /\
                         forall r, root_index = Some r ->
                                   nth_error labels (Z.to_nat r) = Some k -> root = r)
                      roots ks) /\
  forall m, mesh_to_skeleton_map = Some m ->
            length m = shape0 g /\
            forall i x, nth_error m i = Some x ->
                        (x = NaN /\
                         forall paths p u, In paths all_paths -> In p paths -> In u p ->
                                           ~ within g u i invalidation_d) \/
                        exists u paths p, x = Fin u /\ In paths all_paths /\ In p paths /\
                                          In u p /\ within g u i invalidation_d.

(** ** find_root.connected_component_slice with its arguments *)

(** The two forms of the result: the boolean mask ([return_boolean=True])
    or the indices of its true cells. *)
Inductive component_slice : Type :=
| SliceMask : list bool -> component_slice
| SliceIndices : list Z -> component_slice.

(** [np.flatnonzero] of a boolean array. *)
Definition np_flatnonzero (a : list bool) : list Z :=
  map Z.of_nat (filter (fun i => nth i a false) (seq 0 (length a))).

(** [connected_component_slice(G, ind, return_boolean)]; the labels are
    [0 .. n_components - 1], so [np.unique(labels)] is that range. *)
Definition connected_component_slice_ind (G : csgraph) (ind : option Z)
  (return_boolean : bool) : M component_slice :=
  labels <- connected_components G ;;
  label <- match ind with
           | None =>
               let label_vals := seq 0 (count_components labels) in
               let cnt := map (fun l => Fin (Z.of_nat (count_occ Nat.eq_dec labels l)))
                              label_vals in
               ind <- lift (np_argmax cnt)
                           (ValueError "attempt to get argmax of an empty sequence") ;;
               getitem label_vals (Z.of_nat ind)
           | Some ind => getitem labels ind
           end ;;
  let mask := map (Nat.eqb label) labels in
  ret (if return_boolean then SliceMask mask else SliceIndices (np_flatnonzero mask)).

(** ** skeletonize_mesh.find_neuron_root *)

(** [np.nanargmin]: NaN cells are replaced by +inf; an all-NaN array
    raises ValueError. *)
Definition np_nanargmin (a : list float64) : option nat :=
  if forallb isnan a then None
  else np_argmin (map (fun x => if isnan x then PInf else x) a).

(** [a[mask]] for a boolean mask: lengths must agree. *)
Definition np_select {A} (a : list A) (mask : list bool) : option (list A) :=
  if Nat.eqb (length a) (length mask)
  then Some (map fst (filter snd (combine a mask)))
  else None.

(** [find_neuron_root(csgraph, valid, is_soma_pt, soma_d)]; it returns
    [root, root_ds, pred, temp_valid].  With [valid=None] the mask is
    [np.ones(n_vertices, np.bool)], read with [np.bool] naming the
    boolean type. *)
Definition find_neuron_root (fuel : nat) (csgraph : csgraph) (valid : option (list bool))
  (is_soma_pt : option (list bool)) (soma_d : option (list float64))
  : M (Z * list float64 * option (list Z) * list bool) :=
  let n_vertices := n_vertices csgraph in
  let temp_valid := match valid with
                    | Some valid => valid
                    | None => repeat true n_vertices
                    end in
  if negb (Nat.eqb (length temp_valid) n_vertices) then raise AssertionError
  else
    '(root, pred, root_ds, temp_valid) <-
       match is_soma_pt with
       | Some is_soma_pt =>
           match soma_d with
           | None => raise TypeError
           | Some soma_d =>
               if negb (Nat.eqb (length soma_d) n_vertices) then raise AssertionError
               else if negb (Nat.eqb (length is_soma_pt) n_vertices) then raise AssertionError
               else
                 is_valid_root <- lift (broadcast2 andb is_soma_pt temp_valid)
                                       broadcast_error ;;
                 let valid_root_inds := np_flatnonzero is_valid_root in
                 '(root, pred, root_ds, temp_valid) <-
                    (if Nat.ltb 0 (length valid_root_inds) then
                       ds <- take soma_d valid_root_inds ;;
                       min_valid_root <- lift (np_nanargmin ds)
                                              (ValueError "All-NaN slice encountered") ;;
                       root <- lift (nth_error valid_root_inds min_valid_root) IndexError ;;
                       '(root_ds, pred, _) <- dijkstra csgraph [root] PInf ;;
                       ret (root, Some pred, Some root_ds, temp_valid)
                     else find_graph_root fuel csgraph (Some temp_valid)) ;;
                 temp_valid <- lift (mask_assign temp_valid is_soma_pt false) IndexError ;;
                 ret (root, pred, root_ds, temp_valid)
           end
       | None =>
           '(root, _, pred, _, root_ds) <-
              find_far_points_graph fuel csgraph (Some temp_valid) ;;
           ret (root, pred, root_ds, temp_valid)
       end ;;
    temp_valid <- clear_at temp_valid root ;;
    match root_ds with
    | None => raise TypeError
    | Some root_ds =>
        reached <- lift (np_select root_ds temp_valid) IndexError ;;
        if existsb isinf reached then raise AssertionError
        else ret (root, root_ds, pred, temp_valid)
    end.

(** The path graph 0 - 1 - 2 with unit weights. *)
Definition path_graph_3 : csgraph := undirected 3 1 [(0, 1); (1, 2)]%nat.

(** ** binary64 arithmetic

    The definitions above add and subtract cells exactly.  The Python
    code adds and subtracts float64 values: [scipy]'s search accumulates
    [v.val + csr_weights[j]] in doubles and the loop of
    [graph_teasar_component] subtracts two cells of [root_ds].  On
    integer-valued cells the result of such an operation is the exact
    result rounded to the nearest integer with a 53-bit significand, ties
    to the even significand, and an infinity from 2^1024 on.  Module
    [B64] repeats, with this arithmetic, every function above that adds,
    subtracts or calls the search; functions that only compare, index or
    copy cells are shared. *)

(** The nearest binary64 value of an integer. *)
Definition round64 (z : Z) : float64 :=
  let a := Z.abs z in
  if a <? 2 ^ 53 then Fin z
  else
    let e := Z.log2 a - 52 in
    let q := a / 2 ^ e in
    let r := a mod 2 ^ e in
    let half := 2 ^ (e - 1) in
    let q' := if r <? half then q
              else if half <? r then q + 1
              else if Z.even q then q else q + 1 in
    let m := q' * 2 ^ e in
    if m <? 2 ^ 1024 then Fin (Z.sgn z * m)
    else if z <? 0 then NInf else PInf.

(** The largest stored weight, and the graphs on which no sum of at most
    [N] weights needs rounding. *)
Definition max_weight (g : csgraph) : Z :=
  fold_right (fun e m => Z.max (Z.of_N (snd e)) m) 0 (entries g).

Definition small_weights (g : csgraph) : bool :=
  Z.of_nat (shape0 g) * max_weight g <? 2 ^ 52.

(** Cells whose differences need no rounding. *)
Definition in_range (x : float64) : bool :=
  match x with
  | Fin d => Z.abs d <? 2 ^ 52
  | _ => true
  end.

(** An undirected graph with a weight of its own on every edge. *)
Definition weighted_graph (n : nat) (es : list (nat * nat * N)) : csgraph :=
  {| shape0 := n; shape1 := n;
     entries := es ++ map (fun e => (snd (fst e), fst (fst e), snd e)) es |}.

Module B64.

Definition fadd (x y : float64) : float64 :=
  match x, y with
  | NaN, _ | _, NaN => NaN
  | Fin a, Fin b => round64 (a + b)
  | PInf, NInf | NInf, PInf => NaN
  | PInf, _ | _, PInf => PInf
  | NInf, _ | _, NInf => NInf
  end.

Definition fsub (x y : float64) : float64 :=
  match x, y with
  | NaN, _ | _, NaN => NaN
  | Fin a, Fin b => round64 (a - b)
  | PInf, PInf | NInf, NInf => NaN
  | PInf, _ => PInf
  | NInf, _ => NInf
  | Fin _, PInf => NInf
  | Fin _, NInf => PInf
  end.

(** *** The shortest-path provider *)

Record nodes : Type := {
  val : nat -> option float64;
  prd : nat -> Z;
  source : nat -> Z
}.

Definition touch (nd : nodes) (v : nat) (d : float64) (p s : Z) : nodes :=
  {| val := fun x => if Nat.eqb x v then Some d else val nd x;
     prd := fun x => if Nat.eqb x v then p else prd nd x;
     source := fun x => if Nat.eqb x v then s else source nd x |}.

(** [next_val = v.val + csr_weights[j]] is a double, and so is the stored
    weight. *)
Definition scan_edge (limit : float64) (scanned : list nat) (u : nat) (du : float64)
  (su : Z) (nd : nodes) (e : nat * N) : nodes :=
  let '(v, w) := e in
  if is_scanned scanned v then nd
  else
    let next_val := fadd du (round64 (Z.of_N w)) in
    if fle next_val limit then
      match val nd v with
      | None => touch nd v next_val (Z.of_nat u) su
      | Some dv => if flt next_val dv then touch nd v next_val (Z.of_nat u) su else nd
      end
    else nd.

Fixpoint min_node (vals : nat -> option float64) (cands : list nat)
  (best : option (nat * float64)) : option (nat * float64) :=
  match cands with
  | [] => best
  | v :: cs =>
      match vals v with
      | None => min_node vals cs best
      | Some d =>
          match best with
          | Some (_, bd) =>
              if flt d bd then min_node vals cs (Some (v, d)) else min_node vals cs best
          | None => min_node vals cs (Some (v, d))
          end
      end
  end.

Definition remove_min (n : nat) (scanned : list nat) (nd : nodes)
  : option (nat * float64) :=
  min_node (val nd) (filter (fun v => negb (is_scanned scanned v)) (seq 0 n)) None.

Fixpoint dijkstra_loop (fuel : nat) (g : csgraph) (limit : float64)
  (scanned : list nat) (nd : nodes) : list nat * nodes :=
  match fuel with
  | O => (scanned, nd)
  | S fuel' =>
      match remove_min (shape0 g) scanned nd with
      | None => (scanned, nd)
      | Some (u, du) =>
          let scanned' := u :: scanned in
          dijkstra_loop fuel' g limit scanned'
            (fold_left (scan_edge limit scanned' u du (source nd u)) (neighbors g u) nd)
      end
  end.

Definition init_nodes (srcs : list nat) : nodes :=
  {| val := fun v => if existsb (Nat.eqb v) srcs then Some (Fin 0) else None;
     prd := fun _ => NO_PRED;
     source := fun v => if existsb (Nat.eqb v) srcs then Z.of_nat v else NO_PRED |}.

Definition dist_cell (o : option float64) : float64 :=
  match o with Some d => d | None => PInf end.

Definition dijkstra_arrays (g : csgraph) (srcs : list nat) (limit : float64)
  : list float64 * list Z * list Z :=
  let n := shape0 g in
  let nd := snd (dijkstra_loop n g limit [] (init_nodes srcs)) in
  (map (fun v => dist_cell (val nd v)) (seq 0 n),
   map (prd nd) (seq 0 n),
   map (source nd) (seq 0 n)).

Definition dijkstra (g : csgraph) (indices : list Z) (limit : float64)
  : M (list float64 * list Z * list Z) :=
  if negb (Nat.eqb (shape0 g) (shape1 g))
  then raise (ValueError "compressed-sparse graph must be shape (N, N)")
  else if negb (forallb (index_ok (shape0 g)) indices)
  then raise (ValueError "indices out of range 0...N")
  else if flt limit (Fin 0)
  then raise (ValueError "limit must be >= 0")
  else (Ok (dijkstra_arrays g (map (fun i => Z.to_nat (norm_index (shape0 g) i)) indices) limit),
        1%nat).

(** *** find_root.py *)

Fixpoint far_points_loop (fuel : nat) (mesh_graph : csgraph) (valid : list bool)
  (best_root current_root : Z) (pred : option (list Z))
  (max_observed_distance : float64) (dist_to_root : option (list float64))
  : M far_points_result :=
  match fuel with
  | O => diverge
  | S fuel' =>
      '(dist_to_current, predn, _) <- dijkstra mesh_graph [current_root] PInf ;;
      dist_to_current <- lift (mask_assign dist_to_current (map negb valid) (Fin (-1)))
                              IndexError ;;
      far_from_current <- lift (np_argmax dist_to_current)
                               (ValueError "attempt to get argmax of an empty sequence") ;;
      current_distance <- getitem dist_to_current (Z.of_nat far_from_current) ;;
      if flt max_observed_distance current_distance
      then far_points_loop fuel' mesh_graph valid current_root (Z.of_nat far_from_current)
             (Some predn) current_distance (Some dist_to_current)
      else ret (best_root, current_root, pred, max_observed_distance, dist_to_root)
  end.

Definition find_far_points_graph (fuel : nat) (mesh_graph : csgraph)
  (valid : option (list bool)) : M far_points_result :=
  '(valid, current_root) <-
     match valid with
     | None => ret (repeat true (shape0 mesh_graph), 0)
     | Some valid =>
         r <- lift (first_true valid) IndexError ;;
         ret (valid, Z.of_nat r)
     end ;;
  far_points_loop fuel mesh_graph valid current_root current_root None (Fin 0) None.

(** The component labels do not depend on the weights:
    [connected_component_slice] is the function above. *)
Definition find_graph_root (fuel : nat) (mesh_graph : csgraph) (valid : option (list bool))
  : M (Z * option (list Z) * option (list float64) * list bool) :=
  valid <- match valid with
           | None => connected_component_slice mesh_graph
           | Some valid => ret valid
           end ;;
  '(best_root, _, pred, _, dist_to_root) <- find_far_points_graph fuel mesh_graph (Some valid) ;;
  ret (best_root, pred, dist_to_root, valid).

(** *** graph_teasar_component *)

Definition teasar_iteration (fuel : nat) (csgraph : csgraph) (root_ds : list float64)
  (root_pred : option (list Z)) (invalidation_d : float64) (st : teasar_state)
  : M teasar_state :=
  target <- select_target root_ds (valid st) ;;
  max_branch <- find_max_branch fuel root_pred (visited_nodes st) target ;;
  d_target <- getitem root_ds target ;;
  d_branch <- getitem root_ds max_branch ;;
  let max_path_length := fsub d_target d_branch in
  '(ds, pred_t, _) <- dijkstra csgraph [target] max_path_length ;;
  ds_visited <- take ds (visited_nodes st) ;;
  min_node <- lift (np_argmin ds_visited)
                   (ValueError "attempt to get argmin of an empty sequence") ;;
  branch <- lift (nth_error (visited_nodes st) min_node) IndexError ;;
  path <- get_path fuel target branch pred_t ;;
  let visited_nodes' := visited_nodes st ++ removelast path in
  length_ <- getitem ds branch ;;
  if isinf length_ then raise AssertionError
  else
    '(dm, _, sources) <- dijkstra csgraph path invalidation_d ;;
    let nodes_to_update := map (fun d => negb (isinf d)) dm in
    mesh_to_skeleton' <-
      match mesh_to_skeleton st with
      | None => ret None
      | Some (mesh_to_skeleton_dist, mesh_to_skeleton_map) =>
          r <- lift (update_map dm sources mesh_to_skeleton_dist mesh_to_skeleton_map)
                    IndexError ;;
          ret (Some r)
      end ;;
    valid' <- lift (mask_assign (valid st) nodes_to_update false) IndexError ;;
    ret {| valid := valid';
           visited_nodes := visited_nodes';
           paths := paths st ++ [path];
           path_lengths := path_lengths st ++ [length_];
           mesh_to_skeleton := mesh_to_skeleton';
           k := S (k st) |}.

Fixpoint teasar_loop (fuel inner : nat) (csgraph : csgraph) (root_ds : list float64)
  (root_pred : option (list Z)) (invalidation_d : float64) (st : teasar_state)
  : M teasar_state :=
  if Nat.ltb 0 (np_sum (valid st)) then
    match fuel with
    | O => diverge
    | S fuel' =>
        st' <- teasar_iteration inner csgraph root_ds root_pred invalidation_d st ;;
        teasar_loop fuel' inner csgraph root_ds root_pred invalidation_d st'
    end
  else ret st.

Definition teasar_setup (csgraph : csgraph) (root : option Z) (valid : option (list bool))
  (root_ds : option (list float64)) (root_pred : option (list Z))
  (find_root_func : root_function) (return_map : bool)
  : M (list float64 * option (list Z) * teasar_state) :=
  let n_vertices := n_vertices csgraph in
  '(root, root_pred, root_ds, valid) <-
     match root with
     | None =>
         '(root, root_pred, root_ds, valid) <- find_root_func csgraph valid ;;
         ret (root, root_pred, root_ds, Some valid)
     | Some root => ret (root, root_pred, root_ds, valid)
     end ;;
  '(root_ds, root_pred) <-
     match root_ds with
     | None =>
         '(root_ds, root_pred, _) <- dijkstra csgraph [root] PInf ;;
         ret (root_ds, Some root_pred)
     | Some root_ds => ret (root_ds, root_pred)
     end ;;
  valid <-
     match valid with
     | None =>
         i <- lift (np_index n_vertices root) IndexError ;;
         ret (map (fun v => negb (Nat.eqb v i)) (seq 0 n_vertices))
     | Some valid =>
         if negb (Nat.eqb (length valid) n_vertices)
         then raise (ValueError "valid must be length of vertices")
         else ret valid
     end ;;
  let mesh_to_skeleton := mesh_init csgraph return_map in
  unreachable <- lift (broadcast2 (fun d v => isinf d && v) root_ds valid) broadcast_error ;;
  if negb (Nat.eqb (np_sum unreachable) 0)
  then raise (ValueError "all valid vertices should be reachable from root")
  else ret (root_ds, root_pred, initial_state root valid mesh_to_skeleton).

Definition graph_teasar_component (fuel : nat) (csgraph : csgraph) (root : option Z)
  (valid : option (list bool)) (root_ds : option (list float64))
  (root_pred : option (list Z)) (find_root_func : root_function)
  (invalidation_d : float64) (return_map : bool)
  : M (list (list Z) * list float64 * option (list float64)) :=
  '(root_ds, root_pred, st) <-
     teasar_setup csgraph root valid root_ds root_pred find_root_func return_map ;;
  st <- teasar_loop fuel fuel csgraph root_ds root_pred invalidation_d st ;;
  ret (paths st, path_lengths st, option_map snd (mesh_to_skeleton st)).

(** [iteration_of ... st tr st']: the loop body run on [st] completes,
    computes the values of [tr] on the way and leaves [st']. *)
Definition iteration_of (fuel : nat) (g : csgraph) (root_ds : list float64)
  (root_pred : option (list Z)) (invalidation_d : float64)
  (st : teasar_state) (tr : iter_trace) (st' : teasar_state) : Prop :=
  select_target root_ds (valid st) = (Ok (it_target tr), O) /\
  find_max_branch fuel root_pred (visited_nodes st) (it_target tr)
    = (Ok (it_max_branch tr), O) /\
  (exists d_target d_branch,
      np_get root_ds (it_target tr) = Some d_target /\
      np_get root_ds (it_max_branch tr) = Some d_branch /\
      it_max_path_length tr = fsub d_target d_branch) /\
  (exists src, dijkstra g [it_target tr] (it_max_path_length tr)
               = (Ok (it_ds tr, it_pred tr, src), 1%nat)) /\
  (exists ds_visited min_node,
      take (it_ds tr) (visited_nodes st) = (Ok ds_visited, O) /\
      np_argmin ds_visited = Some min_node /\
      nth_error (visited_nodes st) min_node = Some (it_branch tr)) /\
  get_path fuel (it_target tr) (it_branch tr) (it_pred tr) = (Ok (it_path tr), O) /\
  np_get (it_ds tr) (it_branch tr) = Some (it_length tr) /\
  isinf (it_length tr) = false /\
  (exists pred_m, dijkstra g (it_path tr) invalidation_d
                  = (Ok (it_dm tr, pred_m, it_sources tr), 1%nat)) /\
  match mesh_to_skeleton st with
  | None => mesh_to_skeleton st' = None
  | Some (dist, map) =>
      exists r, update_map (it_dm tr) (it_sources tr) dist map = Some r /\
                mesh_to_skeleton st' = Some r
  end /\
  mask_assign (valid st) (map (fun d => negb (isinf d)) (it_dm tr)) false
    = Some (valid st') /\
  visited_nodes st' = visited_nodes st ++ removelast (it_path tr) /\
  paths st' = paths st ++ [it_path tr] /\
  path_lengths st' = path_lengths st ++ [it_length tr] /\
  k st' = S (k st).

(** States the loop passes through when started in [st0]. *)
Inductive reachable (fuel : nat) (g : csgraph) (root_ds : list float64)
  (root_pred : option (list Z)) (invalidation_d : float64) (st0 : teasar_state)
  : teasar_state -> Prop :=
| reach_init : reachable fuel g root_ds root_pred invalidation_d st0 st0
| reach_step : forall st st' q,
    reachable fuel g root_ds root_pred invalidation_d st0 st ->
    (0 < np_sum (valid st))%nat ->
    teasar_iteration fuel g root_ds root_pred invalidation_d st = (Ok st', q) ->
    reachable fuel g root_ds root_pred invalidation_d st0 st'.

(** *** graph_teasar *)

Definition graph_teasar_body (fuel : nat) (csgraph : csgraph) (root_index : option Z)
  (root_function : root_function) (invalidation_d : float64) (cc_vertex_thresh : Z)
  (return_map : bool) (labels comp_counts : list nat) (acc : teasar_output) (k : nat)
  : M teasar_output :=
  let '(all_paths, roots, tot_path_lengths, mesh_to_skeleton_map) := acc in
  if Z.of_nat (nth k comp_counts O) >? cc_vertex_thresh then
    let mask := map (Nat.eqb k) labels in
    '(root, pred, root_ds, valid) <-
      match root_index with
      | Some root =>
          l <- getitem labels root ;;
          if Nat.eqb l k then
            '(root_ds, pred, _) <- dijkstra csgraph [root] PInf ;;
            ret (root, Some pred, Some root_ds, mask)
          else root_function csgraph (Some mask)
      | None => root_function csgraph (Some mask)
      end ;;
    valid <- clear_at valid root ;;
    '(paths, path_lengths, single) <-
      graph_teasar_component fuel csgraph (Some root) (Some valid) root_ds pred
        (find_graph_root fuel) invalidation_d return_map ;;
    mesh_to_skeleton_map <-
      match mesh_to_skeleton_map, single with
      | Some m, Some s => r <- merge_map m s ;; ret (Some r)
      | m, _ => ret m
      end ;;
    if Nat.ltb 0 (length path_lengths)
    then ret (all_paths ++ [paths], roots ++ [root], tot_path_lengths ++ [path_lengths],
              mesh_to_skeleton_map)
    else ret (all_paths, roots, tot_path_lengths, mesh_to_skeleton_map)
  else ret acc.

Fixpoint graph_teasar_loop (fuel : nat) (csgraph : csgraph) (root_index : option Z)
  (root_function : root_function) (invalidation_d : float64) (cc_vertex_thresh : Z)
  (return_map : bool) (labels comp_counts : list nat) (ks : list nat) (acc : teasar_output)
  : M teasar_output :=
  match ks with
  | [] => ret acc
  | k :: ks' =>
      acc' <- graph_teasar_body fuel csgraph root_index root_function invalidation_d
                cc_vertex_thresh return_map labels comp_counts acc k ;;
      graph_teasar_loop fuel csgraph root_index root_function invalidation_d
        cc_vertex_thresh return_map labels comp_counts ks' acc'
  end.

Definition graph_teasar (fuel : nat) (csgraph : csgraph) (root_index : option Z)
  (root_function : root_function) (invalidation_d : float64) (cc_vertex_thresh : Z)
  (return_map : bool) : M teasar_output :=
  let n_vertices := n_vertices csgraph in
  labels <- connected_components csgraph ;;
  let n_components := count_components labels in
  let comp_counts := map (fun l => count_occ Nat.eq_dec labels l) (seq 0 n_components) in
  let mesh_to_skeleton_map := if return_map then Some (repeat NaN n_vertices) else None in
  graph_teasar_loop fuel csgraph root_index root_function invalidation_d cc_vertex_thresh
    return_map labels comp_counts (seq 0 n_components) ([], [], [], mesh_to_skeleton_map).

End B64.

(** ** Graphs with weights beyond 2^53 *)

(** A fork: a long edge 0-1, and a side chain 0-2-3 whose last edge is
    absorbed by the rounding of 2^54 + 1. *)
Definition absorbing_fork : csgraph :=
  weighted_graph 4 [(0, 1, (2 ^ 55)%N); (0, 2, (2 ^ 54)%N); (2, 3, 1%N)]%nat.

(** A path 0-1-2-3 whose exact distances from vertex 0 are doubles while
    the sums taken from vertex 3 are not. *)
Definition overshoot_path : csgraph :=
  weighted_graph 4 [(0, 1, 3%N); (1, 2, 1%N); (2, 3, (2 ^ 53 + 2)%N)]%nat.

(** A star with centre 1, a short edge to 0 and two long rays. *)
Definition absorbing_star : csgraph :=
  weighted_graph 4 [(0, 1, 1%N); (1, 2, (2 ^ 54)%N); (1, 3, (2 ^ 54)%N)]%nat.

(** A tree in which the search from vertex 3 ties the visited vertices 0,
    1 and 4 at 2^56. *)
Definition tied_tree : csgraph :=
  weighted_graph 6
    [(0, 1, 8%N); (1, 2, 8%N); (2, 3, (2 ^ 56)%N); (1, 4, 8%N); (4, 5, (2 ^ 56 + 16)%N)]%nat.

(** ** The mask the skeletonizer starts from *)

(** [initial_mask g root valid valid0]: [valid0] is the mask on entry to
    the loop of [graph_teasar_component] called with [root] and [valid]:
    the mask passed, every vertex but the root when only the root was
    passed, and the largest connected component when nothing was. *)
Definition initial_mask (g : csgraph) (root : option Z) (valid : option (list bool))
  (valid0 : list bool) : Prop :=
  match valid, root with
  | Some v, _ => valid0 = v
  | None, Some r => exists i, np_index (n_vertices g) r = Some i /\
                              valid0 = all_but (n_vertices g) i
  | None, None => connected_component_slice g = (Ok valid0, O)
  end.

(** The distance array [rdm] is the field [rds] of the root, possibly with
    [-1] in cells of vertices the root does not reach, as the driver's
    root finder leaves it. *)
Definition masked_field (rds rdm : list float64) : Prop :=
  length rdm = length rds /\
  forall i x, nth_error rds i = Some x ->
              nth_error rdm i = Some x \/ (x = PInf /\ nth_error rdm i = Some (Fin (-1))).

(** ** The two searches side by side *)

(** The state of the binary64 search holds the cells of the state of the
    exact search. *)
Definition sim (nd64 : B64.nodes) (nd : nodes) : Prop :=
  forall v, B64.val nd64 v = option_map Fin (val nd v) /\
            B64.prd nd64 v = prd nd v /\ B64.source nd64 v = source nd v.

(** Every tentative distance lies in [0, b]. *)
Definition bounded (b : Z) (nd : nodes) : Prop :=
  forall v d, val nd v = Some d -> 0 <= d <= b.

Definition to64 (p : nat * Z) : nat * float64 := (fst p, Fin (snd p)).

(** The mask of every vertex but vertex 0, on four and on six vertices. *)
Definition valid_4 : list bool := [false; true; true; true].

Definition valid_6 : list bool := [false; true; true; true; true; true].

(** The field of vertex 0 on [overshoot_path] and on [tied_tree]: every
    distance is a double. *)
Definition overshoot_root_ds : list float64 := [Fin 0; Fin 3; Fin 4; Fin (2 ^ 53 + 6)].

Definition overshoot_root_pred : list Z := [-9999; 0; 1; 2].

Definition tied_root_ds : list float64 :=
  [Fin 0; Fin 8; Fin 16; Fin (2 ^ 56 + 16); Fin 16; Fin (2 ^ 56 + 32)].

Definition tied_root_pred : list Z := [-9999; 0; 1; 2; 1; 4].

(** The field of vertex 0 on [absorbing_fork] as the binary64 search
    returns it: the cell of vertex 3 holds 2^54, one less than the
    distance. *)
Definition fork_root_ds : list float64 :=
  [Fin 0; Fin (2 ^ 55); Fin (2 ^ 54); Fin (2 ^ 54)].

Definition fork_root_pred : list Z := [-9999; 0; 0; 2].

(** The state after the only iteration on [absorbing_fork] with radius
    2^54 and the map requested. *)
Definition fork_after_one : teasar_state :=
  {| valid := [false; false; false; false];
     visited_nodes := [0; 1];
     paths := [[1; 0]];
     path_lengths := [Fin (2 ^ 55)];
     mesh_to_skeleton :=
       Some ([Fin 0; Fin 0; Fin (2 ^ 54); Fin (2 ^ 54)], [Fin 0; Fin 1; Fin 0; Fin 0]);
     k := 1 |}.

(** The state after two iterations on [tied_tree] with radius 0. *)
Definition tied_after_two : teasar_state :=
  {| valid := [false; false; false; false; false; false];
     visited_nodes := [0; 5; 4; 1; 3; 2; 1];
     paths := [[5; 4; 1; 0]; [3; 2; 1; 0]];
     path_lengths := [Fin (2 ^ 56 + 32); Fin (2 ^ 56)];
     mesh_to_skeleton := None;
     k := 2 |}.

(** * Proofs *)

(** ** float64 comparisons *)

Lemma fle_Fin (a b : Z) : fle (Fin a) (Fin b) = true <-> a <= b.
Proof. simpl. apply Z.leb_le. Qed.

Lemma flt_Fin (a b : Z) : flt (Fin a) (Fin b) = true <-> a < b.
Proof. simpl. apply Z.ltb_lt. Qed.

Lemma fle_Fin_mono (a b : Z) (limit : float64) :
  a <= b -> fle (Fin b) limit = true -> fle (Fin a) limit = true.
Proof.
  destruct limit; simpl; intros H1 H2; try discriminate; auto.
  apply Z.leb_le. apply Z.leb_le in H2. lia.
Qed.

Lemma fle_Fin_false (a b : Z) (limit : float64) :
  fle (Fin a) limit = true -> fle (Fin b) limit = false -> a < b.
Proof.
  destruct limit; simpl; intros H1 H2; try discriminate.
  apply Z.leb_le in H1. apply Z.leb_gt in H2. lia.
Qed.

(** ** Edges *)

Lemma is_scanned_In (scanned : list nat) (v : nat) :
  is_scanned scanned v = true <-> In v scanned.
Proof.
  unfold is_scanned. rewrite existsb_exists. split.
  - intros [x [Hx He]]. apply Nat.eqb_eq in He. subst. exact Hx.
  - intros H. exists v. split; [exact H | apply Nat.eqb_refl].
Qed.

Lemma is_scanned_not_In (scanned : list nat) (v : nat) :
  is_scanned scanned v = false <-> ~ In v scanned.
Proof.
  rewrite <- is_scanned_In. destruct (is_scanned scanned v); split; congruence.
Qed.

Lemma neighbors_spec (g : csgraph) (u v : nat) (w : N) :
  In (v, w) (neighbors g u) <-> In (u, v, w) (entries g) \/ In (v, u, w) (entries g).
Proof.
  unfold neighbors. rewrite in_flat_map. split.
  - intros [[[i j] w'] [He Hin]]. apply in_app_or in Hin. destruct Hin as [Hin | Hin].
    + destruct (Nat.eqb_spec i u); simpl in Hin; [| tauto].
      destruct Hin as [Hin | []]. inversion Hin. subst. left. exact He.
    + destruct (Nat.eqb_spec j u); simpl in Hin; [| tauto].
      destruct Hin as [Hin | []]. inversion Hin. subst. right. exact He.
  - intros [H | H].
    + exists (u, v, w). split; [exact H |]. apply in_or_app. left.
      rewrite Nat.eqb_refl. left. reflexivity.
    + exists (v, u, w). split; [exact H |]. apply in_or_app. right.
      rewrite Nat.eqb_refl. left. reflexivity.
Qed.

Lemma neighbors_sym (g : csgraph) (u v : nat) (w : N) :
  In (v, w) (neighbors g u) -> In (u, w) (neighbors g v).
Proof. rewrite !neighbors_spec. tauto. Qed.

Lemma wf_csgraph_square (g : csgraph) : wf_csgraph g = true -> shape0 g = shape1 g.
Proof.
  unfold wf_csgraph. intros H. apply andb_prop in H. destruct H as [H _].
  apply Nat.eqb_eq. exact H.
Qed.

Lemma wf_entries (g : csgraph) (i j : nat) (w : N) :
  wf_csgraph g = true -> In (i, j, w) (entries g) ->
  (i < shape0 g)%nat /\ (j < shape0 g)%nat.
Proof.
  unfold wf_csgraph. intros H Hin. apply andb_prop in H. destruct H as [_ H].
  rewrite forallb_forall in H. specialize (H _ Hin). simpl in H.
  apply andb_prop in H. destruct H as [H1 H2].
  apply Nat.ltb_lt in H1. apply Nat.ltb_lt in H2. auto.
Qed.

Lemma neighbors_range (g : csgraph) (u v : nat) (w : N) :
  wf_csgraph g = true -> In (v, w) (neighbors g u) ->
  (u < shape0 g)%nat /\ (v < shape0 g)%nat.
Proof.
  intros Hwf H. apply neighbors_spec in H.
  destruct H as [H | H]; apply (wf_entries _ _ _ _ Hwf) in H; tauto.
Qed.

Lemma walk_range {g : csgraph} {s v : nat} {l : Z} :
  wf_csgraph g = true -> walk g s v l ->
  (s < shape0 g)%nat /\ (v < shape0 g)%nat /\ 0 <= l.
Proof.
  intros Hwf H. induction H.
  - repeat split; auto. lia.
  - destruct IHwalk as [Hs [Hu Hl]]. apply (neighbors_range _ _ _ _ Hwf) in H0.
    repeat split; try tauto. lia.
Qed.

Lemma walk_trans (g : csgraph) (a b c : nat) (l1 l2 : Z) :
  walk g a b l1 -> walk g b c l2 -> walk g a c (l1 + l2).
Proof.
  intros H1 H2. induction H2.
  - replace (l1 + 0) with l1 by lia. exact H1.
  - replace (l1 + (l + Z.of_N w)) with ((l1 + l) + Z.of_N w) by lia.
    eapply walk_edge; eauto.
Qed.

Lemma walk_sym (g : csgraph) (a b : nat) (l : Z) :
  wf_csgraph g = true -> walk g a b l -> walk g b a l.
Proof.
  intros Hwf H. induction H.
  - constructor. exact H.
  - replace (l + Z.of_N w) with ((0 + Z.of_N w) + l) by lia.
    apply walk_trans with (b := u); [| exact IHwalk].
    apply walk_edge with (u := v).
    + constructor. apply (neighbors_range _ _ _ _ Hwf) in H0. tauto.
    + apply neighbors_sym. exact H0.
Qed.

(** ** The search: scanning the edges of a vertex *)

Lemma scan_edge_cases (limit : float64) (scanned : list nat) (u : nat) (du su : Z)
  (nd : nodes) (v : nat) (w : N) :
  let nd' := scan_edge limit scanned u du su nd (v, w) in
  (nd' = nd \/
   (nd' = touch nd v (du + Z.of_N w) (Z.of_nat u) su /\ ~ In v scanned /\
    fle (Fin (du + Z.of_N w)) limit = true /\
    forall d0, val nd v = Some d0 -> du + Z.of_N w < d0)) /\
  (~ In v scanned -> fle (Fin (du + Z.of_N w)) limit = true ->
   exists d, val nd' v = Some d /\ d <= du + Z.of_N w).
Proof.
  cbv zeta. unfold scan_edge.
  destruct (is_scanned scanned v) eqn:Hs.
  - split; [left; reflexivity |]. intros Hn. apply is_scanned_In in Hs. contradiction.
  - apply is_scanned_not_In in Hs.
    destruct (fle (Fin (du + Z.of_N w)) limit) eqn:Hl.
    + destruct (val nd v) as [dv |] eqn:Hv.
      * destruct (Z.ltb_spec (du + Z.of_N w) dv) as [Hlt | Hge].
        -- split.
           ++ right. split; [reflexivity | split; [exact Hs | split; [reflexivity |]]].
              intros d0 E. inversion E. subst. exact Hlt.
           ++ intros _ _. exists (du + Z.of_N w). simpl. rewrite Nat.eqb_refl.
              split; [reflexivity | lia].
        -- split; [left; reflexivity |]. intros _ _. exists dv. split; [exact Hv | lia].
      * split.
        -- right. split; [reflexivity | split; [exact Hs | split; [reflexivity |]]].
           intros d0 E. discriminate.
        -- intros _ _. exists (du + Z.of_N w). simpl. rewrite Nat.eqb_refl.
           split; [reflexivity | lia].
    + split; [left; reflexivity |]. intros _ E. discriminate.
Qed.

Lemma relaxed_fold (limit : float64) (scanned : list nat) (u : nat) (du su : Z)
  (es : list (nat * N)) (nd0 : nodes) :
  relaxed limit scanned u du su es nd0
    (fold_left (scan_edge limit scanned u du su) es nd0).
Proof.
  induction es as [| [v w] es IH] using rev_ind.
  - simpl. repeat split.
    + intros x. left. auto.
    + intros x w [].
    + intros x d0 H. exists d0. split; [exact H | lia].
  - rewrite fold_left_app. cbn [fold_left].
    set (nd1 := fold_left (scan_edge limit scanned u du su) es nd0) in *.
    destruct IH as [F1 [F2 F3]].
    destruct (scan_edge_cases limit scanned u du su nd1 v w) as [Hc Hv].
    cbv zeta in Hc, Hv.
    set (nd := scan_edge limit scanned u du su nd1 (v, w)) in *.
    assert (Hmono : forall x d1, val nd1 x = Some d1 ->
                                 exists d, val nd x = Some d /\ d <= d1).
    { intros x d1 Hx. destruct Hc as [Hc | [Hc [Hn [Hl Hlt]]]]; rewrite Hc.
      - exists d1. split; [exact Hx | lia].
      - simpl. destruct (Nat.eqb_spec x v) as [-> | Hne].
        + exists (du + Z.of_N w). split; [reflexivity |]. specialize (Hlt _ Hx). lia.
        + exists d1. split; [exact Hx | lia]. }
    repeat split.
    + intros x. destruct Hc as [Hc | [Hc [Hn [Hl Hlt]]]].
      * rewrite Hc. destruct (F1 x) as [H | [Hx [w' [Hin H]]]]; [left; exact H |].
        right. split; [exact Hx |]. exists w'. split; [apply in_or_app; left; exact Hin | exact H].
      * destruct (Nat.eqb_spec x v) as [-> | Hne].
        -- right. split; [exact Hn |]. exists w. rewrite Hc. simpl. rewrite Nat.eqb_refl.
           split; [apply in_or_app; right; left; reflexivity |].
           repeat split; auto.
           intros d0 H0. destruct (F3 _ _ H0) as [d1 [Hd1 Hle]].
           specialize (Hlt _ Hd1). lia.
        -- assert (E : val nd x = val nd1 x /\ prd nd x = prd nd1 x /\
                        source nd x = source nd1 x).
           { rewrite Hc. simpl. apply Nat.eqb_neq in Hne. rewrite Hne. auto. }
           destruct E as [E1 [E2 E3]]. rewrite E1, E2, E3.
           destruct (F1 x) as [H | [Hx [w' [Hin H]]]]; [left; exact H |].
           right. split; [exact Hx |]. exists w'.
           split; [apply in_or_app; left; exact Hin | exact H].
    + intros x w' Hin Hx Hl. apply in_app_or in Hin. destruct Hin as [Hin | [Hin | []]].
      * destruct (F2 _ _ Hin Hx Hl) as [d1 [Hd1 Hle]].
        destruct (Hmono _ _ Hd1) as [d [Hd Hle']]. exists d. split; [exact Hd | lia].
      * inversion Hin. subst. apply Hv; assumption.
    + intros x d0 H0. destruct (F3 _ _ H0) as [d1 [Hd1 Hle]].
      destruct (Hmono _ _ Hd1) as [d [Hd Hle']]. exists d. split; [exact Hd | lia].
Qed.

(** ** The search: removing the minimum *)

Lemma min_node_spec (vals : nat -> option Z) (cands : list nat) :
  forall best,
    (forall b bd, best = Some (b, bd) -> vals b = Some bd) ->
    match min_node vals cands best with
    | None => best = None /\ forall x, In x cands -> vals x = None
    | Some (u, du) =>
        vals u = Some du /\ (In u cands \/ best = Some (u, du)) /\
        (forall x dx, In x cands -> vals x = Some dx -> du <= dx) /\
        (forall b bd, best = Some (b, bd) -> du <= bd)
    end.
Proof.
  induction cands as [| v cs IH]; intros best Hb; simpl.
  - destruct best as [[b bd] |].
    + repeat split; auto.
      * intros x dx [].
      * intros b' bd' E. inversion E. lia.
    + split; [reflexivity |]. intros x [].
  - destruct (vals v) as [d |] eqn:Hv.
    + destruct best as [[b bd] |].
      * destruct (Z.ltb_spec d bd) as [Hlt | Hge].
        -- specialize (IH (Some (v, d))).
           destruct (min_node vals cs (Some (v, d))) as [[u du] |].
           ++ destruct IH as [H1 [H2 [H3 H4]]].
              { intros b' bd' E. inversion E. subst. exact Hv. }
              repeat split; auto.
              ** destruct H2 as [H2 | H2]; [left; right; exact H2 |].
                 inversion H2. subst. left. left. reflexivity.
              ** intros x dx [-> | Hx] Hdx.
                 --- rewrite Hv in Hdx. inversion Hdx. subst. apply (H4 x dx). reflexivity.
                 --- eapply H3; eauto.
              ** intros b' bd' E. inversion E. subst. specialize (H4 v d eq_refl). lia.
           ++ destruct IH as [H1 _].
              { intros b' bd' E. inversion E. subst. exact Hv. }
              discriminate.
        -- specialize (IH (Some (b, bd)) Hb).
           destruct (min_node vals cs (Some (b, bd))) as [[u du] |].
           ++ destruct IH as [H1 [H2 [H3 H4]]].
              repeat split; auto.
              ** destruct H2 as [H2 | H2]; [left; right; exact H2 | right; exact H2].
              ** intros x dx [-> | Hx] Hdx.
                 --- rewrite Hv in Hdx. inversion Hdx. subst.
                     specialize (H4 b bd eq_refl). lia.
                 --- eapply H3; eauto.
           ++ destruct IH as [H1 _]. discriminate.
      * specialize (IH (Some (v, d))).
        destruct (min_node vals cs (Some (v, d))) as [[u du] |].
        -- destruct IH as [H1 [H2 [H3 H4]]].
           { intros b' bd' E. inversion E. subst. exact Hv. }
           repeat split; auto.
           ++ destruct H2 as [H2 | H2]; [left; right; exact H2 |].
              inversion H2. subst. left. left. reflexivity.
           ++ intros x dx [-> | Hx] Hdx.
              ** rewrite Hv in Hdx. inversion Hdx. subst. apply (H4 x dx). reflexivity.
              ** eapply H3; eauto.
           ++ intros b' bd' E. discriminate.
        -- destruct IH as [H1 _].
           { intros b' bd' E. inversion E. subst. exact Hv. }
           discriminate.
    + specialize (IH best Hb).
      destruct (min_node vals cs best) as [[u du] |].
      * destruct IH as [H1 [H2 [H3 H4]]]. repeat split; auto.
        -- destruct H2 as [H2 | H2]; [left; right; exact H2 | right; exact H2].
        -- intros x dx [-> | Hx] Hdx; [congruence | eapply H3; eauto].
      * destruct IH as [H1 H2]. split; [exact H1 |].
        intros x [-> | Hx]; auto.
Qed.

Lemma remove_min_some {n : nat} {scanned : list nat} {nd : nodes} {u : nat} {du : Z} :
  remove_min n scanned nd = Some (u, du) ->
  (u < n)%nat /\ ~ In u scanned /\ val nd u = Some du /\
  forall x dx, (x < n)%nat -> ~ In x scanned -> val nd x = Some dx -> du <= dx.
Proof.
  unfold remove_min. intros H.
  pose proof (min_node_spec (val nd)
                (filter (fun v => negb (is_scanned scanned v)) (seq 0 n)) None) as Hs.
  rewrite H in Hs. destruct Hs as [H1 [H2 [H3 _]]]; [discriminate |].
  destruct H2 as [H2 | H2]; [| discriminate].
  apply filter_In in H2. destruct H2 as [Hin Hns].
  apply in_seq in Hin. apply negb_true_iff in Hns. apply is_scanned_not_In in Hns.
  repeat split; auto; try lia.
  intros x dx Hx Hnx Hdx. apply (H3 x dx); [| exact Hdx].
  apply filter_In. split; [apply in_seq; lia |].
  apply negb_true_iff. apply is_scanned_not_In. exact Hnx.
Qed.

Lemma remove_min_none {n : nat} {scanned : list nat} {nd : nodes} :
  remove_min n scanned nd = None ->
  forall x, (x < n)%nat -> ~ In x scanned -> val nd x = None.
Proof.
  unfold remove_min. intros H x Hx Hnx.
  pose proof (min_node_spec (val nd)
                (filter (fun v => negb (is_scanned scanned v)) (seq 0 n)) None) as Hs.
  rewrite H in Hs. destruct Hs as [_ Hs]; [discriminate |].
  apply Hs. apply filter_In. split; [apply in_seq; lia |].
  apply negb_true_iff. apply is_scanned_not_In. exact Hnx.
Qed.

(** ** The search: the invariant *)

Lemma scan_rank_le (scanned : list nat) (x : nat) :
  (scan_rank scanned x <= length scanned)%nat.
Proof.
  induction scanned as [| y s IH]; simpl; [lia |].
  destruct (Nat.eqb x y); lia.
Qed.

Lemma scan_rank_cons_ne (scanned : list nat) {u x : nat} :
  x <> u -> scan_rank (u :: scanned) x = scan_rank scanned x.
Proof. intros H. simpl. apply Nat.eqb_neq in H. rewrite H. reflexivity. Qed.

Lemma existsb_eqb_In (l : list nat) (v : nat) :
  existsb (Nat.eqb v) l = true <-> In v l.
Proof. exact (is_scanned_In l v). Qed.

Lemma search_inv_init (g : csgraph) (srcs : list nat) (limit : float64) :
  (forall s, In s srcs -> (s < shape0 g)%nat) ->
  search_inv g srcs limit [] (init_nodes srcs).
Proof.
  intros Hs.
  assert (Hval : forall v d, val (init_nodes srcs) v = Some d -> In v srcs /\ d = 0).
  { intros v d. simpl. destruct (existsb (Nat.eqb v) srcs) eqn:E; [| discriminate].
    intros H. inversion H. apply existsb_eqb_In in E. auto. }
  constructor.
  - constructor.
  - intros v d H. apply Hval in H. apply Hs. tauto.
  - intros u [].
  - intros u x du dx [].
  - intros u v w du [].
  - intros v d H. destruct (Hval _ _ H) as [Hin ->]. split; [lia |].
    exists v. split; [exact Hin |]. split.
    + simpl. apply existsb_eqb_In in Hin. rewrite Hin. reflexivity.
    + constructor. apply Hs. exact Hin.
  - intros v d H. apply Hval in H. left. tauto.
  - intros v d H Hn. apply Hval in H. tauto.
  - intros s Hin. simpl. apply existsb_eqb_In in Hin. rewrite Hin. auto.
  - intros v. simpl. destruct (existsb (Nat.eqb v) srcs); [discriminate | auto].
Qed.

Lemma search_inv_step {g : csgraph} {srcs : list nat} {limit : float64}
  {scanned : list nat} {nd : nodes} {u : nat} {du : Z} :
  wf_csgraph g = true ->
  search_inv g srcs limit scanned nd ->
  remove_min (shape0 g) scanned nd = Some (u, du) ->
  search_inv g srcs limit (u :: scanned)
    (fold_left (scan_edge limit (u :: scanned) u du (source nd u)) (neighbors g u) nd).
Proof.
  intros Hwf I Hrm.
  destruct (remove_min_some Hrm) as [Hun [Hus [Hu Hmin]]].
  pose proof (relaxed_fold limit (u :: scanned) u du (source nd u) (neighbors g u) nd)
    as [F1 [F2 F3]].
  set (nd' := fold_left (scan_edge limit (u :: scanned) u du (source nd u))
                (neighbors g u) nd) in *.
  assert (HA : forall x, In x (u :: scanned) ->
                         val nd' x = val nd x /\ prd nd' x = prd nd x /\
                         source nd' x = source nd x).
  { intros x Hx. destruct (F1 x) as [H | [H _]]; [exact H | contradiction]. }
  assert (Hdu : 0 <= du) by (apply (inv_walk I) in Hu; tauto).
  assert (Hle : forall y dy, In y (u :: scanned) -> val nd y = Some dy -> dy <= du).
  { intros y dy [<- | Hy] Hdy.
    - rewrite Hu in Hdy. inversion Hdy. lia.
    - eapply (inv_order I); eauto. }
  constructor.
  - constructor; [exact Hus | exact (inv_nodup I)].
  - intros v d Hv. destruct (F1 v) as [[E _] | [_ [w [Hin _]]]].
    + rewrite E in Hv. eapply (inv_range I); eauto.
    + apply (neighbors_range _ _ _ _ Hwf) in Hin. tauto.
  - intros x Hx. destruct (HA x Hx) as [E _]. rewrite E.
    destruct Hx as [<- | Hx]; [eauto | apply (inv_scanned I); exact Hx].
  - intros y x dy dx Hy Hx Hdy Hdx.
    destruct (HA y Hy) as [E _]. rewrite E in Hdy.
    pose proof (Hle _ _ Hy Hdy) as Hydu.
    destruct (F1 x) as [[Ex _] | [_ [w [_ [Ex _]]]]].
    + rewrite Ex in Hdx.
      assert (du <= dx); [| lia].
      apply (Hmin x dx); auto.
      * eapply (inv_range I); eauto.
      * intros Hin. apply Hx. right. exact Hin.
    + rewrite Ex in Hdx. inversion Hdx. lia.
  - intros y v w dy Hy Hin Hdy Hl.
    destruct (HA y Hy) as [E _]. rewrite E in Hdy.
    destruct Hy as [<- | Hy].
    + rewrite Hu in Hdy. inversion Hdy. subst dy.
      destruct (in_dec Nat.eq_dec v (u :: scanned)) as [Hv | Hv].
      * destruct (HA v Hv) as [Ev _]. rewrite Ev.
        assert (Hsome : exists dv, val nd v = Some dv).
        { destruct Hv as [<- | Hv]; [eauto | apply (inv_scanned I); exact Hv]. }
        destruct Hsome as [dv Hdv]. exists dv. split; [exact Hdv |].
        pose proof (Hle _ _ Hv Hdv). lia.
      * apply F2; assumption.
    + destruct (inv_closed I _ _ _ _ Hy Hin Hdy Hl) as [dv0 [Hdv0 Hle0]].
      destruct (F3 _ _ Hdv0) as [dv [Hdv Hle1]]. exists dv. split; [exact Hdv | lia].
  - intros v d Hv. destruct (F1 v) as [[E [_ Es]] | [_ [w [Hin [E [_ [Es _]]]]]]].
    + rewrite E in Hv. rewrite Es. apply (inv_walk I). exact Hv.
    + rewrite E in Hv. inversion Hv. subst d. split; [lia |].
      destruct (inv_walk I _ _ Hu) as [_ [s [Hs [Hsrc Hw]]]].
      exists s. split; [exact Hs |]. split; [rewrite Es; exact Hsrc |].
      eapply walk_edge; eauto.
  - intros v d Hv. destruct (F1 v) as [[E _] | [_ [w [_ [E [_ [_ [Hl _]]]]]]]].
    + rewrite E in Hv. apply (inv_limit I _ _ Hv).
    + rewrite E in Hv. inversion Hv. subst d. right. exact Hl.
  - intros v d Hv Hns.
    destruct (F1 v) as [[E [Ep Es]] | [Hnv [w [Hin [E [Ep [Es _]]]]]]].
    + rewrite E in Hv.
      destruct (inv_pred I _ _ Hv Hns) as [u' [w [du' [P1 [P2 [P3 [P4 [P5 [P6 P7]]]]]]]]].
      destruct (HA u' (or_intror P2)) as [Eu [_ Esu]].
      exists u', w, du'. rewrite Ep, Es, Eu, Esu.
      split; [exact P1 |]. split; [right; exact P2 |].
      split; [exact P3 |]. split; [exact P4 |]. split; [exact P5 |]. split; [exact P6 |].
      intros Hvin.
      assert (Hne : u' <> u) by (intros ->; contradiction).
      rewrite (scan_rank_cons_ne _ Hne).
      destruct Hvin as [<- | Hvin].
      * simpl. rewrite Nat.eqb_refl. pose proof (scan_rank_le scanned u'). lia.
      * assert (Hne' : v <> u) by (intros ->; contradiction).
        rewrite (scan_rank_cons_ne _ Hne'). apply P7. exact Hvin.
    + rewrite E in Hv. inversion Hv. subst d.
      destruct (HA u (or_introl eq_refl)) as [Eu [_ Esu]].
      exists u, w, du. rewrite Ep, Es, Eu, Esu.
      split; [reflexivity |]. split; [left; reflexivity |].
      split; [exact Hin |]. split; [exact Hu |]. split; [reflexivity |].
      split; [reflexivity |]. intros Hvin. contradiction.
  - intros s Hs. destruct (inv_src I _ Hs) as [S1 [S2 S3]].
    destruct (F1 s) as [[E [Ep Es]] | [_ [w [_ [_ [_ [_ [_ Hlt]]]]]]]].
    + rewrite E, Ep, Es. auto.
    + specialize (Hlt _ S1). lia.
  - intros v Hv. destruct (F1 v) as [[E [Ep Es]] | [_ [w [_ [E _]]]]].
    + rewrite E in Hv. rewrite Ep, Es. apply (inv_none I). exact Hv.
    + rewrite E in Hv. discriminate.
Qed.

Lemma dijkstra_loop_inv (g : csgraph) (srcs : list nat) (limit : float64) :
  wf_csgraph g = true ->
  forall fuel scanned nd,
    search_inv g srcs limit scanned nd ->
    search_inv g srcs limit (fst (dijkstra_loop fuel g limit scanned nd))
      (snd (dijkstra_loop fuel g limit scanned nd)) /\
    ((shape0 g <= fuel + length scanned)%nat ->
     forall x, (x < shape0 g)%nat ->
               ~ In x (fst (dijkstra_loop fuel g limit scanned nd)) ->
               val (snd (dijkstra_loop fuel g limit scanned nd)) x = None).
Proof.
  intros Hwf. induction fuel as [| fuel IH]; intros scanned nd I.
  - simpl. split; [exact I |]. intros Hlen x Hx Hnx. exfalso. apply Hnx.
    assert (Hincl : incl scanned (seq 0 (shape0 g))).
    { intros y Hy. apply in_seq. destruct (inv_scanned I _ Hy) as [d Hd].
      apply (inv_range I) in Hd. lia. }
    apply (@NoDup_length_incl nat scanned (seq 0 (shape0 g)) (inv_nodup I)).
    + rewrite length_seq. lia.
    + exact Hincl.
    + apply in_seq. lia.
  - simpl. destruct (remove_min (shape0 g) scanned nd) as [[u du] |] eqn:Hrm.
    + pose proof (search_inv_step Hwf I Hrm) as I'.
      destruct (IH _ _ I') as [I1 I2]. split; [exact I1 |].
      intros Hlen. apply I2. simpl. lia.
    + simpl. split; [exact I |]. intros _. apply remove_min_none. exact Hrm.
Qed.

(** ** The search: the contract holds *)

Lemma nth_error_map_seq {A : Type} (f : nat -> A) (n v : nat) :
  nth_error (map f (seq 0 n)) v = if Nat.ltb v n then Some (f v) else None.
Proof.
  rewrite nth_error_map, nth_error_seq. destruct (Nat.ltb v n); reflexivity.
Qed.

Lemma dist_cell_Fin (o : option Z) (d : Z) : dist_cell o = Fin d <-> o = Some d.
Proof. destruct o; simpl; split; intros H; inversion H; reflexivity. Qed.

Lemma dist_cell_PInf (o : option Z) : dist_cell o = PInf <-> o = None.
Proof. destruct o; simpl; split; intros H; inversion H; reflexivity. Qed.

Lemma dijkstra_arrays_contract (g : csgraph) (srcs : list nat) (limit : float64) :
  wf_csgraph g = true ->
  (forall s, In s srcs -> (s < shape0 g)%nat) ->
  oracle_contract g srcs limit
    (fst (fst (dijkstra_arrays g srcs limit)))
    (snd (fst (dijkstra_arrays g srcs limit)))
    (snd (dijkstra_arrays g srcs limit)).
Proof.
  intros Hwf Hsrcs. unfold dijkstra_arrays. cbv zeta. cbn [fst snd].
  destruct (dijkstra_loop_inv g srcs limit Hwf (shape0 g) [] (init_nodes srcs)
              (search_inv_init g srcs limit Hsrcs)) as [I Hfin].
  specialize (Hfin ltac:(simpl; lia)).
  set (scanned := fst (dijkstra_loop (shape0 g) g limit [] (init_nodes srcs))) in *.
  set (nd := snd (dijkstra_loop (shape0 g) g limit [] (init_nodes srcs))) in *.
  assert (Hin : forall v d, val nd v = Some d -> In v scanned).
  { intros v d Hv. destruct (in_dec Nat.eq_dec v scanned) as [H | H]; [exact H |].
    rewrite (Hfin v (inv_range I _ _ Hv) H) in Hv. discriminate. }
  assert (Hclose : forall s v l, In s srcs -> walk g s v l -> fle (Fin l) limit = true ->
                                 exists dv, val nd v = Some dv /\ dv <= l).
  { intros s v l Hs Hw. induction Hw as [Hlt | u v w l Hw IH He]; intros Hl.
    - exists 0. split; [apply (inv_src I _ Hs) | lia].
    - pose proof (walk_range Hwf Hw) as [_ [_ Hl0]].
      destruct IH as [du [Hdu Hle]].
      { apply fle_Fin_mono with (b := l + Z.of_N w); [lia | exact Hl]. }
      destruct (inv_closed I u v w du (Hin _ _ Hdu) He Hdu) as [dv [Hdv Hle']].
      { apply fle_Fin_mono with (b := l + Z.of_N w); [lia | exact Hl]. }
      exists dv. split; [exact Hdv | lia]. }
  assert (Hds : forall v d, nth_error (map (fun v => dist_cell (val nd v)) (seq 0 (shape0 g))) v
                            = Some (Fin d) -> (v < shape0 g)%nat /\ val nd v = Some d).
  { intros v d. rewrite nth_error_map_seq. destruct (Nat.ltb_spec v (shape0 g)); [| discriminate].
    intros E. inversion E as [E']. apply dist_cell_Fin in E'. auto. }
  assert (Hds' : forall v d, val nd v = Some d ->
                   nth_error (map (fun v => dist_cell (val nd v)) (seq 0 (shape0 g))) v
                   = Some (Fin d)).
  { intros v d Hv. rewrite nth_error_map_seq. pose proof (inv_range I _ _ Hv) as Hlt.
    apply Nat.ltb_lt in Hlt. rewrite Hlt, Hv. reflexivity. }
  constructor.
  - rewrite length_map, length_seq. reflexivity.
  - rewrite length_map, length_seq. reflexivity.
  - rewrite length_map, length_seq. reflexivity.
  - intros v x. rewrite nth_error_map_seq. destruct (Nat.ltb v (shape0 g)); [| discriminate].
    intros E. inversion E. destruct (val nd v); simpl; eauto.
  - intros v d Hv. apply Hds in Hv. destruct Hv as [Hlt Hv]. split; [| exact (inv_limit I _ _ Hv)].
    split.
    + destruct (inv_walk I _ _ Hv) as [_ [s [Hs [_ Hw]]]]. eauto.
    + intros s l Hs Hw. destruct (fle (Fin l) limit) eqn:Hl.
      * destruct (Hclose _ _ _ Hs Hw Hl) as [dv [Hdv Hle]]. rewrite Hv in Hdv.
        inversion Hdv. lia.
      * destruct (inv_limit I _ _ Hv) as [-> | Hd].
        -- apply (walk_range Hwf) in Hw. tauto.
        -- pose proof (fle_Fin_false _ _ _ Hd Hl). lia.
  - intros v d [[s [Hs Hw]] Hmin] Hl.
    destruct (Hclose _ _ _ Hs Hw Hl) as [dv [Hdv Hle]].
    destruct (inv_walk I _ _ Hdv) as [_ [s' [Hs' [_ Hw']]]].
    specialize (Hmin _ _ Hs' Hw'). assert (dv = d) by lia. subst dv.
    apply Hds'. exact Hdv.
  - intros v. rewrite !nth_error_map_seq. destruct (Nat.ltb v (shape0 g)); [| discriminate].
    intros E. inversion E as [E']. apply dist_cell_PInf in E'.
    destruct (inv_none I _ E') as [-> ->]. auto.
  - intros s Hs. destruct (inv_src I _ Hs) as [S1 [S2 S3]].
    rewrite !nth_error_map_seq. pose proof (Hsrcs _ Hs) as Hlt. apply Nat.ltb_lt in Hlt.
    rewrite Hlt, S1, S2, S3. auto.
  - intros v s l. rewrite nth_error_map_seq. destruct (Nat.ltb v (shape0 g)); [| discriminate].
    intros E Hs Hw. inversion E as [E']. apply dist_cell_PInf in E'.
    destruct (fle (Fin l) limit) eqn:Hl; [| reflexivity].
    destruct (Hclose _ _ _ Hs Hw Hl) as [dv [Hdv _]]. congruence.
  - exists (scan_rank scanned). split.
    { intros v. pose proof (scan_rank_le scanned v) as H1.
      assert (H2 : (length scanned <= length (seq 0 (shape0 g)))%nat).
      { apply NoDup_incl_length; [exact (inv_nodup I) |].
        intros y Hy. apply in_seq. destruct (inv_scanned I _ Hy) as [d Hd].
        apply (inv_range I) in Hd. lia. }
      rewrite length_seq in H2. lia. }
    intros v d Hv Hns. apply Hds in Hv. destruct Hv as [Hlt Hv].
    destruct (inv_pred I _ _ Hv Hns) as [u [w [du [P1 [P2 [P3 [P4 [P5 [P6 P7]]]]]]]]].
    exists u, w. rewrite !nth_error_map_seq.
    pose proof (inv_range I _ _ P4) as Hult.
    apply Nat.ltb_lt in Hlt. apply Nat.ltb_lt in Hult. rewrite Hlt, Hult, P1, P4, P6.
    split; [reflexivity |]. split; [exact P3 |]. split; [simpl; f_equal; f_equal; lia |].
    split; [reflexivity |]. apply P7. eapply Hin; eauto.
  - intros v d Hv. apply Hds in Hv. destruct Hv as [Hlt Hv].
    destruct (inv_walk I _ _ Hv) as [_ [s [Hs [Hsrc Hw]]]].
    exists s. split; [exact Hs |]. split; [| exact Hw].
    rewrite nth_error_map_seq. apply Nat.ltb_lt in Hlt. rewrite Hlt, Hsrc. reflexivity.
Qed.

(** Source indices of a call, as vertices. *)
Lemma index_ok_range (n : nat) (i : Z) :
  index_ok n i = true -> (Z.to_nat (norm_index n i) < n)%nat.
Proof.
  unfold index_ok. intros H. apply andb_prop in H. destruct H as [H1 H2].
  apply Z.leb_le in H1. apply Z.ltb_lt in H2. lia.
Qed.

Lemma dijkstra_inv (g : csgraph) (indices : list Z) (limit : float64)
  (r : list float64 * list Z * list Z) (q : nat) :
  dijkstra g indices limit = (Ok r, q) ->
  shape0 g = shape1 g /\ forallb (index_ok (shape0 g)) indices = true /\
  flt limit (Fin 0) = false /\ q = 1%nat /\
  r = dijkstra_arrays g (map (fun i => Z.to_nat (norm_index (shape0 g) i)) indices) limit.
Proof.
  unfold dijkstra.
  destruct (Nat.eqb_spec (shape0 g) (shape1 g)) as [Hsq | Hsq]; simpl; [| discriminate].
  destruct (forallb (index_ok (shape0 g)) indices); simpl; [| discriminate].
  destruct (flt limit (Fin 0)); [discriminate |].
  intros H. inversion H. auto.
Qed.

Lemma dijkstra_contract (g : csgraph) (indices : list Z) (limit : float64)
  (ds : list float64) (pred src : list Z) (q : nat) :
  wf_csgraph g = true ->
  dijkstra g indices limit = (Ok (ds, pred, src), q) ->
  oracle_contract g (map (fun i => Z.to_nat (norm_index (shape0 g) i)) indices) limit
    ds pred src /\ q = 1%nat.
Proof.
  intros Hwf H. apply dijkstra_inv in H. destruct H as [_ [Hidx [_ [-> Hr]]]].
  split; [| reflexivity].
  pose proof (dijkstra_arrays_contract g
                (map (fun i => Z.to_nat (norm_index (shape0 g) i)) indices) limit Hwf) as C.
  rewrite <- Hr in C. simpl in C. apply C.
  intros s Hs. apply in_map_iff in Hs. destruct Hs as [i [<- Hi]].
  rewrite forallb_forall in Hidx. apply index_ok_range. apply Hidx. exact Hi.
Qed.

Lemma dijkstra_runs (g : csgraph) (indices : list Z) (limit : float64) :
  wf_csgraph g = true ->
  forallb (index_ok (shape0 g)) indices = true ->
  flt limit (Fin 0) = false ->
  dijkstra g indices limit =
  (Ok (dijkstra_arrays g (map (fun i => Z.to_nat (norm_index (shape0 g) i)) indices) limit),
   1%nat).
Proof.
  intros Hwf Hidx Hl. unfold dijkstra.
  rewrite (wf_csgraph_square g Hwf), Nat.eqb_refl. simpl.
  rewrite (wf_csgraph_square g Hwf) in Hidx. rewrite Hidx. simpl. rewrite Hl.
  rewrite <- (wf_csgraph_square g Hwf). reflexivity.
Qed.

Arguments dijkstra_inv {g indices limit r q} _.
Arguments dijkstra_contract {g indices limit ds pred src q} _ _.

(** ** The monad *)

Lemma bind_inv {A B : Type} (m : M A) (f : A -> M B) (b : B) (q : nat) :
  bind m f = (Ok b, q) ->
  exists a q1 q2, m = (Ok a, q1) /\ f a = (Ok b, q2) /\ q = (q1 + q2)%nat.
Proof.
  unfold bind. destruct m as [[a | e |] q1]; try discriminate.
  destruct (f a) as [r q2] eqn:E. intros H. inversion H. subst. eauto 6.
Qed.

Lemma ret_inv {A : Type} (a b : A) (q : nat) : ret a = (Ok b, q) -> a = b /\ q = O.
Proof. unfold ret. intros H. inversion H. auto. Qed.

Lemma lift_inv {A : Type} (o : option A) (e : exn) (a : A) (q : nat) :
  lift o e = (Ok a, q) -> o = Some a /\ q = O.
Proof. destruct o; simpl; intros H; inversion H. auto. Qed.

Lemma getitem_inv {A : Type} (l : list A) (i : Z) (a : A) (q : nat) :
  getitem l i = (Ok a, q) -> np_get l i = Some a /\ q = O.
Proof. apply lift_inv. Qed.

Lemma bind_ok {A B : Type} (m : M A) (f : A -> M B) (a : A) :
  m = (Ok a, O) -> bind m f = f a.
Proof. intros ->. unfold bind. destruct (f a). reflexivity. Qed.

Lemma bind_ok1 {A B : Type} (m : M A) (f : A -> M B) (a : A) (b : B) (q : nat) :
  m = (Ok a, 1%nat) -> f a = (Ok b, q) -> bind m f = (Ok b, S q).
Proof. intros -> E. unfold bind. rewrite E. reflexivity. Qed.

Lemma lift_some {A : Type} (o : option A) (e : exn) (a : A) :
  o = Some a -> lift o e = (Ok a, O).
Proof. intros ->. reflexivity. Qed.

Ltac monad_inv H :=
  match type of H with
  | bind _ _ = (Ok _, _) =>
      let a := fresh "a" in let q1 := fresh "q" in let q2 := fresh "q" in
      let H1 := fresh "E" in let H2 := fresh "E" in let Hq := fresh "Eq" in
      apply bind_inv in H; destruct H as [a [q1 [q2 [H1 [H2 Hq]]]]];
      try monad_inv H1; try monad_inv H2
  | ret _ = (Ok _, _) =>
      let H1 := fresh "E" in let Hq := fresh "Eq" in
      apply ret_inv in H; destruct H as [H1 Hq]
  | getitem _ _ = (Ok _, _) =>
      let H1 := fresh "E" in let Hq := fresh "Eq" in
      apply getitem_inv in H; destruct H as [H1 Hq]
  | lift _ _ = (Ok _, _) =>
      let H1 := fresh "E" in let Hq := fresh "Eq" in
      apply lift_inv in H; destruct H as [H1 Hq]
  | raise _ = (Ok _, _) => discriminate H
  | diverge = (Ok _, _) => discriminate H
  end.

(** ** numpy indexing *)

Lemma np_index_vertex (len : nat) (i : Z) :
  0 <= i < Z.of_nat len -> np_index len i = Some (Z.to_nat i).
Proof.
  intros H. unfold np_index.
  destruct (Z.leb_spec 0 i); [| lia]. destruct (Z.ltb_spec i (Z.of_nat len)); [| lia].
  reflexivity.
Qed.

Lemma np_get_nat {A : Type} (l : list A) (i : nat) :
  np_get l (Z.of_nat i) = nth_error l i.
Proof.
  unfold np_get, np_index.
  destruct (Z.leb_spec 0 (Z.of_nat i)); [| lia].
  destruct (Z.ltb_spec (Z.of_nat i) (Z.of_nat (length l))); simpl.
  - rewrite Nat2Z.id. reflexivity.
  - destruct (Z.ltb_spec (Z.of_nat i) 0); [lia |]. rewrite andb_false_r.
    symmetry. apply nth_error_None. lia.
Qed.

Lemma np_get_nonneg {A : Type} (l : list A) (i : Z) :
  0 <= i -> np_get l i = nth_error l (Z.to_nat i).
Proof. intros H. rewrite <- np_get_nat. rewrite Z2Nat.id by exact H. reflexivity. Qed.

Lemma nth_error_combine {A B : Type} (a : list A) (b : list B) (i : nat) :
  nth_error (combine a b) i =
  match nth_error a i, nth_error b i with
  | Some x, Some y => Some (x, y)
  | _, _ => None
  end.
Proof.
  revert b i. induction a as [| x a IH]; intros b i.
  - destruct i; reflexivity.
  - destruct b as [| y b].
    + destruct i; simpl; [reflexivity |]. destruct (nth_error a i); reflexivity.
    + destruct i; simpl; [reflexivity | apply IH].
Qed.

Lemma mask_assign_spec {A : Type} (a a' : list A) (mask : list bool) (c : A) :
  mask_assign a mask c = Some a' ->
  length a = length mask /\ length a' = length a /\
  forall i, nth_error a' i =
            match nth_error a i, nth_error mask i with
            | Some x, Some m => Some (if m then c else x)
            | _, _ => None
            end.
Proof.
  unfold mask_assign. destruct (Nat.eqb_spec (length a) (length mask)) as [E | E]; [| discriminate].
  intros H. inversion H. subst a'. clear H. split; [exact E |]. split.
  - rewrite length_map, length_combine. lia.
  - intros i. rewrite nth_error_map, nth_error_combine.
    destruct (nth_error a i), (nth_error mask i); reflexivity.
Qed.

Arguments mask_assign_spec {A a a' mask c} _.

Lemma mask_assign_some {A : Type} (a : list A) (mask : list bool) (c : A) :
  length a = length mask -> exists a', mask_assign a mask c = Some a'.
Proof.
  intros E. unfold mask_assign. rewrite E, Nat.eqb_refl. eauto.
Qed.

Lemma broadcast2_same {A B C : Type} (f : A -> B -> C) (a : list A) (b : list B) :
  length a = length b ->
  broadcast2 f a b = Some (map (fun p : A * B => f (fst p) (snd p)) (combine a b)).
Proof. intros E. unfold broadcast2. rewrite E, Nat.eqb_refl. reflexivity. Qed.

Lemma nth_error_broadcast {A B C : Type} (f : A -> B -> C) (a : list A) (b : list B) (i : nat) :
  nth_error (map (fun p : A * B => f (fst p) (snd p)) (combine a b)) i =
  match nth_error a i, nth_error b i with
  | Some x, Some y => Some (f x y)
  | _, _ => None
  end.
Proof.
  rewrite nth_error_map, nth_error_combine.
  destruct (nth_error a i), (nth_error b i); reflexivity.
Qed.

Lemma np_sum_pos (valid : list bool) :
  (0 < np_sum valid)%nat <-> exists i, nth_error valid i = Some true.
Proof.
  unfold np_sum. split.
  - intros H. apply (proj2 (count_occ_In bool_dec valid true)) in H.
    apply In_nth_error in H. exact H.
  - intros [i H]. apply (proj1 (count_occ_In bool_dec valid true)).
    eapply nth_error_In; eauto.
Qed.

Lemma take_spec (ds : list float64) (idx : list Z) (r : list float64) (q : nat) :
  take ds idx = (Ok r, q) ->
  q = O /\ Forall2 (fun i x => np_get ds i = Some x) idx r.
Proof.
  revert r q. induction idx as [| i idx IH]; intros r q H; simpl in H.
  - apply ret_inv in H. destruct H as [<- ->]. split; [reflexivity | constructor].
  - apply bind_inv in H. destruct H as (x & q1 & q2 & H1 & H2 & ->).
    apply getitem_inv in H1. destruct H1 as [H1 ->].
    apply bind_inv in H2. destruct H2 as (r' & q3 & q4 & H2 & H3 & ->).
    apply ret_inv in H3. destruct H3 as [<- ->].
    destruct (IH _ _ H2) as [-> F]. split; [reflexivity |].
    constructor; assumption.
Qed.

Arguments take_spec {ds idx r q} _.

Lemma take_some (ds : list float64) (idx : list Z) :
  (forall i, In i idx -> exists x, np_get ds i = Some x) ->
  exists r, take ds idx = (Ok r, O).
Proof.
  induction idx as [| i idx IH]; intros H; simpl.
  - exists []. reflexivity.
  - destruct (H i (or_introl eq_refl)) as [x Hx].
    destruct IH as [r Hr]. { intros j Hj. apply H. right. exact Hj. }
    exists (x :: r). unfold getitem. rewrite Hx. simpl. rewrite Hr. reflexivity.
Qed.

(** ** argmax and argmin *)

Section ArgScan.

Variable worse_eq : float64 -> float64 -> bool.
Hypothesis worse_total :
  forall x y, isnan x = false -> isnan y = false -> worse_eq x y = false -> worse_eq y x = true.
Hypothesis worse_trans :
  forall x y z, worse_eq x y = true -> worse_eq y z = true -> worse_eq x z = true.
Hypothesis worse_refl : forall x, isnan x = false -> worse_eq x x = true.

Lemma arg_scan_spec (a : list float64) :
  forall i best_i best,
    isnan best = false ->
    (forall x, In x a -> isnan x = false) ->
    exists vr,
      ((arg_scan worse_eq a i best_i best = best_i /\ vr = best) \/
       ((i <= arg_scan worse_eq a i best_i best)%nat /\
        nth_error a (arg_scan worse_eq a i best_i best - i) = Some vr /\
        worse_eq vr best = false /\
        forall j x, (j < arg_scan worse_eq a i best_i best - i)%nat ->
                    nth_error a j = Some x -> worse_eq vr x = false)) /\
      worse_eq best vr = true /\
      forall x, In x a -> worse_eq x vr = true.
Proof.
  induction a as [| x a IH]; intros i best_i best Hb Ha; simpl.
  - exists best. split; [left; auto |]. split; [apply worse_refl; exact Hb |].
    intros x [].
  - rewrite Hb. assert (Hx : isnan x = false) by (apply Ha; left; reflexivity).
    assert (Ha' : forall y, In y a -> isnan y = false) by (intros y Hy; apply Ha; right; exact Hy).
    destruct (worse_eq x best) eqn:Hxb.
    + destruct (IH (S i) best_i best Hb Ha') as [vr [Hr [Hbv Hall]]].
      exists vr. split; [| split; [exact Hbv |]].
      * destruct Hr as [Hr | [Hle [Hn [Hvb Hfirst]]]]; [left; exact Hr |].
        right. set (r := arg_scan worse_eq a (S i) best_i best) in *.
        split; [lia |].
        replace (r - i)%nat with (S (r - S i)) by lia. simpl.
        split; [exact Hn |]. split; [exact Hvb |].
        intros j y Hj Hy. destruct j as [| j]; simpl in Hy.
        -- inversion Hy. subst y. destruct (worse_eq vr x) eqn:E; [| reflexivity].
           rewrite (worse_trans _ _ _ E Hxb) in Hvb. discriminate.
        -- apply (Hfirst j); [lia | exact Hy].
      * intros y [<- | Hy]; [eapply worse_trans; eauto | apply Hall; exact Hy].
    + destruct (IH (S i) i x Hx Ha') as [vr [Hr [Hxv Hall]]].
      pose proof (worse_total _ _ Hx Hb Hxb) as Hbx.
      exists vr. split; [| split; [eapply worse_trans; eauto |]].
      * right. set (r := arg_scan worse_eq a (S i) i x) in *.
        destruct Hr as [[Hr ->] | [Hle [Hn [Hvx Hfirst]]]].
        -- rewrite Hr. replace (i - i)%nat with O by lia. simpl.
           split; [lia |]. split; [reflexivity |]. split; [exact Hxb |].
           intros j y Hj. lia.
        -- split; [lia |]. replace (r - i)%nat with (S (r - S i)) by lia. simpl.
           split; [exact Hn |]. split.
           ++ destruct (worse_eq vr best) eqn:E; [| reflexivity].
              rewrite (worse_trans _ _ _ E Hbx) in Hvx. discriminate.
           ++ intros j y Hj Hy. destruct j as [| j]; simpl in Hy.
              ** inversion Hy. subst y. exact Hvx.
              ** apply (Hfirst j); [lia | exact Hy].
      * intros y [<- | Hy]; [exact Hxv | apply Hall; exact Hy].
Qed.

End ArgScan.

Lemma fle_total (x y : float64) :
  isnan x = false -> isnan y = false -> fle x y = false -> fle y x = true.
Proof.
  destruct x, y; simpl; intros H1 H2 H; try discriminate; try reflexivity.
  apply Z.leb_gt in H. apply Z.leb_le. lia.
Qed.

Lemma fle_trans (x y z : float64) : fle x y = true -> fle y z = true -> fle x z = true.
Proof.
  destruct x, y, z; simpl; intros H1 H2; try discriminate; try reflexivity.
  apply Z.leb_le in H1. apply Z.leb_le in H2. apply Z.leb_le. lia.
Qed.

Lemma fle_refl (x : float64) : isnan x = false -> fle x x = true.
Proof. destruct x; simpl; intros H; try discriminate; try reflexivity. apply Z.leb_refl. Qed.

(** [np.argmin] on an array without NaN returns the first minimum. *)
Lemma np_argmin_spec (l : list float64) {m : nat} :
  (forall x, In x l -> isnan x = false) ->
  np_argmin l = Some m ->
  exists vm, nth_error l m = Some vm /\
             (forall x, In x l -> fle vm x = true) /\
             (forall j x, (j < m)%nat -> nth_error l j = Some x -> fle x vm = false).
Proof.
  intros Hl H. destruct l as [| x a]; [discriminate |]. simpl in H. injection H as Hm.
  destruct (arg_scan_spec (fun x best => fle best x)
              (fun x y H1 H2 H => fle_total y x H2 H1 H)
              (fun x y z H1 H2 => fle_trans z y x H2 H1)
              fle_refl a 1%nat O x) as [vr [Hr [Hxv Hall]]].
  { apply Hl. left. reflexivity. }
  { intros y Hy. apply Hl. right. exact Hy. }
  rewrite Hm in Hr. exists vr. destruct Hr as [[-> ->] | [Hle [Hn [Hvb Hfirst]]]].
  - split; [reflexivity |]. split.
    + intros y [<- | Hy]; [apply fle_refl; apply Hl; left; reflexivity | apply Hall; exact Hy].
    + intros j y Hj. lia.
  - destruct m as [| m]; [lia |]. simpl. replace (S m - 1)%nat with m in * by lia.
    split; [exact Hn |]. split.
    + intros y [<- | Hy]; [exact Hxv | apply Hall; exact Hy].
    + intros j y Hj Hy. destruct j as [| j]; simpl in Hy.
      * inversion Hy. subst y. exact Hvb.
      * apply (Hfirst j); [lia | exact Hy].
Qed.

(** [np.argmax] on an array without NaN returns the first maximum. *)
Lemma np_argmax_spec (l : list float64) {m : nat} :
  (forall x, In x l -> isnan x = false) ->
  np_argmax l = Some m ->
  exists vm, nth_error l m = Some vm /\
             (forall x, In x l -> fle x vm = true) /\
             (forall j x, (j < m)%nat -> nth_error l j = Some x -> fle vm x = false).
Proof.
  intros Hl H. destruct l as [| x a]; [discriminate |]. simpl in H. injection H as Hm.
  destruct (arg_scan_spec fle fle_total fle_trans fle_refl a 1%nat O x) as [vr [Hr [Hxv Hall]]].
  { apply Hl. left. reflexivity. }
  { intros y Hy. apply Hl. right. exact Hy. }
  rewrite Hm in Hr. exists vr. destruct Hr as [[-> ->] | [Hle [Hn [Hvb Hfirst]]]].
  - split; [reflexivity |]. split.
    + intros y [<- | Hy]; [apply fle_refl; apply Hl; left; reflexivity | apply Hall; exact Hy].
    + intros j y Hj. lia.
  - destruct m as [| m]; [lia |]. simpl. replace (S m - 1)%nat with m in * by lia.
    split; [exact Hn |]. split.
    + intros y [<- | Hy]; [exact Hxv | apply Hall; exact Hy].
    + intros j y Hj Hy. destruct j as [| j]; simpl in Hy.
      * inversion Hy. subst y. exact Hvb.
      * apply (Hfirst j); [lia | exact Hy].
Qed.

Lemma np_argmin_some (l : list float64) : l <> [] -> exists m, np_argmin l = Some m.
Proof. destruct l; [congruence |]. simpl. eauto. Qed.

Lemma np_argmax_some {l : list float64} : l <> [] -> exists m, np_argmax l = Some m.
Proof. destruct l; [congruence |]. simpl. eauto. Qed.

(** ** get_path *)

Lemma get_path_loop_spec (root : Z) (pred : list Z) :
  forall fuel p acc l q,
    get_path_loop fuel root pred p (acc ++ [p]) = (Ok l, q) ->
    q = O /\ exists l', follows pred root p l' /\ l = acc ++ l'.
Proof.
  induction fuel as [| fuel IH]; intros p acc l q H; simpl in H;
    destruct (Z.eqb_spec p root) as [-> | Hne].
  - apply ret_inv in H. destruct H as [<- ->]. split; [reflexivity |].
    exists [root]. split; [constructor | reflexivity].
  - discriminate.
  - apply ret_inv in H. destruct H as [<- ->]. split; [reflexivity |].
    exists [root]. split; [constructor | reflexivity].
  - apply bind_inv in H. destruct H as (p' & q1 & q2 & H1 & H2 & ->).
    apply getitem_inv in H1. destruct H1 as [H1 ->].
    destruct (IH p' (acc ++ [p]) l q2 H2) as [-> [l' [Hf ->]]].
    split; [reflexivity |]. exists (p :: l'). split.
    + econstructor; eauto.
    + rewrite <- app_assoc. reflexivity.
Qed.

Lemma get_path_spec (fuel : nat) (root target : Z) (pred : list Z) (path : list Z) (q : nat) :
  get_path fuel root target pred = (Ok path, q) ->
  q = O /\ exists l', follows pred root target l' /\ path = rev l'.
Proof.
  unfold get_path. intros H.
  apply bind_inv in H. destruct H as (l & q1 & q2 & H1 & H2 & ->).
  apply ret_inv in H2. destruct H2 as [<- ->].
  destruct (get_path_loop_spec root pred fuel target [] l q1 H1) as [-> [l' [Hf ->]]].
  split; [reflexivity |]. exists l'. auto.
Qed.

Arguments get_path_spec {fuel root target pred path q} _.

Lemma get_path_loop_runs {root : Z} {pred : list Z} {p : Z} {l' : list Z} :
  follows pred root p l' ->
  forall fuel acc, (length l' <= S fuel)%nat ->
                   get_path_loop fuel root pred p (acc ++ [p]) = (Ok (acc ++ l'), O).
Proof.
  induction 1 as [| p p' l Hne Hget Hf IH]; intros fuel acc Hlen.
  - destruct fuel; simpl; rewrite Z.eqb_refl; reflexivity.
  - assert (Hl : (1 <= length l)%nat) by (inversion Hf; simpl; lia).
    destruct fuel as [| fuel]; [simpl in Hlen; lia |].
    simpl. destruct (Z.eqb_spec p root) as [E | _]; [contradiction |].
    unfold getitem. rewrite Hget. simpl.
    rewrite (IH fuel (acc ++ [p])); [| simpl in Hlen; lia].
    rewrite <- app_assoc. reflexivity.
Qed.

Lemma get_path_runs (fuel : nat) (root target : Z) (pred : list Z) (l' : list Z) :
  follows pred root target l' -> (length l' <= S fuel)%nat ->
  get_path fuel root target pred = (Ok (rev l'), O).
Proof.
  intros Hf Hlen. unfold get_path.
  pose proof (get_path_loop_runs Hf fuel [] Hlen) as E. simpl in E.
  rewrite E. reflexivity.
Qed.

Arguments get_path_runs fuel {root target pred l'} _ _.

Lemma follows_head (pred : list Z) (r p : Z) (l : list Z) :
  follows pred r p l -> exists l', l = p :: l'.
Proof. intros H. inversion H; eauto. Qed.

Arguments follows_head {pred r p l} _.

Lemma follows_last (pred : list Z) (r p : Z) (l : list Z) :
  follows pred r p l -> exists l', l = l' ++ [r].
Proof.
  induction 1 as [| p p' l Hne Hget Hf [l' ->]].
  - exists []. reflexivity.
  - exists (p :: l'). reflexivity.
Qed.

Arguments follows_last {pred r p l} _.

(** ** The climb to the first visited vertex *)

Lemma existsb_Zeqb_In (l : list Z) (v : Z) : existsb (Z.eqb v) l = true <-> In v l.
Proof.
  rewrite existsb_exists. split.
  - intros [x [Hx He]]. apply Z.eqb_eq in He. subst. exact Hx.
  - intros H. exists v. split; [exact H | apply Z.eqb_refl].
Qed.

Lemma find_max_branch_in (root_pred : option (list Z)) (visited : list Z) :
  forall fuel p b q,
    find_max_branch fuel root_pred visited p = (Ok b, q) -> q = O /\ In b visited.
Proof.
  induction fuel as [| fuel IH]; intros p b q H; simpl in H;
    destruct (existsb (Z.eqb p) visited) eqn:E.
  - apply ret_inv in H. destruct H as [<- ->]. apply existsb_Zeqb_In in E. auto.
  - discriminate.
  - apply ret_inv in H. destruct H as [<- ->]. apply existsb_Zeqb_In in E. auto.
  - destruct root_pred as [rp |]; [| discriminate].
    apply bind_inv in H. destruct H as (p' & q1 & q2 & H1 & H2 & ->).
    apply getitem_inv in H1. destruct H1 as [H1 ->].
    destruct (IH _ _ _ H2) as [-> Hin]. auto.
Qed.

Arguments find_max_branch_in {root_pred visited fuel p b q} _.

Lemma find_max_branch_climbs (rp : list Z) (visited : list Z) :
  forall fuel p b q,
    find_max_branch fuel (Some rp) visited p = (Ok b, q) ->
    exists n, climbs rp visited n p b.
Proof.
  induction fuel as [| fuel IH]; intros p b q H; simpl in H;
    destruct (existsb (Z.eqb p) visited) eqn:E.
  - apply ret_inv in H. destruct H as [<- ->]. apply existsb_Zeqb_In in E.
    exists O. constructor. exact E.
  - discriminate.
  - apply ret_inv in H. destruct H as [<- ->]. apply existsb_Zeqb_In in E.
    exists O. constructor. exact E.
  - apply bind_inv in H. destruct H as (p' & q1 & q2 & H1 & H2 & ->).
    apply getitem_inv in H1. destruct H1 as [H1 ->].
    destruct (IH _ _ _ H2) as [n Hc]. exists (S n). econstructor; eauto.
    intros Hin. apply existsb_Zeqb_In in Hin. congruence.
Qed.

Arguments find_max_branch_climbs {rp visited fuel p b q} _.

Lemma find_max_branch_runs (rp : list Z) (visited : list Z) (n : nat) (p b : Z) :
  climbs rp visited n p b ->
  forall fuel, (n <= fuel)%nat -> find_max_branch fuel (Some rp) visited p = (Ok b, O).
Proof.
  induction 1 as [p Hin | n p p' b Hnin Hget Hc IH]; intros fuel Hf.
  - apply existsb_Zeqb_In in Hin. destruct fuel; simpl; rewrite Hin; reflexivity.
  - destruct fuel as [| fuel]; [lia |]. simpl.
    destruct (existsb (Z.eqb p) visited) eqn:E.
    + apply existsb_Zeqb_In in E. contradiction.
    + unfold getitem. rewrite Hget. simpl. rewrite (IH fuel); [reflexivity | lia].
Qed.

Arguments find_max_branch_runs {rp visited n p b} _ _ _.

(** ** Target selection *)

Lemma select_target_inv (root_ds : list float64) (valid : list bool) (t : Z) (q : nat) :
  select_target root_ds valid = (Ok t, q) ->
  q = O /\
  exists prod tn d,
    broadcast2 fmul_bool root_ds valid = Some prod /\
    np_nanargmax prod = Some tn /\ t = Z.of_nat tn /\
    nth_error root_ds tn = Some d /\ isinf d = false.
Proof.
  unfold select_target. intros H.
  apply bind_inv in H. destruct H as (prod & q1 & q2 & H1 & H2 & ->).
  apply lift_inv in H1. destruct H1 as [H1 ->].
  apply bind_inv in H2. destruct H2 as (tn & q3 & q4 & H2 & H3 & ->).
  apply lift_inv in H2. destruct H2 as [H2 ->].
  apply bind_inv in H3. destruct H3 as (d & q5 & q6 & H3 & H4 & ->).
  apply getitem_inv in H3. destruct H3 as [H3 ->]. rewrite np_get_nat in H3.
  destruct (isinf d) eqn:Hd; [discriminate |].
  apply ret_inv in H4. destruct H4 as [<- ->].
  split; [reflexivity |]. exists prod, tn, d. auto.
Qed.

Arguments select_target_inv {root_ds valid t q} _.

(** On an array of finite cells and NaN holding a finite cell,
    [np.nanargmax] finds the first largest finite cell. *)
Lemma np_nanargmax_fin (l : list float64) :
  (forall x, In x l -> x = NaN \/ exists d, x = Fin d) ->
  (exists d0, In (Fin d0) l) ->
  exists t d, np_nanargmax l = Some t /\ nth_error l t = Some (Fin d) /\
              (forall j e, nth_error l j = Some (Fin e) -> e <= d) /\
              (forall j e, (j < t)%nat -> nth_error l j = Some (Fin e) -> e < d).
Proof.
  intros Hl [d0 Hd0]. unfold np_nanargmax.
  assert (Hnot : forallb isnan l = false).
  { destruct (forallb isnan l) eqn:E; [| reflexivity].
    rewrite forallb_forall in E. specialize (E _ Hd0). discriminate. }
  rewrite Hnot.
  set (f := fun x : float64 => if isnan x then NInf else x).
  assert (Hne : map f l <> []). { destruct l; [destruct Hd0 | discriminate]. }
  destruct (np_argmax_some Hne) as [t Ht].
  assert (Hnn : forall x, In x (map f l) -> isnan x = false).
  { intros x Hx. apply in_map_iff in Hx. destruct Hx as [y [<- Hy]].
    unfold f. destruct y; reflexivity. }
  destruct (np_argmax_spec (map f l) Hnn Ht) as [vm [Hn [Hall Hfirst]]].
  rewrite nth_error_map in Hn. destruct (nth_error l t) as [y |] eqn:Hy; [| discriminate].
  simpl in Hn. injection Hn as Hvm.
  assert (H0 : fle (Fin d0) vm = true).
  { apply Hall. apply in_map_iff. exists (Fin d0). auto. }
  destruct (Hl y (nth_error_In _ _ Hy)) as [-> | [d ->]].
  - unfold f in Hvm. simpl in Hvm. subst vm. discriminate.
  - unfold f in Hvm. simpl in Hvm. subst vm.
    exists t, d. split; [exact Ht |]. split; [exact Hy |]. split.
    + intros j e Hj. apply fle_Fin. apply Hall. apply in_map_iff.
      exists (Fin e). split; [reflexivity | eapply nth_error_In; eauto].
    + intros j e Hlt Hj.
      assert (E : fle (Fin d) (Fin e) = false).
      { apply (Hfirst j); [exact Hlt |]. rewrite nth_error_map, Hj. reflexivity. }
      simpl in E. apply Z.leb_gt in E. exact E.
Qed.

(** ** One iteration of the loop, decomposed *)

Lemma bind_intro {A B : Type} (m : M A) (f : A -> M B) (a : A) (b : B) (q1 q2 : nat) :
  m = (Ok a, q1) -> f a = (Ok b, q2) -> bind m f = (Ok b, (q1 + q2)%nat).
Proof. intros -> E. unfold bind. rewrite E. reflexivity. Qed.

Lemma getitem_some {A : Type} (l : list A) (i : Z) (a : A) :
  np_get l i = Some a -> getitem l i = (Ok a, O).
Proof. intros H. unfold getitem. rewrite H. reflexivity. Qed.

Lemma teasar_iteration_inv (fuel : nat) (g : csgraph) (root_ds : list float64)
  (root_pred : option (list Z)) (invalidation_d : float64) (st st' : teasar_state) (q : nat) :
  teasar_iteration fuel g root_ds root_pred invalidation_d st = (Ok st', q) ->
  q = 2%nat /\ exists tr, iteration_of fuel g root_ds root_pred invalidation_d st tr st'.
Proof.
  unfold teasar_iteration. intros H.
  apply bind_inv in H. destruct H as (target & q1 & q2 & Hsel & H & ->).
  pose proof (select_target_inv Hsel) as [-> _].
  apply bind_inv in H. destruct H as (max_branch & q3 & q4 & Hmb & H & ->).
  pose proof (find_max_branch_in Hmb) as [-> _].
  apply bind_inv in H. destruct H as (d_target & q5 & q6 & Hdt & H & ->).
  apply getitem_inv in Hdt. destruct Hdt as [Hdt ->].
  apply bind_inv in H. destruct H as (d_branch & q7 & q8 & Hdb & H & ->).
  apply getitem_inv in Hdb. destruct Hdb as [Hdb ->].
  apply bind_inv in H. destruct H as ([[ds pred_t] src] & q9 & q10 & Hdij & H & ->).
  pose proof (dijkstra_inv Hdij) as (_ & _ & _ & -> & _).
  apply bind_inv in H. destruct H as (ds_visited & q11 & q12 & Htake & H & ->).
  pose proof (take_spec Htake) as [-> _].
  apply bind_inv in H. destruct H as (min_node & q13 & q14 & Hmin & H & ->).
  apply lift_inv in Hmin. destruct Hmin as [Hmin ->].
  apply bind_inv in H. destruct H as (branch & q15 & q16 & Hbr & H & ->).
  apply lift_inv in Hbr. destruct Hbr as [Hbr ->].
  apply bind_inv in H. destruct H as (path & q17 & q18 & Hpath & H & ->).
  pose proof (get_path_spec Hpath) as [-> _].
  apply bind_inv in H. destruct H as (length_ & q19 & q20 & Hlen & H & ->).
  apply getitem_inv in Hlen. destruct Hlen as [Hlen ->].
  destruct (isinf length_) eqn:Hinf; [discriminate |].
  apply bind_inv in H. destruct H as ([[dm pred_m] sources] & q21 & q22 & Hsweep & H & ->).
  pose proof (dijkstra_inv Hsweep) as (_ & _ & _ & -> & _).
  apply bind_inv in H. destruct H as (mts & q23 & q24 & Hmts & H & ->).
  apply bind_inv in H. destruct H as (valid' & q25 & q26 & Hvalid & H & ->).
  apply lift_inv in Hvalid. destruct Hvalid as [Hvalid ->].
  apply ret_inv in H. destruct H as [<- ->].
  assert (Hq : q23 = O /\
               match mesh_to_skeleton st with
               | None => mts = None
               | Some (dist, map) =>
                   exists r, update_map dm sources dist map = Some r /\ mts = Some r
               end).
  { destruct (mesh_to_skeleton st) as [[dist map] |].
    - apply bind_inv in Hmts. destruct Hmts as (r & q27 & q28 & Hr & Hret & ->).
      apply lift_inv in Hr. destruct Hr as [Hr ->].
      apply ret_inv in Hret. destruct Hret as [<- ->]. split; [reflexivity | eauto].
    - apply ret_inv in Hmts. destruct Hmts as [<- ->]. auto. }
  destruct Hq as [-> Hmesh]. split; [reflexivity |].
  exists {| it_target := target; it_max_branch := max_branch;
            it_max_path_length := fsub d_target d_branch;
            it_ds := ds; it_pred := pred_t; it_branch := branch; it_path := path;
            it_length := length_; it_dm := dm; it_sources := sources |}.
  unfold iteration_of. simpl.
  repeat (split; [solve [eauto 8] |]). reflexivity.
Qed.

Arguments teasar_iteration_inv {fuel g root_ds root_pred invalidation_d st st' q} _.

Lemma teasar_iteration_of_trace (fuel : nat) (g : csgraph) (root_ds : list float64)
  (root_pred : option (list Z)) (invalidation_d : float64) (st st' : teasar_state)
  (tr : iter_trace) :
  iteration_of fuel g root_ds root_pred invalidation_d st tr st' ->
  teasar_iteration fuel g root_ds root_pred invalidation_d st = (Ok st', 2%nat).
Proof.
  intros (Hsel & Hmb & (d_target & d_branch & Hdt & Hdb & Hmpl) & (src & Hdij) &
          (ds_visited & min_node & Htake & Hmin & Hbr) & Hpath & Hlen & Hinf &
          (pred_m & Hsweep) & Hmesh & Hvalid & Hvis & Hpaths & Hlens & Hk).
  assert (E : exists q, teasar_iteration fuel g root_ds root_pred invalidation_d st
                        = (Ok st', q)).
  { unfold teasar_iteration. eexists.
    eapply bind_intro; [exact Hsel |].
    eapply bind_intro; [exact Hmb |].
    eapply bind_intro; [apply getitem_some; exact Hdt |].
    eapply bind_intro; [apply getitem_some; exact Hdb |].
    cbv zeta. rewrite <- Hmpl.
    eapply bind_intro; [exact Hdij |]. cbv beta iota.
    eapply bind_intro; [exact Htake |].
    eapply bind_intro; [apply lift_some; exact Hmin |].
    eapply bind_intro; [apply lift_some; exact Hbr |].
    eapply bind_intro; [exact Hpath |].
    eapply bind_intro; [apply getitem_some; exact Hlen |].
    rewrite Hinf.
    eapply bind_intro; [exact Hsweep |]. cbv beta iota.
    eapply (bind_intro _ _ (mesh_to_skeleton st') _ O).
    { destruct (mesh_to_skeleton st) as [[dist map] |].
      - destruct Hmesh as [r [Hr Hm]]. rewrite Hm.
        unfold lift. rewrite Hr. reflexivity.
      - rewrite Hmesh. reflexivity. }
    eapply bind_intro; [apply lift_some; exact Hvalid |].
    unfold ret. f_equal. f_equal.
    destruct st' as [v' vn' p' pl' m' k']. simpl in *. subst vn' p' pl' k'.
    reflexivity. }
  destruct E as [q E]. pose proof (teasar_iteration_inv E) as [-> _]. exact E.
Qed.

Arguments teasar_iteration_of_trace {fuel g root_ds root_pred invalidation_d st st' tr} _.

(** ** The loop and the reachable states *)

Lemma teasar_loop_reachable (inner : nat) (g : csgraph) (root_ds : list float64)
  (root_pred : option (list Z)) (invalidation_d : float64) (st0 : teasar_state) :
  forall fuel st st_f q,
    reachable inner g root_ds root_pred invalidation_d st0 st ->
    teasar_loop fuel inner g root_ds root_pred invalidation_d st = (Ok st_f, q) ->
    reachable inner g root_ds root_pred invalidation_d st0 st_f /\
    np_sum (valid st_f) = O.
Proof.
  induction fuel as [| fuel IH]; intros st st_f q Hr H; simpl in H;
    destruct (Nat.ltb_spec 0 (np_sum (valid st))) as [Hpos | Hzero].
  - discriminate.
  - apply ret_inv in H. destruct H as [<- _]. split; [exact Hr | lia].
  - apply bind_inv in H. destruct H as (st' & q1 & q2 & Hit & Hloop & ->).
    apply (IH st' st_f q2); [| exact Hloop]. econstructor; eauto.
  - apply ret_inv in H. destruct H as [<- _]. split; [exact Hr | lia].
Qed.

(** ** The provider's contract at the call sites *)

Lemma norm_index_nonneg (n : nat) {i : Z} : 0 <= i -> norm_index n i = i.
Proof. intros H. unfold norm_index. destruct (Z.ltb_spec i 0); [lia | reflexivity]. Qed.

Lemma index_ok_vertex (g : csgraph) (i : Z) :
  0 <= i -> index_ok (shape0 g) i = true -> vertex g i.
Proof.
  intros H0 H. unfold index_ok in H. rewrite (norm_index_nonneg _ H0) in H.
  apply andb_prop in H. destruct H as [_ H]. apply Z.ltb_lt in H. split; assumption.
Qed.

Lemma vertex_index_ok (g : csgraph) (i : Z) : vertex g i -> index_ok (shape0 g) i = true.
Proof.
  intros [H0 H1]. unfold index_ok. rewrite (norm_index_nonneg _ H0).
  apply andb_true_intro. split; [apply Z.leb_le | apply Z.ltb_lt]; assumption.
Qed.

Lemma map_norm_nonneg (n : nat) {l : list Z} :
  Forall (fun i => 0 <= i) l ->
  map (fun i => Z.to_nat (norm_index n i)) l = map Z.to_nat l.
Proof.
  induction 1 as [| i l Hi Hl IH]; simpl; [reflexivity |].
  rewrite (norm_index_nonneg _ Hi), IH. reflexivity.
Qed.

Lemma dijkstra_contract_nonneg {g : csgraph} {indices : list Z} {limit : float64}
  {ds : list float64} {pred src : list Z} {q : nat} :
  wf_csgraph g = true ->
  Forall (fun i => 0 <= i) indices ->
  dijkstra g indices limit = (Ok (ds, pred, src), q) ->
  Forall (vertex g) indices /\
  oracle_contract g (map Z.to_nat indices) limit ds pred src.
Proof.
  intros Hwf Hnn H. pose proof (dijkstra_contract Hwf H) as [C _].
  rewrite (map_norm_nonneg _ Hnn) in C. split; [| exact C].
  apply dijkstra_inv in H. destruct H as (_ & Hok & _).
  rewrite forallb_forall in Hok. rewrite Forall_forall in *.
  intros i Hi. apply index_ok_vertex; auto.
Qed.

Lemma contract_reached_lt {g : csgraph} {srcs : list nat} {limit : float64}
  {ds : list float64} {pred src : list Z} (v : nat) (x : float64) :
  oracle_contract g srcs limit ds pred src ->
  nth_error ds v = Some x -> (v < shape0 g)%nat.
Proof.
  intros C H. rewrite <- (oc_len_ds C). apply nth_error_Some. congruence.
Qed.

Lemma contract_cell_some {g : csgraph} {srcs : list nat} {limit : float64}
  {ds : list float64} {pred src : list Z} (v : nat) :
  oracle_contract g srcs limit ds pred src ->
  (v < shape0 g)%nat -> exists x, nth_error ds v = Some x.
Proof.
  intros C H. rewrite <- (oc_len_ds C) in H. apply nth_error_Some in H.
  destruct (nth_error ds v); [eauto | congruence].
Qed.

(** Every walk has an exact distance below it. *)
Lemma shortest_exists (g : csgraph) (srcs : list nat) (s v : nat) (l : Z) :
  wf_csgraph g = true ->
  (forall x, In x srcs -> (x < shape0 g)%nat) ->
  In s srcs -> walk g s v l ->
  exists d, shortest g srcs v d /\ d <= l.
Proof.
  intros Hwf Hsrcs Hs Hw.
  pose proof (dijkstra_arrays_contract g srcs PInf Hwf Hsrcs) as C.
  pose proof (walk_range Hwf Hw) as [_ [Hv _]].
  destruct (contract_cell_some v C Hv) as [x Hx].
  destruct (oc_cell C _ _ Hx) as [-> | [d ->]].
  - pose proof (oc_far C _ _ _ Hx Hs Hw) as E. discriminate.
  - destruct (oc_sound C _ _ Hx) as [Hsh _]. exists d. split; [exact Hsh |].
    destruct Hsh as [_ Hmin]. eapply Hmin; eauto.
Qed.

Lemma shortest_unique (g : csgraph) (srcs : list nat) (v : nat) (d1 d2 : Z) :
  shortest g srcs v d1 -> shortest g srcs v d2 -> d1 = d2.
Proof.
  intros [[s1 [Hs1 Hw1]] Hm1] [[s2 [Hs2 Hw2]] Hm2].
  pose proof (Hm1 _ _ Hs2 Hw2). pose proof (Hm2 _ _ Hs1 Hw1). lia.
Qed.

(** A vertex with a walk of length within the radius is reached. *)
Lemma contract_reaches {g : csgraph} {srcs : list nat} {limit : float64}
  {ds : list float64} {pred src : list Z} (s v : nat) (l : Z) :
  wf_csgraph g = true ->
  oracle_contract g srcs limit ds pred src ->
  In s srcs -> walk g s v l -> fle (Fin l) limit = true ->
  exists d, nth_error ds v = Some (Fin d) /\ d <= l /\ shortest g srcs v d.
Proof.
  intros Hwf C Hs Hw Hl.
  pose proof (walk_range Hwf Hw) as [_ [Hv _]].
  destruct (contract_cell_some v C Hv) as [x Hx].
  destruct (oc_cell C _ _ Hx) as [-> | [d ->]].
  - pose proof (oc_far C _ _ _ Hx Hs Hw) as E. congruence.
  - destruct (oc_sound C _ _ Hx) as [Hsh _]. exists d. split; [exact Hx |].
    split; [| exact Hsh]. destruct Hsh as [_ Hmin]. eapply Hmin; eauto.
Qed.

(** ** Predecessor chains under the contract *)

Lemma chain_snoc (g : csgraph) (l : list Z) (a b : Z) :
  chain g (l ++ [a]) -> edge g a b -> chain g ((l ++ [a]) ++ [b]).
Proof.
  induction l as [| x l IH]; intros Hc He.
  - simpl. auto.
  - simpl in Hc. simpl. destruct (l ++ [a]) as [| y r] eqn:E.
    + destruct l; discriminate.
    + destruct Hc as [Hxy Hc]. simpl. split; [exact Hxy |]. apply IH; assumption.
Qed.

Section PredChains.

Variables (g : csgraph) (s : nat) (limit : float64).
Variables (ds : list float64) (pred src : list Z).
Hypothesis C : oracle_contract g [s] limit ds pred src.

Lemma pred_step {v : nat} {d : Z} :
  nth_error ds v = Some (Fin d) -> v <> s ->
  exists u w, np_get pred (Z.of_nat v) = Some (Z.of_nat u) /\
              In (v, w) (neighbors g u) /\
              nth_error ds u = Some (Fin (d - Z.of_N w)) /\ (u < shape0 g)%nat.
Proof.
  intros Hv Hne. destruct (oc_pred C) as [rank [_ Hp]].
  destruct (Hp v d Hv) as [u [w [P1 [P2 [P3 _]]]]].
  { intros [E | []]. congruence. }
  exists u, w. rewrite np_get_nat. repeat split; auto.
  eapply contract_reached_lt; eauto.
Qed.

Lemma follows_reached (p : Z) (l : list Z) :
  follows pred (Z.of_nat s) p l ->
  0 <= p -> (exists d, nth_error ds (Z.to_nat p) = Some (Fin d)) ->
  Forall (vertex g) l /\ chain g (rev l) /\
  Forall (fun v => exists d, nth_error ds (Z.to_nat v) = Some (Fin d)) l.
Proof.
  induction 1 as [| p p' l Hne Hget Hf IH]; intros Hp [d Hd].
  - assert (Hv : vertex g (Z.of_nat s)).
    { rewrite Nat2Z.id in Hd. pose proof (contract_reached_lt _ _ C Hd). split; lia. }
    split; [constructor; [exact Hv | constructor] |].
    split; [simpl; exact I |]. constructor; [eauto | constructor].
  - assert (Hps : Z.to_nat p <> s) by (intros E; apply Hne; lia).
    destruct (pred_step Hd Hps) as [u [w [P1 [P2 [P3 P4]]]]].
    rewrite Z2Nat.id in P1 by exact Hp. rewrite Hget in P1. injection P1 as ->.
    destruct IH as [IH1 [IH2 IH3]]; [lia | rewrite Nat2Z.id; eauto |].
    assert (Hvp : vertex g p).
    { pose proof (contract_reached_lt _ _ C Hd). split; lia. }
    split; [constructor; assumption |]. split; [| constructor; [eauto | exact IH3]].
    destruct (follows_head Hf) as [l0 ->]. simpl in *.
    apply chain_snoc; [exact IH2 |].
    split; [inversion IH1; assumption |]. split; [exact Hvp |].
    exists w. rewrite Nat2Z.id. exact P2.
Qed.

Lemma follows_exists :
  forall v d, nth_error ds v = Some (Fin d) ->
              exists l, follows pred (Z.of_nat s) (Z.of_nat v) l /\
                        (length l <= S (shape0 g))%nat.
Proof.
  destruct (oc_pred C) as [rank [Hbound Hp]].
  assert (H : forall r v d, (rank v <= r)%nat -> nth_error ds v = Some (Fin d) ->
                            exists l, follows pred (Z.of_nat s) (Z.of_nat v) l /\
                                      (length l <= S r)%nat).
  { induction r as [| r IH]; intros v d Hr Hv.
    - destruct (Nat.eq_dec v s) as [-> | Hne].
      + exists [Z.of_nat s]. split; [constructor | simpl; lia].
      + destruct (Hp v d Hv) as [u [w [_ [_ [_ [_ Hlt]]]]]]; [| lia].
        intros [E | []]. congruence.
    - destruct (Nat.eq_dec v s) as [-> | Hne].
      + exists [Z.of_nat s]. split; [constructor | simpl; lia].
      + destruct (Hp v d Hv) as [u [w [P1 [_ [P3 [_ Hlt]]]]]].
        { intros [E | []]. congruence. }
        destruct (IH u _ ltac:(lia) P3) as [l [Hf Hlen]].
        exists (Z.of_nat v :: l). split; [| simpl; lia].
        econstructor; [lia | rewrite np_get_nat; exact P1 | exact Hf]. }
  intros v d Hv. apply (H (shape0 g) v d (Hbound v) Hv).
Qed.

Lemma climbs_bound (visited : list Z) (n : nat) (p b : Z) :
  climbs pred visited n p b ->
  In (Z.of_nat s) visited ->
  forall dp, 0 <= p -> nth_error ds (Z.to_nat p) = Some (Fin dp) ->
  0 <= b /\ In b visited /\
  exists db, nth_error ds (Z.to_nat b) = Some (Fin db) /\
             walk g (Z.to_nat b) (Z.to_nat p) (dp - db).
Proof.
  induction 1 as [p Hin | n p p' b Hnin Hget Hc IH]; intros Hs dp Hp Hd.
  - split; [exact Hp |]. split; [exact Hin |]. exists dp. split; [exact Hd |].
    replace (dp - dp) with 0 by lia. constructor. eapply contract_reached_lt; eauto.
  - assert (Hps : Z.to_nat p <> s).
    { intros E. apply Hnin. replace p with (Z.of_nat s) by lia. exact Hs. }
    destruct (pred_step Hd Hps) as [u [w [P1 [P2 [P3 P4]]]]].
    rewrite Z2Nat.id in P1 by exact Hp. rewrite Hget in P1. injection P1 as ->.
    destruct (IH Hs (dp - Z.of_N w)) as [Hb [Hbin [db [Hdb Hw]]]];
      [lia | rewrite Nat2Z.id; exact P3 |].
    split; [exact Hb |]. split; [exact Hbin |]. exists db. split; [exact Hdb |].
    rewrite Nat2Z.id in Hw.
    replace (dp - db) with ((dp - Z.of_N w - db) + Z.of_N w) by lia.
    eapply walk_edge; eauto.
Qed.

Lemma climbs_exists (visited : list Z) :
  In (Z.of_nat s) visited ->
  forall v d, nth_error ds v = Some (Fin d) ->
              exists n b, climbs pred visited n (Z.of_nat v) b /\ (n <= shape0 g)%nat.
Proof.
  intros Hs. destruct (oc_pred C) as [rank [Hbound Hp]].
  assert (H : forall r v d, (rank v <= r)%nat -> nth_error ds v = Some (Fin d) ->
                            exists n b, climbs pred visited n (Z.of_nat v) b /\ (n <= r)%nat).
  { induction r as [| r IH]; intros v d Hr Hv;
      (destruct (in_dec Z.eq_dec (Z.of_nat v) visited) as [Hin | Hnin];
       [exists O, (Z.of_nat v); split; [constructor; exact Hin | lia] |]);
      assert (Hne : ~ In v [s]) by (intros [E | []]; subst; contradiction);
      destruct (Hp v d Hv Hne) as [u [w [P1 [_ [P3 [_ Hlt]]]]]].
    - lia.
    - destruct (IH u _ ltac:(lia) P3) as [n [b [Hc Hn]]].
      exists (S n), b. split; [| lia].
      econstructor; [exact Hnin | rewrite np_get_nat; exact P1 | exact Hc]. }
  intros v d Hv. apply (H (shape0 g) v d (Hbound v) Hv).
Qed.

End PredChains.

Arguments pred_step {g s limit ds pred src} _ {v d} _ _.
Arguments follows_reached {g s limit ds pred src} _ {p l} _ _ _.
Arguments follows_exists {g s limit ds pred src} _ _ _ _.
Arguments climbs_bound {g s limit ds pred src} _ {visited n p b} _ _ _ _ _.
Arguments climbs_exists {g s limit ds pred src} _ _ _ _ _ _.

(** ** Facts of a completed iteration *)

Lemma Forall2_nth_left {A B : Type} {R : A -> B -> Prop} {l1 : list A} {l2 : list B} :
  Forall2 R l1 l2 ->
  forall j a, nth_error l1 j = Some a -> exists b, nth_error l2 j = Some b /\ R a b.
Proof.
  induction 1 as [| a b l1 l2 Hab HF IH]; intros j x Hj.
  - destruct j; discriminate.
  - destruct j as [| j]; simpl in *.
    + injection Hj as <-. eauto.
    + apply IH. exact Hj.
Qed.

Lemma Forall2_nth_right {A B : Type} {R : A -> B -> Prop} {l1 : list A} {l2 : list B} :
  Forall2 R l1 l2 ->
  forall j b, nth_error l2 j = Some b -> exists a, nth_error l1 j = Some a /\ R a b.
Proof.
  induction 1 as [| a b l1 l2 Hab HF IH]; intros j x Hj.
  - destruct j; discriminate.
  - destruct j as [| j]; simpl in *.
    + injection Hj as <-. eauto.
    + apply IH. exact Hj.
Qed.

Lemma contract_no_nan {g : csgraph} {srcs : list nat} {limit : float64}
  {ds : list float64} {pred src : list Z} :
  oracle_contract g srcs limit ds pred src ->
  forall v x, nth_error ds v = Some x -> isnan x = false.
Proof.
  intros C v x H. destruct (oc_cell C _ _ H) as [-> | [d ->]]; reflexivity.
Qed.

Lemma iteration_facts (fuel : nat) (g : csgraph) (root_ds : list float64)
  (root_pred : option (list Z)) (invalidation_d : float64) (st st' : teasar_state)
  (tr : iter_trace) :
  wf_csgraph g = true ->
  Forall (vertex g) (visited_nodes st) ->
  iteration_of fuel g root_ds root_pred invalidation_d st tr st' ->
  iter_facts g invalidation_d st tr.
Proof.
  intros Hwf Hvis
    (Hsel & Hmb & (d_target & d_branch & Hdt & Hdb & Hmpl) & (src & Hdij) &
     (ds_visited & min_node & Htake & Hmin & Hbr) & Hpath & Hlen & Hinf &
     (pred_m & Hsweep) & _).
  destruct (select_target_inv Hsel) as (_ & prod & tn & d & _ & _ & Ht & _).
  assert (Ht0 : 0 <= it_target tr) by lia.
  destruct (dijkstra_contract_nonneg Hwf (Forall_cons _ Ht0 (Forall_nil _)) Hdij)
    as [Htv Cs].
  simpl in Cs. inversion Htv as [| ? ? Htarget _]. subst.
  assert (Hbin : In (it_branch tr) (visited_nodes st)) by (eapply nth_error_In; eauto).
  rewrite Forall_forall in Hvis.
  pose proof (Hvis _ Hbin) as Hbv.
  rewrite np_get_nonneg in Hlen by (destruct Hbv; lia).
  assert (Hlenfin : exists d, it_length tr = Fin d).
  { destruct (oc_cell Cs _ _ Hlen) as [E | E]; [| exact E]. rewrite E in Hinf. discriminate. }
  destruct Hlenfin as [dl Hdl].
  destruct (get_path_spec Hpath) as [_ [l [Hfol Hrev]]].
  assert (Hreach : exists d, nth_error (it_ds tr) (Z.to_nat (it_branch tr)) = Some (Fin d)).
  { exists dl. rewrite <- Hdl. exact Hlen. }
  replace (it_target tr) with (Z.of_nat (Z.to_nat (it_target tr))) in Hfol by lia.
  destruct (follows_reached Cs Hfol (proj1 Hbv) Hreach) as [Hrange [Hchain _]].
  replace (Z.of_nat (Z.to_nat (it_target tr))) with (it_target tr) in Hfol by lia.
  assert (Hprange : Forall (vertex g) (it_path tr)).
  { rewrite Hrev. apply Forall_rev. exact Hrange. }
  assert (Hpnn : Forall (fun i => 0 <= i) (it_path tr)).
  { eapply Forall_impl; [| exact Hprange]. intros a [Ha _]. exact Ha. }
  destruct (dijkstra_contract_nonneg Hwf Hpnn Hsweep) as [_ Cm].
  constructor.
  - exact Htarget.
  - exact Hbin.
  - eauto.
  - exists dl. split; [exact Hdl |]. rewrite <- Hdl. exact Hlen.
  - intros v x Hv Hx.
    destruct (take_spec Htake) as [_ HF].
    assert (Hnn : forall y, In y ds_visited -> isnan y = false).
    { intros y Hy. apply In_nth_error in Hy. destruct Hy as [j Hj].
      destruct (Forall2_nth_right HF _ _ Hj) as [a [Ha Hget]].
      assert (Hav : vertex g a) by (apply Hvis; eapply nth_error_In; eauto).
      rewrite np_get_nonneg in Hget by (destruct Hav; lia).
      eapply (contract_no_nan Cs); eauto. }
    destruct (np_argmin_spec ds_visited Hnn Hmin) as [vm [Hvm [Hall _]]].
    destruct (Forall2_nth_left HF _ _ Hbr) as [b [Hb Hgetb]].
    rewrite np_get_nonneg in Hgetb by (destruct Hbv; lia).
    assert (vm = it_length tr) by congruence. subst vm.
    apply Hall. apply In_nth_error in Hv. destruct Hv as [j Hj].
    destruct (Forall2_nth_left HF _ _ Hj) as [y [Hy Hgety]].
    rewrite np_get_nonneg in Hgety by (destruct (Hvis v (nth_error_In _ _ Hj)); lia).
    assert (y = x) by congruence. subst y. eapply nth_error_In; eauto.
  - eauto.
  - exact Hprange.
  - rewrite Hrev. exact Hchain.
  - eauto.
Qed.

Arguments iteration_facts {fuel g root_ds root_pred invalidation_d st st' tr} _ _ _.

Lemma path_ends {pred : list Z} {r p : Z} {l : list Z} :
  follows pred r p l ->
  (exists l1, rev l = r :: l1) /\ (exists l2, rev l = l2 ++ [p]) /\ last (rev l) r = p.
Proof.
  intros H. destruct (follows_head H) as [l1 E1]. destruct (follows_last H) as [l2 E2].
  split; [| split].
  - rewrite E2, rev_app_distr. simpl. eauto.
  - rewrite E1. simpl. eauto.
  - rewrite E1. simpl. apply last_last.
Qed.

(** ** The mask update *)

Lemma valid_update {fuel : nat} {g : csgraph} {root_ds : list float64}
  {root_pred : option (list Z)} {invalidation_d : float64} {st st' : teasar_state}
  {tr : iter_trace} :
  iteration_of fuel g root_ds root_pred invalidation_d st tr st' ->
  length (valid st') = length (valid st) /\
  length (it_dm tr) = length (valid st) /\
  forall i, nth_error (valid st') i =
            match nth_error (valid st) i, nth_error (it_dm tr) i with
            | Some b, Some x => Some (if isinf x then b else false)
            | _, _ => None
            end.
Proof.
  intros (_ & _ & _ & _ & _ & _ & _ & _ & _ & _ & Hvalid & _).
  destruct (mask_assign_spec Hvalid) as [Hlen [Hlen' Hnth]].
  rewrite length_map in Hlen. split; [exact Hlen' |]. split; [lia |].
  intros i. rewrite Hnth, nth_error_map.
  destruct (nth_error (valid st) i), (nth_error (it_dm tr) i) as [x |]; simpl; try reflexivity.
  destruct (isinf x); reflexivity.
Qed.

Lemma valid_monotone {fuel : nat} {g : csgraph} {root_ds : list float64}
  {root_pred : option (list Z)} {invalidation_d : float64} {st st' : teasar_state}
  {tr : iter_trace} :
  iteration_of fuel g root_ds root_pred invalidation_d st tr st' ->
  forall i, nth_error (valid st') i = Some true -> nth_error (valid st) i = Some true.
Proof.
  intros H i Hi. destruct (valid_update H) as [_ [_ Hnth]]. rewrite Hnth in Hi.
  destruct (nth_error (valid st) i) as [b |]; [| discriminate].
  destruct (nth_error (it_dm tr) i) as [x |]; [| discriminate].
  destruct (isinf x); [exact Hi | discriminate].
Qed.

Lemma valid_false_stays {fuel : nat} {g : csgraph} {root_ds : list float64}
  {root_pred : option (list Z)} {invalidation_d : float64} {st st' : teasar_state}
  {tr : iter_trace} :
  iteration_of fuel g root_ds root_pred invalidation_d st tr st' ->
  forall i, nth_error (valid st) i = Some false -> nth_error (valid st') i = Some false.
Proof.
  intros H i Hi. destruct (valid_update H) as [_ [Hlen Hnth]]. rewrite Hnth, Hi.
  assert (Hlt : (i < length (it_dm tr))%nat).
  { rewrite Hlen. apply nth_error_Some. congruence. }
  apply nth_error_Some in Hlt. destruct (nth_error (it_dm tr) i) as [x |]; [| congruence].
  destruct (isinf x); reflexivity.
Qed.

Lemma valid_swept {fuel : nat} {g : csgraph} {root_ds : list float64}
  {root_pred : option (list Z)} {invalidation_d : float64} {st st' : teasar_state}
  {tr : iter_trace} :
  iteration_of fuel g root_ds root_pred invalidation_d st tr st' ->
  forall i d, nth_error (it_dm tr) i = Some (Fin d) -> nth_error (valid st') i = Some false.
Proof.
  intros H i d Hi. destruct (valid_update H) as [_ [Hlen Hnth]]. rewrite Hnth, Hi.
  assert (Hlt : (i < length (valid st))%nat).
  { rewrite <- Hlen. apply nth_error_Some. congruence. }
  apply nth_error_Some in Hlt. destruct (nth_error (valid st) i); [reflexivity | congruence].
Qed.

(** ** Invariants of every run *)

Lemma In_removelast {A : Type} (l : list A) (x : A) : In x (removelast l) -> In x l.
Proof.
  induction l as [| a l IH]; simpl; [tauto |].
  destruct l as [| b l]; [intros [] |]. intros [-> | H]; [left; reflexivity | right; auto].
Qed.

Lemma reachable_invariant (P : teasar_state -> Prop) (fuel : nat) (g : csgraph)
  (root_ds : list float64) (root_pred : option (list Z)) (invalidation_d : float64)
  (st0 : teasar_state) :
  wf_csgraph g = true ->
  Forall (vertex g) (visited_nodes st0) ->
  P st0 ->
  (forall st tr st',
      P st -> Forall (vertex g) (visited_nodes st) ->
      (0 < np_sum (valid st))%nat ->
      iteration_of fuel g root_ds root_pred invalidation_d st tr st' ->
      iter_facts g invalidation_d st tr -> P st') ->
  forall st, reachable fuel g root_ds root_pred invalidation_d st0 st ->
             P st /\ Forall (vertex g) (visited_nodes st).
Proof.
  intros Hwf Hv0 H0 Hstep st Hr. induction Hr as [| st st' q Hr [IHP IHV] Hpos Hit].
  - auto.
  - destruct (teasar_iteration_inv Hit) as [_ [tr Htr]].
    pose proof (iteration_facts Hwf IHV Htr) as Hf. split.
    + eapply Hstep; eauto.
    + destruct Htr as (_ & _ & _ & _ & _ & _ & _ & _ & _ & _ & _ & Hvis & _).
      rewrite Hvis. apply Forall_app. split; [exact IHV |].
      pose proof (if_path_range Hf) as Hp. rewrite Forall_forall in *.
      intros x Hx. apply Hp. apply In_removelast. exact Hx.
Qed.

Arguments reachable_invariant P {fuel g root_ds root_pred invalidation_d st0} _ _ _ _ _ _.

(** Masks only lose vertices. *)
Lemma reachable_monotone (fuel : nat) (g : csgraph) (root_ds : list float64)
  (root_pred : option (list Z)) (invalidation_d : float64) (st0 st : teasar_state) :
  reachable fuel g root_ds root_pred invalidation_d st0 st ->
  length (valid st) = length (valid st0) /\
  forall i, nth_error (valid st) i = Some true -> nth_error (valid st0) i = Some true.
Proof.
  induction 1 as [| st st' q Hr [IHl IH] Hpos Hit]; [auto |].
  destruct (teasar_iteration_inv Hit) as [_ [tr Htr]].
  destruct (valid_update Htr) as [Hlen _]. split; [congruence |].
  intros i Hi. apply IH. eapply valid_monotone; eauto.
Qed.

Arguments reachable_monotone {fuel g root_ds root_pred invalidation_d st0 st} _.

Lemma within_source {g : csgraph} {invalidation_d : float64} {path : list Z}
  {dm : list float64} {pred_m sources : list Z} (i : nat) (d : Z) :
  fle (Fin 0) invalidation_d = true ->
  Forall (vertex g) path ->
  oracle_contract g (map Z.to_nat path) invalidation_d dm pred_m sources ->
  nth_error dm i = Some (Fin d) ->
  exists u, In u path /\ within g u i invalidation_d /\
            nth_error sources i = Some u /\ walk g (Z.to_nat u) i d.
Proof.
  intros Hrad Hrange C Hd.
  destruct (oc_sound C _ _ Hd) as [_ Hlim].
  destruct (oc_source C _ _ Hd) as [s [Hs [Hsrc Hw]]].
  apply in_map_iff in Hs. destruct Hs as [u [<- Hu]].
  rewrite Forall_forall in Hrange. pose proof (Hrange _ Hu) as Huv.
  exists u. split; [exact Hu |]. split; [| split].
  - split; [exact Huv |]. exists d. split; [exact Hw |].
    destruct Hlim as [-> | Hl]; assumption.
  - rewrite Hsrc. f_equal. destruct Huv. lia.
  - exact Hw.
Qed.

Lemma covered_grow (g : csgraph) (invalidation_d : float64) (ps : list (list Z))
  (p : list Z) (i : nat) :
  covered g invalidation_d ps i -> covered g invalidation_d (ps ++ [p]) i.
Proof.
  intros [p0 [u [Hp [Hu Hw]]]]. exists p0, u. split; [| auto].
  apply in_or_app. left. exact Hp.
Qed.

(** Coverage: a vertex of the initial mask is still valid or lies within
    the radius of a recorded path. *)
Lemma reachable_coverage (fuel : nat) (g : csgraph) (root_ds : list float64)
  (root_pred : option (list Z)) (invalidation_d : float64) (st0 st : teasar_state) :
  wf_csgraph g = true ->
  Forall (vertex g) (visited_nodes st0) ->
  fle (Fin 0) invalidation_d = true ->
  reachable fuel g root_ds root_pred invalidation_d st0 st ->
  forall i, nth_error (valid st0) i = Some true ->
            nth_error (valid st) i = Some true \/ covered g invalidation_d (paths st) i.
Proof.
  intros Hwf Hv0 Hrad Hr.
  apply (reachable_invariant
           (fun st => forall i, nth_error (valid st0) i = Some true ->
                                nth_error (valid st) i = Some true \/
                                covered g invalidation_d (paths st) i)
           Hwf Hv0) in Hr; [tauto | auto |].
  clear Hr st. intros st tr st' IH Hvis Hpos Htr Hf i Hi.
  pose proof Htr as (_ & _ & _ & _ & _ & _ & _ & _ & _ & _ & _ & _ & Hpaths & _).
  rewrite Hpaths.
  destruct (IH i Hi) as [Hval | Hcov]; [| right; apply covered_grow; exact Hcov].
  destruct (valid_update Htr) as [_ [Hlen Hnth]].
  assert (Hlt : (i < length (it_dm tr))%nat).
  { rewrite Hlen. apply nth_error_Some. congruence. }
  apply nth_error_Some in Hlt. destruct (nth_error (it_dm tr) i) as [x |] eqn:Hx; [| congruence].
  destruct (if_sweep Hf) as [pred_m Cm].
  destruct (oc_cell Cm _ _ Hx) as [-> | [d ->]].
  - left. rewrite Hnth, Hval, Hx. reflexivity.
  - right. destruct (within_source i d Hrad (if_path_range Hf) Cm Hx) as [u [Hu [Hw _]]].
    exists (it_path tr), u. split; [apply in_or_app; right; left; reflexivity | auto].
Qed.

Arguments reachable_coverage {fuel g root_ds root_pred invalidation_d st0 st} _ _ _ _ _ _.

(** Path validity: every recorded path is a chain of edges whose
    recorded length is the exact distance between its ends. *)
Lemma reachable_paths_ok (fuel : nat) (g : csgraph) (root_ds : list float64)
  (root_pred : option (list Z)) (invalidation_d : float64) (st0 st : teasar_state) :
  wf_csgraph g = true ->
  Forall (vertex g) (visited_nodes st0) ->
  Forall2 (path_ok g) (paths st0) (path_lengths st0) ->
  reachable fuel g root_ds root_pred invalidation_d st0 st ->
  Forall2 (path_ok g) (paths st) (path_lengths st).
Proof.
  intros Hwf Hv0 H0 Hr.
  apply (reachable_invariant
           (fun st => Forall2 (path_ok g) (paths st) (path_lengths st)) Hwf Hv0) in Hr;
    [tauto | exact H0 |].
  clear Hr st. intros st tr st' IH Hvis Hpos Htr Hf.
  pose proof Htr as (_ & _ & _ & _ & _ & _ & _ & _ & _ & _ & _ & _ & Hpaths & Hlens & _).
  rewrite Hpaths, Hlens. apply Forall2_app; [exact IH |].
  constructor; [| constructor].
  destruct (if_follows Hf) as [l [Hfol Hrev]].
  destruct (path_ends Hfol) as [[l1 E1] [_ Elast]].
  destruct (if_length Hf) as [d [Hd Hcell]].
  destruct (if_search Hf) as [src Cs].
  split; [exact (if_chain Hf) |].
  exists (it_target tr), (it_branch tr), d, l1.
  rewrite Hrev. split; [exact E1 |]. split; [exact Elast |]. split; [exact Hd |].
  split; [exact (if_target Hf) |]. split.
  - rewrite Forall_forall in Hvis. apply Hvis. exact (if_branch Hf).
  - apply (oc_sound Cs). exact Hcell.
Qed.

Arguments reachable_paths_ok {fuel g root_ds root_pred invalidation_d st0 st} _ _ _ _.

(** ** Entering the loop *)

Lemma bind_ret {A B : Type} (a : A) (f : A -> M B) : bind (ret a) f = f a.
Proof. unfold bind, ret. destruct (f a). reflexivity. Qed.

Lemma teasar_setup_explicit (g : csgraph) (root : Z) (valid0 : list bool)
  (root_ds : option (list float64)) (root_pred root_pred' : option (list Z))
  (find_root_func : root_function) (return_map : bool)
  (rds : list float64) (st0 : teasar_state) (q : nat) :
  teasar_setup g (Some root) (Some valid0) root_ds root_pred find_root_func return_map
  = (Ok (rds, root_pred', st0), q) ->
  st0 = initial_state root valid0 (mesh_init g return_map) /\
  length valid0 = n_vertices g /\
  match root_ds with
  | Some r => rds = r /\ root_pred' = root_pred /\ q = O
  | None => exists pred src, dijkstra g [root] PInf = (Ok (rds, pred, src), 1%nat) /\
                             root_pred' = Some pred /\ q = 1%nat
  end.
Proof.
  unfold teasar_setup. cbv zeta. rewrite bind_ret. intros H.
  apply bind_inv in H. destruct H as ([rds1 rp1] & q1 & q2 & H1 & H & ->).
  apply bind_inv in H. destruct H as (v & q3 & q4 & H2 & H & ->).
  destruct (Nat.eqb_spec (length valid0) (n_vertices g)) as [Hlen | Hlen];
    simpl in H2; [| discriminate].
  apply ret_inv in H2. destruct H2 as [<- ->].
  apply bind_inv in H. destruct H as (unr & q5 & q6 & H3 & H & ->).
  apply lift_inv in H3. destruct H3 as [H3 ->].
  destruct (negb (np_sum unr =? 0)%nat); [discriminate |].
  apply ret_inv in H. destruct H as [H ->]. injection H as <- <- <-.
  split; [reflexivity |]. split; [exact Hlen |].
  destruct root_ds as [r |].
  - apply ret_inv in H1. destruct H1 as [H1 ->]. injection H1 as <- <-. auto.
  - apply bind_inv in H1. destruct H1 as ([[ds pred] src] & q7 & q8 & Hd & Hr & ->).
    apply ret_inv in Hr. destruct Hr as [Hr ->]. injection Hr as <- <-.
    pose proof (dijkstra_inv Hd) as (_ & _ & _ & -> & _). eauto.
Qed.

Arguments teasar_setup_explicit {g root valid0 root_ds root_pred root_pred'
  find_root_func return_map rds st0 q} _.

Lemma component_run (fuel : nat) (g : csgraph) (root : Z) (valid0 : list bool)
  (root_ds : option (list float64)) (root_pred : option (list Z))
  (find_root_func : root_function) (invalidation_d : float64) (return_map : bool)
  (ps : list (list Z)) (ls : list float64) (mp : option (list float64)) (q : nat) :
  graph_teasar_component fuel g (Some root) (Some valid0) root_ds root_pred
    find_root_func invalidation_d return_map = (Ok (ps, ls, mp), q) ->
  exists rds rp st,
    reachable fuel g rds rp invalidation_d
      (initial_state root valid0 (mesh_init g return_map)) st /\
    np_sum (valid st) = O /\ length valid0 = n_vertices g /\
    ps = paths st /\ ls = path_lengths st /\ mp = option_map snd (mesh_to_skeleton st).
Proof.
  unfold graph_teasar_component. intros H.
  apply bind_inv in H. destruct H as ([[rds rp] st0] & q1 & q2 & Hsetup & H & ->).
  apply bind_inv in H. destruct H as (st & q3 & q4 & Hloop & H & ->).
  apply ret_inv in H. destruct H as [H ->]. injection H as <- <- <-.
  destruct (teasar_setup_explicit Hsetup) as [-> [Hlen _]].
  destruct (teasar_loop_reachable fuel g rds rp invalidation_d _ fuel _ _ _
              (reach_init _ _ _ _ _ _) Hloop) as [Hr Hz].
  exists rds, rp, st. auto 10.
Qed.

Arguments component_run {fuel g root valid0 root_ds root_pred find_root_func
  invalidation_d return_map ps ls mp q} _.

(** ** Coverage *)

(** Coverage with exact sums: when a run of [graph_teasar_component] on a well-formed
    graph, from a root vertex and with a non-negative radius, terminates
    normally, every vertex that the initial mask marks valid lies within
    [invalidation_d] of a vertex of a recorded path (at distance zero
    when it is itself on a path). *)
Lemma exact_coverage (fuel : nat) (g : csgraph) (root : Z) (valid0 : list bool)
  (root_ds : option (list float64)) (root_pred : option (list Z))
  (find_root_func : root_function) (invalidation_d : float64) (return_map : bool)
  (ps : list (list Z)) (ls : list float64) (mp : option (list float64)) (q : nat) :
  wf_csgraph g = true ->
  vertex g root ->
  fle (Fin 0) invalidation_d = true ->
  graph_teasar_component fuel g (Some root) (Some valid0) root_ds root_pred
    find_root_func invalidation_d return_map = (Ok (ps, ls, mp), q) ->
  forall i, nth_error valid0 i = Some true -> covered g invalidation_d ps i.
Proof.
  intros Hwf Hroot Hrad Hrun i Hi.
  destruct (component_run Hrun) as (rds & rp & st & Hr & Hz & _ & -> & _).
  assert (Hv0 : Forall (vertex g)
                  (visited_nodes (initial_state root valid0 (mesh_init g return_map)))).
  { simpl. constructor; [exact Hroot | constructor]. }
  destruct (reachable_coverage Hwf Hv0 Hrad Hr i Hi) as [Hval | Hcov]; [| exact Hcov].
  assert (Hpos : (0 < np_sum (valid st))%nat) by (apply np_sum_pos; eauto).
  lia.
Qed.

(** ** Path validity *)

(** Path validity with exact sums: in every result of [graph_teasar_component] on a
    well-formed graph and a root vertex, each path is a sequence of
    vertices whose consecutive pairs are joined by edges, and the length
    recorded with it is the exact shortest-path distance between its
    first vertex (the target) and its last vertex (the branch point). *)
Lemma exact_path_validity (fuel : nat) (g : csgraph) (root : Z) (valid0 : list bool)
  (root_ds : option (list float64)) (root_pred : option (list Z))
  (find_root_func : root_function) (invalidation_d : float64) (return_map : bool)
  (ps : list (list Z)) (ls : list float64) (mp : option (list float64)) (q : nat) :
  wf_csgraph g = true ->
  vertex g root ->
  graph_teasar_component fuel g (Some root) (Some valid0) root_ds root_pred
    find_root_func invalidation_d return_map = (Ok (ps, ls, mp), q) ->
  Forall2 (path_ok g) ps ls.
Proof.
  intros Hwf Hroot Hrun.
  destruct (component_run Hrun) as (rds & rp & st & Hr & _ & _ & -> & -> & _).
  refine (reachable_paths_ok Hwf _ _ Hr).
  - simpl. constructor; [exact Hroot | constructor].
  - simpl. constructor.
Qed.

(** ** Running the provider *)

Lemma fle_zero_not_neg (limit : float64) :
  fle (Fin 0) limit = true -> flt limit (Fin 0) = false.
Proof.
  destruct limit; simpl; intros H; try discriminate; try reflexivity.
  apply Z.leb_le in H. apply Z.ltb_ge. exact H.
Qed.

Lemma dijkstra_total (g : csgraph) (indices : list Z) (limit : float64) :
  wf_csgraph g = true ->
  Forall (vertex g) indices ->
  fle (Fin 0) limit = true ->
  exists ds pred src,
    dijkstra g indices limit = (Ok (ds, pred, src), 1%nat) /\
    oracle_contract g (map Z.to_nat indices) limit ds pred src.
Proof.
  intros Hwf Hidx Hl.
  assert (Hok : forallb (index_ok (shape0 g)) indices = true).
  { apply forallb_forall. rewrite Forall_forall in Hidx. intros i Hi.
    apply vertex_index_ok. apply Hidx. exact Hi. }
  pose proof (dijkstra_runs g indices limit Hwf Hok (fle_zero_not_neg _ Hl)) as Hrun.
  destruct (dijkstra_arrays g (map (fun i => Z.to_nat (norm_index (shape0 g) i)) indices) limit)
    as [[ds pred] src] eqn:E.
  exists ds, pred, src. split; [exact Hrun |].
  refine (proj2 (dijkstra_contract_nonneg Hwf _ Hrun)).
  eapply Forall_impl; [| exact Hidx]. intros a [Ha _]. exact Ha.
Qed.

(** ** The vertex-to-skeleton update *)

Lemma split_fst_map {A B : Type} (l : list (A * B)) : fst (split l) = map fst l.
Proof.
  induction l as [| [a b] l IH]; simpl; [reflexivity |].
  destruct (split l). simpl in *. rewrite IH. reflexivity.
Qed.

Lemma split_snd_map {A B : Type} (l : list (A * B)) : snd (split l) = map snd l.
Proof.
  induction l as [| [a b] l IH]; simpl; [reflexivity |].
  destruct (split l). simpl in *. rewrite IH. reflexivity.
Qed.

Lemma update_map_spec (dm : list float64) (sources : list Z) (dist map dist' map' : list float64) :
  update_map dm sources dist map = Some (dist', map') ->
  length dist' = length dm /\ length map' = length dm /\
  length dist = length dm /\ length map = length dm /\ length sources = length dm /\
  forall i d s b m,
    nth_error dm i = Some d -> nth_error sources i = Some s ->
    nth_error dist i = Some b -> nth_error map i = Some m ->
    nth_error dist' i = Some (fst (update_cell ((d, s), (b, m)))) /\
    nth_error map' i = Some (snd (update_cell ((d, s), (b, m)))).
Proof.
  unfold update_map.
  destruct (Nat.eqb_spec (length dm) (length dist)) as [E1 | E1]; simpl; [| discriminate].
  destruct (Nat.eqb_spec (length dm) (length map)) as [E2 | E2]; simpl; [| discriminate].
  destruct (Nat.eqb_spec (length dm) (length sources)) as [E3 | E3]; simpl; [| discriminate].
  intros H. injection H as H.
  set (cells := List.map update_cell
                  (combine (combine dm sources) (combine dist map))) in *.
  assert (Hd : dist' = List.map fst cells) by (rewrite <- split_fst_map, H; reflexivity).
  assert (Hm : map' = List.map snd cells) by (rewrite <- split_snd_map, H; reflexivity).
  assert (Hlen : length cells = length dm).
  { unfold cells. rewrite length_map, !length_combine. lia. }
  subst dist' map'. rewrite !length_map, Hlen.
  repeat split; try lia.
  - rewrite nth_error_map. unfold cells. rewrite nth_error_map, !nth_error_combine.
    rewrite H0, H1, H2, H3. reflexivity.
  - rewrite nth_error_map. unfold cells. rewrite nth_error_map, !nth_error_combine.
    rewrite H0, H1, H2, H3. reflexivity.
Qed.

Lemma update_map_some (dm : list float64) (sources : list Z) (dist map : list float64) :
  length dist = length dm -> length map = length dm -> length sources = length dm ->
  exists r, update_map dm sources dist map = Some r.
Proof.
  intros E1 E2 E3. unfold update_map. rewrite E1, E2, E3, !Nat.eqb_refl. simpl. eauto.
Qed.

Lemma lift_Some {A : Type} (a : A) (e : exn) : lift (Some a) e = ret a.
Proof. reflexivity. Qed.

(** ** Target selection under the preconditions *)

Lemma field_cells {g : csgraph} {r : nat} {rds : list float64} {rp src : list Z} :
  wf_csgraph g = true ->
  oracle_contract g [r] PInf rds rp src ->
  forall v x, nth_error rds v = Some x -> x = PInf \/ exists d, x = Fin d /\ 0 <= d.
Proof.
  intros Hwf C v x H. destruct (oc_cell C _ _ H) as [-> | [d ->]]; [left; reflexivity |].
  right. exists d. split; [reflexivity |].
  destruct (oc_sound C _ _ H) as [[[s [_ Hw]] _] _].
  apply (walk_range Hwf) in Hw. tauto.
Qed.

Lemma select_target_cells (rds : list float64) (valid : list bool) :
  length rds = length valid ->
  (forall v x, nth_error rds v = Some x -> x = PInf \/ exists d, x = Fin d) ->
  (forall i, nth_error valid i = Some true -> exists d, nth_error rds i = Some (Fin d)) ->
  (0 < np_sum valid)%nat ->
  exists t dt,
    select_target rds valid = (Ok (Z.of_nat t), O) /\
    nth_error rds t = Some (Fin dt) /\
    ((nth_error valid t = Some true /\
      (forall j e, nth_error valid j = Some true -> nth_error rds j = Some (Fin e) -> e <= dt) /\
      (forall j e, (j < t)%nat -> nth_error valid j = Some true ->
                   nth_error rds j = Some (Fin e) -> e < dt)) \/
     (nth_error valid t = Some false /\
      forall j e, nth_error valid j = Some true -> nth_error rds j = Some (Fin e) -> e <= 0)).
Proof.
  intros Hlen Hcells Hreach Hpos.
  remember (map (fun p : float64 * bool => fmul_bool (fst p) (snd p)) (combine rds valid))
    as prod eqn:Eprod.
  assert (Hprod : forall i, nth_error prod i =
                            match nth_error rds i, nth_error valid i with
                            | Some x, Some b => Some (fmul_bool x b)
                            | _, _ => None
                            end).
  { intros i. rewrite Eprod. apply nth_error_broadcast. }
  assert (Hvalidprod : forall j e, nth_error valid j = Some true ->
                                   nth_error rds j = Some (Fin e) ->
                                   nth_error prod j = Some (Fin e)).
  { intros j e Hj He. rewrite Hprod, He, Hj. reflexivity. }
  destruct (np_nanargmax_fin prod) as (t & d' & Harg & Hcell & Hmax & Hfirst).
  { intros y Hy. apply In_nth_error in Hy. destruct Hy as [i Hi]. rewrite Hprod in Hi.
    destruct (nth_error rds i) as [x |] eqn:Hx; [| discriminate].
    destruct (nth_error valid i) as [b |] eqn:Hb; [| discriminate].
    injection Hi as <-. destruct (Hcells _ _ Hx) as [-> | [d ->]].
    - destruct b; [| left; reflexivity].
      destruct (Hreach _ Hb) as [d Hd]. congruence.
    - right. destruct b; simpl; eauto. }
  { apply np_sum_pos in Hpos. destruct Hpos as [i Hi].
    destruct (Hreach _ Hi) as [d Hd]. exists d.
    eapply nth_error_In. apply Hvalidprod; eauto. }
  rewrite Hprod in Hcell.
  destruct (nth_error rds t) as [x |] eqn:Hx; [| discriminate].
  destruct (nth_error valid t) as [b |] eqn:Hb; [| discriminate].
  injection Hcell as Hcell.
  assert (Hfin : exists dt, x = Fin dt).
  { destruct (Hcells _ _ Hx) as [-> | [d ->]]; [| eauto].
    destruct b; discriminate. }
  destruct Hfin as [dt ->].
  exists t, dt. split; [| split; [exact Hx |]].
  - unfold select_target. rewrite (broadcast2_same _ _ _ Hlen), <- Eprod.
    rewrite lift_Some, bind_ret, Harg, lift_Some, bind_ret.
    unfold getitem. rewrite np_get_nat, Hx, lift_Some, bind_ret. reflexivity.
  - destruct b; simpl in Hcell; injection Hcell as <-.
    + left. split; [exact Hb |]. split.
      * intros j e Hj He. eapply Hmax. apply Hvalidprod; eauto.
      * intros j e Hlt Hj He. eapply Hfirst; [exact Hlt |]. apply Hvalidprod; eauto.
    + right. split; [exact Hb |].
      intros j e Hj He. eapply Hmax. apply Hvalidprod; eauto.
Qed.

Lemma select_target_good (rds : list float64) (valid : list bool) :
  length rds = length valid ->
  (forall v x, nth_error rds v = Some x -> x = PInf \/ exists d, x = Fin d /\ 0 <= d) ->
  (forall i, nth_error valid i = Some true -> exists d, nth_error rds i = Some (Fin d)) ->
  (0 < np_sum valid)%nat ->
  exists t dt,
    select_target rds valid = (Ok (Z.of_nat t), O) /\
    nth_error rds t = Some (Fin dt) /\
    ((nth_error valid t = Some true /\
      (forall j e, nth_error valid j = Some true -> nth_error rds j = Some (Fin e) -> e <= dt) /\
      (forall j e, (j < t)%nat -> nth_error valid j = Some true ->
                   nth_error rds j = Some (Fin e) -> e < dt)) \/
     (nth_error valid t = Some false /\
      forall j e, nth_error valid j = Some true -> nth_error rds j = Some (Fin e) -> e <= 0)).
Proof.
  intros Hlen Hcells Hreach Hpos.
  apply select_target_cells; [exact Hlen | | exact Hreach | exact Hpos].
  intros v x Hx. destruct (Hcells v x Hx) as [-> | [d [-> _]]]; [left; reflexivity | eauto].
Qed.

(** ** The loop under the preconditions *)

Section UnderPreconditions.

Variables (g : csgraph) (root : Z) (valid0 : list bool).
Variables (rds : list float64) (rp : list Z) (inv_d : float64).
Hypothesis pre : teasar_pre g root valid0 rds rp inv_d.

(** From a good state with a valid vertex left, the loop body completes:
    no exception is raised (in particular the assertion on [ds[branch]]
    holds) and the inner loops end within [shape0 g] steps. *)
Lemma iteration_runs (fuel : nat) {st : teasar_state} :
  good_state g root rds st ->
  (0 < np_sum (valid st))%nat ->
  (shape0 g <= fuel)%nat ->
  exists tr st', iteration_of fuel g rds (Some rp) inv_d st tr st'.
Proof.
  intros G Hpos Hfuel.
  pose proof (pre_wf pre) as Hwf. destruct (pre_field pre) as [src0 C0].
  destruct (pre_root pre) as [Hr0 Hrn].
  pose proof (gs_visited G) as HV. rewrite Forall_forall in HV.
  destruct (select_target_good rds (valid st)) as (t & dt & Hsel & Hdt & _).
  { rewrite (oc_len_ds C0), (gs_len G). reflexivity. }
  { exact (field_cells Hwf C0). }
  { exact (gs_reach G). }
  { exact Hpos. }
  pose proof (contract_reached_lt _ _ C0 Hdt) as Htn.
  assert (Hrootin : In (Z.of_nat (Z.to_nat root)) (visited_nodes st)).
  { rewrite Z2Nat.id by lia. exact (gs_root G). }
  destruct (climbs_exists C0 _ Hrootin t dt Hdt) as (n' & b & Hclimb & Hn').
  pose proof (find_max_branch_runs Hclimb fuel ltac:(lia)) as Hmb.
  assert (Hdt' : nth_error rds (Z.to_nat (Z.of_nat t)) = Some (Fin dt))
    by (rewrite Nat2Z.id; exact Hdt).
  destruct (climbs_bound C0 Hclimb Hrootin dt (Nat2Z.is_nonneg t) Hdt')
    as (Hb0 & Hbin & db & Hdb & Hwalk).
  rewrite Nat2Z.id in Hwalk.
  pose proof (walk_range Hwf Hwalk) as (Hbn & _ & HL).
  assert (Htv : vertex g (Z.of_nat t)) by (split; lia).
  destruct (dijkstra_total g [Z.of_nat t] (Fin (dt - db)) Hwf
              (Forall_cons _ Htv (Forall_nil _))) as (ds & pred_t & srct & Hdij & Ct).
  { simpl. apply Z.leb_le. lia. }
  simpl in Ct. rewrite Nat2Z.id in Ct.
  destruct (take_some ds (visited_nodes st)) as [dsv Htake].
  { intros v Hv. destruct (HV v Hv) as [Hv0 Hvn].
    rewrite np_get_nonneg by exact Hv0. apply (contract_cell_some _ Ct). lia. }
  destruct (take_spec Htake) as [_ HF].
  assert (Hne : dsv <> []).
  { intros ->. inversion HF as [E |]. pose proof (gs_root G) as Hin.
    rewrite <- E in Hin. destruct Hin. }
  destruct (np_argmin_some dsv Hne) as [m Hm].
  assert (Hnn : forall y, In y dsv -> isnan y = false).
  { intros y Hy. apply In_nth_error in Hy. destruct Hy as [j Hj].
    destruct (Forall2_nth_right HF _ _ Hj) as [a [Ha Hget]].
    destruct (HV a (nth_error_In _ _ Ha)) as [Ha0 _].
    rewrite np_get_nonneg in Hget by exact Ha0.
    eapply (contract_no_nan Ct); eauto. }
  destruct (np_argmin_spec dsv Hnn Hm) as [vm [Hvm [Hall _]]].
  destruct (Forall2_nth_right HF _ _ Hvm) as [branch [Hbr Hgetbr]].
  destruct (HV branch (nth_error_In _ _ Hbr)) as [Hbr0 Hbrn].
  rewrite np_get_nonneg in Hgetbr by exact Hbr0.
  destruct (contract_reaches t (Z.to_nat b) (dt - db) Hwf Ct (or_introl eq_refl)
              (walk_sym _ _ _ _ Hwf Hwalk)) as (d' & Hd' & _ & _).
  { simpl. apply Z.leb_le. lia. }
  assert (Hfin : exists dl, vm = Fin dl).
  { destruct (In_nth_error _ _ Hbin) as [j Hj].
    destruct (Forall2_nth_left HF _ _ Hj) as [y [Hy Hgety]].
    rewrite np_get_nonneg in Hgety by exact Hb0.
    assert (y = Fin d') by congruence. subst y.
    pose proof (Hall _ (nth_error_In _ _ Hy)) as Hle.
    destruct (oc_cell Ct _ _ Hgetbr) as [-> | E]; [discriminate | exact E]. }
  destruct Hfin as [dl ->].
  destruct (follows_exists Ct _ _ Hgetbr) as (l & Hfol & Hlen).
  rewrite Z2Nat.id in Hfol by exact Hbr0.
  pose proof (get_path_runs fuel Hfol ltac:(lia)) as Hpath.
  destruct (follows_reached Ct Hfol Hbr0 (ex_intro _ dl Hgetbr)) as [Hrange _].
  apply Forall_rev in Hrange.
  destruct (dijkstra_total g (rev l) inv_d Hwf Hrange (pre_radius pre))
    as (dm & pred_m & sources & Hsweep & Cm).
  assert (Hmesh : exists mesh',
             match mesh_to_skeleton st with
             | None => mesh' = None
             | Some (dist, map) =>
                 exists r, update_map dm sources dist map = Some r /\ mesh' = Some r
             end).
  { destruct (mesh_to_skeleton st) as [[dist map] |] eqn:E.
    - destruct (gs_mesh G _ _ E) as [E1 E2].
      destruct (update_map_some dm sources dist map) as [r Hr];
        [rewrite (oc_len_ds Cm); exact E1 | rewrite (oc_len_ds Cm); exact E2
        | rewrite (oc_len_ds Cm), (oc_len_src Cm); reflexivity |].
      exists (Some r). eauto.
    - exists None. reflexivity. }
  destruct Hmesh as [mesh' Hmesh].
  destruct (mask_assign_some (valid st) (map (fun d => negb (isinf d)) dm) false)
    as [valid' Hvalid].
  { rewrite length_map, (gs_len G), (oc_len_ds Cm). reflexivity. }
  exists {| it_target := Z.of_nat t; it_max_branch := b;
            it_max_path_length := Fin (dt - db);
            it_ds := ds; it_pred := pred_t; it_branch := branch; it_path := rev l;
            it_length := Fin dl; it_dm := dm; it_sources := sources |}.
  exists {| valid := valid';
            visited_nodes := visited_nodes st ++ removelast (rev l);
            paths := paths st ++ [rev l];
            path_lengths := path_lengths st ++ [Fin dl];
            mesh_to_skeleton := mesh';
            k := S (k st) |}.
  unfold iteration_of. simpl.
  split; [exact Hsel |]. split; [exact Hmb |].
  split.
  { exists (Fin dt), (Fin db). rewrite np_get_nat, np_get_nonneg by exact Hb0. auto. }
  split; [eauto |]. split; [eauto 6 |]. split; [exact Hpath |].
  split; [rewrite np_get_nonneg by exact Hbr0; exact Hgetbr |].
  split; [reflexivity |]. split; [eauto |]. split; [exact Hmesh |].
  split; [exact Hvalid |]. auto.
Qed.


Lemma root_on_first_path {fuel : nat} {st st' : teasar_state} {tr : iter_trace} :
  good_state g root rds st ->
  iteration_of fuel g rds (Some rp) inv_d st tr st' ->
  paths st = [] -> In root (it_path tr).
Proof.
  intros G Htr Hp.
  pose proof (iteration_facts (pre_wf pre) (gs_visited G) Htr) as Hf.
  pose proof (if_branch Hf) as Hb. rewrite (gs_first G Hp) in Hb.
  destruct Hb as [Hb | []].
  destruct (if_follows Hf) as [l [Hfol ->]].
  destruct (path_ends Hfol) as [_ [[l2 ->] _]].
  apply in_or_app. right. left. auto.
Qed.

(** A valid vertex at distance zero from the root is swept by the first
    path, which ends at the root. *)
Lemma zero_swept {fuel : nat} {st st' : teasar_state} {tr : iter_trace} {i : nat} :
  good_state g root rds st ->
  iteration_of fuel g rds (Some rp) inv_d st tr st' ->
  nth_error (valid st) i = Some true ->
  nth_error rds i = Some (Fin 0) ->
  exists d, nth_error (it_dm tr) i = Some (Fin d).
Proof.
  intros G Htr Hi H0.
  pose proof (pre_wf pre) as Hwf. destruct (pre_field pre) as [src0 C0].
  pose proof (iteration_facts Hwf (gs_visited G) Htr) as Hf.
  pose proof (root_on_first_path G Htr (gs_zero G _ Hi H0)) as Hroot.
  destruct (if_sweep Hf) as [pred_m Cm].
  destruct (oc_sound C0 _ _ H0) as [[[s [[<- | []] Hw]] _] _].
  destruct (contract_reaches (Z.to_nat root) i 0 Hwf Cm) as (d & Hd & _).
  - apply in_map. exact Hroot.
  - exact Hw.
  - exact (pre_radius pre).
  - eauto.
Qed.

Lemma good_step {fuel : nat} {st st' : teasar_state} {tr : iter_trace} :
  good_state g root rds st ->
  iteration_of fuel g rds (Some rp) inv_d st tr st' ->
  good_state g root rds st'.
Proof.
  intros G Htr.
  pose proof (pre_wf pre) as Hwf.
  pose proof (iteration_facts Hwf (gs_visited G) Htr) as Hf.
  pose proof Htr as (_ & _ & _ & _ & _ & _ & _ & _ & _ & Hmesh & _ & Hvis & Hpaths & _).
  destruct (valid_update Htr) as [Hlen _].
  destruct (if_sweep Hf) as [pred_m Cm].
  constructor.
  - rewrite Hlen. exact (gs_len G).
  - rewrite Hvis. apply Forall_app. split; [exact (gs_visited G) |].
    pose proof (if_path_range Hf) as Hp. rewrite Forall_forall in *.
    intros x Hx. apply Hp. apply In_removelast. exact Hx.
  - rewrite Hvis. apply in_or_app. left. exact (gs_root G).
  - intros i Hi. apply (gs_reach G). eapply valid_monotone; eauto.
  - intros i Hi H0. exfalso.
    pose proof (valid_monotone Htr i Hi) as Hi'.
    destruct (zero_swept G Htr Hi' H0) as [d Hd].
    rewrite (valid_swept Htr i d Hd) in Hi. discriminate.
  - intros E. rewrite Hpaths in E. destruct (paths st); discriminate.
  - intros dist' map' E.
    destruct (mesh_to_skeleton st) as [[dist map] |]; [| congruence].
    destruct Hmesh as [r [Hr Hm]]. assert (r = (dist', map')) by congruence. subst r.
    destruct (update_map_spec _ _ _ _ _ _ Hr) as (E1 & E2 & _).
    rewrite E1, E2, (oc_len_ds Cm). auto.
Qed.

Lemma n_vertices_wf : n_vertices g = shape0 g.
Proof.
  unfold n_vertices. rewrite <- (wf_csgraph_square g (pre_wf pre)). apply Nat.max_id.
Qed.

Lemma good_init (return_map : bool) :
  good_state g root rds (initial_state root valid0 (mesh_init g return_map)).
Proof.
  constructor; simpl.
  - exact (pre_len pre).
  - constructor; [exact (pre_root pre) | constructor].
  - left. reflexivity.
  - exact (pre_reach pre).
  - reflexivity.
  - reflexivity.
  - intros dist map. unfold mesh_init. destruct return_map; [| discriminate].
    intros E. injection E as <- <-. rewrite !repeat_length. rewrite n_vertices_wf. auto.
Qed.

Lemma reachable_good {fuel : nat} {st0 st : teasar_state} :
  good_state g root rds st0 ->
  reachable fuel g rds (Some rp) inv_d st0 st ->
  good_state g root rds st.
Proof.
  intros G0 Hr. induction Hr as [| st st' q Hr IH Hpos Hit]; [exact G0 |].
  destruct (teasar_iteration_inv Hit) as [_ [tr Htr]]. eapply good_step; eauto.
Qed.

(** ** Progress of the mask *)

Lemma np_sum_cons (x : bool) (l : list bool) :
  np_sum (x :: l) = ((if x then 1 else 0) + np_sum l)%nat.
Proof.
  unfold np_sum. simpl. destruct (bool_dec x true) as [-> | H]; [reflexivity |].
  destruct x; [congruence | reflexivity].
Qed.

Lemma np_sum_le (a b : list bool) :
  length b = length a ->
  (forall i, nth_error b i = Some true -> nth_error a i = Some true) ->
  (np_sum b <= np_sum a)%nat.
Proof.
  revert b. induction a as [| x a IH]; intros [| y b] Hlen Hmono; try discriminate.
  - lia.
  - rewrite !np_sum_cons.
    assert (np_sum b <= np_sum a)%nat.
    { apply IH; [simpl in Hlen; lia |]. intros i Hi. apply (Hmono (S i)). exact Hi. }
    destruct y; [| lia]. specialize (Hmono O eq_refl). simpl in Hmono.
    injection Hmono as ->. lia.
Qed.

Lemma np_sum_lt (a b : list bool) :
  length b = length a ->
  (forall i, nth_error b i = Some true -> nth_error a i = Some true) ->
  (exists i, nth_error a i = Some true /\ nth_error b i = Some false) ->
  (np_sum b < np_sum a)%nat.
Proof.
  revert b. induction a as [| x a IH]; intros [| y b] Hlen Hmono [i [Ha Hb]];
    try discriminate.
  - destruct i; discriminate.
  - rewrite !np_sum_cons.
    assert (Hmono' : forall i, nth_error b i = Some true -> nth_error a i = Some true).
    { intros j Hj. apply (Hmono (S j)). exact Hj. }
    destruct i as [| i]; simpl in Ha, Hb.
    + injection Ha as ->. injection Hb as ->.
      pose proof (np_sum_le a b ltac:(simpl in Hlen; lia) Hmono'). lia.
    + assert (np_sum b < np_sum a)%nat.
      { apply IH; [simpl in Hlen; lia | exact Hmono' | eauto]. }
      destruct y; [| lia]. specialize (Hmono O eq_refl). simpl in Hmono.
      injection Hmono as ->. lia.
Qed.

Lemma target_on_path {fuel : nat} {root_pred : option (list Z)} {st st' : teasar_state}
  {tr : iter_trace} :
  iter_facts g inv_d st tr ->
  iteration_of fuel g rds root_pred inv_d st tr st' ->
  nth_error (it_dm tr) (Z.to_nat (it_target tr)) = Some (Fin 0) /\
  nth_error (valid st') (Z.to_nat (it_target tr)) = Some false.
Proof.
  intros Hf Htr.
  destruct (if_sweep Hf) as [pred_m Cm].
  destruct (if_follows Hf) as [l [Hfol Hrev]].
  destruct (path_ends Hfol) as [[l1 E1] _].
  assert (Hin : In (Z.to_nat (it_target tr)) (map Z.to_nat (it_path tr))).
  { apply in_map. rewrite Hrev, E1. left. reflexivity. }
  destruct (oc_src Cm _ Hin) as [Hd _]. split; [exact Hd |].
  eapply valid_swept; eauto.
Qed.

(** Every iteration invalidates its target and strictly decreases the
    number of valid vertices. *)
Lemma valid_decreases {fuel : nat} {st st' : teasar_state} {tr : iter_trace} :
  good_state g root rds st ->
  (0 < np_sum (valid st))%nat ->
  iteration_of fuel g rds (Some rp) inv_d st tr st' ->
  (np_sum (valid st') < np_sum (valid st))%nat.
Proof.
  intros G Hpos Htr.
  pose proof (pre_wf pre) as Hwf. destruct (pre_field pre) as [src0 C0].
  pose proof (iteration_facts Hwf (gs_visited G) Htr) as Hf.
  destruct (valid_update Htr) as [Hlen _].
  apply np_sum_lt; [exact Hlen | exact (valid_monotone Htr) |].
  destruct (select_target_good rds (valid st)) as (t & dt & Hsel & Hdt & Hcase).
  { rewrite (oc_len_ds C0), (gs_len G). reflexivity. }
  { exact (field_cells Hwf C0). }
  { exact (gs_reach G). }
  { exact Hpos. }
  pose proof Htr as (Hsel' & _).
  assert (Ht : it_target tr = Z.of_nat t) by congruence.
  destruct Hcase as [[Hvt _] | [_ Hall]].
  - exists t. split; [exact Hvt |].
    destruct (target_on_path Hf Htr) as [_ H]. rewrite Ht, Nat2Z.id in H. exact H.
  - apply np_sum_pos in Hpos. destruct Hpos as [i Hi]. exists i. split; [exact Hi |].
    destruct (gs_reach G _ Hi) as [e He].
    destruct (field_cells Hwf C0 _ _ He) as [E | [e' [E He']]]; [discriminate |].
    injection E as <-. pose proof (Hall _ _ Hi He).
    assert (e = 0) by lia. subst e.
    destruct (zero_swept G Htr Hi He) as [d Hd].
    eapply valid_swept; eauto.
Qed.

(** The loop ends: with [shape0 g] units of fuel for the inner loops and
    one unit per valid vertex for the outer loop. *)
Lemma teasar_loop_terminates (inner : nat) :
  (shape0 g <= inner)%nat ->
  forall fuel st,
    good_state g root rds st ->
    (np_sum (valid st) <= fuel)%nat ->
    exists st_f q,
      teasar_loop fuel inner g rds (Some rp) inv_d st = (Ok st_f, q) /\
      (length (paths st) <= length (paths st_f))%nat /\
      (length (paths st_f) <= length (paths st) + np_sum (valid st))%nat /\
      q = (2 * (length (paths st_f) - length (paths st)))%nat.
Proof.
  intros Hinner. induction fuel as [| fuel IH]; intros st G Hfuel; simpl;
    destruct (Nat.ltb_spec 0 (np_sum (valid st))) as [Hpos | Hzero].
  - lia.
  - exists st, O. split; [reflexivity | lia].
  - destruct (iteration_runs inner G Hpos Hinner) as (tr & st' & Htr).
    pose proof (valid_decreases G Hpos Htr) as Hdec.
    destruct (IH st' (good_step G Htr) ltac:(lia)) as (st_f & q & Hloop & Hge & Hlen & Hq).
    exists st_f, (2 + q)%nat. split.
    + eapply bind_intro; [exact (teasar_iteration_of_trace Htr) | exact Hloop].
    + destruct Htr as (_ & _ & _ & _ & _ & _ & _ & _ & _ & _ & _ & _ & Hpaths & _).
      rewrite Hpaths, length_app in Hlen, Hge, Hq. simpl in Hlen, Hge, Hq. lia.
  - exists st, O. split; [reflexivity | lia].
Qed.

Lemma np_sum_zero (l : list bool) :
  (forall i, nth_error l i <> Some true) -> np_sum l = O.
Proof.
  intros H. destruct (np_sum l) eqn:E; [reflexivity |].
  assert (Hpos : (0 < np_sum l)%nat) by lia.
  apply np_sum_pos in Hpos. destruct Hpos as [i Hi]. destruct (H i Hi).
Qed.

Lemma teasar_setup_runs (find_root_func : root_function) (return_map : bool) :
  teasar_setup g (Some root) (Some valid0) (Some rds) (Some rp) find_root_func return_map
  = (Ok (rds, Some rp, initial_state root valid0 (mesh_init g return_map)), O).
Proof.
  destruct (pre_field pre) as [src0 C0].
  unfold teasar_setup. cbv zeta. rewrite !bind_ret.
  rewrite n_vertices_wf, (pre_len pre), Nat.eqb_refl. simpl negb. cbv iota.
  rewrite bind_ret.
  rewrite broadcast2_same by (rewrite (oc_len_ds C0), (pre_len pre); reflexivity).
  rewrite lift_Some, bind_ret.
  rewrite np_sum_zero; [reflexivity |].
  intros i Hi. rewrite (nth_error_broadcast (fun (d : float64) (v : bool) => isinf d && v)) in Hi.
  destruct (nth_error rds i) as [x |] eqn:Hx; [| discriminate].
  destruct (nth_error valid0 i) as [b |] eqn:Hb; [| discriminate].
  injection Hi as Hi. apply andb_prop in Hi. destruct Hi as [Hinf ->].
  destruct (pre_reach pre _ Hb) as [d Hd]. rewrite Hx in Hd. injection Hd as ->.
  discriminate.
Qed.

(** The radius limit of an iteration bounds the distance from the target
    to the visited vertex [max_branch]; the selected branch is a nearest
    visited vertex and lies within the limit. *)
Lemma bound_facts {fuel : nat} {st st' : teasar_state} {tr : iter_trace} :
  good_state g root rds st ->
  iteration_of fuel g rds (Some rp) inv_d st tr st' ->
  exists L d,
    it_max_path_length tr = Fin L /\ it_length tr = Fin d /\ d <= L /\
    In (it_max_branch tr) (visited_nodes st) /\
    (exists l, walk g (Z.to_nat (it_target tr)) (Z.to_nat (it_max_branch tr)) l /\ l <= L) /\
    In (it_branch tr) (visited_nodes st) /\
    distance g (it_target tr) (it_branch tr) d /\
    (forall v l, In v (visited_nodes st) ->
                 walk g (Z.to_nat (it_target tr)) (Z.to_nat v) l -> d <= l).
Proof.
  intros G Htr.
  pose proof (pre_wf pre) as Hwf. destruct (pre_field pre) as [src0 C0].
  destruct (pre_root pre) as [Hr0 Hrn].
  pose proof (iteration_facts Hwf (gs_visited G) Htr) as Hf.
  pose proof (gs_visited G) as HV. rewrite Forall_forall in HV.
  pose proof Htr as (Hsel & Hmb & (d_target & d_branch & Hdt & Hdb & Hmpl) & _).
  destruct (select_target_inv Hsel) as (_ & prod & tn & dx & _ & _ & Ht & Hdx & Hinf).
  rewrite Ht, np_get_nat in Hdt. assert (dx = d_target) by congruence. subst dx.
  destruct (field_cells Hwf C0 _ _ Hdx) as [-> | [dt [-> Hdt0]]]; [discriminate |].
  destruct (find_max_branch_climbs Hmb) as [n Hclimb].
  assert (Hrootin : In (Z.of_nat (Z.to_nat root)) (visited_nodes st)).
  { rewrite Z2Nat.id by lia. exact (gs_root G). }
  assert (Hdt' : nth_error rds (Z.to_nat (it_target tr)) = Some (Fin dt)).
  { rewrite Ht, Nat2Z.id. exact Hdx. }
  destruct (climbs_bound C0 Hclimb Hrootin dt ltac:(lia) Hdt')
    as (Hb0 & Hbin & db & Hdb' & Hwalk).
  rewrite np_get_nonneg in Hdb by exact Hb0.
  assert (d_branch = Fin db) by congruence. subst d_branch. simpl in Hmpl.
  apply (walk_sym _ _ _ _ Hwf) in Hwalk.
  pose proof (walk_range Hwf Hwalk) as (_ & _ & HL).
  destruct (if_search Hf) as [srct Ct]. rewrite Hmpl in Ct.
  destruct (contract_reaches _ _ _ Hwf Ct (or_introl eq_refl) Hwalk)
    as (d' & Hd' & Hd'L & _).
  { simpl. apply Z.leb_le. lia. }
  destruct (if_length Hf) as [d [Hd Hcell]].
  pose proof (if_nearest Hf _ _ Hbin Hd') as Hle. rewrite Hd in Hle. apply fle_Fin in Hle.
  exists (dt - db), d.
  split; [exact Hmpl |]. split; [exact Hd |]. split; [lia |]. split; [exact Hbin |].
  split; [exists (dt - db); split; [exact Hwalk | lia] |].
  split; [exact (if_branch Hf) |]. split.
  - split; [exact (if_target Hf) |]. split; [exact (HV _ (if_branch Hf)) |].
    apply (oc_sound Ct). exact Hcell.
  - intros v l Hv Hw. destruct (Z_le_gt_dec l (dt - db)) as [Hl | Hl]; [| lia].
    destruct (contract_reaches _ _ _ Hwf Ct (or_introl eq_refl) Hw) as (dv & Hdv & Hdvl & _).
    { simpl. apply Z.leb_le. exact Hl. }
    pose proof (if_nearest Hf _ _ Hv Hdv) as Hle'. rewrite Hd in Hle'.
    apply fle_Fin in Hle'. lia.
Qed.

End UnderPreconditions.

Arguments iteration_runs {g root valid0 rds rp inv_d} _ _ {st} _ _ _.
Arguments good_step {g root valid0 rds rp inv_d} _ {fuel st st' tr} _ _.
Arguments good_init {g root valid0 rds rp inv_d} _ _.
Arguments reachable_good {g root valid0 rds rp inv_d} _ {fuel st0 st} _ _.
Arguments valid_decreases {g root valid0 rds rp inv_d} _ {fuel st st' tr} _ _ _.
Arguments teasar_loop_terminates {g root valid0 rds rp inv_d} _ _ _ _ _ _ _.
Arguments teasar_setup_runs {g root valid0 rds rp inv_d} _ _ _.
Arguments bound_facts {g root valid0 rds rp inv_d} _ {fuel st st' tr} _ _.
Arguments target_on_path {g rds inv_d fuel root_pred st st' tr} _ _.
Arguments zero_swept {g root valid0 rds rp inv_d} _ {fuel st st' tr i} _ _ _ _.
Arguments n_vertices_wf {g root valid0 rds rp inv_d} _.

(** ** Termination and the search-radius bound *)

(** Progress and termination with exact sums: under the preconditions (every
    valid vertex has finite distance from the root), in every iteration
    the mask only loses vertices, the selected target is invalidated and
    the number of valid vertices strictly decreases; the whole call
    returns normally, after at most as many iterations as the initial
    mask has valid vertices. *)
Lemma exact_mask_progress (g : csgraph) (root : Z) (valid0 : list bool)
  (rds : list float64) (rp : list Z) (inv_d : float64)
  (find_root_func : root_function) (return_map : bool) :
  teasar_pre g root valid0 rds rp inv_d ->
  (forall fuel st tr st',
      reachable fuel g rds (Some rp) inv_d
        (initial_state root valid0 (mesh_init g return_map)) st ->
      (0 < np_sum (valid st))%nat ->
      iteration_of fuel g rds (Some rp) inv_d st tr st' ->
      (forall i, nth_error (valid st') i = Some true -> nth_error (valid st) i = Some true) /\
      nth_error (valid st') (Z.to_nat (it_target tr)) = Some false /\
      (np_sum (valid st') < np_sum (valid st))%nat) /\
  (forall fuel, (shape0 g <= fuel)%nat ->
      exists ps ls mp q,
        graph_teasar_component fuel g (Some root) (Some valid0) (Some rds) (Some rp)
          find_root_func inv_d return_map = (Ok (ps, ls, mp), q) /\
        (length ps <= np_sum valid0)%nat /\ q = (2 * length ps)%nat).
Proof.
  intros pre. split.
  - intros fuel st tr st' Hr Hpos Htr.
    pose proof (reachable_good pre (good_init pre return_map) Hr) as G.
    pose proof (iteration_facts (pre_wf pre) (gs_visited G) Htr) as Hf.
    split; [exact (valid_monotone Htr) |].
    split; [exact (proj2 (target_on_path Hf Htr)) |].
    exact (valid_decreases pre G Hpos Htr).
  - intros fuel Hfuel.
    assert (Hsum : (np_sum valid0 <= fuel)%nat).
    { pose proof (count_occ_bound bool_dec true valid0) as Hb.
      unfold np_sum. rewrite (pre_len pre) in Hb. lia. }
    destruct (teasar_loop_terminates pre fuel Hfuel fuel _ (good_init pre return_map) Hsum)
      as (st_f & q & Hloop & _ & Hlen & Hq).
    simpl in Hlen, Hq.
    exists (paths st_f), (path_lengths st_f), (option_map snd (mesh_to_skeleton st_f)), q.
    split; [| split; [exact Hlen | lia]].
    unfold graph_teasar_component.
    replace q with (0 + (q + 0))%nat by lia.
    eapply bind_intro; [exact (teasar_setup_runs pre find_root_func return_map) |].
    cbv beta iota.
    eapply bind_intro; [exact Hloop | reflexivity].
Qed.

(** The search-radius bound with exact sums: under the preconditions, in every
    iteration the limit [root_ds[target] - root_ds[max_branch]] is a
    finite number that bounds the distance from the target to the visited
    vertex [max_branch]; the selected branch is a visited vertex nearest
    to the target, its distance is finite and within the limit, and the
    iteration completes (the assertion on [ds[branch]] does not fail). *)
Lemma exact_branch_bound (g : csgraph) (root : Z) (valid0 : list bool)
  (rds : list float64) (rp : list Z) (inv_d : float64) (return_map : bool)
  (fuel : nat) (st : teasar_state) :
  teasar_pre g root valid0 rds rp inv_d ->
  reachable fuel g rds (Some rp) inv_d
    (initial_state root valid0 (mesh_init g return_map)) st ->
  (0 < np_sum (valid st))%nat ->
  (shape0 g <= fuel)%nat ->
  (exists st', teasar_iteration fuel g rds (Some rp) inv_d st = (Ok st', 2%nat)) /\
  forall tr st',
    iteration_of fuel g rds (Some rp) inv_d st tr st' ->
    exists L d,
      it_max_path_length tr = Fin L /\ it_length tr = Fin d /\ d <= L /\
      In (it_max_branch tr) (visited_nodes st) /\
      (exists l, walk g (Z.to_nat (it_target tr)) (Z.to_nat (it_max_branch tr)) l /\ l <= L) /\
      In (it_branch tr) (visited_nodes st) /\
      distance g (it_target tr) (it_branch tr) d /\
      (forall v l, In v (visited_nodes st) ->
                   walk g (Z.to_nat (it_target tr)) (Z.to_nat v) l -> d <= l).
Proof.
  intros pre Hr Hpos Hfuel.
  pose proof (reachable_good pre (good_init pre return_map) Hr) as G. split.
  - destruct (iteration_runs pre fuel G Hpos Hfuel) as (tr & st' & Htr).
    exists st'. exact (teasar_iteration_of_trace Htr).
  - intros tr st' Htr. exact (bound_facts pre G Htr).
Qed.

(** ** Positive weights *)

Lemma neighbors_positive (g : csgraph) (u v : nat) (w : N) :
  all_positive g = true -> In (v, w) (neighbors g u) -> 0 < Z.of_N w.
Proof.
  intros Hpos Hin. unfold all_positive in Hpos. rewrite forallb_forall in Hpos.
  apply neighbors_spec in Hin.
  destruct Hin as [Hin | Hin]; specialize (Hpos _ Hin); simpl in Hpos;
    apply N.ltb_lt in Hpos; lia.
Qed.

Lemma walk_zero (g : csgraph) (s v : nat) (l : Z) :
  wf_csgraph g = true -> all_positive g = true ->
  walk g s v l -> l = 0 -> v = s.
Proof.
  intros Hwf Hpos Hw. induction Hw as [| u v w l Hw IH He]; intros Hl; [reflexivity |].
  pose proof (walk_range Hwf Hw) as (_ & _ & Hl0).
  pose proof (neighbors_positive _ _ _ _ Hpos He). lia.
Qed.

Lemma removelast_rev {A : Type} (l : list A) : removelast (rev l) = rev (tl l).
Proof.
  destruct l as [| a l]; [reflexivity |]. simpl. apply removelast_last.
Qed.

(** With positive weights the distance strictly decreases along a
    predecessor chain, so the chain has no repeated vertex. *)
Lemma follows_decreasing {g : csgraph} {s : nat} {limit : float64}
  {ds : list float64} {pred src : list Z} {p : Z} {l : list Z} :
  all_positive g = true ->
  oracle_contract g [s] limit ds pred src ->
  follows pred (Z.of_nat s) p l ->
  forall d, 0 <= p -> nth_error ds (Z.to_nat p) = Some (Fin d) ->
  Forall (fun v => exists dv, nth_error ds (Z.to_nat v) = Some (Fin dv) /\ dv < d) (tl l) /\
  NoDup l.
Proof.
  intros Hpos C Hf. induction Hf as [| p p' l Hne Hget Hf IH]; intros d Hp Hd.
  - simpl. split; [constructor |]. constructor; [intros [] | constructor].
  - assert (Hps : Z.to_nat p <> s) by (intros E; apply Hne; lia).
    destruct (pred_step C Hd Hps) as [u [w [P1 [P2 [P3 P4]]]]].
    rewrite Z2Nat.id in P1 by exact Hp. rewrite Hget in P1. injection P1 as ->.
    pose proof (neighbors_positive _ _ _ _ Hpos P2) as Hw.
    destruct (IH (d - Z.of_N w)) as [IH1 IH2]; [lia | rewrite Nat2Z.id; exact P3 |].
    destruct (follows_head Hf) as [l0 ->]. simpl in *.
    assert (Hall : Forall (fun v => exists dv, nth_error ds (Z.to_nat v) = Some (Fin dv) /\
                                               dv < d) (Z.of_nat u :: l0)).
    { constructor.
      - exists (d - Z.of_N w). rewrite Nat2Z.id. split; [exact P3 | lia].
      - eapply Forall_impl; [| exact IH1]. intros a [dv [Ha Hlt]]. exists dv. split; [exact Ha | lia]. }
    split; [exact Hall |]. constructor; [| exact IH2].
    intros Hin. rewrite Forall_forall in Hall. destruct (Hall _ Hin) as [dv [Hdv Hlt]].
    rewrite Hd in Hdv. injection Hdv as <-. lia.
Qed.

Section PositiveWeights.

Variables (g : csgraph) (root : Z) (valid0 : list bool).
Variables (rds : list float64) (rp : list Z) (inv_d : float64).
Hypothesis pre : teasar_pre g root valid0 rds rp inv_d.
Hypothesis positive : all_positive g = true.

(** The selected target is valid as soon as no visited vertex is. *)
Lemma target_valid {fuel : nat} {st st' : teasar_state} {tr : iter_trace} :
  good_state g root rds st ->
  distinct_state st ->
  (0 < np_sum (valid st))%nat ->
  iteration_of fuel g rds (Some rp) inv_d st tr st' ->
  nth_error (valid st) (Z.to_nat (it_target tr)) = Some true.
Proof.
  intros G D Hpos Htr.
  pose proof (pre_wf pre) as Hwf. destruct (pre_field pre) as [src0 C0].
  destruct (select_target_good rds (valid st)) as (t & dt & Hsel & Hdt & Hcase).
  { rewrite (oc_len_ds C0), (gs_len G). reflexivity. }
  { exact (field_cells Hwf C0). }
  { exact (gs_reach G). }
  { exact Hpos. }
  pose proof Htr as (Hsel' & _).
  assert (Ht : it_target tr = Z.of_nat t) by congruence.
  rewrite Ht, Nat2Z.id.
  destruct Hcase as [[Hvt _] | [_ Hall]]; [exact Hvt | exfalso].
  apply np_sum_pos in Hpos. destruct Hpos as [i Hi].
  destruct (gs_reach G _ Hi) as [e He].
  destruct (field_cells Hwf C0 _ _ He) as [E | [e' [E He']]]; [discriminate |].
  injection E as <-. pose proof (Hall _ _ Hi He).
  assert (e = 0) by lia. subst e.
  destruct (oc_sound C0 _ _ He) as [[[s [[<- | []] Hw]] _] _].
  pose proof (walk_zero _ _ _ _ Hwf positive Hw eq_refl) as ->.
  rewrite (ds_invalid D _ (gs_root G)) in Hi. discriminate.
Qed.

Lemma distinct_step {fuel : nat} {st st' : teasar_state} {tr : iter_trace} :
  good_state g root rds st ->
  distinct_state st ->
  (0 < np_sum (valid st))%nat ->
  iteration_of fuel g rds (Some rp) inv_d st tr st' ->
  ~ In (it_target tr) (visited_nodes st) /\
  it_target tr <> it_branch tr /\
  (forall v, In v (removelast (it_path tr)) -> ~ In v (visited_nodes st)) /\
  NoDup (it_path tr) /\
  distinct_state st'.
Proof.
  intros G D Hpos Htr.
  pose proof (pre_wf pre) as Hwf.
  pose proof (iteration_facts Hwf (gs_visited G) Htr) as Hf.
  pose proof (target_valid G D Hpos Htr) as Htv.
  pose proof Htr as (_ & _ & _ & _ & _ & _ & _ & _ & _ & _ & _ & Hvis & Hpaths & _).
  assert (Hnot : ~ In (it_target tr) (visited_nodes st)).
  { intros Hin. rewrite (ds_invalid D _ Hin) in Htv. discriminate. }
  assert (Hne : it_target tr <> it_branch tr).
  { intros E. apply Hnot. rewrite E. exact (if_branch Hf). }
  destruct (if_follows Hf) as [l [Hfol Hrev]].
  destruct (if_length Hf) as [d [Hd Hcell]].
  destruct (if_search Hf) as [srct Ct].
  pose proof (gs_visited G) as HV. rewrite Forall_forall in HV.
  destruct (HV _ (if_branch Hf)) as [Hb0 _].
  destruct (if_target Hf) as [Ht0 _].
  replace (it_target tr) with (Z.of_nat (Z.to_nat (it_target tr))) in Hfol by lia.
  destruct (follows_decreasing positive Ct Hfol d Hb0 Hcell) as [Hdec Hnd].
  replace (Z.of_nat (Z.to_nat (it_target tr))) with (it_target tr) in Hfol by lia.
  assert (Hdisj : forall v, In v (removelast (it_path tr)) -> ~ In v (visited_nodes st)).
  { intros v Hv Hin. rewrite Hrev, removelast_rev in Hv. apply in_rev in Hv.
    rewrite Forall_forall in Hdec. destruct (Hdec _ Hv) as [dv [Hdv Hlt]].
    pose proof (if_nearest Hf _ _ Hin Hdv) as Hle. rewrite Hd in Hle.
    apply fle_Fin in Hle. lia. }
  assert (Hndp : NoDup (it_path tr)) by (rewrite Hrev; apply NoDup_rev; exact Hnd).
  split; [exact Hnot |]. split; [exact Hne |]. split; [exact Hdisj |].
  split; [exact Hndp |].
  destruct (if_sweep Hf) as [pred_m Cm].
  constructor.
  - intros v Hv. rewrite Hvis in Hv. apply in_app_or in Hv. destruct Hv as [Hv | Hv].
    + eapply valid_false_stays; [exact Htr |]. exact (ds_invalid D _ Hv).
    + apply In_removelast in Hv.
      destruct (oc_src Cm (Z.to_nat v) (in_map _ _ _ Hv)) as [H0 _].
      eapply valid_swept; eauto.
  - rewrite Hvis. apply NoDup_app; [exact (ds_nodup D) | | ].
    + rewrite Hrev, removelast_rev. apply NoDup_rev.
      destruct l as [| a l]; [constructor |]. simpl. inversion Hnd. assumption.
    + intros a Ha Hin. exact (Hdisj a Hin Ha).
  - intros p Hp. rewrite Hpaths in Hp. apply in_app_or in Hp.
    destruct Hp as [Hp | [<- | []]]; [exact (ds_paths D _ Hp) |].
    destruct (path_ends Hfol) as [[l1 E1] [[l2 E2] _]].
    exists (it_target tr), (it_branch tr). rewrite Hrev.
    split; [rewrite E1; left; reflexivity |].
    split; [rewrite E2; apply in_or_app; right; left; reflexivity | exact Hne].
Qed.

End PositiveWeights.

Arguments target_valid {g root valid0 rds rp inv_d} _ _ {fuel st st' tr} _ _ _ _.
Arguments distinct_step {g root valid0 rds rp inv_d} _ _ {fuel st st' tr} _ _ _ _.

(** ** Visited vertices are invalid and distinct *)

(** With exact sums, strictly positive weights and a root that is invalid on
    entry, at the start of every iteration every visited vertex is
    invalid and no vertex occurs twice in [visited_nodes]; the selected
    target is valid and not visited, the new path brings only vertices
    that were not visited, and every recorded path holds two distinct
    vertices. *)
Lemma exact_visited_invalid (g : csgraph) (root : Z) (valid0 : list bool)
  (rds : list float64) (rp : list Z) (inv_d : float64) (return_map : bool)
  (fuel : nat) (st : teasar_state) :
  teasar_pre g root valid0 rds rp inv_d ->
  all_positive g = true ->
  nth_error valid0 (Z.to_nat root) = Some false ->
  reachable fuel g rds (Some rp) inv_d
    (initial_state root valid0 (mesh_init g return_map)) st ->
  (forall v, In v (visited_nodes st) -> nth_error (valid st) (Z.to_nat v) = Some false) /\
  NoDup (visited_nodes st) /\
  (forall p, In p (paths st) -> exists a b, In a p /\ In b p /\ a <> b) /\
  forall tr st',
    (0 < np_sum (valid st))%nat ->
    iteration_of fuel g rds (Some rp) inv_d st tr st' ->
    nth_error (valid st) (Z.to_nat (it_target tr)) = Some true /\
    ~ In (it_target tr) (visited_nodes st) /\
    it_target tr <> it_branch tr /\
    (forall v, In v (removelast (it_path tr)) -> ~ In v (visited_nodes st)) /\
    NoDup (visited_nodes st').
Proof.
  intros pre Hpos Hroot Hr.
  assert (HD : distinct_state st).
  { induction Hr as [| st st' q Hr IH Hp Hit].
    - constructor; simpl.
      + intros v [<- | []]. exact Hroot.
      + constructor; [intros [] | constructor].
      + intros p [].
    - destruct (teasar_iteration_inv Hit) as [_ [tr Htr]].
      pose proof (reachable_good pre (good_init pre return_map) Hr) as G.
      exact (proj2 (proj2 (proj2 (proj2 (distinct_step pre Hpos G IH Hp Htr))))). }
  pose proof (reachable_good pre (good_init pre return_map) Hr) as G.
  split; [exact (ds_invalid HD) |]. split; [exact (ds_nodup HD) |].
  split; [exact (ds_paths HD) |].
  intros tr st' Hp Htr.
  destruct (distinct_step pre Hpos G HD Hp Htr) as (H1 & H2 & H3 & _ & H5).
  split; [exact (target_valid pre Hpos G HD Hp Htr) |].
  split; [exact H1 |]. split; [exact H2 |]. split; [exact H3 |]. exact (ds_nodup H5).
Qed.

(** ** The vertex-to-skeleton map *)

Lemma shortest_app_l (g : csgraph) (s1 s2 : list nat) (i : nat) (d : Z) :
  shortest g s1 i d ->
  (forall s l, In s s2 -> walk g s i l -> d <= l) ->
  shortest g (s1 ++ s2) i d.
Proof.
  intros [[s [Hs Hw]] Hmin] H2. split.
  - exists s. split; [apply in_or_app; left; exact Hs | exact Hw].
  - intros s' l Hs' Hw'. apply in_app_or in Hs'. destruct Hs'; eauto.
Qed.

Lemma shortest_app_r (g : csgraph) (s1 s2 : list nat) (i : nat) (d : Z) :
  shortest g s2 i d ->
  (forall s l, In s s1 -> walk g s i l -> d <= l) ->
  shortest g (s1 ++ s2) i d.
Proof.
  intros [[s [Hs Hw]] Hmin] H1. split.
  - exists s. split; [apply in_or_app; right; exact Hs | exact Hw].
  - intros s' l Hs' Hw'. apply in_app_or in Hs'. destruct Hs'; eauto.
Qed.

Lemma path_vertices_app (ps : list (list Z)) (p : list Z) :
  path_vertices (ps ++ [p]) = path_vertices ps ++ map Z.to_nat p.
Proof.
  unfold path_vertices. rewrite concat_app, map_app. simpl. rewrite app_nil_r. reflexivity.
Qed.

Lemma update_cell_cases (d : float64) (s : Z) (x m : float64) :
  (update_cell ((d, s), (x, m)) = (x, m) /\ (isinf d = true \/ flt d x = false)) \/
  (update_cell ((d, s), (x, m)) = (d, Fin s) /\ isinf d = false /\ flt d x = true).
Proof.
  unfold update_cell. destruct (isinf d); simpl; [left; auto |].
  destruct (flt d x); [right; auto | left; auto].
Qed.

Lemma map_entry_step (g : csgraph) (inv_d : float64) (ps : list (list Z)) (p : list Z)
  (dm : list float64) (pred_m sources : list Z) (i : nat) (dmi : float64) (si : Z)
  (x m : float64) :
  wf_csgraph g = true ->
  fle (Fin 0) inv_d = true ->
  Forall (vertex g) p ->
  oracle_contract g (map Z.to_nat p) inv_d dm pred_m sources ->
  nth_error dm i = Some dmi -> nth_error sources i = Some si ->
  map_entry_ok g inv_d ps i x m ->
  map_entry_ok g inv_d (ps ++ [p]) i
    (fst (update_cell ((dmi, si), (x, m)))) (snd (update_cell ((dmi, si), (x, m)))).
Proof.
  intros Hwf Hrad Hrange Cm Hdm Hsrc Hold.
  unfold map_entry_ok. rewrite path_vertices_app, concat_app. simpl. rewrite app_nil_r.
  destruct (oc_cell Cm _ _ Hdm) as [-> | [d2 ->]].
  - (* the sweep does not reach [i] *)
    simpl. destruct Hold as [(-> & -> & Hfar) | (d & u & -> & -> & Hsh & Hle & Hu & Huv & Hw)].
    + left. split; [reflexivity |]. split; [reflexivity |].
      intros s l Hs Hwk. apply in_app_or in Hs. destruct Hs as [Hs | Hs]; [eauto |].
      exact (oc_far Cm _ _ _ Hdm Hs Hwk).
    + right. exists d, u. split; [reflexivity |]. split; [reflexivity |].
      split; [| split; [exact Hle | split; [apply in_or_app; left; exact Hu | auto]]].
      apply shortest_app_l; [exact Hsh |].
      intros s l Hs Hwk. pose proof (oc_far Cm _ _ _ Hdm Hs Hwk) as Hf.
      pose proof (fle_Fin_false _ _ _ Hle Hf). lia.
  - (* the sweep reaches [i] at distance [d2] *)
    destruct (within_source i d2 Hrad Hrange Cm Hdm) as (u2 & Hu2 & [Hu2v _] & Hsrc2 & Hw2).
    assert (si = u2) by congruence. subst si.
    destruct (oc_sound Cm _ _ Hdm) as [Hsh2 Hlim2].
    assert (Hle2 : fle (Fin d2) inv_d = true) by (destruct Hlim2 as [-> | H]; assumption).
    destruct Hold as [(-> & -> & Hfar) | (d & u & -> & -> & Hsh & Hle & Hu & Huv & Hw)].
    + simpl. right. exists d2, u2. split; [reflexivity |]. split; [reflexivity |].
      split; [| split; [exact Hle2 | split; [apply in_or_app; right; exact Hu2 | auto]]].
      apply shortest_app_r; [exact Hsh2 |].
      intros s l Hs Hwk. pose proof (fle_Fin_false _ _ _ Hle2 (Hfar _ _ Hs Hwk)). lia.
    + unfold update_cell. simpl. destruct (Z.ltb_spec d2 d) as [Hlt | Hge]; simpl.
      * right. exists d2, u2. split; [reflexivity |]. split; [reflexivity |].
        split; [| split; [exact Hle2 | split; [apply in_or_app; right; exact Hu2 | auto]]].
        apply shortest_app_r; [exact Hsh2 |].
        intros s l Hs Hwk. destruct Hsh as [_ Hmin]. specialize (Hmin _ _ Hs Hwk). lia.
      * right. exists d, u. split; [reflexivity |]. split; [reflexivity |].
        split; [| split; [exact Hle | split; [apply in_or_app; left; exact Hu | auto]]].
        apply shortest_app_l; [exact Hsh |].
        intros s l Hs Hwk. destruct Hsh2 as [_ Hmin]. specialize (Hmin _ _ Hs Hwk). lia.
Qed.

Lemma map_state_step (fuel : nat) (g : csgraph) (root_ds : list float64)
  (root_pred : option (list Z)) (inv_d : float64) (st st' : teasar_state) (tr : iter_trace) :
  wf_csgraph g = true ->
  fle (Fin 0) inv_d = true ->
  iter_facts g inv_d st tr ->
  iteration_of fuel g root_ds root_pred inv_d st tr st' ->
  map_state g inv_d st ->
  map_state g inv_d st' /\
  forall dist map dist' map' i x m x' m',
    mesh_to_skeleton st = Some (dist, map) ->
    mesh_to_skeleton st' = Some (dist', map') ->
    nth_error dist i = Some x -> nth_error map i = Some m ->
    nth_error dist' i = Some x' -> nth_error map' i = Some m' ->
    entry_update tr i x m x' m'.
Proof.
  intros Hwf Hrad Hf Htr (dist & map & Hmesh & Hl1 & Hl2 & Hall).
  pose proof Htr as (_ & _ & _ & _ & _ & _ & _ & _ & _ & Hm & _ & _ & Hpaths & _).
  rewrite Hmesh in Hm. destruct Hm as [[dist' map'] [Hupd Hmesh']].
  destruct (update_map_spec _ _ _ _ _ _ Hupd) as (E1 & E2 & E3 & E4 & E5 & Hcell).
  destruct (if_sweep Hf) as [pred_m Cm].
  assert (Hget : forall i x m, nth_error dist i = Some x -> nth_error map i = Some m ->
                   exists dmi si, nth_error (it_dm tr) i = Some dmi /\
                                  nth_error (it_sources tr) i = Some si).
  { intros i x m Hx _.
    assert (Hlt : (i < length dist)%nat) by (apply nth_error_Some; congruence).
    destruct (nth_error (it_dm tr) i) as [dmi |] eqn:Hd;
      [| apply nth_error_None in Hd; lia].
    destruct (nth_error (it_sources tr) i) as [si |] eqn:Hs;
      [| apply nth_error_None in Hs; lia].
    eauto. }
  split.
  - exists dist', map'. split; [exact Hmesh' |].
    split; [rewrite E1, (oc_len_ds Cm); reflexivity |].
    split; [rewrite E2, (oc_len_ds Cm); reflexivity |].
    intros i x' m' Hx' Hm'.
    assert (Hlt : (i < length dist)%nat).
    { rewrite E3, <- E1. apply nth_error_Some. congruence. }
    destruct (nth_error dist i) as [x |] eqn:Hx; [| apply nth_error_None in Hx; lia].
    destruct (nth_error map i) as [m |] eqn:Hmm; [| apply nth_error_None in Hmm; lia].
    destruct (Hget i x m Hx Hmm) as (dmi & si & Hd & Hs).
    destruct (Hcell i dmi si x m Hd Hs Hx Hmm) as [C1 C2].
    rewrite Hpaths.
    assert (x' = fst (update_cell (dmi, si, (x, m)))) by congruence.
    assert (m' = snd (update_cell (dmi, si, (x, m)))) by congruence.
    subst x' m'.
    eapply map_entry_step; eauto. exact (if_path_range Hf).
  - intros dist0 map0 dist1 map1 i x m x' m' H0 H1 Hx Hmm Hx' Hm'.
    assert (dist0 = dist /\ map0 = map) as [-> ->] by (split; congruence).
    assert (dist1 = dist' /\ map1 = map') as [-> ->] by (split; congruence).
    destruct (Hget i x m Hx Hmm) as (dmi & si & Hd & Hs).
    destruct (Hcell i dmi si x m Hd Hs Hx Hmm) as [C1 C2].
    destruct (update_cell_cases dmi si x m) as [[E _] | [E [Hinf Hlt]]];
      rewrite E in C1, C2; simpl in C1, C2.
    + left. split; congruence.
    + right. destruct (oc_cell Cm _ _ Hd) as [-> | [d ->]]; [discriminate |].
      exists d, si. repeat split; auto; congruence.
Qed.

(** The vertex-to-skeleton map with exact sums: when the map is requested, after any
    number of iterations every entry either is still empty, no recorded
    path having a vertex within the radius, or holds the exact distance
    from the vertex to the nearest vertex of all recorded paths (the
    minimum over the sweeps so far) together with a path vertex at that
    distance; a sweep changes an entry only to its own distance and
    source, and only when that distance is strictly smaller than the
    recorded one. *)
Lemma exact_skeleton_map (g : csgraph) (root : Z) (valid0 : list bool)
  (root_ds : list float64) (root_pred : option (list Z)) (inv_d : float64)
  (fuel : nat) (st : teasar_state) :
  wf_csgraph g = true ->
  vertex g root ->
  fle (Fin 0) inv_d = true ->
  reachable fuel g root_ds root_pred inv_d
    (initial_state root valid0 (mesh_init g true)) st ->
  map_state g inv_d st /\
  forall tr st' dist map dist' map' i x m x' m',
    iteration_of fuel g root_ds root_pred inv_d st tr st' ->
    mesh_to_skeleton st = Some (dist, map) ->
    mesh_to_skeleton st' = Some (dist', map') ->
    nth_error dist i = Some x -> nth_error map i = Some m ->
    nth_error dist' i = Some x' -> nth_error map' i = Some m' ->
    entry_update tr i x m x' m'.
Proof.
  intros Hwf Hroot Hrad Hr.
  assert (Hv0 : Forall (vertex g)
                  (visited_nodes (initial_state root valid0 (mesh_init g true)))).
  { simpl. constructor; [exact Hroot | constructor]. }
  assert (H0 : map_state g inv_d (initial_state root valid0 (mesh_init g true))).
  { exists (repeat PInf (n_vertices g)), (repeat NaN (n_vertices g)).
    assert (Hn : n_vertices g = shape0 g).
    { unfold n_vertices. rewrite <- (wf_csgraph_square g Hwf). apply Nat.max_id. }
    split; [reflexivity |]. rewrite !repeat_length. split; [exact Hn |]. split; [exact Hn |].
    intros i x m Hx Hm. apply nth_error_In in Hx, Hm.
    apply repeat_spec in Hx, Hm. subst. left. split; [reflexivity |].
    split; [reflexivity |]. intros s l []. }
  assert (Hstep : forall s tr s',
             map_state g inv_d s -> Forall (vertex g) (visited_nodes s) ->
             (0 < np_sum (valid s))%nat ->
             iteration_of fuel g root_ds root_pred inv_d s tr s' ->
             iter_facts g inv_d s tr -> map_state g inv_d s').
  { intros s tr s' HM HV Hpos Htr Hf.
    exact (proj1 (map_state_step fuel g root_ds root_pred inv_d s s' tr Hwf Hrad Hf Htr HM)). }
  destruct (reachable_invariant (map_state g inv_d) Hwf Hv0 H0 Hstep st Hr) as [HM HV].
  split; [exact HM |].
  intros tr st' dist map dist' map' i x m x' m' Htr.
  pose proof (iteration_facts Hwf HV Htr) as Hf.
  exact (proj2 (map_state_step fuel g root_ds root_pred inv_d st st' tr Hwf Hrad Hf Htr HM)
           dist map dist' map' i x m x' m').
Qed.

(** ** Target selection at distance zero *)

(** C5. Target selection on [edge_graph] with root 1 and mask
    [[false; true]], as the call [graph_teasar_component(G, valid=mask)]
    sets it up: the only valid vertex is the root, at distance 0, the
    product [root_ds * valid] is zero everywhere, and [np.nanargmax]
    returns vertex 0, whose mask entry is false; the call records the
    path [[0; 1]] starting at that invalid vertex. *)
Theorem target_selection_picks_invalid_vertex :
  dijkstra edge_graph [1] PInf = (Ok ([Fin 1; Fin 0], [1; -9999], [1; 1]), 1%nat) /\
  select_target [Fin 1; Fin 0] [false; true] = (Ok 0, O) /\
  nth_error [false; true] (Z.to_nat 0) = Some false /\
  graph_teasar_component 2 edge_graph None (Some [false; true]) None None
    (find_graph_root 2) (Fin 10000) false
  = (Ok ([[0; 1]], [Fin 1], None), 4%nat).
Proof. repeat split; vm_compute; reflexivity. Qed.

(** Where some valid vertex lies at a positive distance, the selected
    target is valid, farthest from the root among the valid vertices, and
    the first such vertex. *)
Lemma select_target_farthest (rds : list float64) (valid : list bool) (t : Z) (q : nat)
  (i0 : nat) (d0 : Z) :
  length rds = length valid ->
  (forall v x, nth_error rds v = Some x -> x = PInf \/ exists d, x = Fin d /\ 0 <= d) ->
  (forall i, nth_error valid i = Some true -> exists d, nth_error rds i = Some (Fin d)) ->
  nth_error valid i0 = Some true -> nth_error rds i0 = Some (Fin d0) -> 0 < d0 ->
  select_target rds valid = (Ok t, q) ->
  exists dt,
    0 <= t /\ nth_error valid (Z.to_nat t) = Some true /\
    nth_error rds (Z.to_nat t) = Some (Fin dt) /\
    (forall j e, nth_error valid j = Some true -> nth_error rds j = Some (Fin e) -> e <= dt) /\
    (forall j e, (j < Z.to_nat t)%nat -> nth_error valid j = Some true ->
                 nth_error rds j = Some (Fin e) -> e < dt).
Proof.
  intros Hlen Hcells Hreach Hi0 Hd0 Hpos Hsel.
  destruct (select_target_good rds valid Hlen Hcells Hreach) as (t' & dt & Hsel' & Hdt & Hcase).
  { apply np_sum_pos. eauto. }
  assert (t = Z.of_nat t') by congruence. subst t. rewrite Nat2Z.id.
  exists dt. split; [lia |].
  destruct Hcase as [(Hv & Hmax & Hfirst) | (_ & Hall)]; [auto |].
  specialize (Hall _ _ Hi0 Hd0). lia.
Qed.

(** ** The root finder on a degenerate component *)

(** C7. When every valid vertex is at distance zero from the starting
    vertex (a single-vertex component, or no valid vertex away from the
    start), [find_far_points_graph] stops after its first shortest-path
    query and returns the starting vertex twice, maximal distance 0, and
    [None] in place of the predecessor and distance arrays that its
    docstring announces and that every other return carries. *)
Theorem far_points_degenerate (fuel : nat) (g : csgraph) (valid : list bool) (r : nat) :
  wf_csgraph g = true ->
  length valid = shape0 g ->
  first_true valid = Some r ->
  (forall v, nth_error valid v = Some true -> shortest g [r] v 0) ->
  find_far_points_graph (S fuel) g (Some valid)
  = (Ok (Z.of_nat r, Z.of_nat r, None, Fin 0, None), 1%nat).
Proof.
  intros Hwf Hlen Hfirst Hzero.
  assert (Hr : nth_error valid r = Some true).
  { clear Hlen Hzero. revert r Hfirst. induction valid as [| b valid IH]; intros r H; simpl in H.
    - discriminate.
    - destruct b; [injection H as <-; reflexivity |].
      destruct (first_true valid) as [r' |]; [| discriminate].
      injection H as <-. simpl. apply IH. reflexivity. }
  assert (Hrn : (r < shape0 g)%nat).
  { rewrite <- Hlen. apply nth_error_Some. congruence. }
  assert (Hrv : vertex g (Z.of_nat r)) by (split; lia).
  destruct (dijkstra_total g [Z.of_nat r] PInf Hwf (Forall_cons _ Hrv (Forall_nil _)) eq_refl)
    as (ds & pred & src & Hdij & C).
  simpl in C. rewrite Nat2Z.id in C.
  destruct (mask_assign_some ds (map negb valid) (Fin (-1))) as [ds' Hmask].
  { rewrite length_map, (oc_len_ds C), Hlen. reflexivity. }
  destruct (mask_assign_spec Hmask) as (_ & Hlen' & Hnth).
  assert (Hcell : forall i y, nth_error ds' i = Some y ->
                              isnan y = false /\ flt (Fin 0) y = false).
  { intros i y Hy. rewrite Hnth, nth_error_map in Hy.
    destruct (nth_error ds i) as [x |] eqn:Hx; [| discriminate].
    destruct (nth_error valid i) as [b |] eqn:Hb; [| discriminate].
    simpl in Hy. destruct b; simpl in Hy; injection Hy as <-; [| auto].
    rewrite (oc_complete C i 0 (Hzero _ Hb) eq_refl) in Hx. injection Hx as <-. auto. }
  assert (Hne : ds' <> []).
  { intros ->. simpl in Hlen'. rewrite (oc_len_ds C) in Hlen'. lia. }
  destruct (np_argmax_some Hne) as [far Hfar].
  assert (Hnn : forall y, In y ds' -> isnan y = false).
  { intros y Hy. apply In_nth_error in Hy. destruct Hy as [i Hi]. apply (Hcell i y Hi). }
  destruct (np_argmax_spec ds' Hnn Hfar) as [vm [Hvm _]].
  unfold find_far_points_graph. rewrite Hfirst, lift_Some, !bind_ret. cbv beta iota.
  simpl far_points_loop.
  replace 1%nat with (1 + 0)%nat by reflexivity.
  eapply bind_intro; [exact Hdij |]. cbv beta iota.
  rewrite Hmask, lift_Some, bind_ret, Hfar, lift_Some, bind_ret.
  unfold getitem. rewrite np_get_nat, Hvm, lift_Some, bind_ret.
  pose proof (proj2 (Hcell _ _ Hvm)) as Hflt. simpl in Hflt. rewrite Hflt. reflexivity.
Qed.

(** ** Input-shape errors *)

(** C8. A mask of the wrong length, with the root supplied:
    [graph_teasar_component] raises the mask-length ValueError, before
    any shortest-path computation when [root_ds] is supplied too, and
    after the root's query when it is not and that query succeeds. *)
Theorem mask_length_error (fuel : nat) (g : csgraph) (root : Z) (valid0 : list bool)
  (root_pred : option (list Z)) (find_root_func : root_function)
  (invalidation_d : float64) (return_map : bool) :
  length valid0 <> n_vertices g ->
  (forall root_ds,
      graph_teasar_component fuel g (Some root) (Some valid0) (Some root_ds) root_pred
        find_root_func invalidation_d return_map
      = (Raise (ValueError "valid must be length of vertices"), O)) /\
  (forall r,
      dijkstra g [root] PInf = (Ok r, 1%nat) ->
      graph_teasar_component fuel g (Some root) (Some valid0) None root_pred
        find_root_func invalidation_d return_map
      = (Raise (ValueError "valid must be length of vertices"), 1%nat)).
Proof.
  intros Hlen. unfold graph_teasar_component, teasar_setup. cbv zeta.
  remember (n_vertices g) as n eqn:En. apply Nat.eqb_neq in Hlen.
  split.
  - intros root_ds. unfold bind, ret, raise. cbv beta iota. rewrite Hlen. reflexivity.
  - intros [[ds pred] src] Hd. unfold bind, ret, raise. cbv beta iota.
    rewrite Hd. cbv beta iota. rewrite Hlen. reflexivity.
Qed.

(** The mask-length check comes after the root's shortest-path query:
    with [root_ds] absent, one query has been performed when the
    ValueError is raised. *)
Lemma mask_length_check_after_query :
  length [true] <> n_vertices square_graph /\
  graph_teasar_component 4 square_graph (Some 0) (Some [true]) None None
    (find_graph_root 4) (Fin 1) false
  = (Raise (ValueError "valid must be length of vertices"), 1%nat).
Proof. split; [vm_compute; discriminate | vm_compute; reflexivity]. Qed.

(** ** create_spatial_csgraph *)

Lemma coo_add_entries (es : list (nat * nat * N)) (i j : nat) (w : N) (i' j' : nat) (w' : N) :
  In (i', j', w') (coo_add es i j w) ->
  (i' = i /\ j' = j) \/ exists w0, In (i', j', w0) es.
Proof.
  induction es as [| [[a b] c] es IH]; simpl.
  - intros [H | []]. injection H as <- <- <-. left. auto.
  - destruct (Nat.eqb_spec i a) as [-> | Hi]; simpl.
    + destruct (Nat.eqb_spec j b) as [-> | Hj]; simpl.
      * intros [H | H]; [injection H as <- <- <-; left; auto | right; eauto].
      * intros [H | H]; [injection H as <- <- <-; right; eauto |].
        destruct (IH H) as [E | [w0 E]]; [left; exact E | right; eauto].
    + intros [H | H]; [injection H as <- <- <-; right; eauto |].
      destruct (IH H) as [E | [w0 E]]; [left; exact E | right; eauto].
Qed.

Lemma fold_coo_entries (ts : list (Z * Z * N)) :
  forall es i j w,
    In (i, j, w)
       (fold_left (fun es t => let '(a, b, w) := t in coo_add es (Z.to_nat a) (Z.to_nat b) w)
                  ts es) ->
    (exists w0, In (i, j, w0) es) \/
    exists a b w0, In (a, b, w0) ts /\ i = Z.to_nat a /\ j = Z.to_nat b.
Proof.
  induction ts as [| [[a b] c] ts IH]; intros es i j w H; simpl in H.
  - left. eauto.
  - destruct (IH _ _ _ _ H) as [[w0 H0] | (a' & b' & w0 & Hin & E)].
    + destruct (coo_add_entries _ _ _ _ _ _ _ H0) as [[-> ->] | [w1 H1]].
      * right. exists a, b, c. split; [left; reflexivity | auto].
      * left. eauto.
    + right. exists a', b', w0. split; [right; exact Hin | exact E].
Qed.

Lemma csr_matrix_entries (weights : list N) (row col : list Z) (n : nat) (g : csgraph)
  (q : nat) (i j : nat) (w : N) :
  csr_matrix weights row col n = (Ok g, q) ->
  In (i, j, w) (entries g) ->
  exists a b, In (a, b) (combine row col) /\ 0 <= a /\ 0 <= b /\
              i = Z.to_nat a /\ j = Z.to_nat b.
Proof.
  unfold csr_matrix. destruct (existsb (fun i => i <? 0) (row ++ col)) eqn:Hneg; [discriminate |].
  destruct (existsb (fun i => Z.of_nat n <=? i) (row ++ col)); [discriminate |].
  intros H Hin. apply ret_inv in H. destruct H as [<- _]. simpl in Hin.
  destruct (fold_coo_entries _ _ _ _ _ Hin) as [[w0 []] | (a & b & w0 & Ht & -> & ->)].
  apply in_combine_l in Ht. exists a, b. split; [exact Ht |].
  assert (Hnn : forall x, In x (row ++ col) -> 0 <= x).
  { intros x Hx. destruct (Z.ltb_spec x 0) as [Hlt | Hge]; [| exact Hge].
    assert (existsb (fun i => i <? 0) (row ++ col) = true); [| congruence].
    apply existsb_exists. exists x. split; [exact Hx | apply Z.ltb_lt; exact Hlt]. }
  split; [apply Hnn, in_or_app; left; eapply in_combine_l; eauto |].
  split; [apply Hnn, in_or_app; right; eapply in_combine_r; eauto | auto].
Qed.

Lemma combine_app_same {A B : Type} (a c : list A) (b d : list B) :
  length a = length b -> combine (a ++ c) (b ++ d) = combine a b ++ combine c d.
Proof.
  revert b. induction a as [| x a IH]; intros [| y b] H; try discriminate; simpl.
  - reflexivity.
  - rewrite IH by (simpl in H; lia). reflexivity.
Qed.

Lemma combine_map_map {A B C : Type} (f : A -> B) (h : A -> C) (l : list A) (x : B) (y : C) :
  In (x, y) (combine (map f l) (map h l)) -> exists e, In e l /\ x = f e /\ y = h e.
Proof.
  induction l as [| e l IH]; simpl; [intros [] |].
  intros [H | H]; [injection H as <- <-; eauto |].
  destruct (IH H) as (e' & He & E). eauto.
Qed.

(** C9. [create_spatial_csgraph] rejects malformed shapes with a
    ValueError: a vertices array that is not two-dimensional with at least
    one column, or an edges array that is not two-dimensional with two
    columns.  Self-loop edges are dropped, not rejected: a graph that is
    produced has no entry on its diagonal. *)
Theorem create_spatial_csgraph_shapes (linalg_norm : list Z -> N)
  (vertices edges : ndarray) (euclidean_weight directed : bool) :
  (ndim vertices <> 2%nat \/ (nth 1 (shape vertices) O < 1)%nat ->
   create_spatial_csgraph linalg_norm vertices edges euclidean_weight directed
   = (Raise (ValueError "vertices must be a NxK array with K > 0"), O)) /\
  (ndim vertices = 2%nat /\ (1 <= nth 1 (shape vertices) O)%nat ->
   ndim edges <> 2%nat \/ nth 1 (shape edges) O <> 2%nat ->
   create_spatial_csgraph linalg_norm vertices edges euclidean_weight directed
   = (Raise (ValueError "edges must be a Mx2 array"), O)) /\
  (forall g q,
      create_spatial_csgraph linalg_norm vertices edges euclidean_weight directed
      = (Ok g, q) ->
      forall i j w, In (i, j, w) (entries g) -> i <> j).
Proof.
  unfold create_spatial_csgraph.
  destruct (Nat.eqb_spec (ndim vertices) 2) as [Hv | Hv];
    destruct (Nat.ltb_spec (nth 1 (shape vertices) O) 1) as [Hk | Hk]; simpl;
    try (split; [reflexivity | split; [intros [? ?]; lia | discriminate]]).
  destruct (Nat.eqb_spec (ndim edges) 2) as [He | He];
    destruct (Nat.eqb_spec (nth 1 (shape edges) O) 2) as [He2 | He2]; simpl;
    try (split; [intros [? | ?]; lia | split; [reflexivity | discriminate]]).
  split; [intros [? | ?]; lia |]. split; [intros _ [? | ?]; congruence |].
  intros g q H i j w Hin.
  apply bind_inv in H. destruct H as (weights & q1 & q2 & _ & H & _).
  set (es := filter (fun e => negb (nth 0 e 0 =? nth 1 e 0)) (rows edges)) in *.
  assert (Hpair : forall a b,
             In (a, b) (combine (map (fun e => nth 0 e 0) es) (map (fun e => nth 1 e 0) es)) \/
             In (a, b) (combine (map (fun e => nth 1 e 0) es) (map (fun e => nth 0 e 0) es)) ->
             a <> b).
  { intros a b [Hab | Hab]; apply combine_map_map in Hab; destruct Hab as (e & He' & -> & ->);
      apply filter_In in He'; destruct He' as [_ Hne]; apply negb_true_iff in Hne;
      apply Z.eqb_neq in Hne; congruence. }
  destruct directed.
  - destruct (csr_matrix_entries _ _ _ _ _ _ _ _ _ H Hin) as (a & b & Hab & Ha & Hb & -> & ->).
    specialize (Hpair a b (or_introl Hab)). lia.
  - destruct (csr_matrix_entries _ _ _ _ _ _ _ _ _ H Hin) as (a & b & Hab & Ha & Hb & -> & ->).
    rewrite combine_app_same in Hab by (rewrite !length_map; reflexivity).
    apply in_app_or in Hab. specialize (Hpair a b Hab). lia.
Qed.

(** A self-loop edge is not rejected: the call returns a graph, without
    the loop. *)
Lemma self_loop_not_rejected :
  create_spatial_csgraph norm1 two_points loop_and_edge true false
  = (Ok {| shape0 := 2; shape1 := 2; entries := [(0, 1, 1%N); (1, 0, 1%N)]%nat |}, O).
Proof. vm_compute. reflexivity. Qed.

(** * Runs on concrete graphs *)

(** The unit square with root 0, the root's exact fields, radius 1 and
    the mask of all vertices but the root meets the preconditions. *)
Lemma square_pre :
  teasar_pre square_graph 0 square_valid square_root_ds square_root_pred (Fin 1).
Proof.
  constructor.
  - reflexivity.
  - unfold vertex. simpl. lia.
  - exists (snd (dijkstra_arrays square_graph [0%nat] PInf)).
    assert (Hs : forall s, In s [0%nat] -> (s < shape0 square_graph)%nat).
    { intros s [<- | []]. simpl. lia. }
    pose proof (dijkstra_arrays_contract square_graph [0%nat] PInf eq_refl Hs) as Hc.
    exact Hc.
  - reflexivity.
  - reflexivity.
  - intros i Hi.
    do 4 (destruct i as [| i]; [vm_compute in Hi |- *; try discriminate; eauto |]).
    destruct i; discriminate.
Qed.

(** The first iteration on the unit square. *)
Lemma square_first_iteration :
  teasar_iteration 4 square_graph square_root_ds (Some square_root_pred) (Fin 1)
    square_start = (Ok square_after_one, 2%nat).
Proof. vm_compute. reflexivity. Qed.

Lemma square_reach_one :
  reachable 4 square_graph square_root_ds (Some square_root_pred) (Fin 1)
    square_start square_after_one.
Proof.
  eapply reach_step.
  - apply reach_init.
  - vm_compute. lia.
  - exact square_first_iteration.
Qed.

(** The repository's test graph (a line with two side branches) with
    radius 11: three paths, as [test_teasar_with_branches] expects. *)
Lemma branches_run :
  graph_teasar_component 20 branches_graph (Some 0) (Some branches_valid) None None
    (find_graph_root 20) (Fin 11) false
  = (Ok (branches_paths, [Fin 100; Fin 50; Fin 30], None), 7%nat).
Proof. vm_compute. reflexivity. Qed.

(** With radius 31 only the main line and the longer side branch remain,
    with radius 51 only the main line. *)
Lemma branches_run_wider :
  fst (graph_teasar_component 20 branches_graph (Some 0) (Some branches_valid) None None
         (find_graph_root 20) (Fin 31) false)
  = Ok ([[10; 9; 8; 7; 6; 5; 4; 3; 2; 1; 0]; [16; 15; 14; 5]], [Fin 100; Fin 50], None) /\
  fst (graph_teasar_component 20 branches_graph (Some 0) (Some branches_valid) None None
         (find_graph_root 20) (Fin 51) false)
  = Ok ([[10; 9; 8; 7; 6; 5; 4; 3; 2; 1; 0]], [Fin 100], None).
Proof. split; vm_compute; reflexivity. Qed.

(** A single vertex: one query, and no arrays. *)
Lemma far_points_degenerate_witness :
  find_far_points_graph 1 single_vertex_graph (Some [true])
  = (Ok (0, 0, None, Fin 0, None), 1%nat).
Proof.
  refine (far_points_degenerate 0 single_vertex_graph [true] 0 _ _ _ _).
  - reflexivity.
  - reflexivity.
  - reflexivity.
  - intros v Hv. destruct v as [| v].
    + split.
      * exists 0%nat. split; [left; reflexivity | apply walk_here; simpl; lia].
      * intros s l _ Hw.
        exact (proj2 (proj2 (@walk_range single_vertex_graph _ _ _ eq_refl Hw))).
    + destruct v; discriminate.
Defined.

(** The arrays are absent on the edge graph as well when only vertex 1 is
    valid, and a valid vertex that cannot be reached gives an infinite
    maximal distance after a second query. *)
Lemma far_points_without_arrays :
  find_far_points_graph 2 edge_graph (Some [false; true])
  = (Ok (1, 1, None, Fin 0, None), 1%nat) /\
  find_far_points_graph 3 two_isolated (Some [true; true])
  = (Ok (0, 1, Some [-9999; -9999], PInf, Some [Fin 0; PInf]), 2%nat).
Proof. split; vm_compute; reflexivity. Qed.

(** A mask of length 1 on the unit square, the root's distances
    supplied: the error comes before any query. *)
Lemma mask_length_error_witness :
  graph_teasar_component 4 square_graph (Some 0) (Some [true]) (Some square_root_ds)
    None (find_graph_root 4) (Fin 1) false
  = (Raise (ValueError "valid must be length of vertices"), O).
Proof.
  refine (proj1 (mask_length_error 4 square_graph 0 [true] None (find_graph_root 4)
                   (Fin 1) false _) square_root_ds).
  vm_compute. discriminate.
Defined.

(** * Further properties of the code *)

(** ** utils.get_path *)

Lemma follows_det (pred : list Z) (r : Z) :
  forall p l1, follows pred r p l1 -> forall l2, follows pred r p l2 -> l1 = l2.
Proof.
  induction 1 as [| p p' l Hne Hget Hf IH]; intros l2 H2.
  - inversion H2; subst; [reflexivity | congruence].
  - inversion H2 as [| ? p2 l' Hne2 Hget2 Hf2]; subst; [congruence |].
    assert (p2 = p') by congruence. subst p2.
    f_equal. apply IH. exact Hf2.
Qed.

Lemma follows_suffix (pred : list Z) (r : Z) :
  forall p l, follows pred r p l ->
              forall x, In x l -> exists l1 l2, l = l1 ++ l2 /\ follows pred r x l2.
Proof.
  induction 1 as [| p p' l Hne Hget Hf IH]; intros x Hx.
  - destruct Hx as [<- | []]. exists [], [r]. split; [reflexivity | constructor].
  - destruct Hx as [<- | Hx].
    + exists [], (p :: l). split; [reflexivity |]. econstructor; eauto.
    + destruct (IH x Hx) as (l1 & l2 & -> & Hf2).
      exists (p :: l1), l2. split; [reflexivity | exact Hf2].
Qed.

Lemma follows_NoDup (pred : list Z) (r : Z) :
  forall p l, follows pred r p l -> NoDup l.
Proof.
  induction 1 as [| p p' l Hne Hget Hf IH].
  - constructor; [intros [] | constructor].
  - constructor; [| exact IH].
    intros Hin.
    destruct (follows_suffix _ _ _ _ Hf p Hin) as (l1 & l2 & E & Hf2).
    assert (Hf1 : follows pred r p (p :: l)) by (econstructor; eauto).
    pose proof (follows_det _ _ _ _ Hf2 _ Hf1) as E2.
    apply (f_equal (@length Z)) in E. rewrite E2, length_app in E. simpl in E. lia.
Qed.

Lemma follows_links (pred : list Z) (r : Z) :
  forall p l, follows pred r p l ->
              forall l1 b a l2, l = l1 ++ b :: a :: l2 -> np_get pred b = Some a /\ b <> r.
Proof.
  induction 1 as [| p p' l Hne Hget Hf IH]; intros l1 b a l2 E.
  - destruct l1 as [| ? [| ? ?]]; discriminate.
  - destruct l1 as [| x l1].
    + simpl in E. injection E as <- E.
      destruct (follows_head Hf) as [l' E']. rewrite E' in E. injection E as <- _.
      split; [exact Hget | exact Hne].
    + simpl in E. injection E as _ E. eapply IH. exact E.
Qed.

(** The path that [get_path] returns starts with [root], ends with
    [target], repeats no vertex, and each of its vertices but the first
    has the vertex before it as its predecessor. *)
Theorem get_path_links (fuel : nat) (root target : Z) (pred path : list Z) (q : nat) :
  get_path fuel root target pred = (Ok path, q) ->
  q = O /\ hd_error path = Some root /\ last path root = target /\ NoDup path /\
  forall l1 a b l2, path = l1 ++ a :: b :: l2 -> np_get pred b = Some a /\ b <> root.
Proof.
  intros H. destruct (get_path_spec H) as [-> (l & Hf & ->)].
  destruct (path_ends Hf) as ((l1 & E1) & _ & Hlast).
  split; [reflexivity |]. split; [rewrite E1; reflexivity |].
  split; [exact Hlast |]. split.
  - apply NoDup_rev. eapply follows_NoDup. exact Hf.
  - intros k1 a b k2 E.
    apply (f_equal (@rev Z)) in E. rewrite rev_involutive, rev_app_distr in E.
    simpl in E. rewrite <- !app_assoc in E. simpl in E.
    eapply (follows_links _ _ _ _ Hf). exact E.
Qed.

Lemma get_path_links_witness :
  hd_error [0; 1; 2] = Some 0 /\ last [0; 1; 2] 0 = 2 /\ NoDup [0; 1; 2].
Proof.
  destruct (get_path_links 3 0 2 chain_pred [0; 1; 2] O eq_refl) as (_ & H1 & H2 & H3 & _).
  exact (conj H1 (conj H2 H3)).
Defined.

Lemma follows_within {g : csgraph} {s : nat} {limit : float64} {ds : list float64}
  {pred src : list Z} :
  oracle_contract g [s] limit ds pred src ->
  forall p l, follows pred (Z.of_nat s) p l ->
  forall d, 0 <= p -> nth_error ds (Z.to_nat p) = Some (Fin d) ->
  Forall (fun v => exists dv, nth_error ds (Z.to_nat v) = Some (Fin dv) /\ dv <= d) l.
Proof.
  intros C p l Hf. induction Hf as [| p p' l Hne Hget Hf IH]; intros d Hp Hd.
  - constructor; [| constructor]. exists d. split; [exact Hd | lia].
  - assert (Hvs : Z.to_nat p <> s) by lia.
    destruct (pred_step C Hd Hvs) as (u & w & Hu & _ & Hdu & _).
    rewrite Z2Nat.id in Hu by lia.
    assert (p' = Z.of_nat u) by congruence. subst p'.
    constructor.
    + exists d. split; [exact Hd | lia].
    + assert (Hu0 : 0 <= Z.of_nat u) by lia.
      rewrite <- (Nat2Z.id u) in Hdu.
      specialize (IH _ Hu0 Hdu).
      eapply Forall_impl; [| exact IH].
      intros a (dv & Ha & Hle). exists dv. split; [exact Ha | lia].
Qed.

(** [get_path] on the predecessor array of a search: for every vertex
    the search from [s] reached, the call returns a path from [s] to that
    vertex along edges of the graph, through vertices that are no farther
    from [s] than the target. *)
Theorem get_path_of_search (g : csgraph) (s t : Z) (limit : float64)
  (ds : list float64) (pred src : list Z) (fuel : nat) (d : Z) :
  wf_csgraph g = true ->
  vertex g s -> vertex g t ->
  dijkstra g [s] limit = (Ok (ds, pred, src), 1%nat) ->
  np_get ds t = Some (Fin d) ->
  (shape0 g <= fuel)%nat ->
  exists path,
    get_path fuel s t pred = (Ok path, O) /\
    hd_error path = Some s /\ last path s = t /\ chain g path /\
    Forall (fun v => vertex g v /\
                     exists dv, np_get ds v = Some (Fin dv) /\ dv <= d) path.
Proof.
  intros Hwf Hs Ht Hd Hdt Hfuel.
  assert (Hs0 : 0 <= s) by (destruct Hs; lia).
  destruct (dijkstra_contract_nonneg Hwf (Forall_cons _ Hs0 (Forall_nil _)) Hd) as [_ C].
  simpl in C.
  rewrite np_get_nonneg in Hdt by (destruct Ht; lia).
  destruct (follows_exists C _ _ Hdt) as (l & Hf & Hlen).
  rewrite !Z2Nat.id in Hf by (destruct Ht; lia || lia).
  exists (rev l). split.
  - apply get_path_runs; [exact Hf | lia].
  - destruct (path_ends Hf) as ((l1 & E1) & _ & Hlast).
    split; [rewrite E1; reflexivity |]. split; [exact Hlast |].
    assert (Ht0 : 0 <= t) by (destruct Ht; lia).
    rewrite <- (Z2Nat.id s) in Hf by lia.
    destruct (follows_reached C Hf Ht0 (ex_intro _ d Hdt)) as (Hrange & Hchain & _).
    split; [exact Hchain |].
    apply Forall_rev.
    pose proof (follows_within C _ _ Hf d Ht0 Hdt) as Hw.
    rewrite Forall_forall in *. intros v Hv.
    split; [apply Hrange; exact Hv |].
    destruct (Hw v Hv) as (dv & Hdv & Hle).
    exists dv. split; [| exact Hle].
    rewrite np_get_nonneg by (destruct (Hrange v Hv); lia). exact Hdv.
Qed.

Lemma get_path_of_search_witness :
  exists path,
    get_path 4 0 2 square_root_pred = (Ok path, O) /\
    hd_error path = Some 0 /\ last path 0 = 2 /\ chain square_graph path /\
    Forall (fun v => vertex square_graph v /\
                     exists dv, np_get square_root_ds v = Some (Fin dv) /\ dv <= 2) path.
Proof.
  refine (get_path_of_search square_graph 0 2 PInf square_root_ds square_root_pred
            (snd (dijkstra_arrays square_graph [0%nat] PInf)) 4 2 _ _ _ _ _ _).
  - reflexivity.
  - unfold vertex. simpl. lia.
  - unfold vertex. simpl. lia.
  - reflexivity.
  - reflexivity.
  - simpl. lia.
Defined.

(** Asking [get_path] for a vertex that the search did not reach: the
    sentinel [-9999] stored as its predecessor is not an index of the
    array (for graphs of fewer than 9999 vertices), and the call raises
    IndexError. *)
Theorem get_path_unreached (g : csgraph) (s t : Z) (limit : float64)
  (ds : list float64) (pred src : list Z) (fuel : nat) :
  wf_csgraph g = true ->
  vertex g s -> vertex g t ->
  dijkstra g [s] limit = (Ok (ds, pred, src), 1%nat) ->
  np_get ds t = Some PInf ->
  Z.of_nat (shape0 g) < 9999 ->
  get_path (S (S fuel)) s t pred = (Raise IndexError, O).
Proof.
  intros Hwf Hs Ht Hd Hdt Hsmall.
  assert (Hs0 : 0 <= s) by (destruct Hs; lia).
  destruct (dijkstra_contract_nonneg Hwf (Forall_cons _ Hs0 (Forall_nil _)) Hd) as [_ C].
  simpl in C.
  rewrite np_get_nonneg in Hdt by (destruct Ht; lia).
  destruct (oc_inf C _ Hdt) as [Hp _].
  destruct (oc_src C (Z.to_nat s) (or_introl eq_refl)) as (Hss & _).
  assert (Hne : t <> s) by (intros ->; congruence).
  unfold get_path. simpl get_path_loop.
  destruct (Z.eqb_spec t s) as [E | _]; [contradiction |].
  unfold getitem at 1. rewrite np_get_nonneg by (destruct Ht; lia). rewrite Hp.
  unfold lift. rewrite bind_ret.
  destruct (Z.eqb_spec NO_PRED s) as [E | _]; [unfold NO_PRED in E; lia |].
  unfold getitem, np_get, np_index. rewrite (oc_len_pred C).
  unfold NO_PRED.
  destruct (Z.leb_spec 0 (-9999)) as [Hc | _]; [lia |]. simpl andb.
  destruct (Z.leb_spec (- Z.of_nat (shape0 g)) (-9999)) as [Hc | _]; [lia |].
  reflexivity.
Qed.

Lemma get_path_unreached_witness :
  get_path 2 0 1 (snd (fst (dijkstra_arrays two_isolated [0%nat] PInf)))
  = (Raise IndexError, O).
Proof.
  refine (get_path_unreached two_isolated 0 1 PInf
            (fst (fst (dijkstra_arrays two_isolated [0%nat] PInf))) _
            (snd (dijkstra_arrays two_isolated [0%nat] PInf)) 0 _ _ _ _ _ _).
  - reflexivity.
  - unfold vertex. simpl. lia.
  - unfold vertex. simpl. lia.
  - reflexivity.
  - reflexivity.
  - simpl. lia.
Defined.

(** ** The shape of the skeleton *)

Lemma attached_step (root : Z) (ps : list (list Z)) (visited : list Z) (t b : Z)
  (l1 : list Z) :
  (forall v, In v visited -> In v (root :: concat ps)) ->
  attached root ps ->
  In b visited -> last (t :: l1) t = b ->
  (forall v, In v (visited ++ removelast (t :: l1)) ->
             In v (root :: concat (ps ++ [t :: l1]))) /\
  attached root (ps ++ [t :: l1]).
Proof.
  intros Hvis Hatt Hb Hlast. split.
  - intros v Hv. rewrite concat_app. simpl concat. rewrite app_nil_r.
    apply in_app_or in Hv. destruct Hv as [Hv | Hv].
    + destruct (Hvis v Hv) as [E | Hin]; [left; exact E | right].
      apply in_or_app. left. exact Hin.
    + right. apply in_or_app. right. apply In_removelast. exact Hv.
  - intros i p Hi.
    destruct (Nat.lt_ge_cases i (length ps)) as [Hlt | Hge].
    + rewrite nth_error_app1 in Hi by exact Hlt.
      rewrite firstn_app. replace (i - length ps)%nat with O by lia.
      simpl firstn. rewrite app_nil_r. apply Hatt. exact Hi.
    + rewrite nth_error_app2 in Hi by exact Hge.
      destruct (i - length ps)%nat as [| k] eqn:Ek; simpl in Hi;
        [| destruct k; discriminate].
      injection Hi as <-.
      exists t, l1. split; [reflexivity |].
      rewrite firstn_app, firstn_all2 by lia. rewrite Ek. simpl firstn.
      rewrite app_nil_r, Hlast. apply Hvis. exact Hb.
Qed.

Lemma reachable_attached (fuel : nat) (g : csgraph) (root : Z) (valid0 : list bool)
  (rds : list float64) (rp : option (list Z)) (invalidation_d : float64)
  (mesh : option (list float64 * list float64)) (st : teasar_state) :
  wf_csgraph g = true ->
  vertex g root ->
  reachable fuel g rds rp invalidation_d (initial_state root valid0 mesh) st ->
  attached root (paths st).
Proof.
  intros Hwf Hroot Hr.
  assert (Hv0 : Forall (vertex g) (visited_nodes (initial_state root valid0 mesh))).
  { simpl. constructor; [exact Hroot | constructor]. }
  refine (proj2 (proj1 (reachable_invariant
            (fun st => (forall v, In v (visited_nodes st) -> In v (root :: concat (paths st))) /\
                       attached root (paths st))
            Hwf Hv0 _ _ st Hr))).
  - split.
    + simpl. intros v [<- | []]. left. reflexivity.
    + intros i p Hi. destruct i; discriminate.
  - clear. intros st tr st' [Hvis Hatt] _ _ Hit Hfacts.
    destruct Hit as (_ & _ & _ & _ & _ & _ & _ & _ & _ & _ & _ & Hv' & Hp' & _).
    destruct (if_follows Hfacts) as (l & Hf & Hrev).
    destruct (path_ends Hf) as ((l1 & E1) & _ & Hlast).
    rewrite Hv', Hp', Hrev, E1. rewrite E1 in Hlast.
    exact (attached_step root (paths st) (visited_nodes st) _ (it_branch tr) l1
             Hvis Hatt (if_branch Hfacts) Hlast).
Qed.

(** The paths of a result form a tree hanging from the root: every path
    is non-empty, the first one ends on the root, and each later one
    ends on the root or on a vertex of a path recorded before it. *)
Theorem teasar_paths_attached (fuel : nat) (g : csgraph) (root : Z) (valid0 : list bool)
  (root_ds : option (list float64)) (root_pred : option (list Z))
  (find_root_func : root_function) (invalidation_d : float64) (return_map : bool)
  (ps : list (list Z)) (ls : list float64) (mp : option (list float64)) (q : nat) :
  wf_csgraph g = true ->
  vertex g root ->
  graph_teasar_component fuel g (Some root) (Some valid0) root_ds root_pred
    find_root_func invalidation_d return_map = (Ok (ps, ls, mp), q) ->
  attached root ps.
Proof.
  intros Hwf Hroot Hrun.
  destruct (component_run Hrun) as (rds & rp & st & Hr & _ & _ & -> & _).
  exact (reachable_attached fuel g root valid0 rds rp invalidation_d _ st Hwf Hroot Hr).
Qed.

Lemma teasar_paths_attached_witness :
  exists t l, [16; 15; 14; 5] = t :: l /\
              In (last [16; 15; 14; 5] t) (0 :: concat (firstn 1 branches_paths)).
Proof.
  refine (teasar_paths_attached 20 branches_graph 0 branches_valid None None
            (find_graph_root 20) (Fin 11) false branches_paths
            [Fin 100; Fin 50; Fin 30] None 7 _ _ branches_run 1%nat _ _).
  - reflexivity.
  - unfold vertex. simpl. lia.
  - reflexivity.
Defined.

(** ** The reachability check before the loop *)

Lemma reach_check_fails {X : Type} (ds : list float64) (valid : list bool) (v : nat)
  (k : M X) :
  length ds = length valid ->
  nth_error ds v = Some PInf -> nth_error valid v = Some true ->
  (unreachable <- lift (broadcast2 (fun d b => isinf d && b) ds valid) broadcast_error ;;
   if negb (Nat.eqb (np_sum unreachable) 0)
   then raise (ValueError "all valid vertices should be reachable from root")
   else k)
  = (Raise (ValueError "all valid vertices should be reachable from root"), O).
Proof.
  intros Hlen Hd Hv.
  rewrite (broadcast2_same _ _ _ Hlen). rewrite lift_Some, bind_ret.
  assert (Hpos : (0 < np_sum (map (fun p : float64 * bool => isinf (fst p) && snd p)
                                  (combine ds valid)))%nat).
  { apply np_sum_pos. exists v.
    rewrite (nth_error_broadcast (fun d b => isinf d && b)), Hd, Hv. reflexivity. }
  destruct (Nat.eqb_spec (np_sum (map (fun p : float64 * bool => isinf (fst p) && snd p)
                                      (combine ds valid))) 0) as [E | _]; [lia |].
  reflexivity.
Qed.

Lemma unreached_cell {g : csgraph} {s : nat} {limit : float64} {ds : list float64}
  {pred src : list Z} (v : nat) :
  oracle_contract g [s] limit ds pred src ->
  (v < shape0 g)%nat -> (forall l, ~ walk g s v l) -> nth_error ds v = Some PInf.
Proof.
  intros C Hv Hno.
  destruct (contract_cell_some v C Hv) as [x Hx].
  destruct (oc_cell C _ _ Hx) as [-> | [d ->]]; [exact Hx |].
  destruct (oc_sound C _ _ Hx) as [[(s' & [<- | []] & Hw) _] _].
  exfalso. exact (Hno _ Hw).
Qed.

(** A vertex that cannot be reached from the root makes the call fail
    before the loop: with the default mask (every vertex but the root) and
    with any mask of the right length that marks the vertex valid, the
    call computes the root's distances (one query) and raises the
    reachability ValueError. *)
Theorem unreachable_vertex_rejected (fuel : nat) (g : csgraph) (root : Z)
  (root_pred : option (list Z)) (find_root_func : root_function)
  (invalidation_d : float64) (return_map : bool) (v : nat) :
  wf_csgraph g = true ->
  vertex g root ->
  (v < shape0 g)%nat ->
  (forall l, ~ walk g (Z.to_nat root) v l) ->
  graph_teasar_component fuel g (Some root) None None root_pred
    find_root_func invalidation_d return_map
  = (Raise (ValueError "all valid vertices should be reachable from root"), 1%nat) /\
  forall valid0,
    length valid0 = shape0 g -> nth_error valid0 v = Some true ->
    graph_teasar_component fuel g (Some root) (Some valid0) None root_pred
      find_root_func invalidation_d return_map
    = (Raise (ValueError "all valid vertices should be reachable from root"), 1%nat).
Proof.
  intros Hwf Hroot Hv Hno.
  destruct (dijkstra_total g [root] PInf Hwf (Forall_cons _ Hroot (Forall_nil _)) eq_refl)
    as (ds & pred & src & Hd & C).
  simpl in C.
  pose proof (unreached_cell v C Hv Hno) as Hcell.
  assert (Hn : n_vertices g = shape0 g).
  { unfold n_vertices. rewrite <- (wf_csgraph_square g Hwf). apply Nat.max_id. }
  pose proof (oc_len_ds C) as Hlds.
  assert (Hsome : forall valid0,
    length valid0 = shape0 g -> nth_error valid0 v = Some true ->
    graph_teasar_component fuel g (Some root) (Some valid0) None root_pred
      find_root_func invalidation_d return_map
    = (Raise (ValueError "all valid vertices should be reachable from root"), 1%nat)).
  { intros valid0 Hlen Hval.
    unfold graph_teasar_component, teasar_setup. cbv zeta.
    rewrite bind_ret. rewrite Hd. cbn [bind ret].
    rewrite Hn, Hlen, Nat.eqb_refl. cbn [bind ret negb].
    rewrite (reach_check_fails ds valid0 v _ (eq_trans Hlds (eq_sym Hlen)) Hcell Hval).
    reflexivity. }
  split; [| exact Hsome].
  assert (Hvr : v <> Z.to_nat root).
  { intros ->. apply (Hno 0). apply walk_here. destruct Hroot. lia. }
  specialize (Hsome (map (fun x => negb (Nat.eqb x (Z.to_nat root))) (seq 0 (shape0 g)))).
  rewrite length_map, length_seq in Hsome. specialize (Hsome eq_refl).
  rewrite nth_error_map_seq in Hsome.
  destruct (Nat.ltb_spec v (shape0 g)) as [_ | Hc]; [| lia].
  destruct (Nat.eqb_spec v (Z.to_nat root)) as [E | _]; [contradiction |].
  specialize (Hsome eq_refl). rewrite <- Hsome.
  unfold graph_teasar_component, teasar_setup. cbv zeta.
  rewrite !bind_ret. rewrite Hd. cbn [bind ret].
  rewrite Hn. rewrite (np_index_vertex (shape0 g) root Hroot). rewrite lift_Some.
  rewrite length_map, length_seq, Nat.eqb_refl.
  cbn [bind ret negb]. reflexivity.
Qed.

Lemma two_isolated_no_walk : forall l, ~ walk two_isolated 0 1 l.
Proof.
  intros l Hw. inversion Hw as [| u v w l' Hw' Hin]; subst. simpl in Hin. exact Hin.
Qed.

Lemma unreachable_vertex_rejected_witness :
  graph_teasar_component 2 two_isolated (Some 0) None None None
    (find_graph_root 2) (Fin 1) false
  = (Raise (ValueError "all valid vertices should be reachable from root"), 1%nat).
Proof.
  refine (proj1 (unreachable_vertex_rejected 2 two_isolated 0 None (find_graph_root 2)
                   (Fin 1) false 1 _ _ _ two_isolated_no_walk)).
  - reflexivity.
  - unfold vertex. simpl. lia.
  - simpl. lia.
Defined.

(** ** Target selection away from the root *)

Lemma square_cells :
  forall v x, nth_error square_root_ds v = Some x ->
              x = PInf \/ exists d, x = Fin d /\ 0 <= d.
Proof.
  intros v x H.
  do 4 (destruct v as [| v];
        [vm_compute in H; injection H as <-; right; eexists; split; [reflexivity | lia] |]).
  destruct v; discriminate.
Qed.

Lemma select_target_farthest_witness :
  exists dt,
    0 <= 2 /\ nth_error square_valid (Z.to_nat 2) = Some true /\
    nth_error square_root_ds (Z.to_nat 2) = Some (Fin dt) /\
    (forall j e, nth_error square_valid j = Some true ->
                 nth_error square_root_ds j = Some (Fin e) -> e <= dt) /\
    (forall j e, (j < Z.to_nat 2)%nat -> nth_error square_valid j = Some true ->
                 nth_error square_root_ds j = Some (Fin e) -> e < dt).
Proof.
  refine (select_target_farthest square_root_ds square_valid 2 O 1 1
            eq_refl square_cells (pre_reach square_pre) eq_refl eq_refl _ eq_refl).
  lia.
Defined.

(** ** find_root.find_far_points_graph *)

Lemma far_points_loop_step (fuel : nat) (g : csgraph) (valid : list bool) (b c : Z)
  (pred : option (list Z)) (m : float64) (dist : option (list float64)) :
  far_points_loop (S fuel) g valid b c pred m dist =
  ('(dc, predn, far, cd) <- far_sweep g valid c ;;
   if flt m cd
   then far_points_loop fuel g valid c (Z.of_nat far) (Some predn) cd (Some dc)
   else ret (b, c, pred, m, dist)).
Proof.
  cbn [far_points_loop]. unfold far_sweep.
  destruct (dijkstra g [c] PInf) as [[[[raw predn] src] | e |] k1];
    [| reflexivity | reflexivity].
  cbn [bind].
  destruct (mask_assign raw (map negb valid) (Fin (-1))) as [dc |];
    cbn [lift bind ret raise]; [| reflexivity].
  destruct (np_argmax dc) as [far |]; cbn [lift bind ret raise]; [| reflexivity].
  destruct (getitem dc (Z.of_nat far)) as [[cd | e |] k2]; cbn [lift bind ret raise];
    try reflexivity.
  destruct (flt m cd).
  - destruct (far_points_loop fuel g valid c (Z.of_nat far) (Some predn) cd (Some dc))
      as [r k3]. f_equal. lia.
  - cbn [ret]. f_equal. lia.
Qed.

Lemma masked_cell (raw dc : list float64) (valid : list bool) :
  mask_assign raw (map negb valid) (Fin (-1)) = Some dc ->
  length raw = length valid /\ length dc = length valid /\
  forall i, nth_error dc i =
            match nth_error raw i, nth_error valid i with
            | Some x, Some b => Some (if b then x else Fin (-1))
            | _, _ => None
            end.
Proof.
  intros H. destruct (mask_assign_spec H) as (Hl1 & Hl2 & Hc).
  rewrite length_map in Hl1. split; [exact Hl1 |]. split; [lia |].
  intros i. rewrite Hc, nth_error_map.
  destruct (nth_error raw i) as [x |]; [| reflexivity].
  destruct (nth_error valid i) as [[|] |]; reflexivity.
Qed.

Lemma far_sweep_inv (g : csgraph) (valid : list bool) (c : Z)
  (dc : list float64) (predn : list Z) (far : nat) (cd : float64) (q : nat) :
  wf_csgraph g = true -> 0 <= c ->
  far_sweep g valid c = (Ok (dc, predn, far, cd), q) ->
  q = 1%nat /\ vertex g c /\
  exists raw src,
    dijkstra g [c] PInf = (Ok (raw, predn, src), 1%nat) /\
    oracle_contract g [Z.to_nat c] PInf raw predn src /\
    mask_assign raw (map negb valid) (Fin (-1)) = Some dc /\
    length valid = shape0 g /\ (far < shape0 g)%nat /\
    nth_error dc far = Some cd /\
    forall x, In x dc -> fle x cd = true /\ isnan x = false.
Proof.
  intros Hwf Hc H. unfold far_sweep in H.
  apply bind_inv in H. destruct H as ([[raw p] src] & q1 & q2 & Hd & H & ->).
  apply bind_inv in H. destruct H as (dc' & q3 & q4 & Hm & H & ->).
  apply lift_inv in Hm. destruct Hm as [Hm ->].
  apply bind_inv in H. destruct H as (far' & q5 & q6 & Ha & H & ->).
  apply lift_inv in Ha. destruct Ha as [Ha ->].
  apply bind_inv in H. destruct H as (cd' & q7 & q8 & Hg & H & ->).
  apply getitem_inv in Hg. destruct Hg as [Hg ->].
  apply ret_inv in H. destruct H as [H ->]. injection H as <- <- <- <-.
  destruct (dijkstra_contract_nonneg Hwf (Forall_cons _ Hc (Forall_nil _)) Hd) as [Hv C].
  simpl in C. inversion Hv as [| ? ? Hvc _]. subst.
  pose proof (dijkstra_inv Hd) as (_ & _ & _ & -> & _).
  destruct (masked_cell _ _ _ Hm) as (Hl1 & Hl2 & Hcell).
  rewrite np_get_nat in Hg.
  assert (Hnn : forall x, In x dc' -> isnan x = false).
  { intros x Hx. apply In_nth_error in Hx. destruct Hx as [i Hi].
    rewrite Hcell in Hi.
    destruct (nth_error raw i) as [y |] eqn:Ey; [| discriminate].
    destruct (nth_error valid i) as [[|] |]; [| | discriminate]; injection Hi as <-.
    - eapply (contract_no_nan C). exact Ey.
    - reflexivity. }
  destruct (np_argmax_spec dc' Hnn Ha) as (vm & Hvm & Hall & _).
  assert (vm = cd') by congruence. subst vm.
  split; [reflexivity |]. split; [exact Hvc |].
  exists raw, src. split; [exact Hd |]. split; [exact C |]. split; [exact Hm |].
  pose proof (oc_len_ds C) as Hlr.
  split; [lia |]. split.
  - assert (far' < length dc')%nat by (apply nth_error_Some; congruence). lia.
  - split; [exact Hg |]. intros x Hx. split; [apply Hall; exact Hx | apply Hnn; exact Hx].
Qed.

Lemma far_sweep_runs (g : csgraph) (valid : list bool) (c : Z) :
  wf_csgraph g = true -> vertex g c -> length valid = shape0 g ->
  exists r, far_sweep g valid c = (Ok r, 1%nat).
Proof.
  intros Hwf Hc Hlen.
  destruct (dijkstra_total g [c] PInf Hwf (Forall_cons _ Hc (Forall_nil _)) eq_refl)
    as (raw & p & src & Hd & C).
  unfold far_sweep. rewrite Hd. cbn [bind].
  pose proof (oc_len_ds C) as Hlr.
  destruct (mask_assign_some raw (map negb valid) (Fin (-1))) as [dc Hm].
  { rewrite length_map. lia. }
  rewrite Hm. cbn [lift bind ret].
  destruct (masked_cell _ _ _ Hm) as (_ & Hl2 & _).
  assert (Hne : dc <> []).
  { intros ->. simpl in Hl2. destruct Hc. lia. }
  destruct (np_argmax_some Hne) as [far Ha]. rewrite Ha. cbn [lift bind ret].
  assert (Hfar : (far < length dc)%nat).
  { assert (Hnn : forall x, In x dc -> isnan x = false \/ True) by auto.
    unfold np_argmax in Ha. destruct dc as [| x dc']; [discriminate |].
    injection Ha as <-. clear.
    assert (G : forall l i bi best, (bi < i)%nat ->
                (arg_scan fle l i bi best < i + length l)%nat).
    { induction l as [| y l IH]; intros i bi best Hbi; simpl.
      - lia.
      - destruct (isnan best); [lia |]. destruct (fle y best).
        + specialize (IH (S i) bi best). lia.
        + specialize (IH (S i) i y). lia. }
    specialize (G dc' 1%nat O x). simpl. lia. }
  destruct (nth_error dc far) as [cd |] eqn:Ecd;
    [| apply nth_error_None in Ecd; lia].
  unfold getitem. rewrite np_get_nat, Ecd. cbn [lift bind ret].
  eexists. reflexivity.
Qed.

Ltac float_cases :=
  repeat match goal with
         | x : float64 |- _ => destruct x
         end;
  simpl in *; try discriminate; try reflexivity;
  repeat match goal with
         | H : (_ <? _) = true |- _ => apply Z.ltb_lt in H
         | H : (_ <? _) = false |- _ => apply Z.ltb_ge in H
         | H : (_ <=? _) = true |- _ => apply Z.leb_le in H
         | H : (_ <=? _) = false |- _ => apply Z.leb_gt in H
         | |- (_ <? _) = true => apply Z.ltb_lt
         | |- (_ <? _) = false => apply Z.ltb_ge
         | |- (_ <=? _) = true => apply Z.leb_le
         | |- (_ <=? _) = false => apply Z.leb_gt
         end;
  try lia.

Lemma flt_fle (x y : float64) : flt x y = true -> fle x y = true.
Proof. intros H. float_cases. Qed.

Lemma flt_irrefl_fle (x y : float64) : flt x y = true -> fle y x = true -> False.
Proof. intros H1 H2. float_cases. Qed.

Lemma not_flt_fle (x y : float64) :
  isnan x = false -> isnan y = false -> flt x y = false -> fle y x = true.
Proof. intros H1 H2 H3. float_cases. Qed.

Lemma fle_flt_trans (x y z : float64) : fle x y = true -> flt y z = true -> flt x z = true.
Proof. intros H1 H2. float_cases. Qed.

Lemma flt_trans (x y z : float64) : flt x y = true -> flt y z = true -> flt x z = true.
Proof. intros H1 H2. float_cases. Qed.

Lemma far_loop_inv (g : csgraph) (valid : list bool) :
  wf_csgraph g = true ->
  forall fuel b c pred m dist b' a' pred' d' dist' q,
    far_state g valid b c pred m dist ->
    far_points_loop fuel g valid b c pred m dist = (Ok (b', a', pred', d', dist'), q) ->
    far_state g valid b' a' pred' d' dist' /\
    (1 <= q)%nat /\
    exists dc predn far cd,
      far_sweep g valid a' = (Ok (dc, predn, far, cd), 1%nat) /\ flt d' cd = false.
Proof.
  intros Hwf. induction fuel as [| fuel IH];
    intros b c pred m dist b' a' pred' d' dist' q Hst Hrun.
  - discriminate.
  - rewrite far_points_loop_step in Hrun.
    apply bind_inv in Hrun.
    destruct Hrun as ([[[dc predn] far] cd] & q1 & q2 & Hsw & Hrun & ->).
    destruct Hst as (Hc & Hvc & Hcase).
    assert (Hc0 : 0 <= c) by (destruct Hc; lia).
    destruct (far_sweep_inv g valid c dc predn far cd q1 Hwf Hc0 Hsw)
      as (-> & _ & raw & src & Hd & C & Hm & Hlen & Hfar & Hcd & Hall).
    destruct (flt m cd) eqn:Hcmp.
    + assert (Hpos : flt (Fin 0) cd = true).
      { destruct Hcase as [(_ & _ & _ & ->) | (_ & _ & _ & _ & _ & _ & _ & _ & _ & _ & _ & _ & Hp)].
        - exact Hcmp.
        - eapply flt_trans; eauto. }
      destruct (masked_cell _ _ _ Hm) as (_ & _ & Hcell).
      assert (Hvfar : nth_error valid far = Some true).
      { rewrite Hcell in Hcd.
        destruct (nth_error raw far) as [x |]; [| discriminate].
        destruct (nth_error valid far) as [[|] |]; [reflexivity | | discriminate].
        injection Hcd as <-. discriminate. }
      destruct (IH c (Z.of_nat far) (Some predn) cd (Some dc) b' a' pred' d' dist' q2)
        as (Hst' & Hq & Hlast).
      * split; [split; lia |]. rewrite Nat2Z.id. split; [exact Hvfar |].
        right. exists raw, predn, src, dc.
        split; [exact Hd |]. split; [reflexivity |]. split; [reflexivity |].
        split; [exact Hm |]. split; [rewrite np_get_nat; exact Hcd |].
        split; [intros x Hx; apply Hall; exact Hx |].
        split; [exact Hc |]. split; [exact Hvc | exact Hpos].
      * exact Hrun.
      * split; [exact Hst' |]. split; [lia | exact Hlast].
    + apply ret_inv in Hrun. destruct Hrun as [E ->]. injection E as <- <- <- <- <-.
      split; [exact (conj Hc (conj Hvc Hcase)) |]. split; [lia |].
      exists dc, predn, far, cd. split; [exact Hsw | exact Hcmp].
Qed.

Lemma first_true_spec (valid : list bool) :
  forall r, first_true valid = Some r ->
            nth_error valid r = Some true /\
            forall j, (j < r)%nat -> nth_error valid j = Some false.
Proof.
  induction valid as [| x valid IH]; intros r H; [discriminate |].
  destruct x; simpl in H.
  - injection H as <-. split; [reflexivity | intros j Hj; lia].
  - destruct (first_true valid) as [r' |]; [| discriminate].
    injection H as <-. destruct (IH r' eq_refl) as [H1 H2].
    split; [exact H1 |]. intros [| j] Hj; [reflexivity |]. apply H2. lia.
Qed.

Lemma first_true_some (valid : list bool) :
  (0 < np_sum valid)%nat -> exists r, first_true valid = Some r.
Proof.
  induction valid as [| x valid IH]; intros H.
  - unfold np_sum in H. simpl in H. lia.
  - destruct x; simpl; [eauto |].
    rewrite np_sum_cons in H. destruct (IH H) as [r ->]. simpl. eauto.
Qed.

Lemma far_points_run (fuel : nat) (g : csgraph) (valid : list bool) (b a : Z)
  (pred : option (list Z)) (d : float64) (dist : option (list float64)) (q : nat) :
  wf_csgraph g = true ->
  find_far_points_graph fuel g (Some valid) = (Ok (b, a, pred, d, dist), q) ->
  far_state g valid b a pred d dist /\ (1 <= q)%nat /\ length valid = shape0 g /\
  exists dc predn far cd,
    far_sweep g valid a = (Ok (dc, predn, far, cd), 1%nat) /\ flt d cd = false.
Proof.
  intros Hwf H. unfold find_far_points_graph in H.
  apply bind_inv in H. destruct H as ([valid' c] & q1 & q2 & H0 & H & ->).
  apply bind_inv in H0. destruct H0 as (r & q3 & q4 & Hr & H0 & ->).
  apply lift_inv in Hr. destruct Hr as [Hr ->].
  apply ret_inv in H0. destruct H0 as [E ->]. injection E as <- <-.
  destruct (first_true_spec _ _ Hr) as [Hvr _].
  assert (Hpre : vertex g (Z.of_nat r) /\ length valid = shape0 g).
  { destruct fuel as [| fuel]; [discriminate |].
    pose proof H as H'. rewrite far_points_loop_step in H'.
    apply bind_inv in H'.
    destruct H' as ([[[dc predn] far] cd] & q5 & q6 & Hsw & _ & _).
    destruct (far_sweep_inv g valid (Z.of_nat r) dc predn far cd q5 Hwf
                (Nat2Z.is_nonneg r) Hsw) as (_ & Hv & _ & _ & _ & _ & _ & Hlen & _).
    split; [exact Hv | exact Hlen]. }
  destruct Hpre as [Hv Hlen].
  destruct (far_loop_inv g valid Hwf fuel (Z.of_nat r) (Z.of_nat r) None (Fin 0) None
              b a pred d dist q2) as (Hst & Hq & Hlast).
  - split; [exact Hv |]. rewrite Nat2Z.id. split; [exact Hvr |]. left. auto.
  - exact H.
  - split; [exact Hst |]. split; [lia |]. split; [exact Hlen | exact Hlast].
Qed.

Lemma far_state_root (g : csgraph) (valid : list bool) (b a : Z)
  (pred : option (list Z)) (d : float64) (dist : option (list float64)) :
  far_state g valid b a pred d dist ->
  vertex g b /\ nth_error valid (Z.to_nat b) = Some true.
Proof.
  intros (Ha & Hva & [(_ & _ & -> & _) | (raw & p & src & dc & _ & _ & _ & _ & _ & _ & Hb & Hvb & _)]);
    auto.
Qed.

Lemma masked_valid_cell (raw dc : list float64) (valid : list bool) (v : nat) :
  mask_assign raw (map negb valid) (Fin (-1)) = Some dc ->
  nth_error valid v = Some true -> nth_error dc v = nth_error raw v.
Proof.
  intros Hm Hv. destruct (masked_cell _ _ _ Hm) as (Hl & _ & Hcell).
  rewrite Hcell, Hv. destruct (nth_error raw v) eqn:E; [reflexivity |].
  reflexivity.
Qed.

(** What a sweep whose maximum is at most [Fin dd] says about the valid
    vertices. *)
Lemma sweep_bound {g : csgraph} {valid : list bool} {c : nat} {raw dc : list float64}
  {predn src : list Z} (m : float64) (dd : Z) :
  oracle_contract g [c] PInf raw predn src ->
  mask_assign raw (map negb valid) (Fin (-1)) = Some dc ->
  (forall x, In x dc -> fle x m = true) -> m = Fin dd ->
  forall v, nth_error valid v = Some true ->
            exists e, nth_error raw v = Some (Fin e) /\ shortest g [c] v e /\ e <= dd.
Proof.
  intros C Hm Hall -> v Hv.
  destruct (masked_cell _ _ _ Hm) as (Hl & _ & _).
  assert (Hvl : (v < length raw)%nat).
  { rewrite Hl. apply nth_error_Some. congruence. }
  destruct (nth_error raw v) as [x |] eqn:Ex; [| apply nth_error_None in Ex; lia].
  assert (Hdc : nth_error dc v = Some x).
  { rewrite (masked_valid_cell _ _ _ _ Hm Hv). exact Ex. }
  pose proof (Hall x (nth_error_In _ _ Hdc)) as Hle.
  destruct (oc_cell C _ _ Ex) as [-> | [e ->]]; [discriminate |].
  exists e. split; [reflexivity |]. split.
  - apply (oc_sound C _ _ Ex).
  - apply fle_Fin. exact Hle.
Qed.

(** With exact sums, the pair that [find_far_points_graph] returns is mutually farthest
    among the valid vertices: both are valid vertices, the returned
    distance is the exact distance between them, and no valid vertex is
    farther than that from either of them.  When some valid vertex cannot
    be reached, the returned distance is infinite and the two vertices are
    not connected. *)
Lemma exact_far_points_farthest (fuel : nat) (g : csgraph) (valid : list bool)
  (b a : Z) (pred : option (list Z)) (d : float64) (dist : option (list float64))
  (q : nat) :
  wf_csgraph g = true ->
  find_far_points_graph fuel g (Some valid) = (Ok (b, a, pred, d, dist), q) ->
  vertex g b /\ vertex g a /\
  nth_error valid (Z.to_nat b) = Some true /\ nth_error valid (Z.to_nat a) = Some true /\
  ((exists dd, d = Fin dd /\ distance g b a dd /\
               forall v, nth_error valid v = Some true ->
                         (exists e, shortest g [Z.to_nat b] v e /\ e <= dd) /\
                         (exists e, shortest g [Z.to_nat a] v e /\ e <= dd)) \/
   (d = PInf /\ forall l, ~ walk g (Z.to_nat b) (Z.to_nat a) l)).
Proof.
  intros Hwf Hrun.
  destruct (far_points_run fuel g valid b a pred d dist q Hwf Hrun)
    as ((Ha & Hva & Hcase) & _ & Hlen & dc' & predn' & far' & cd' & Hsw' & Hcmp').
  assert (Ha0 : 0 <= a) by (destruct Ha; lia).
  destruct (far_sweep_inv g valid a dc' predn' far' cd' 1 Hwf Ha0 Hsw')
    as (_ & _ & raw' & src' & Hd' & C' & Hm' & _ & Hfar' & Hcd' & Hall').
  assert (Hcdnn : isnan cd' = false).
  { apply (Hall' cd'). eapply nth_error_In. exact Hcd'. }
  destruct Hcase as [(-> & -> & -> & ->) |
                     (raw & p & src & dc & Hd & -> & -> & Hm & Hget & Hall & Hb & Hvb & Hpos)].
  - (* no sweep was better than 0 *)
    split; [exact Ha |]. split; [exact Ha |]. split; [exact Hva |]. split; [exact Hva |].
    left. exists 0. split; [reflexivity |].
    assert (Hle : forall x, In x dc' -> fle x (Fin 0) = true).
    { intros x Hx. destruct (Hall' x Hx) as [H1 H2].
      eapply fle_trans; [exact H1 |]. apply not_flt_fle; auto. }
    split.
    + split; [exact Ha |]. split; [exact Ha |].
      destruct (oc_src C' (Z.to_nat a) (or_introl eq_refl)) as (Hs & _).
      apply (oc_sound C' _ _ Hs).
    + intros v Hv.
      destruct (sweep_bound (Fin 0) 0 C' Hm' Hle eq_refl v Hv) as (e & _ & Hsh & He).
      split; exists e; auto.
  - assert (Hb0 : 0 <= b) by (destruct Hb; lia).
    destruct (dijkstra_contract_nonneg Hwf (Forall_cons _ Hb0 (Forall_nil _)) Hd) as [_ C].
    simpl in C.
    split; [exact Hb |]. split; [exact Ha |]. split; [exact Hvb |]. split; [exact Hva |].
    rewrite np_get_nonneg in Hget by exact Ha0.
    rewrite (masked_valid_cell _ _ _ _ Hm Hva) in Hget.
    destruct (oc_cell C _ _ Hget) as [-> | [dd ->]].
    + right. split; [reflexivity |]. intros l Hw.
      pose proof (oc_far C _ _ _ Hget (or_introl eq_refl) Hw) as Hf. discriminate.
    + left. exists dd. split; [reflexivity |]. split.
      * split; [exact Hb |]. split; [exact Ha |]. apply (oc_sound C _ _ Hget).
      * intros v Hv. split.
        -- destruct (sweep_bound (Fin dd) dd C Hm Hall eq_refl v Hv) as (e & _ & Hsh & He).
           exists e. auto.
        -- assert (Hle : forall x, In x dc' -> fle x (Fin dd) = true).
           { intros x Hx. destruct (Hall' x Hx) as [H1 H2].
             eapply fle_trans; [exact H1 |]. apply not_flt_fle; auto. }
           destruct (sweep_bound (Fin dd) dd C' Hm' Hle eq_refl v Hv) as (e & _ & Hsh & He).
           exists e. auto.
Qed.

Lemma far_points_witness_run :
  find_far_points_graph 3 square_graph (Some [true; true; true; true])
  = (Ok (0, 2, Some square_root_pred, Fin 2, Some square_root_ds), 2%nat).
Proof. vm_compute. reflexivity. Qed.

(** When [find_far_points_graph] returns arrays, they are the arrays of
    the search from the returned root: the predecessor array as the
    search gave it, and the distance array with [-1] written over every
    invalid vertex; the far vertex differs from the root and holds the
    returned, positive distance.  Otherwise both arrays are absent, the
    two vertices coincide and the distance is 0. *)
Theorem far_points_arrays (fuel : nat) (g : csgraph) (valid : list bool)
  (b a : Z) (pred : option (list Z)) (d : float64) (dist : option (list float64))
  (q : nat) :
  wf_csgraph g = true ->
  find_far_points_graph fuel g (Some valid) = (Ok (b, a, pred, d, dist), q) ->
  (pred = None /\ dist = None /\ a = b /\ d = Fin 0) \/
  (exists raw p src dc,
      dijkstra g [b] PInf = (Ok (raw, p, src), 1%nat) /\
      pred = Some p /\ dist = Some dc /\ length dc = shape0 g /\
      (forall i, nth_error valid i = Some true -> nth_error dc i = nth_error raw i) /\
      (forall i, nth_error valid i = Some false -> nth_error dc i = Some (Fin (-1))) /\
      np_get dc a = Some d /\ flt (Fin 0) d = true /\ a <> b).
Proof.
  intros Hwf Hrun.
  destruct (far_points_run fuel g valid b a pred d dist q Hwf Hrun)
    as ((Ha & Hva & Hcase) & _ & Hlen & _).
  destruct Hcase as [(-> & -> & -> & ->) |
                     (raw & p & src & dc & Hd & -> & -> & Hm & Hget & Hall & Hb & Hvb & Hpos)].
  - left. auto.
  - right. exists raw, p, src, dc.
    destruct (masked_cell _ _ _ Hm) as (Hl1 & Hl2 & Hcell).
    split; [exact Hd |]. split; [reflexivity |]. split; [reflexivity |].
    split; [lia |]. split; [intros i Hi; eapply masked_valid_cell; eauto |].
    split.
    + intros i Hi. rewrite Hcell, Hi.
      destruct (nth_error raw i) eqn:E; [reflexivity |].
      apply nth_error_None in E.
      assert (i < length valid)%nat by (apply nth_error_Some; congruence). lia.
    + split; [exact Hget |]. split; [exact Hpos |].
      intros ->.
      assert (Hb0 : 0 <= b) by (destruct Hb; lia).
      destruct (dijkstra_contract_nonneg Hwf (Forall_cons _ Hb0 (Forall_nil _)) Hd)
        as [_ C].
      simpl in C.
      destruct (oc_src C (Z.to_nat b) (or_introl eq_refl)) as (Hs & _).
      rewrite np_get_nonneg in Hget by exact Hb0.
      rewrite (masked_valid_cell _ _ _ _ Hm Hvb) in Hget.
      rewrite Hs in Hget. injection Hget as <-. discriminate.
Qed.

Lemma far_points_arrays_witness :
  (Some square_root_pred = None /\ Some square_root_ds = None /\ 2 = 0 /\ Fin 2 = Fin 0) \/
  (exists raw p src dc,
      dijkstra square_graph [0] PInf = (Ok (raw, p, src), 1%nat) /\
      Some square_root_pred = Some p /\ Some square_root_ds = Some dc /\
      length dc = shape0 square_graph /\
      (forall i, nth_error [true; true; true; true] i = Some true ->
                 nth_error dc i = nth_error raw i) /\
      (forall i, nth_error [true; true; true; true] i = Some false ->
                 nth_error dc i = Some (Fin (-1))) /\
      np_get dc 2 = Some (Fin 2) /\ flt (Fin 0) (Fin 2) = true /\ 2 <> 0).
Proof.
  exact (far_points_arrays 3 square_graph [true; true; true; true] 0 2
           (Some square_root_pred) (Fin 2) (Some square_root_ds) 2 eq_refl
           far_points_witness_run).
Defined.

Lemma vertices_bound (g : csgraph) (cs : list Z) :
  NoDup cs -> Forall (vertex g) cs -> (length cs <= shape0 g)%nat.
Proof.
  intros Hnd Hv.
  assert (Hnd' : NoDup (map Z.to_nat cs)).
  { induction Hnd as [| x l Hx Hnd IH]; simpl; constructor.
    - intros Hin. apply in_map_iff in Hin. destruct Hin as (y & Hy & Hyl).
      inversion Hv as [| ? ? Hvx Hvl]. subst.
      rewrite Forall_forall in Hvl. destruct (Hvl y Hyl). destruct Hvx.
      assert (y = x) by lia. subst y. contradiction.
    - apply IH. inversion Hv. assumption. }
  assert (Hincl : incl (map Z.to_nat cs) (seq 0 (shape0 g))).
  { intros x Hx. apply in_map_iff in Hx. destruct Hx as (y & <- & Hy).
    rewrite Forall_forall in Hv. destruct (Hv y Hy). apply in_seq. lia. }
  pose proof (NoDup_incl_length Hnd' Hincl) as H.
  rewrite length_map, length_seq in H. exact H.
Qed.

Lemma far_loop_runs (g : csgraph) (valid : list bool) :
  wf_csgraph g = true -> length valid = shape0 g ->
  forall fuel cs b c pred m dist,
    vertex g c -> NoDup cs -> Forall (vertex g) cs ->
    (forall c', In c' cs ->
                exists dc predn far cd,
                  far_sweep g valid c' = (Ok (dc, predn, far, cd), 1%nat) /\
                  fle cd m = true) ->
    (shape0 g < fuel + length cs)%nat ->
    exists r q,
      far_points_loop fuel g valid b c pred m dist = (Ok r, q) /\
      (1 <= q)%nat /\ (q + length cs <= S (shape0 g))%nat.
Proof.
  intros Hwf Hlen. induction fuel as [| fuel IH];
    intros cs b c pred m dist Hc Hnd Hcs Hold Hfuel.
  - pose proof (vertices_bound g cs Hnd Hcs). simpl in Hfuel. lia.
  - rewrite far_points_loop_step.
    destruct (far_sweep_runs g valid c Hwf Hc Hlen) as [[[[dc predn] far] cd] Hsw].
    assert (Hc0 : 0 <= c) by (destruct Hc; lia).
    destruct (far_sweep_inv g valid c dc predn far cd 1 Hwf Hc0 Hsw)
      as (_ & _ & raw & src & _ & _ & _ & _ & Hfar & Hcd & Hall).
    rewrite Hsw. cbn [bind].
    pose proof (vertices_bound g cs Hnd Hcs) as Hb.
    destruct (flt m cd) eqn:Hcmp.
    + assert (Hnew : ~ In c cs).
      { intros Hin. destruct (Hold c Hin) as (dc0 & p0 & f0 & cd0 & Hsw0 & Hle).
        rewrite Hsw in Hsw0. injection Hsw0 as _ _ _ <-.
        exact (flt_irrefl_fle _ _ Hcmp Hle). }
      destruct (IH (c :: cs) c (Z.of_nat far) (Some predn) cd (Some dc))
        as (r & q & Hrun & Hq1 & Hq2).
      * split; lia.
      * constructor; assumption.
      * constructor; assumption.
      * intros c' [<- | Hin].
        -- exists dc, predn, far, cd. split; [exact Hsw |].
           apply fle_refl. apply (Hall cd). eapply nth_error_In. exact Hcd.
        -- destruct (Hold c' Hin) as (dc0 & p0 & f0 & cd0 & Hsw0 & Hle).
           exists dc0, p0, f0, cd0. split; [exact Hsw0 |].
           apply flt_fle. eapply fle_flt_trans; eauto.
      * simpl. lia.
      * exists r, (1 + q)%nat. rewrite Hrun. split; [reflexivity |].
        simpl in Hq2. lia.
    + exists (b, c, pred, m, dist), 1%nat. split; [reflexivity |]. lia.
Qed.

(** [find_far_points_graph] terminates: on a well-formed graph with a
    mask of the right length that marks some vertex valid, the call
    returns after at least one and at most (number of vertices + 1)
    shortest-path queries. *)
Theorem far_points_terminates (g : csgraph) (valid : list bool) (fuel : nat) :
  wf_csgraph g = true ->
  length valid = shape0 g ->
  (0 < np_sum valid)%nat ->
  (shape0 g < fuel)%nat ->
  exists r q,
    find_far_points_graph fuel g (Some valid) = (Ok r, q) /\
    (1 <= q <= S (shape0 g))%nat.
Proof.
  intros Hwf Hlen Hpos Hfuel.
  destruct (first_true_some valid Hpos) as [r Hr].
  destruct (first_true_spec _ _ Hr) as [Hvr _].
  assert (Hrv : vertex g (Z.of_nat r)).
  { assert (r < length valid)%nat by (apply nth_error_Some; congruence).
    split; lia. }
  destruct (far_loop_runs g valid Hwf Hlen fuel [] (Z.of_nat r) (Z.of_nat r)
              None (Fin 0) None Hrv (NoDup_nil _) (Forall_nil _))
    as (res & q & Hrun & Hq1 & Hq2).
  - intros c' [].
  - simpl. lia.
  - exists res, q. unfold find_far_points_graph. rewrite Hr.
    rewrite lift_Some, !bind_ret. split; [exact Hrun |]. simpl in Hq2. lia.
Qed.

Lemma far_points_terminates_witness :
  exists r q,
    find_far_points_graph 5 square_graph (Some [true; true; true; true]) = (Ok r, q) /\
    (1 <= q <= S (shape0 square_graph))%nat.
Proof.
  refine (far_points_terminates square_graph [true; true; true; true] 5 _ _ _ _).
  - reflexivity.
  - reflexivity.
  - vm_compute. lia.
  - simpl. lia.
Defined.

(** ** The root chosen by find_graph_root *)

Lemma component_found_root (fuel : nat) (g : csgraph) (valid : option (list bool))
  (a : option (list float64)) (b : option (list Z)) (find_root_func : root_function)
  (invalidation_d : float64) (return_map : bool)
  (root : Z) (rp : option (list Z)) (rds : option (list float64)) (valid' : list bool)
  (q1 : nat) :
  find_root_func g valid = (Ok (root, rp, rds, valid'), q1) ->
  graph_teasar_component fuel g None valid a b find_root_func invalidation_d return_map
  = (let (r, k) := graph_teasar_component fuel g (Some root) (Some valid') rds rp
                     find_root_func invalidation_d return_map in
     (r, (q1 + k)%nat)).
Proof.
  intros H. unfold graph_teasar_component, teasar_setup. cbv zeta.
  rewrite H. cbn [bind ret].
  match goal with
  | |- context [let (r, k') := ?m in (r, (q1 + 0 + k')%nat)] =>
      destruct m as [[[[rds' rp'] st0] | e |] k']
  end; cbn [bind].
  - match goal with
    | |- context [let (r, k'0) := ?m in _] => destruct m as [r k]
    end.
    f_equal. lia.
  - f_equal. lia.
  - f_equal. lia.
Qed.

Lemma find_graph_root_inv (fuel : nat) (g : csgraph) (valid0 valid' : list bool)
  (root : Z) (rp : option (list Z)) (rds : option (list float64)) (q : nat) :
  find_graph_root fuel g (Some valid0) = (Ok (root, rp, rds, valid'), q) ->
  valid' = valid0 /\
  exists a d, find_far_points_graph fuel g (Some valid0) = (Ok (root, a, rp, d, rds), q).
Proof.
  unfold find_graph_root. rewrite bind_ret. intros H.
  apply bind_inv in H. destruct H as ([[[[b a] p] d] ds] & q1 & q2 & Hf & H & ->).
  apply ret_inv in H. destruct H as [E ->]. injection E as <- <- <- <-.
  split; [reflexivity |]. exists a, d. rewrite Nat.add_0_r. exact Hf.
Qed.

Lemma rooted_component_covers (fuel : nat) (g : csgraph) (root : Z) (valid0 : list bool)
  (rds : option (list float64)) (rp : option (list Z)) (invalidation_d : float64)
  (return_map : bool) (ps : list (list Z)) (ls : list float64) (mp : option (list float64))
  (k : nat) :
  wf_csgraph g = true -> fle (Fin 0) invalidation_d = true -> vertex g root ->
  graph_teasar_component fuel g (Some root) (Some valid0) rds rp
    (find_graph_root fuel) invalidation_d return_map = (Ok (ps, ls, mp), k) ->
  attached root ps /\ Forall2 (path_ok g) ps ls /\
  forall i, nth_error valid0 i = Some true -> covered g invalidation_d ps i.
Proof.
  intros Hwf Hrad Hv Hc.
  destruct (component_run Hc) as (rds' & rp' & st & Hr & Hz & _ & -> & -> & _).
  assert (Hv0 : Forall (vertex g)
                  (visited_nodes (initial_state root valid0 (mesh_init g return_map)))).
  { simpl. constructor; [exact Hv | constructor]. }
  split; [exact (reachable_attached fuel g root valid0 rds' rp' invalidation_d _ st
                   Hwf Hv Hr) |].
  split.
  - refine (reachable_paths_ok Hwf Hv0 _ Hr). simpl. constructor.
  - intros i Hi.
    destruct (reachable_coverage Hwf Hv0 Hrad Hr i Hi) as [Hval | Hcov]; [| exact Hcov].
    assert (Hpos : (0 < np_sum (valid st))%nat) by (apply np_sum_pos; eauto).
    lia.
Qed.

(** With exact sums, leaving the root to [find_graph_root] ([root=None] with a mask): the
    root it chooses is a valid vertex of the graph, and a normal return
    gives paths along edges with exact lengths that hang from that root
    and cover every vertex of the mask. *)
Lemma exact_found_root (fuel : nat) (g : csgraph) (valid0 : list bool)
  (root_ds : option (list float64)) (root_pred : option (list Z))
  (invalidation_d : float64) (return_map : bool)
  (ps : list (list Z)) (ls : list float64) (mp : option (list float64)) (q : nat) :
  wf_csgraph g = true ->
  fle (Fin 0) invalidation_d = true ->
  graph_teasar_component fuel g None (Some valid0) root_ds root_pred
    (find_graph_root fuel) invalidation_d return_map = (Ok (ps, ls, mp), q) ->
  exists root,
    vertex g root /\ nth_error valid0 (Z.to_nat root) = Some true /\
    attached root ps /\ Forall2 (path_ok g) ps ls /\
    forall i, nth_error valid0 i = Some true -> covered g invalidation_d ps i.
Proof.
  intros Hwf Hrad Hrun.
  destruct (find_graph_root fuel g (Some valid0)) as [[[[[root rp] rds] valid'] | e |] q1]
    eqn:Hroot.
  - rewrite (component_found_root fuel g (Some valid0) root_ds root_pred
               (find_graph_root fuel) invalidation_d return_map root rp rds valid' q1 Hroot)
      in Hrun.
    destruct (find_graph_root_inv _ _ _ _ _ _ _ _ Hroot) as (-> & a & d & Hfar).
    destruct (far_points_run fuel g valid0 root a rp d rds q1 Hwf Hfar) as (Hst & _).
    destruct (far_state_root _ _ _ _ _ _ _ Hst) as [Hv Hvalid].
    destruct (graph_teasar_component fuel g (Some root) (Some valid0) rds rp
                (find_graph_root fuel) invalidation_d return_map)
      as [[[[ps' ls'] mp'] | e |] k] eqn:Hc; try discriminate.
    injection Hrun as -> -> -> _.
    exists root. split; [exact Hv |]. split; [exact Hvalid |].
    exact (rooted_component_covers fuel g root valid0 rds rp invalidation_d return_map
             ps ls mp k Hwf Hrad Hv Hc).
  - exfalso. unfold graph_teasar_component, teasar_setup in Hrun. cbv zeta in Hrun.
    rewrite Hroot in Hrun. discriminate.
  - exfalso. unfold graph_teasar_component, teasar_setup in Hrun. cbv zeta in Hrun.
    rewrite Hroot in Hrun. discriminate.
Qed.

Lemma found_root_run :
  graph_teasar_component 5 square_graph None (Some [true; true; true; true]) None None
    (find_graph_root 5) (Fin 1) true
  = (Ok ([[2; 1; 0]], [Fin 2], Some [Fin 0; Fin 1; Fin 2; Fin 0]), 4%nat).
Proof. vm_compute. reflexivity. Qed.

(** ** utils.py: edges of a skeleton *)

Lemma mapM_pure {A B : Type} (f : A -> M B) (h : A -> B) (l : list A) :
  (forall a, In a l -> f a = (Ok (h a), O)) -> mapM f l = (Ok (map h l), O).
Proof.
  induction l as [| a l IH]; intros Hf; simpl.
  - reflexivity.
  - rewrite (Hf a (or_introl eq_refl)). rewrite IH by (intros; apply Hf; right; assumption).
    reflexivity.
Qed.

Lemma mapM_inv {A B : Type} (f : A -> M B) (l : list A) :
  forall bs q, mapM f l = (Ok bs, q) ->
               Forall2 (fun a b => exists q', f a = (Ok b, q')) l bs.
Proof.
  induction l as [| a l IH]; intros bs q H; simpl in H.
  - apply ret_inv in H. destruct H as [<- _]. constructor.
  - apply bind_inv in H. destruct H as (b & q1 & q2 & Hb & H & ->).
    apply bind_inv in H. destruct H as (bs' & q3 & q4 & Hbs & H & ->).
    apply ret_inv in H. destruct H as [<- _].
    constructor; [eauto | eapply IH; eauto].
Qed.

Lemma length_removelast_tl {A : Type} (p : list A) : length (removelast p) = length (tl p).
Proof.
  induction p as [| a [| b p] IH]; simpl in *; try reflexivity. rewrite IH. reflexivity.
Qed.

Lemma vstack_pair_T_path (p : list Z) :
  vstack_pair_T (removelast p) (tl p) = (Ok (pair_rows (path_pairs p)), O).
Proof.
  unfold vstack_pair_T, pair_rows, path_pairs.
  rewrite length_removelast_tl, Nat.eqb_refl.
  rewrite length_combine, length_removelast_tl, Nat.min_id. reflexivity.
Qed.

Lemma atleast_2d_pair_rows (l : list (list (Z * Z))) :
  map atleast_2d (map pair_rows l) = map pair_rows l.
Proof. induction l as [| x l IH]; simpl; [reflexivity | rewrite IH; reflexivity]. Qed.

Lemma sum_pair_rows (l : list (list (Z * Z))) :
  fold_right (fun b n => (nth 0 (shape b) O + n)%nat) O (map pair_rows l)
  = length (concat l).
Proof.
  induction l as [| x l IH]; simpl; [reflexivity |]. rewrite length_app, IH. reflexivity.
Qed.

Lemma data_pair_rows (l : list (list (Z * Z))) :
  flat_map data (map pair_rows l)
  = flat_map (fun ab : Z * Z => [fst ab; snd ab]) (concat l).
Proof.
  induction l as [| x l IH]; simpl; [reflexivity |]. rewrite flat_map_app, IH. reflexivity.
Qed.

Lemma np_vstack_pair_rows (l : list (list (Z * Z))) :
  l <> [] -> np_vstack (map pair_rows l) = (Ok (pair_rows (concat l)), O).
Proof.
  intros Hne. unfold np_vstack. rewrite atleast_2d_pair_rows.
  destruct l as [| x l]; [contradiction |].
  cbn [map]. rewrite (proj2 (forallb_forall _ _)).
  2: { intros b Hb. apply in_map_iff in Hb. destruct Hb as (p & <- & _). reflexivity. }
  change (pair_rows x :: map pair_rows l) with (map pair_rows (x :: l)).
  rewrite sum_pair_rows, data_pair_rows. reflexivity.
Qed.

(** The closed form of [paths_to_edges]: the rows are the pairs of
    consecutive vertices of the paths, in order. *)
Lemma paths_to_edges_closed (pl : list (list Z)) :
  pl <> [] ->
  paths_to_edges pl = (Ok (pair_rows (flat_map path_pairs pl)), O).
Proof.
  intros Hne. unfold paths_to_edges.
  rewrite (mapM_pure _ (fun p => pair_rows (path_pairs p)))
    by (intros p _; apply vstack_pair_T_path).
  rewrite (bind_ok _ _ _ eq_refl).
  rewrite <- map_map. rewrite np_vstack_pair_rows.
  - rewrite flat_map_concat_map. reflexivity.
  - destruct pl; [contradiction | discriminate].
Qed.

Lemma paths_to_edges_empty :
  paths_to_edges [] = (Raise (ValueError "need at least one array to concatenate"), O).
Proof. reflexivity. Qed.

Lemma path_pairs_cons (a b : Z) (l : list Z) :
  path_pairs (a :: b :: l) = (a, b) :: path_pairs (b :: l).
Proof. reflexivity. Qed.

Lemma length_path_pairs (p : list Z) : length (path_pairs p) = (length p - 1)%nat.
Proof.
  unfold path_pairs. rewrite length_combine, length_removelast_tl, Nat.min_id.
  destruct p; simpl; lia.
Qed.

Lemma chain_pairs (g : csgraph) (p : list Z) :
  chain g p -> forall a b, In (a, b) (path_pairs p) -> edge g a b.
Proof.
  induction p as [| x [| y l] IH]; intros Hc a b Hin.
  - destruct Hin.
  - destruct Hin.
  - rewrite path_pairs_cons in Hin. destruct Hc as [He Hc].
    destruct Hin as [E | Hin]; [injection E as <- <-; exact He | exact (IH Hc a b Hin)].
Qed.

Lemma row_pair_rows (es : list (Z * Z)) :
  forall i a b, nth_error es i = Some (a, b) -> row (pair_rows es) i = [a; b].
Proof.
  unfold row, pair_rows. cbn [shape data nth].
  induction es as [| [x y] es IH]; intros i a b Hi.
  - destruct i; discriminate.
  - destruct i as [| i].
    + injection Hi as <- <-. reflexivity.
    + simpl in Hi. specialize (IH i a b Hi).
      replace (S i * 2)%nat with (S (S (i * 2))) by lia. exact IH.
Qed.

Lemma wf_pair_rows (es : list (Z * Z)) : wf_ndarray (pair_rows es).
Proof.
  unfold wf_ndarray, pair_rows. cbn [shape data fold_right].
  induction es as [| x es IH]; simpl; [reflexivity |]. rewrite IH. lia.
Qed.

(** The edge array that [paths_to_edges] builds from paths that run
    along edges of a graph: one row per pair of consecutive vertices
    (a path of n vertices gives n - 1 rows), and every row is an edge of
    the graph. *)
Theorem paths_to_edges_are_edges (g : csgraph) (pl : list (list Z)) (e : ndarray) (q : nat) :
  Forall (chain g) pl ->
  paths_to_edges pl = (Ok e, q) ->
  q = O /\ wf_ndarray e /\
  shape e = [list_sum (map (fun p => (length p - 1)%nat) pl); 2]%nat /\
  forall i, (i < list_sum (map (fun p => (length p - 1)%nat) pl))%nat ->
            exists a b, row e i = [a; b] /\ edge g a b.
Proof.
  intros Hch H.
  assert (Hne : pl <> []) by (intros ->; discriminate).
  rewrite (paths_to_edges_closed pl Hne) in H.
  injection H as <- <-.
  assert (Hlen : forall l : list (list Z),
             length (flat_map path_pairs l)
             = list_sum (map (fun p => (length p - 1)%nat) l)).
  { induction l as [| p l IH]; simpl; [reflexivity |].
    rewrite length_app, length_path_pairs, IH. reflexivity. }
  split; [reflexivity |]. split; [apply wf_pair_rows |].
  split; [unfold pair_rows; cbn [shape]; rewrite Hlen; reflexivity |].
  intros i Hi. rewrite <- Hlen in Hi.
  destruct (nth_error (flat_map path_pairs pl) i) as [[a b] |] eqn:E;
    [| apply nth_error_None in E; lia].
  exists a, b. split; [apply row_pair_rows; exact E |].
  apply nth_error_In in E. apply in_flat_map in E. destruct E as (p & Hp & Hin).
  rewrite Forall_forall in Hch. exact (chain_pairs g p (Hch p Hp) a b Hin).
Qed.

Lemma paths_to_edges_are_edges_witness :
  O = O /\ wf_ndarray (pair_rows [(2, 1); (1, 0)]) /\
  shape (pair_rows [(2, 1); (1, 0)])
  = [list_sum (map (fun p => (length p - 1)%nat) [[2; 1; 0]]); 2]%nat /\
  forall i, (i < list_sum (map (fun p => (length p - 1)%nat) [[2; 1; 0]]))%nat ->
            exists a b, row (pair_rows [(2, 1); (1, 0)]) i = [a; b] /\ edge square_graph a b.
Proof.
  refine (paths_to_edges_are_edges square_graph [[2; 1; 0]] (pair_rows [(2, 1); (1, 0)]) O
            _ eq_refl).
  constructor; [| constructor].
  simpl. unfold edge, vertex. simpl. repeat split; try lia.
  - exists 1%N. vm_compute. auto 10.
  - exists 1%N. vm_compute. auto 10.
Defined.

Lemma mapM_fail {A B : Type} (f : A -> M B) (h : A -> B) (e : exn) :
  forall l1 a l2,
    (forall x, In x l1 -> f x = (Ok (h x), O)) ->
    f a = (Raise e, O) ->
    mapM f (l1 ++ a :: l2) = (Raise e, O).
Proof.
  induction l1 as [| x l1 IH]; intros a l2 Hok Ha; simpl.
  - rewrite Ha. reflexivity.
  - rewrite (Hok x (or_introl eq_refl)).
    rewrite (IH a l2) by (auto; intros; apply Hok; right; assumption).
    reflexivity.
Qed.

Lemma first_empty {A : Type} (l : list (list A)) :
  In [] l -> exists l1 l2, l = l1 ++ [] :: l2 /\ forall x, In x l1 -> x <> [].
Proof.
  induction l as [| x l IH]; intros Hin; [destruct Hin |].
  destruct x as [| a x].
  - exists [], l. split; [reflexivity | intros ? []].
  - destruct Hin as [E | Hin]; [discriminate |].
    destruct (IH Hin) as (l1 & l2 & -> & Hne).
    exists ((a :: x) :: l1), l2. split; [reflexivity |].
    intros y [<- | Hy]; [discriminate | apply Hne; exact Hy].
Qed.

Lemma all_paths_to_edges_empty_component (all_paths : list (list (list Z))) :
  In [] all_paths ->
  all_paths_to_edges all_paths
  = (Raise (ValueError "need at least one array to concatenate"), O).
Proof.
  intros Hin. destruct (first_empty all_paths Hin) as (l1 & l2 & -> & Hne).
  unfold all_paths_to_edges.
  rewrite (mapM_fail paths_to_edges (fun pl => pair_rows (flat_map path_pairs pl))
             (ValueError "need at least one array to concatenate")).
  - reflexivity.
  - intros x Hx. apply paths_to_edges_closed. apply Hne. exact Hx.
  - reflexivity.
Qed.

Lemma all_paths_to_edges_closed (all_paths : list (list (list Z))) :
  all_paths <> [] -> ~ In [] all_paths ->
  all_paths_to_edges all_paths
  = (Ok (pair_rows (flat_map (flat_map path_pairs) all_paths)), O).
Proof.
  intros Hne Hnot. unfold all_paths_to_edges.
  rewrite (mapM_pure paths_to_edges (fun pl => pair_rows (flat_map path_pairs pl))).
  2: { intros pl Hpl. apply paths_to_edges_closed. intros ->. contradiction. }
  rewrite (bind_ok _ _ _ eq_refl). rewrite length_map.
  destruct all_paths as [| c l]; [contradiction |].
  cbn [length Nat.ltb Nat.leb].
  rewrite <- map_map.
  rewrite np_vstack_pair_rows by discriminate.
  rewrite <- flat_map_concat_map. reflexivity.
Qed.

(** [all_paths_to_edges] succeeds exactly when there is at least one
    component and no component has an empty list of paths; without any
    component it raises its own "No edges found!" error, and a component
    without paths makes numpy's stacking fail instead. *)
Theorem all_paths_to_edges_cases (all_paths : list (list (list Z))) :
  (all_paths = [] ->
   all_paths_to_edges all_paths = (Raise (ValueError "No edges found!"), O)) /\
  (In [] all_paths ->
   all_paths_to_edges all_paths
   = (Raise (ValueError "need at least one array to concatenate"), O)) /\
  (all_paths <> [] -> ~ In [] all_paths ->
   all_paths_to_edges all_paths
   = (Ok (pair_rows (flat_map (flat_map path_pairs) all_paths)), O)).
Proof.
  split; [| split].
  - intros ->. reflexivity.
  - apply all_paths_to_edges_empty_component.
  - apply all_paths_to_edges_closed.
Qed.

(** ** utils.reduce_verts *)

Lemma insert_sorted_In (x : Z) (l : list Z) :
  forall y, In y (insert_sorted x l) <-> y = x \/ In y l.
Proof.
  induction l as [| a l IH]; intros y; simpl.
  - intuition.
  - destruct (Z.ltb_spec x a).
    + simpl. intuition.
    + destruct (Z.eqb_spec x a).
      * subst. simpl. intuition.
      * simpl. rewrite IH. intuition.
Qed.

Lemma insert_sorted_sorted (x : Z) (l : list Z) :
  StronglySorted Z.lt l -> StronglySorted Z.lt (insert_sorted x l).
Proof.
  induction 1 as [| a l Hs IH Ha]; simpl.
  - constructor; constructor.
  - destruct (Z.ltb_spec x a).
    + constructor; [constructor; assumption |].
      constructor; [assumption |].
      rewrite Forall_forall in *. intros y Hy. specialize (Ha y Hy). lia.
    + destruct (Z.eqb_spec x a).
      * constructor; assumption.
      * constructor; [exact IH |].
        rewrite Forall_forall in *. intros y Hy.
        apply insert_sorted_In in Hy. destruct Hy as [-> | Hy]; [lia | auto].
Qed.

Lemma np_unique_In (l : list Z) : forall x, In x (np_unique l) <-> In x l.
Proof.
  induction l as [| a l IH]; intros x; simpl.
  - reflexivity.
  - rewrite insert_sorted_In, IH. intuition.
Qed.

Lemma np_unique_sorted (l : list Z) : StronglySorted Z.lt (np_unique l).
Proof.
  induction l as [| a l IH]; simpl; [constructor | apply insert_sorted_sorted; exact IH].
Qed.

Lemma searchsorted_found (a : list Z) (v : Z) :
  StronglySorted Z.lt a -> In v a -> nth_error a (searchsorted a v) = Some v.
Proof.
  induction 1 as [| y a Hs IH Hy]; intros Hin; [destruct Hin |].
  simpl. destruct (Z.leb_spec v y) as [Hle | Hgt].
  - destruct Hin as [-> | Hin]; [reflexivity |].
    rewrite Forall_forall in Hy. specialize (Hy v Hin). lia.
  - destruct Hin as [-> | Hin]; [lia |]. simpl. apply IH. exact Hin.
Qed.

Lemma concat_block {A : Type} (K : nat) (blocks : list (list A)) :
  Forall (fun b => length b = K) blocks ->
  forall j b, nth_error blocks j = Some b ->
              firstn K (skipn (j * K) (concat blocks)) = b.
Proof.
  induction 1 as [| x blocks Hx HF IH]; intros j b Hj.
  - destruct j; discriminate.
  - destruct j as [| j]; simpl in Hj.
    + injection Hj as <-. simpl. rewrite firstn_app, Hx, Nat.sub_diag. simpl.
      rewrite app_nil_r. rewrite <- Hx. apply firstn_all.
    + simpl concat. replace (S j * K)%nat with (length x + j * K)%nat by (simpl; lia).
      rewrite skipn_app, skipn_all2 by lia. simpl.
      replace (length x + j * K - length x)%nat with (j * K)%nat by lia.
      apply IH. exact Hj.
Qed.

Lemma length_block {A : Type} (l : list A) (n K i : nat) :
  length l = (n * K)%nat -> (i < n)%nat -> length (firstn K (skipn (i * K) l)) = K.
Proof.
  intros Hl Hi. rewrite length_firstn, length_skipn, Hl. nia.
Qed.

Lemma np_index_lt (len : nat) (i : Z) (k : nat) : np_index len i = Some k -> (k < len)%nat.
Proof.
  unfold np_index. intros H.
  destruct ((0 <=? i) && (i <? Z.of_nat len)) eqn:E1.
  - injection H as <-. apply andb_true_iff in E1. destruct E1 as [H1 H2].
    apply Z.leb_le in H1. apply Z.ltb_lt in H2. lia.
  - destruct ((- Z.of_nat len <=? i) && (i <? 0)) eqn:E2; [| discriminate].
    injection H as <-. apply andb_true_iff in E2. destruct E2 as [H1 H2].
    apply Z.leb_le in H1. apply Z.ltb_lt in H2. lia.
Qed.

Lemma take_rows_inv (a : ndarray) (n K : nat) (idx : list Z) (r : ndarray) (q : nat) :
  shape a = [n; K]%nat -> wf_ndarray a ->
  take_rows a idx = (Ok r, q) ->
  q = O /\ shape r = [length idx; K]%nat /\
  forall j v, nth_error idx j = Some v ->
              exists i, np_index n v = Some i /\ row r j = row a i.
Proof.
  intros Hs Hwf H. unfold take_rows in H. rewrite Hs in H. cbn [fold_right] in H.
  rewrite Nat.mul_1_r in H.
  apply bind_inv in H. destruct H as (blocks & q1 & q2 & Hm & H & ->).
  apply ret_inv in H. destruct H as [<- ->].
  pose proof (mapM_inv _ _ _ _ Hm) as HF.
  assert (Hq1 : q1 = O).
  { clear HF. revert blocks q1 Hm. induction idx as [| v idx IH]; intros blocks q1 Hm.
    - apply ret_inv in Hm. tauto.
    - simpl in Hm. apply bind_inv in Hm. destruct Hm as (b & qa & qb & Hb & Hm & ->).
      apply bind_inv in Hm. destruct Hm as (bs & qc & qd & Hbs & Hm & ->).
      apply ret_inv in Hm. destruct Hm as [_ ->].
      apply bind_inv in Hb. destruct Hb as (k & qe & qf & Hk & Hb & ->).
      apply lift_inv in Hk. destruct Hk as [_ ->].
      apply ret_inv in Hb. destruct Hb as [_ ->].
      rewrite (IH _ _ Hbs). reflexivity. }
  subst q1. split; [reflexivity |]. split; [reflexivity |].
  assert (Hdata : length (data a) = (n * K)%nat).
  { unfold wf_ndarray in Hwf. rewrite Hs in Hwf. simpl in Hwf. lia. }
  assert (Hblocks : Forall2 (fun v b => exists i, np_index n v = Some i /\
                                                  b = firstn K (skipn (i * K) (data a)))
                            idx blocks).
  { eapply Forall2_impl; [| exact HF]. intros v b [q' Hb].
    apply bind_inv in Hb. destruct Hb as (k & qe & qf & Hk & Hb & _).
    apply lift_inv in Hk. destruct Hk as [Hk _].
    apply ret_inv in Hb. destruct Hb as [<- _]. eauto. }
  assert (Hlens : Forall (fun b => length b = K) blocks).
  { clear -Hblocks Hdata. induction Hblocks as [| v b idx blocks (i & Hi & ->) _ IH];
      constructor; [| exact IH].
    apply (length_block _ n); [exact Hdata | eapply np_index_lt; eauto]. }
  intros j v Hj.
  destruct (Forall2_nth_left Hblocks _ _ Hj) as (b & Hb & i & Hi & ->).
  exists i. split; [exact Hi |].
  unfold row. cbn [shape data nth]. rewrite Hs. cbn [nth].
  apply (concat_block K blocks Hlens j). exact Hb.
Qed.

Lemma reduce_verts_inv (verts faces : ndarray) (n K : nat)
  (nv nf : ndarray) (used : list Z) (q : nat) :
  shape verts = [n; K]%nat -> wf_ndarray verts ->
  reduce_verts verts faces = (Ok (nv, nf, used), q) ->
  q = O /\ used = np_unique (data faces) /\
  nf = {| shape := shape faces;
          data := map (fun v => Z.of_nat (searchsorted used v)) (data faces) |} /\
  shape nv = [length used; K]%nat /\
  forall j v, nth_error used j = Some v ->
              exists i, np_index n v = Some i /\ row nv j = row verts i.
Proof.
  intros Hs Hwf H. unfold reduce_verts in H. cbv zeta in H.
  apply bind_inv in H. destruct H as (nv' & q1 & q2 & Ht & H & ->).
  destruct (Nat.ltb (ndim faces) 2); [discriminate |].
  apply ret_inv in H. destruct H as [E ->]. injection E as <- <- <-.
  destruct (take_rows_inv verts n K _ _ _ Hs Hwf Ht) as (-> & Hsh & Hrows).
  auto.
Qed.

(** [reduce_verts] re-indexes without losing anything: the used indices
    are the distinct values of [faces] in increasing order, the new array
    has the shape of [faces], and each of its cells is the position of the
    old index among the used ones, where the new vertex array holds the
    row that the old index had. *)
Theorem reduce_verts_round_trip (verts faces : ndarray) (n K : nat)
  (nv nf : ndarray) (used : list Z) (q : nat) :
  shape verts = [n; K]%nat -> wf_ndarray verts ->
  reduce_verts verts faces = (Ok (nv, nf, used), q) ->
  q = O /\ shape nf = shape faces /\ shape nv = [length used; K]%nat /\
  StronglySorted Z.lt used /\ (forall x, In x used <-> In x (data faces)) /\
  forall k v, nth_error (data faces) k = Some v ->
              exists j i, nth_error (data nf) k = Some (Z.of_nat j) /\
                          nth_error used j = Some v /\
                          np_index n v = Some i /\ row nv j = row verts i.
Proof.
  intros Hs Hwf H.
  destruct (reduce_verts_inv verts faces n K nv nf used q Hs Hwf H)
    as (-> & -> & -> & Hsh & Hrows).
  split; [reflexivity |]. split; [reflexivity |]. split; [exact Hsh |].
  split; [apply np_unique_sorted |]. split; [apply np_unique_In |].
  intros k v Hk. cbn [data].
  assert (Hin : In v (np_unique (data faces))).
  { apply np_unique_In. eapply nth_error_In. exact Hk. }
  pose proof (searchsorted_found _ v (np_unique_sorted (data faces)) Hin) as Hfound.
  destruct (Hrows _ _ Hfound) as (i & Hi & Hrow).
  exists (searchsorted (np_unique (data faces)) v), i.
  split; [rewrite nth_error_map, Hk; reflexivity |].
  split; [exact Hfound |]. split; [exact Hi | exact Hrow].
Qed.

Lemma reduce_verts_round_trip_witness :
  O = O /\ shape edges_310 = shape edges_310 /\
  shape {| shape := [3; 2]%nat; data := [0; 0; 0; 1; 1; 0] |} = [length [0; 1; 3]; 2]%nat /\
  StronglySorted Z.lt [0; 1; 3] /\ (forall x, In x [0; 1; 3] <-> In x (data edges_310)) /\
  forall k v, nth_error (data edges_310) k = Some v ->
              exists j i, nth_error (data {| shape := [2; 2]%nat; data := [2; 1; 1; 0] |}) k
                          = Some (Z.of_nat j) /\
                          nth_error [0; 1; 3] j = Some v /\
                          np_index 4 v = Some i /\
                          row {| shape := [3; 2]%nat; data := [0; 0; 0; 1; 1; 0] |} j
                          = row square_points i.
Proof.
  exact (reduce_verts_round_trip square_points edges_310 4 2
           {| shape := [3; 2]%nat; data := [0; 0; 0; 1; 1; 0] |}
           {| shape := [2; 2]%nat; data := [2; 1; 1; 0] |} [0; 1; 3] O
           eq_refl eq_refl eq_refl).
Defined.

(** ** utils.create_spatial_skeleton *)

(** [create_spatial_skeleton] returns only when there is a component and
    every component has a path; its edge array then has one row per pair
    of consecutive path vertices, each cell being the position of the
    original vertex in the returned index list, and the returned
    coordinates are the rows of those vertices. *)
Theorem create_spatial_skeleton_edges (all_paths : list (list (list Z)))
  (vertices : ndarray) (n K : nat) (nv ne : ndarray) (orig : list Z) (q : nat) :
  shape vertices = [n; K]%nat -> wf_ndarray vertices ->
  create_spatial_skeleton all_paths vertices = (Ok (nv, ne, orig), q) ->
  all_paths <> [] /\ ~ In [] all_paths /\ q = O /\
  shape ne = [length (flat_map (flat_map path_pairs) all_paths); 2]%nat /\
  StronglySorted Z.lt orig /\
  forall r a b, nth_error (flat_map (flat_map path_pairs) all_paths) r = Some (a, b) ->
                exists ja jb ia ib,
                  row ne r = [Z.of_nat ja; Z.of_nat jb] /\
                  nth_error orig ja = Some a /\ nth_error orig jb = Some b /\
                  np_index n a = Some ia /\ np_index n b = Some ib /\
                  row nv ja = row vertices ia /\ row nv jb = row vertices ib.
Proof.
  intros Hs Hwf H. unfold create_spatial_skeleton in H.
  apply bind_inv in H. destruct H as (e & q1 & q2 & He & H & ->).
  assert (Hne : all_paths <> []) by (intros ->; discriminate).
  assert (Hnot : ~ In [] all_paths).
  { intros Hin. rewrite (all_paths_to_edges_empty_component _ Hin) in He. discriminate. }
  rewrite (all_paths_to_edges_closed _ Hne Hnot) in He. injection He as <- <-.
  destruct (reduce_verts_inv vertices _ n K nv ne orig q2 Hs Hwf H)
    as (-> & Hused & Hnf & _ & Hrows).
  set (es := flat_map (flat_map path_pairs) all_paths) in *.
  assert (Hsorted : StronglySorted Z.lt orig) by (rewrite Hused; apply np_unique_sorted).
  assert (Hsh : shape ne = [length es; 2]%nat) by (rewrite Hnf; reflexivity).
  assert (Hcells : forall k v,
             nth_error (data (pair_rows es)) k = Some v ->
             exists j i, nth_error (data ne) k = Some (Z.of_nat j) /\
                         nth_error orig j = Some v /\
                         np_index n v = Some i /\ row nv j = row vertices i).
  { intros k v Hk.
    assert (Hin : In v orig).
    { rewrite Hused. apply np_unique_In. eapply nth_error_In. exact Hk. }
    pose proof (searchsorted_found orig v Hsorted Hin) as Hfound.
    destruct (Hrows _ _ Hfound) as (i & Hi & Hrow).
    exists (searchsorted orig v), i.
    split; [rewrite Hnf; cbn [data]; rewrite nth_error_map, Hk; reflexivity |].
    auto. }
  split; [exact Hne |]. split; [exact Hnot |]. split; [reflexivity |].
  split; [exact Hsh |]. split; [exact Hsorted |].
  intros r a b Hr.
  assert (Hdata : forall (l : list (Z * Z)) r a b,
             nth_error l r = Some (a, b) ->
             nth_error (flat_map (fun ab : Z * Z => [fst ab; snd ab]) l) (2 * r) = Some a /\
             nth_error (flat_map (fun ab : Z * Z => [fst ab; snd ab]) l) (S (2 * r)) = Some b).
  { clear. induction l as [| [x y] l IH]; intros r a b Hr; [destruct r; discriminate |].
    destruct r as [| r]; simpl in Hr.
    - injection Hr as <- <-. split; reflexivity.
    - replace (2 * S r)%nat with (S (S (2 * r))) by lia. simpl. apply IH. exact Hr. }
  destruct (Hdata es r a b Hr) as [Ha Hb].
  destruct (Hcells _ _ Ha) as (ja & ia & Hja & Hoa & Hia & Hra).
  destruct (Hcells _ _ Hb) as (jb & ib & Hjb & Hob & Hib & Hrb).
  exists ja, jb, ia, ib.
  split; [| auto 10].
  unfold row. rewrite Hsh. cbn [nth].
  assert (Hrow : forall (l : list Z) r x y,
             nth_error l (2 * r) = Some x -> nth_error l (S (2 * r)) = Some y ->
             firstn 2 (skipn (r * 2) l) = [x; y]).
  { clear. intros l r x y Hx Hy.
    rewrite <- (firstn_skipn (r * 2) l) in Hx, Hy.
    assert (Hlen : length (firstn (r * 2) l) = (r * 2)%nat).
    { apply firstn_length_le. apply Nat.lt_le_incl.
      assert (2 * r < length l)%nat; [| lia].
      apply nth_error_Some. rewrite firstn_skipn in Hx. congruence. }
    rewrite nth_error_app2 in Hx, Hy by lia. rewrite Hlen in Hx, Hy.
    replace (2 * r - r * 2)%nat with O in Hx by lia.
    replace (S (2 * r) - r * 2)%nat with 1%nat in Hy by lia.
    destruct (skipn (r * 2) l) as [| x' [| y' t]]; simpl in Hx, Hy; try discriminate.
    simpl. congruence. }
  apply Hrow; assumption.
Qed.

Lemma create_spatial_skeleton_edges_witness :
  paths_310 <> [] /\ ~ In [] paths_310 /\ O = O /\
  shape {| shape := [2; 2]%nat; data := [2; 1; 1; 0] |}
  = [length (flat_map (flat_map path_pairs) paths_310); 2]%nat /\
  StronglySorted Z.lt [0; 1; 3] /\
  forall r a b, nth_error (flat_map (flat_map path_pairs) paths_310) r = Some (a, b) ->
                exists ja jb ia ib,
                  row {| shape := [2; 2]%nat; data := [2; 1; 1; 0] |} r
                  = [Z.of_nat ja; Z.of_nat jb] /\
                  nth_error [0; 1; 3] ja = Some a /\ nth_error [0; 1; 3] jb = Some b /\
                  np_index 4 a = Some ia /\ np_index 4 b = Some ib /\
                  row {| shape := [3; 2]%nat; data := [0; 0; 0; 1; 1; 0] |} ja
                  = row square_points ia /\
                  row {| shape := [3; 2]%nat; data := [0; 0; 0; 1; 1; 0] |} jb
                  = row square_points ib.
Proof.
  exact (create_spatial_skeleton_edges paths_310 square_points 4 2
           {| shape := [3; 2]%nat; data := [0; 0; 0; 1; 1; 0] |}
           {| shape := [2; 2]%nat; data := [2; 1; 1; 0] |} [0; 1; 3] O
           eq_refl eq_refl eq_refl).
Defined.

(** ** utils.create_spatial_csgraph: the graph that is built *)

Lemma coo_add_key (es : list (nat * nat * N)) (i j : nat) (w : N) :
  exists w', In (i, j, w') (coo_add es i j w).
Proof.
  induction es as [| [[a b] c] es IH]; simpl.
  - eauto.
  - destruct (Nat.eqb_spec i a) as [-> | Hi]; simpl.
    + destruct (Nat.eqb_spec j b) as [-> | Hj]; simpl.
      * eexists. left. reflexivity.
      * destruct IH as [w' IH]. eauto.
    + destruct IH as [w' IH]. eauto.
Qed.

Lemma coo_add_keeps (es : list (nat * nat * N)) (i j : nat) (w : N) (a b : nat) :
  (exists c, In (a, b, c) es) -> exists c, In (a, b, c) (coo_add es i j w).
Proof.
  induction es as [| [[x y] z] es IH]; intros [c Hc]; [destruct Hc |].
  simpl. destruct (Nat.eqb i x && Nat.eqb j y) eqn:E.
  - apply andb_true_iff in E. destruct E as [E1 E2].
    apply Nat.eqb_eq in E1. apply Nat.eqb_eq in E2. subst.
    destruct Hc as [H | H]; [injection H as <- <- <-; eexists; left; reflexivity |].
    exists c. right. exact H.
  - destruct Hc as [H | H]; [injection H as <- <- <-; eexists; left; reflexivity |].
    destruct (IH (ex_intro _ c H)) as [c' Hc']. exists c'. right. exact Hc'.
Qed.

Lemma fold_coo_keys (ts : list (Z * Z * N)) :
  forall es a b,
    ((exists c, In (a, b, c) es) \/
     exists x y w, In (x, y, w) ts /\ a = Z.to_nat x /\ b = Z.to_nat y) ->
    exists c,
      In (a, b, c)
         (fold_left (fun es t => let '(x, y, w) := t in coo_add es (Z.to_nat x) (Z.to_nat y) w)
                    ts es).
Proof.
  induction ts as [| [[x y] w] ts IH]; intros es a b H; simpl.
  - destruct H as [H | (x & y & w & [] & _)]. exact H.
  - apply IH. destruct H as [H | (x' & y' & w' & [E | Hin] & -> & ->)].
    + left. apply coo_add_keeps. exact H.
    + injection E as <- <- <-. left. apply coo_add_key.
    + right. eauto 10.
Qed.

Lemma csr_matrix_spec (weights : list N) (row col : list Z) (n : nat) (g : csgraph) (q : nat) :
  length row = length col -> length weights = length row ->
  csr_matrix weights row col n = (Ok g, q) ->
  q = O /\ shape0 g = n /\ shape1 g = n /\ wf_csgraph g = true /\
  forall i j, (exists w, In (i, j, w) (entries g)) <->
              exists a b, In (a, b) (combine row col) /\ i = Z.to_nat a /\ j = Z.to_nat b.
Proof.
  intros Hl1 Hl2 H.
  assert (Hent := fun i j w => csr_matrix_entries weights row col n g q i j w H).
  unfold csr_matrix in H.
  destruct (existsb (fun i => i <? 0) (row ++ col)) eqn:Hneg; [discriminate |].
  destruct (existsb (fun i => Z.of_nat n <=? i) (row ++ col)) eqn:Hbig; [discriminate |].
  apply ret_inv in H. destruct H as [<- ->].
  assert (Hlt : forall x, In x (row ++ col) -> x < Z.of_nat n).
  { intros x Hx. destruct (Z.leb_spec (Z.of_nat n) x) as [Hge | Hlt]; [| exact Hlt].
    assert (existsb (fun i => Z.of_nat n <=? i) (row ++ col) = true); [| congruence].
    apply existsb_exists. exists x. split; [exact Hx | apply Z.leb_le; exact Hge]. }
  split; [reflexivity |]. split; [reflexivity |]. split; [reflexivity |]. split.
  - unfold wf_csgraph. cbn [shape0 shape1]. rewrite Nat.eqb_refl. simpl andb.
    apply forallb_forall. intros [[i j] w] Hin.
    destruct (Hent i j w Hin) as (a & b & Hab & Ha & Hb & -> & ->).
    unfold wf_entry.
    pose proof (Hlt a (in_or_app _ _ _ (or_introl (in_combine_l _ _ _ _ Hab)))).
    pose proof (Hlt b (in_or_app _ _ _ (or_intror (in_combine_r _ _ _ _ Hab)))).
    apply andb_true_iff. split; apply Nat.ltb_lt; lia.
  - intros i j. split.
    + intros [w Hin]. destruct (Hent i j w Hin) as (a & b & Hab & _ & _ & -> & ->). eauto.
    + intros (a & b & Hab & -> & ->). cbn [entries].
      apply fold_coo_keys. right.
      assert (Hw : forall (r c : list Z) (ws : list N) a b,
                 length ws = length r -> length r = length c ->
                 In (a, b) (combine r c) -> exists w, In (a, b, w) (combine (combine r c) ws)).
      { clear. induction r as [| x r IH]; intros [| y c] [| w ws] a b H1 H2 Hin;
          simpl in *; try discriminate; try contradiction.
        destruct Hin as [E | Hin]; [injection E as <- <-; eauto |].
        destruct (IH c ws a b) as [w' Hw']; try lia; [exact Hin | eauto]. }
      destruct (Hw row col weights a b Hl2 Hl1 Hab) as [w Hw'].
      exists a, b, w. auto.
Qed.

Lemma combine_map_map_iff {A B C : Type} (f : A -> B) (h : A -> C) (l : list A) (x : B) (y : C) :
  In (x, y) (combine (map f l) (map h l)) <-> exists e, In e l /\ x = f e /\ y = h e.
Proof.
  split; [apply combine_map_map |].
  intros (e & He & -> & ->). induction l as [| a l IH]; [destruct He |].
  simpl. destruct He as [-> | He]; [left; reflexivity | right; apply IH; exact He].
Qed.

(** The graph that [create_spatial_csgraph] builds is a square matrix
    with one vertex per coordinate row and all entries in range, and its
    stored entries are exactly the given edges that are not self-loops,
    together with their reverses unless [directed] is set. *)
Theorem create_spatial_csgraph_graph (linalg_norm : list Z -> N)
  (vertices edges : ndarray) (euclidean_weight directed : bool) (g : csgraph) (q : nat) :
  create_spatial_csgraph linalg_norm vertices edges euclidean_weight directed = (Ok g, q) ->
  q = O /\ wf_csgraph g = true /\ shape0 g = nth 0 (shape vertices) O /\
  forall i j,
    (exists w, In (i, j, w) (entries g)) <->
    exists e, In e (rows edges) /\ nth 0 e 0 <> nth 1 e 0 /\
              ((i = Z.to_nat (nth 0 e 0) /\ j = Z.to_nat (nth 1 e 0)) \/
               (directed = false /\ i = Z.to_nat (nth 1 e 0) /\ j = Z.to_nat (nth 0 e 0))).
Proof.
  unfold create_spatial_csgraph.
  destruct (negb (Nat.eqb (ndim vertices) 2) || Nat.ltb (nth 1 (shape vertices) O) 1);
    [discriminate |].
  destruct (negb (Nat.eqb (ndim edges) 2) || negb (Nat.eqb (nth 1 (shape edges) O) 2));
    [discriminate |].
  cbv zeta.
  set (es := filter (fun e => negb (nth 0 e 0 =? nth 1 e 0)) (rows edges)).
  intros H.
  apply bind_inv in H. destruct H as (weights & q1 & q2 & Hw & H & ->).
  assert (Hwl : length weights = length es /\ q1 = O).
  { destruct euclidean_weight.
    - clear H. revert weights q1 Hw. generalize es as l.
      induction l as [| e l IH]; intros ws q1 Hw.
      + apply ret_inv in Hw. destruct Hw as [<- ->]. auto.
      + apply bind_inv in Hw. destruct Hw as (xs & qa & qb & Hx & Hw & ->).
        apply getitem_inv in Hx. destruct Hx as [_ ->].
        apply bind_inv in Hw. destruct Hw as (ys & qc & qd & Hy & Hw & ->).
        apply getitem_inv in Hy. destruct Hy as [_ ->].
        apply bind_inv in Hw. destruct Hw as (r & qe & qf & Hr & Hw & ->).
        apply ret_inv in Hw. destruct Hw as [<- ->].
        destruct (IH _ _ Hr) as [E ->]. simpl. rewrite E. auto.
    - apply ret_inv in Hw. destruct Hw as [<- ->]. rewrite length_map. auto. }
  destruct Hwl as [Hwl ->].
  assert (Hes : forall e, In e es <-> In e (rows edges) /\ nth 0 e 0 <> nth 1 e 0).
  { intros e. unfold es. rewrite filter_In. rewrite negb_true_iff, Z.eqb_neq. reflexivity. }
  destruct directed.
  - cbv beta iota in H.
    assert (L1 : length (map (fun e : list Z => nth 0 e 0) es)
                 = length (map (fun e : list Z => nth 1 e 0) es))
      by (rewrite !length_map; reflexivity).
    assert (L2 : length weights = length (map (fun e : list Z => nth 0 e 0) es))
      by (rewrite length_map; exact Hwl).
    destruct (csr_matrix_spec _ _ _ _ g q2 L1 L2 H) as (-> & Hs0 & _ & Hwf & Hent).
    split; [reflexivity |]. split; [exact Hwf |]. split; [exact Hs0 |].
    intros i j. rewrite Hent. split.
    + intros (a & b & Hab & -> & ->). apply combine_map_map_iff in Hab.
      destruct Hab as (e & He & -> & ->). apply Hes in He. destruct He as [He Hne].
      exists e. auto.
    + intros (e & He & Hne & [[-> ->] | [Hd _]]); [| discriminate].
      exists (nth 0 e 0), (nth 1 e 0). split; [| auto].
      apply combine_map_map_iff. exists e. split; [apply Hes; auto | auto].
  - cbv beta iota in H.
    assert (L1 : length (map (fun e : list Z => nth 0 e 0) es
                         ++ map (fun e : list Z => nth 1 e 0) es)
                 = length (map (fun e : list Z => nth 1 e 0) es
                           ++ map (fun e : list Z => nth 0 e 0) es))
      by (rewrite !length_app, !length_map; lia).
    assert (L2 : length (weights ++ weights)
                 = length (map (fun e : list Z => nth 0 e 0) es
                           ++ map (fun e : list Z => nth 1 e 0) es))
      by (rewrite !length_app, !length_map; lia).
    destruct (csr_matrix_spec _ _ _ _ g q2 L1 L2 H) as (-> & Hs0 & _ & Hwf & Hent).
    split; [reflexivity |]. split; [exact Hwf |]. split; [exact Hs0 |].
    intros i j. rewrite Hent. split.
    + intros (a & b & Hab & -> & ->).
      rewrite combine_app_same in Hab by (rewrite !length_map; reflexivity).
      apply in_app_or in Hab.
      destruct Hab as [Hab | Hab]; apply combine_map_map_iff in Hab;
        destruct Hab as (e & He & -> & ->); apply Hes in He; destruct He as [He Hne];
        exists e; (split; [exact He |]); (split; [exact Hne |]); [left | right]; auto.
    + intros (e & He & Hne & Hcase).
      assert (Hin : In e es) by (apply Hes; auto).
      destruct Hcase as [[-> ->] | (_ & -> & ->)].
      * exists (nth 0 e 0), (nth 1 e 0). split; [| auto].
        rewrite combine_app_same by (rewrite !length_map; reflexivity).
        apply in_or_app. left. apply combine_map_map_iff. exists e. auto.
      * exists (nth 1 e 0), (nth 0 e 0). split; [| auto].
        rewrite combine_app_same by (rewrite !length_map; reflexivity).
        apply in_or_app. right. apply combine_map_map_iff. exists e. auto.
Qed.

Lemma create_spatial_csgraph_graph_witness :
  O = O /\
  wf_csgraph {| shape0 := 2; shape1 := 2; entries := [(0, 1, 1%N); (1, 0, 1%N)]%nat |} = true /\
  shape0 {| shape0 := 2; shape1 := 2; entries := [(0, 1, 1%N); (1, 0, 1%N)]%nat |}
  = nth 0 (shape two_points) O /\
  forall i j,
    (exists w, In (i, j, w)
                 (entries {| shape0 := 2; shape1 := 2;
                             entries := [(0, 1, 1%N); (1, 0, 1%N)]%nat |})) <->
    exists e, In e (rows loop_and_edge) /\ nth 0 e 0 <> nth 1 e 0 /\
              ((i = Z.to_nat (nth 0 e 0) /\ j = Z.to_nat (nth 1 e 0)) \/
               (false = false /\ i = Z.to_nat (nth 1 e 0) /\ j = Z.to_nat (nth 0 e 0))).
Proof.
  exact (create_spatial_csgraph_graph norm1 two_points loop_and_edge true false
           {| shape0 := 2; shape1 := 2; entries := [(0, 1, 1%N); (1, 0, 1%N)]%nat |} O
           eq_refl).
Defined.

(** ** The driver graph_teasar *)

(** *** Component labels *)

Lemma label_step (g : csgraph) (L : list (option nat)) (v next : nat) :
  wf_csgraph g = true -> labels_closed g L -> (v < shape0 g)%nat ->
  labels_closed g
    (map (fun p : option nat * float64 => if isinf (snd p) then fst p else Some next)
         (combine L (fst (fst (dijkstra_arrays g [v] PInf))))) /\
  (forall x, nth_error
               (map (fun p : option nat * float64 => if isinf (snd p) then fst p else Some next)
                    (combine L (fst (fst (dijkstra_arrays g [v] PInf))))) x
             = match nth_error L x, nth_error (fst (fst (dijkstra_arrays g [v] PInf))) x with
               | Some l, Some r => Some (if isinf r then l else Some next)
               | _, _ => None
               end) /\
  nth_error (fst (fst (dijkstra_arrays g [v] PInf))) v = Some (Fin 0).
Proof.
  intros Hwf [HL Hcl] Hv.
  assert (Hs : forall s, In s [v] -> (s < shape0 g)%nat) by (intros s [<- | []]; exact Hv).
  pose proof (dijkstra_arrays_contract g [v] PInf Hwf Hs) as C.
  set (reach := fst (fst (dijkstra_arrays g [v] PInf))) in *.
  pose proof (oc_len_ds C) as Hlr.
  assert (Hcell : forall x,
    nth_error (map (fun p : option nat * float64 => if isinf (snd p) then fst p else Some next)
                   (combine L reach)) x
    = match nth_error L x, nth_error reach x with
      | Some l, Some r => Some (if isinf r then l else Some next)
      | _, _ => None
      end).
  { intros x.
    rewrite (nth_error_broadcast (fun (l : option nat) (r : float64) =>
                                    if isinf r then l else Some next)).
    reflexivity. }
  split; [| split; [exact Hcell | apply (oc_src C v (or_introl eq_refl))]].
  split; [rewrite length_map, length_combine; lia |].
  intros x y w c Hedge Hx.
  destruct (neighbors_range g x y w Hwf Hedge) as [Hxn Hyn].
  rewrite Hcell in Hx |- *.
  destruct (nth_error L x) as [lx |] eqn:ELx; [| discriminate].
  destruct (contract_cell_some x C Hxn) as [rx Erx]. rewrite Erx in Hx.
  destruct (contract_cell_some y C Hyn) as [ry Ery]. rewrite Ery.
  destruct (nth_error L y) as [ly |] eqn:ELy;
    [| apply nth_error_None in ELy; lia].
  destruct (oc_cell C _ _ Erx) as [-> | [d ->]];
    destruct (oc_cell C _ _ Ery) as [-> | [d' ->]]; simpl in *.
  - injection Hx as ->. rewrite (Hcl x y w c Hedge ELx) in ELy. congruence.
  - exfalso.
    destruct (oc_sound C _ _ Ery) as [[(s & [<- | []] & Hw) _] _].
    pose proof (walk_edge g v y x w d' Hw (neighbors_sym g x y w Hedge)) as Hw'.
    destruct (contract_reaches v x _ Hwf C (or_introl eq_refl) Hw' eq_refl) as (dx & Hdx & _).
    congruence.
  - exfalso.
    destruct (oc_sound C _ _ Erx) as [[(s & [<- | []] & Hw) _] _].
    pose proof (walk_edge g v x y w d Hw Hedge) as Hw'.
    destruct (contract_reaches v y _ Hwf C (or_introl eq_refl) Hw' eq_refl) as (dy & Hdy & _).
    congruence.
  - exact Hx.
Qed.

Lemma label_components_spec (g : csgraph) :
  wf_csgraph g = true ->
  forall vs L next,
    labels_closed g L -> (forall v, In v vs -> (v < shape0 g)%nat) ->
    labels_closed g (label_components g vs L next) /\
    (forall x c, nth_error L x = Some (Some c) ->
                 exists c', nth_error (label_components g vs L next) x = Some (Some c')) /\
    (forall v, In v vs -> exists c, nth_error (label_components g vs L next) v = Some (Some c)).
Proof.
  intros Hwf. induction vs as [| v vs IH]; intros L next Hcl Hvs.
  - simpl. split; [exact Hcl |]. split; [eauto | intros v []].
  - assert (Hv : (v < shape0 g)%nat) by (apply Hvs; left; reflexivity).
    assert (Hvs' : forall x, In x vs -> (x < shape0 g)%nat) by (intros; apply Hvs; right; auto).
    simpl.
    assert (HvL : (v < length L)%nat) by (destruct Hcl; lia).
    destruct (nth_error L v) as [lv |] eqn:ELv; [| apply nth_error_None in ELv; lia].
    rewrite (nth_error_nth _ _ None ELv).
    destruct lv as [c |].
    + destruct (IH L next Hcl Hvs') as (H1 & H2 & H3).
      split; [exact H1 |]. split; [exact H2 |].
      intros x [<- | Hx]; [eapply H2; eauto | apply H3; exact Hx].
    + destruct (label_step g L v next Hwf Hcl Hv) as (Hcl' & Hcell & Hsrc).
      destruct (IH _ (S next) Hcl' Hvs') as (H1 & H2 & H3).
      split; [exact H1 |]. split.
      * intros x c Hx.
        assert (exists c0, nth_error
                  (map (fun p : option nat * float64 =>
                          if isinf (snd p) then fst p else Some next)
                       (combine L (fst (fst (dijkstra_arrays g [v] PInf))))) x
                           = Some (Some c0)) as [c0 Hc0].
        { rewrite Hcell, Hx.
          assert (Hxn : (x < shape0 g)%nat).
          { destruct Hcl as [HL _]. rewrite <- HL. apply nth_error_Some. congruence. }
          destruct (nth_error (fst (fst (dijkstra_arrays g [v] PInf))) x) as [r |] eqn:Er.
          - destruct (isinf r); eauto.
          - apply nth_error_None in Er. destruct Hcl' as [HL' _].
            rewrite length_map, length_combine in HL'. lia. }
        eapply H2. exact Hc0.
      * intros x [<- | Hx]; [| apply H3; exact Hx].
        eapply (H2 v next). rewrite Hcell, ELv, Hsrc. reflexivity.
Qed.

Lemma connected_components_spec (g : csgraph) (labels : list nat) (q : nat) :
  wf_csgraph g = true ->
  connected_components g = (Ok labels, q) ->
  q = O /\ length labels = shape0 g /\
  forall v u l, walk g v u l -> nth_error labels v = nth_error labels u.
Proof.
  intros Hwf H. unfold connected_components in H.
  rewrite <- (wf_csgraph_square g Hwf), Nat.eqb_refl in H. simpl in H.
  apply ret_inv in H. destruct H as [<- ->].
  assert (Hcl0 : labels_closed g (repeat None (shape0 g))).
  { split; [apply repeat_length |]. intros x y w c _ Hx.
    apply nth_error_In in Hx. apply repeat_spec in Hx. discriminate. }
  destruct (label_components_spec g Hwf (seq 0 (shape0 g)) _ O Hcl0)
    as ([Hlen Hcl] & _ & Hall).
  { intros v Hv. apply in_seq in Hv. lia. }
  split; [reflexivity |]. split; [rewrite length_map; exact Hlen |].
  intros v u l Hw.
  induction Hw as [Hv | u0 v0 w l Hw IH Hedge]; [reflexivity |].
  rewrite IH. rewrite !nth_error_map.
  destruct (neighbors_range g u0 v0 w Hwf Hedge) as [Hu0 Hv0].
  destruct (Hall u0) as [c Hc]; [apply in_seq; lia |].
  rewrite Hc, (Hcl u0 v0 w c Hedge Hc). reflexivity.
Qed.

(** *** One component *)

Lemma clear_at_spec (valid valid' : list bool) (root : Z) (q : nat) :
  0 <= root ->
  clear_at valid root = (Ok valid', q) ->
  q = O /\ length valid' = length valid /\ (Z.to_nat root < length valid)%nat /\
  forall v, nth_error valid' v =
            if Nat.eqb v (Z.to_nat root) then Some false else nth_error valid v.
Proof.
  intros Hr H. unfold clear_at in H.
  apply bind_inv in H. destruct H as (i & q1 & q2 & Hi & H & ->).
  apply lift_inv in Hi. destruct Hi as [Hi ->].
  apply ret_inv in H. destruct H as [<- ->].
  pose proof (np_index_lt _ _ _ Hi) as Hlt.
  assert (i = Z.to_nat root).
  { unfold np_index in Hi. destruct ((0 <=? root) && (root <? Z.of_nat (length valid))) eqn:E.
    - congruence.
    - destruct ((- Z.of_nat (length valid) <=? root) && (root <? 0)) eqn:E2; [| discriminate].
      apply andb_true_iff in E2. destruct E2 as [_ E2]. apply Z.ltb_lt in E2. lia. }
  subst i.
  split; [reflexivity |].
  assert (Hlen : length (firstn (Z.to_nat root) valid ++ false :: skipn (S (Z.to_nat root)) valid)
                 = length valid).
  { rewrite length_app, length_firstn. cbn [length]. rewrite length_skipn. lia. }
  split; [exact Hlen |]. split; [exact Hlt |].
  intros v. destruct (Nat.eqb_spec v (Z.to_nat root)) as [-> | Hne].
  - rewrite nth_error_app2 by (rewrite length_firstn; lia).
    rewrite length_firstn. replace (Z.to_nat root - Nat.min (Z.to_nat root) (length valid))%nat
      with O by lia. reflexivity.
  - destruct (Nat.lt_ge_cases v (Z.to_nat root)) as [Hlt' | Hge].
    + rewrite nth_error_app1 by (rewrite length_firstn; lia).
      rewrite nth_error_firstn.
      destruct (Nat.ltb_spec v (Z.to_nat root)); [reflexivity | lia].
    + rewrite nth_error_app2 by (rewrite length_firstn; lia).
      rewrite length_firstn.
      replace (v - Nat.min (Z.to_nat root) (length valid))%nat
        with (S (v - S (Z.to_nat root))) by lia.
      cbn [nth_error]. rewrite nth_error_skipn. f_equal. lia.
Qed.

Lemma found_root_vertex (fuel : nat) (g : csgraph) (mask valid : list bool) (root : Z)
  (pred : option (list Z)) (rds : option (list float64)) (q : nat) :
  wf_csgraph g = true ->
  find_graph_root fuel g (Some mask) = (Ok (root, pred, rds, valid), q) ->
  vertex g root /\ valid = mask.
Proof.
  intros Hwf H.
  destruct (find_graph_root_inv _ _ _ _ _ _ _ _ H) as (-> & a & d & Hfar).
  destruct (far_points_run fuel g mask root a pred d rds q Hwf Hfar) as (Hst & _).
  destruct (far_state_root _ _ _ _ _ _ _ Hst) as [Hv _]. auto.
Qed.

Lemma covered_nil (g : csgraph) (d : float64) (i : nat) : ~ covered g d [] i.
Proof. intros (p & u & [] & _). Qed.

Lemma first_path_root (g : csgraph) (d : float64) (root : Z) (paths : list (list Z)) :
  vertex g root -> fle (Fin 0) d = true ->
  paths <> [] -> attached root paths ->
  covered g d paths (Z.to_nat root).
Proof.
  intros Hv Hd Hne Hatt.
  destruct paths as [| p0 paths]; [contradiction |].
  destruct (Hatt O p0 eq_refl) as (t & l & E & Hin).
  simpl in Hin. destruct Hin as [Hin | []].
  exists p0, root. split; [left; reflexivity |]. split.
  - rewrite Hin, E. destruct (exists_last (l := t :: l)) as (l' & a & E'); [discriminate |].
    rewrite E'. rewrite last_last. apply in_or_app. right. left. reflexivity.
  - split; [exact Hv |]. exists 0. split; [| exact Hd].
    apply walk_here. destruct Hv. lia.
Qed.

Lemma graph_teasar_body_inv (fuel : nat) (g : csgraph) (root_index : option Z)
  (inv_d : float64) (thresh : Z) (return_map : bool) (labels counts : list nat)
  (ap : list (list (list Z))) (rt : list Z) (tp : list (list float64))
  (mesh : option (list float64)) (k : nat)
  (ap' : list (list (list Z))) (rt' : list Z) (tp' : list (list float64))
  (mesh' : option (list float64)) (q : nat) :
  wf_csgraph g = true -> fle (Fin 0) inv_d = true ->
  (forall r, root_index = Some r -> vertex g r) ->
  graph_teasar_body fuel g root_index (find_graph_root fuel) inv_d thresh return_map
    labels counts (ap, rt, tp, mesh) k = (Ok (ap', rt', tp', mesh'), q) ->
  (ap' = ap /\ rt' = rt /\ tp' = tp /\
   (Z.of_nat (nth k counts O) <= thresh \/
    forall v u, nth_error labels v = Some k -> nth_error labels u = Some k -> u = v)) \/
  (exists root paths lens,
      ap' = ap ++ [paths] /\ rt' = rt ++ [root] /\ tp' = tp ++ [lens] /\
      skeleton_ok g root paths lens /\
      forall v, nth_error labels v = Some k -> covered g inv_d paths v).
Proof.
  intros Hwf Hrad Hri H. unfold graph_teasar_body in H.
  rewrite Z.gtb_ltb in H.
  destruct (Z.ltb_spec thresh (Z.of_nat (nth k counts O))) as [Hth | Hth].
  2: { apply ret_inv in H. destruct H as [E _]. injection E as <- <- <- <-.
       left. auto. }
  cbv zeta in H.
  apply bind_inv in H. destruct H as ([[[root pred] rds] valid] & q1 & q2 & Hsel & H & ->).
  assert (Hroot : vertex g root /\ valid = map (Nat.eqb k) labels).
  { destruct root_index as [r |].
    - apply bind_inv in Hsel. destruct Hsel as (l & qa & qb & _ & Hsel & _).
      destruct (Nat.eqb l k).
      + apply bind_inv in Hsel. destruct Hsel as ([[ds p] src] & qc & qd & _ & Hsel & _).
        apply ret_inv in Hsel. destruct Hsel as [E _]. injection E as <- _ _ <-.
        split; [apply Hri; reflexivity | reflexivity].
      + eapply found_root_vertex; eauto.
    - eapply found_root_vertex; eauto. }
  destruct Hroot as [Hv ->]. clear Hsel.
  apply bind_inv in H. destruct H as (valid' & q3 & q4 & Hclr & H & ->).
  assert (Hr0 : 0 <= root) by (destruct Hv; lia).
  destruct (clear_at_spec _ _ _ _ Hr0 Hclr) as (-> & Hlen' & Hrl & Hcell).
  apply bind_inv in H. destruct H as ([[paths lens] single] & q5 & q6 & Hc & H & ->).
  apply bind_inv in H. destruct H as (mesh'' & q7 & q8 & _ & H & ->).
  destruct (component_run Hc) as (rds' & rp' & st & Hr & Hz & _ & -> & -> & _).
  assert (Hv0 : Forall (vertex g)
                  (visited_nodes (initial_state root valid' (mesh_init g return_map)))).
  { simpl. constructor; [exact Hv | constructor]. }
  pose proof (reachable_attached fuel g root valid' rds' rp' inv_d _ st Hwf Hv Hr) as Hatt.
  assert (Hok : Forall2 (path_ok g) (paths st) (path_lengths st)).
  { refine (reachable_paths_ok Hwf Hv0 _ Hr). simpl. constructor. }
  assert (Hcov : forall i, nth_error valid' i = Some true -> covered g inv_d (paths st) i).
  { intros i Hi.
    destruct (reachable_coverage Hwf Hv0 Hrad Hr i Hi) as [Hval | Hcov]; [| exact Hcov].
    assert (Hpos : (0 < np_sum (valid st))%nat) by (apply np_sum_pos; eauto).
    lia. }
  assert (Hother : forall v, nth_error labels v = Some k -> v <> Z.to_nat root ->
                             covered g inv_d (paths st) v).
  { intros v Hl Hne. apply Hcov. rewrite Hcell.
    destruct (Nat.eqb_spec v (Z.to_nat root)) as [E | _]; [contradiction |].
    rewrite nth_error_map, Hl. simpl. rewrite Nat.eqb_refl. reflexivity. }
  pose proof (Forall2_length Hok) as Hlens.
  destruct (Nat.ltb_spec 0 (length (path_lengths st))) as [Hpos | Hzero].
  - apply ret_inv in H. destruct H as [E _]. injection E as <- <- <- <-.
    right. exists root, (paths st), (path_lengths st).
    assert (Hne : paths st <> []) by (intros E; rewrite E in Hlens; simpl in Hlens; lia).
    split; [reflexivity |]. split; [reflexivity |]. split; [reflexivity |].
    split; [exact (conj Hv (conj Hne (conj Hatt Hok))) |].
    intros v Hl. destruct (Nat.eq_dec v (Z.to_nat root)) as [-> | Hne'].
    + apply first_path_root; assumption.
    + apply Hother; assumption.
  - apply ret_inv in H. destruct H as [E _]. injection E as <- <- <- <-.
    left. split; [reflexivity |]. split; [reflexivity |]. split; [reflexivity |].
    right. assert (Hnil : paths st = []).
    { destruct (paths st); [reflexivity | simpl in Hlens; lia]. }
    assert (Hall : forall v, nth_error labels v = Some k -> v = Z.to_nat root).
    { intros v Hl. destruct (Nat.eq_dec v (Z.to_nat root)) as [E | Hne']; [exact E |].
      exfalso. pose proof (Hother v Hl Hne') as Hc'. rewrite Hnil in Hc'.
      exact (covered_nil _ _ _ Hc'). }
    intros v u Hlv Hlu. rewrite (Hall v Hlv), (Hall u Hlu). reflexivity.
Qed.

(** *** The loop over the components *)

Lemma graph_teasar_loop_inv (fuel : nat) (g : csgraph) (root_index : option Z)
  (inv_d : float64) (thresh : Z) (return_map : bool) (labels counts : list nat) :
  wf_csgraph g = true -> fle (Fin 0) inv_d = true ->
  (forall r, root_index = Some r -> vertex g r) ->
  forall ks acc done acc' q,
    driver_inv g inv_d thresh labels counts acc done ->
    graph_teasar_loop fuel g root_index (find_graph_root fuel) inv_d thresh return_map
      labels counts ks acc = (Ok acc', q) ->
    driver_inv g inv_d thresh labels counts acc' (done ++ ks).
Proof.
  intros Hwf Hrad Hri. induction ks as [| k ks IH]; intros acc done acc' q Hinv H.
  - apply ret_inv in H. destruct H as [<- _]. rewrite app_nil_r. exact Hinv.
  - simpl in H. apply bind_inv in H. destruct H as (acc1 & q1 & q2 & Hbody & H & ->).
    replace (done ++ k :: ks) with ((done ++ [k]) ++ ks) by (rewrite <- app_assoc; reflexivity).
    refine (IH acc1 (done ++ [k]) acc' q2 _ H).
    destruct acc as [[[ap rt] tp] mesh]. destruct acc1 as [[[ap1 rt1] tp1] mesh1].
    destruct Hinv as (L1 & L2 & Hent & Hcov).
    destruct (graph_teasar_body_inv fuel g root_index inv_d thresh return_map labels counts
                ap rt tp mesh k ap1 rt1 tp1 mesh1 q1 Hwf Hrad Hri Hbody)
      as [(-> & -> & -> & Hskip) | (root & paths & lens & -> & -> & -> & Hsk & Hnew)].
    + split; [exact L1 |]. split; [exact L2 |]. split; [exact Hent |].
      intros k' v u Hk' Hth Hv Hu Hne. apply in_app_or in Hk'.
      destruct Hk' as [Hk' | [<- | []]]; [eapply Hcov; eauto |].
      destruct Hskip as [Hle | Hsingle]; [lia |].
      exfalso. apply Hne. eapply Hsingle; eauto.
    + split; [rewrite !length_app; simpl; lia |].
      split; [rewrite !length_app; simpl; lia |]. split.
      * intros i r Hi.
        destruct (Nat.lt_ge_cases i (length rt)) as [Hlt | Hge].
        -- rewrite nth_error_app1 in Hi by exact Hlt.
           destruct (Hent i r Hi) as (p & l & Hp & Hl & Hs).
           exists p, l. rewrite !nth_error_app1 by lia. auto.
        -- rewrite nth_error_app2 in Hi by exact Hge.
           destruct (i - length rt)%nat as [| j] eqn:Ej; simpl in Hi;
             [| destruct j; discriminate].
           injection Hi as <-.
           exists paths, lens. rewrite !nth_error_app2 by lia.
           replace (i - length ap)%nat with O by lia.
           replace (i - length tp)%nat with O by lia. auto.
      * intros k' v u Hk' Hth Hv Hu Hne. apply in_app_or in Hk'.
        destruct Hk' as [Hk' | [<- | []]].
        -- destruct (Hcov k' v u Hk' Hth Hv Hu Hne) as (p & Hp & Hc).
           exists p. split; [apply in_or_app; left; exact Hp | exact Hc].
        -- exists paths. split; [apply in_or_app; right; left; reflexivity |].
           apply Hnew. exact Hv.
Qed.

Lemma graph_teasar_inv (fuel : nat) (g : csgraph) (root_index : option Z)
  (inv_d : float64) (thresh : Z) (return_map : bool) (acc : teasar_output) (q : nat) :
  wf_csgraph g = true -> fle (Fin 0) inv_d = true ->
  (forall r, root_index = Some r -> vertex g r) ->
  graph_teasar fuel g root_index (find_graph_root fuel) inv_d thresh return_map
  = (Ok acc, q) ->
  exists labels,
    connected_components g = (Ok labels, O) /\
    driver_inv g inv_d thresh labels
      (map (fun l => count_occ Nat.eq_dec labels l) (seq 0 (count_components labels)))
      acc (seq 0 (count_components labels)).
Proof.
  intros Hwf Hrad Hri H. unfold graph_teasar in H. cbv zeta in H.
  apply bind_inv in H. destruct H as (labels & q1 & q2 & Hl & H & ->).
  destruct (connected_components_spec g labels q1 Hwf Hl) as (-> & _).
  exists labels. split; [exact Hl |].
  refine (graph_teasar_loop_inv fuel g root_index inv_d thresh return_map labels _
            Hwf Hrad Hri _ _ [] acc q2 _ H).
  split; [reflexivity |]. split; [reflexivity |]. split.
  - intros i r Hi. destruct i; discriminate.
  - intros k v u [].
Qed.

(** With exact sums, the result of [graph_teasar] (with the default root function): the
    three lists run in parallel, and each entry is a non-empty list of
    paths hanging from the entry's root, a vertex of the graph; the paths
    run along edges and their lengths are exact distances. *)
Lemma exact_driver_skeletons (fuel : nat) (g : csgraph) (root_index : option Z)
  (inv_d : float64) (thresh : Z) (return_map : bool)
  (all_paths : list (list (list Z))) (roots : list Z)
  (tot_path_lengths : list (list float64)) (mesh : option (list float64)) (q : nat) :
  wf_csgraph g = true -> fle (Fin 0) inv_d = true ->
  (forall r, root_index = Some r -> vertex g r) ->
  graph_teasar fuel g root_index (find_graph_root fuel) inv_d thresh return_map
  = (Ok (all_paths, roots, tot_path_lengths, mesh), q) ->
  length all_paths = length roots /\ length tot_path_lengths = length roots /\
  forall i root, nth_error roots i = Some root ->
                 exists paths lens,
                   nth_error all_paths i = Some paths /\
                   nth_error tot_path_lengths i = Some lens /\
                   vertex g root /\ paths <> [] /\ attached root paths /\
                   Forall2 (path_ok g) paths lens.
Proof.
  intros Hwf Hrad Hri H.
  destruct (graph_teasar_inv fuel g root_index inv_d thresh return_map _ q Hwf Hrad Hri H)
    as (labels & _ & L1 & L2 & Hent & _).
  split; [exact L1 |]. split; [exact L2 |]. exact Hent.
Qed.

Lemma count_occ_two (l : list nat) (k v u : nat) :
  nth_error l v = Some k -> nth_error l u = Some k -> u <> v ->
  (2 <= count_occ Nat.eq_dec l k)%nat.
Proof.
  revert v u. induction l as [| x l IH]; intros v u Hv Hu Hne.
  - destruct v; discriminate.
  - destruct v as [| v], u as [| u]; simpl in *.
    + contradiction.
    + injection Hv as ->. destruct (Nat.eq_dec k k) as [_ | C]; [| contradiction].
      assert (0 < count_occ Nat.eq_dec l k)%nat; [| lia].
      apply count_occ_In. eapply nth_error_In. exact Hu.
    + injection Hu as ->. destruct (Nat.eq_dec k k) as [_ | C]; [| contradiction].
      assert (0 < count_occ Nat.eq_dec l k)%nat; [| lia].
      apply count_occ_In. eapply nth_error_In. exact Hv.
    + assert (2 <= count_occ Nat.eq_dec l k)%nat by (eapply (IH v u); eauto).
      destruct (Nat.eq_dec x k); lia.
Qed.

Lemma label_lt_count (labels : list nat) (v k : nat) :
  nth_error labels v = Some k -> (k < count_components labels)%nat.
Proof.
  intros H. unfold count_components.
  destruct labels as [| x l]; [destruct v; discriminate |].
  assert (G : forall (l : list nat) v k, nth_error l v = Some k ->
                                         (k <= fold_right Nat.max O l)%nat).
  { clear. induction l as [| x l IH]; intros v k H; [destruct v; discriminate |].
    destruct v as [| v]; simpl in *; [injection H as ->; lia |].
    specialize (IH v k H). lia. }
  specialize (G (x :: l) v k H). lia.
Qed.

(** With exact sums, coverage by the driver (with the default root function and a size
    threshold below 2, as the default 0): every vertex that is connected
    to another vertex lies within the invalidation radius of a vertex of
    a path of some component of the result. *)
Lemma exact_driver_covers (fuel : nat) (g : csgraph) (root_index : option Z)
  (inv_d : float64) (thresh : Z) (return_map : bool)
  (all_paths : list (list (list Z))) (roots : list Z)
  (tot_path_lengths : list (list float64)) (mesh : option (list float64)) (q : nat)
  (v u : nat) (l : Z) :
  wf_csgraph g = true -> fle (Fin 0) inv_d = true ->
  (forall r, root_index = Some r -> vertex g r) ->
  thresh < 2 ->
  graph_teasar fuel g root_index (find_graph_root fuel) inv_d thresh return_map
  = (Ok (all_paths, roots, tot_path_lengths, mesh), q) ->
  walk g v u l -> u <> v ->
  exists paths, In paths all_paths /\ covered g inv_d paths v.
Proof.
  intros Hwf Hrad Hri Hth H Hw Hne.
  destruct (graph_teasar_inv fuel g root_index inv_d thresh return_map _ q Hwf Hrad Hri H)
    as (labels & Hl & _ & _ & _ & Hcov).
  destruct (connected_components_spec g labels O Hwf Hl) as (_ & Hlen & Hsame).
  destruct (walk_range Hwf Hw) as (Hv & Hu & _).
  destruct (nth_error labels v) as [k |] eqn:Ev; [| apply nth_error_None in Ev; lia].
  pose proof (Hsame v u l Hw) as Eu. rewrite Ev in Eu. symmetry in Eu.
  pose proof (label_lt_count labels v k Ev) as Hk.
  apply (Hcov k v u); auto.
  - apply in_seq. lia.
  - assert (E : nth_error (map (fun l => count_occ Nat.eq_dec labels l)
                               (seq 0 (count_components labels))) k
                = Some (count_occ Nat.eq_dec labels k)).
    { rewrite nth_error_map, nth_error_seq.
      destruct (Nat.ltb_spec k (count_components labels)); [reflexivity | lia]. }
    rewrite (nth_error_nth _ _ O E).
    pose proof (count_occ_two labels k v u Ev Eu Hne). lia.
Qed.


(** *** Roots and the vertex-to-skeleton map *)

Lemma reachable_map_state (fuel : nat) (g : csgraph) (root : Z) (valid0 : list bool)
  (rds : list float64) (rp : option (list Z)) (inv_d : float64) (st : teasar_state) :
  wf_csgraph g = true -> vertex g root -> fle (Fin 0) inv_d = true ->
  reachable fuel g rds rp inv_d (initial_state root valid0 (mesh_init g true)) st ->
  map_state g inv_d st.
Proof.
  intros Hwf Hroot Hrad Hr.
  assert (Hv0 : Forall (vertex g)
                  (visited_nodes (initial_state root valid0 (mesh_init g true)))).
  { simpl. constructor; [exact Hroot | constructor]. }
  refine (proj1 (reachable_invariant (map_state g inv_d) Hwf Hv0 _ _ st Hr)).
  - exists (repeat PInf (n_vertices g)), (repeat NaN (n_vertices g)).
    assert (Hn : n_vertices g = shape0 g).
    { unfold n_vertices. rewrite <- (wf_csgraph_square g Hwf). apply Nat.max_id. }
    split; [reflexivity |]. rewrite !repeat_length. split; [exact Hn |]. split; [exact Hn |].
    intros i x m Hx Hm. apply nth_error_In in Hx, Hm.
    apply repeat_spec in Hx, Hm. subst. left. split; [reflexivity |].
    split; [reflexivity |]. intros s l [].
  - intros s tr s' HM HV Hpos Htr Hf.
    exact (proj1 (map_state_step fuel g rds rp inv_d s s' tr Hwf Hrad Hf Htr HM)).
Qed.

Lemma reachable_no_map (fuel : nat) (g : csgraph) (root : Z) (valid0 : list bool)
  (rds : list float64) (rp : option (list Z)) (inv_d : float64) (st : teasar_state) :
  wf_csgraph g = true -> vertex g root ->
  reachable fuel g rds rp inv_d (initial_state root valid0 (mesh_init g false)) st ->
  mesh_to_skeleton st = None.
Proof.
  intros Hwf Hroot Hr.
  assert (Hv0 : Forall (vertex g)
                  (visited_nodes (initial_state root valid0 (mesh_init g false)))).
  { simpl. constructor; [exact Hroot | constructor]. }
  refine (proj1 (reachable_invariant (fun s => mesh_to_skeleton s = None) Hwf Hv0 _ _ st Hr)).
  - reflexivity.
  - intros s tr s' HM _ _ Htr _.
    destruct Htr as (_ & _ & _ & _ & _ & _ & _ & _ & _ & Hmesh & _).
    rewrite HM in Hmesh. exact Hmesh.
Qed.

Lemma found_root_valid (fuel : nat) (g : csgraph) (mask valid : list bool) (root : Z)
  (pred : option (list Z)) (rds : option (list float64)) (q : nat) :
  wf_csgraph g = true ->
  find_graph_root fuel g (Some mask) = (Ok (root, pred, rds, valid), q) ->
  nth_error mask (Z.to_nat root) = Some true.
Proof.
  intros Hwf H.
  destruct (find_graph_root_inv _ _ _ _ _ _ _ _ H) as (-> & a & d & Hfar).
  destruct (far_points_run fuel g mask root a pred d rds q Hwf Hfar) as (Hst & _).
  destruct (far_state_root _ _ _ _ _ _ _ Hst) as [_ Hv]. exact Hv.
Qed.

Lemma mask_label (labels : list nat) (k i : nat) :
  nth_error (map (Nat.eqb k) labels) i = Some true -> nth_error labels i = Some k.
Proof.
  rewrite nth_error_map. destruct (nth_error labels i) as [l |]; [| discriminate].
  simpl. intros H. injection H as H. apply Nat.eqb_eq in H. congruence.
Qed.

Lemma merge_map_spec (m s r : list float64) (q : nat) :
  merge_map m s = (Ok r, q) ->
  length r = length m /\ length s = length m /\
  forall i, nth_error r i =
            match nth_error m i, nth_error s i with
            | Some a, Some b => Some (if isnan b then a else b)
            | _, _ => None
            end.
Proof.
  unfold merge_map. destruct (Nat.eqb_spec (length m) (length s)) as [Hl | Hl]; [| discriminate].
  intros H. apply ret_inv in H. destruct H as [<- _].
  split; [rewrite length_map, length_combine; lia |]. split; [lia |].
  intros i.
  rewrite (nth_error_broadcast (fun a b : float64 => if isnan b then a else b)).
  reflexivity.
Qed.

Lemma graph_teasar_body_more (fuel : nat) (g : csgraph) (root_index : option Z)
  (inv_d : float64) (thresh : Z) (return_map : bool) (labels counts : list nat)
  (ap : list (list (list Z))) (rt : list Z) (tp : list (list float64))
  (mesh : option (list float64)) (k : nat)
  (ap' : list (list (list Z))) (rt' : list Z) (tp' : list (list float64))
  (mesh' : option (list float64)) (q : nat) :
  wf_csgraph g = true -> fle (Fin 0) inv_d = true ->
  (forall r, root_index = Some r -> vertex g r) ->
  (return_map = false -> mesh = None) ->
  graph_teasar_body fuel g root_index (find_graph_root fuel) inv_d thresh return_map
    labels counts (ap, rt, tp, mesh) k = (Ok (ap', rt', tp', mesh'), q) ->
  (return_map = false -> mesh' = None) /\
  (rt' = rt \/ exists root, rt' = rt ++ [root] /\
                            nth_error labels (Z.to_nat root) = Some k /\
                            forall r, root_index = Some r ->
                                      nth_error labels (Z.to_nat r) = Some k -> root = r) /\
  exists np, ap' = ap ++ np /\
  forall m', mesh' = Some m' ->
    exists m, mesh = Some m /\ (length m = shape0 g -> length m' = shape0 g) /\
      forall i x', nth_error m' i = Some x' ->
        (nth_error m i = Some x' /\
         forall paths p u, In paths np -> In p paths -> In u p -> ~ within g u i inv_d) \/
        exists u paths p, x' = Fin u /\ In paths np /\ In p paths /\ In u p /\
                          within g u i inv_d.
Proof.
  intros Hwf Hrad Hri Hnomap H. unfold graph_teasar_body in H.
  rewrite Z.gtb_ltb in H.
  destruct (Z.ltb_spec thresh (Z.of_nat (nth k counts O))) as [Hth | Hth].
  2: { apply ret_inv in H. destruct H as [E _]. injection E as <- <- <- <-.
       split; [exact Hnomap |].
       split; [left; reflexivity |]. exists []. split; [rewrite app_nil_r; reflexivity |].
       intros m' ->. exists m'. split; [reflexivity |]. split; [auto |]. intros i x' Hx.
       left. split; [exact Hx | intros paths p u []]. }
  cbv zeta in H.
  apply bind_inv in H. destruct H as ([[[root pred] rds] valid] & q1 & q2 & Hsel & H & ->).
  assert (Hroot : vertex g root /\ valid = map (Nat.eqb k) labels /\
                  nth_error labels (Z.to_nat root) = Some k /\
                  forall r, root_index = Some r ->
                            nth_error labels (Z.to_nat r) = Some k -> root = r).
  { destruct root_index as [r |].
    - apply bind_inv in Hsel. destruct Hsel as (l & qa & qb & Hl & Hsel & _).
      apply getitem_inv in Hl. destruct Hl as [Hl _].
      pose proof (Hri r eq_refl) as Hvr.
      rewrite np_get_nonneg in Hl by (destruct Hvr; lia).
      destruct (Nat.eqb_spec l k) as [-> | Hlk].
      + apply bind_inv in Hsel. destruct Hsel as ([[ds p] src] & qc & qd & _ & Hsel & _).
        apply ret_inv in Hsel. destruct Hsel as [E _]. injection E as <- _ _ <-.
        split; [exact Hvr |]. split; [reflexivity |]. split; [exact Hl |].
        intros r0 E0 _. congruence.
      + destruct (found_root_vertex _ _ _ _ _ _ _ _ Hwf Hsel) as [Hv ->].
        split; [exact Hv |]. split; [reflexivity |].
        split; [apply mask_label; eapply found_root_valid; eauto |].
        intros r0 E0 Hk. injection E0 as <-. congruence.
    - destruct (found_root_vertex _ _ _ _ _ _ _ _ Hwf Hsel) as [Hv ->].
      split; [exact Hv |]. split; [reflexivity |].
      split; [apply mask_label; eapply found_root_valid; eauto |].
      intros r0 E0. discriminate. }
  destruct Hroot as (Hv & -> & Hlabel & Hgiven). clear Hsel.
  apply bind_inv in H. destruct H as (valid' & q3 & q4 & Hclr & H & ->).
  apply bind_inv in H. destruct H as ([[paths lens] single] & q5 & q6 & Hc & H & ->).
  apply bind_inv in H. destruct H as (mesh'' & q7 & q8 & Hmerge & H & ->).
  destruct (component_run Hc) as (rds' & rp' & st & Hr & Hz & _ & -> & -> & ->).
  assert (Hv0 : forall rm, Forall (vertex g)
                  (visited_nodes (initial_state root valid' (mesh_init g rm)))).
  { intros rm. simpl. constructor; [exact Hv | constructor]. }
  assert (Hok : Forall2 (path_ok g) (paths st) (path_lengths st)).
  { refine (reachable_paths_ok Hwf (Hv0 return_map) _ Hr). simpl. constructor. }
  pose proof (Forall2_length Hok) as Hlens.
  assert (Hsingle : forall s, option_map snd (mesh_to_skeleton st) = Some s ->
                      length s = shape0 g /\
                      forall i b, nth_error s i = Some b ->
                        (b = NaN /\
                         forall p u, In p (paths st) -> In u p -> ~ within g u i inv_d) \/
                        exists u p, b = Fin u /\ In p (paths st) /\ In u p /\
                                    within g u i inv_d).
  { intros s Hs. destruct return_map.
    - destruct (reachable_map_state fuel g root valid' rds' rp' inv_d st Hwf Hv Hrad Hr)
        as (dist & map & Hms & Hld & Hlm & Hent).
      rewrite Hms in Hs. simpl in Hs. injection Hs as <-.
      split; [exact Hlm |]. intros i b Hb.
      assert (Hi : (i < length dist)%nat).
      { rewrite Hld, <- Hlm. apply nth_error_Some. congruence. }
      destruct (nth_error dist i) as [x |] eqn:Ex; [| apply nth_error_None in Ex; lia].
      destruct (Hent i x b Ex Hb)
        as [(_ & -> & Hfar) | (d & u & _ & -> & _ & Hfle & Hu & Hvu & Hw)].
      + left. split; [reflexivity |].
        intros p u Hp Hu (Hvu & l & Hw & Hle).
        assert (Hin : In (Z.to_nat u) (path_vertices (paths st))).
        { unfold path_vertices. apply in_map. apply in_concat. eauto. }
        rewrite (Hfar _ _ Hin Hw) in Hle. discriminate.
      + right. apply in_concat in Hu. destruct Hu as (p & Hp & Hup).
        exists u, p. split; [reflexivity |]. split; [exact Hp |]. split; [exact Hup |].
        split; [exact Hvu |]. exists d. auto.
    - rewrite (reachable_no_map fuel g root valid' rds' rp' inv_d st Hwf Hv Hr) in Hs.
      discriminate. }
  assert (Hmesh : forall m', mesh'' = Some m' ->
    exists m, mesh = Some m /\ (length m = shape0 g -> length m' = shape0 g) /\
      forall i x', nth_error m' i = Some x' ->
        (nth_error m i = Some x' /\
         forall p u, In p (paths st) -> In u p -> ~ within g u i inv_d) \/
        exists u p, x' = Fin u /\ In p (paths st) /\ In u p /\ within g u i inv_d).
  { intros m' ->. destruct mesh as [m |].
    - destruct (option_map snd (mesh_to_skeleton st)) as [s |] eqn:Es.
      + apply bind_inv in Hmerge. destruct Hmerge as (r & qa & qb & Hm & Hret & _).
        apply ret_inv in Hret. destruct Hret as [E _]. injection E as <-.
        destruct (merge_map_spec _ _ _ _ Hm) as (Hl1 & Hl2 & Hcell).
        destruct (Hsingle s eq_refl) as [Hls Hs].
        exists m. split; [reflexivity |]. split; [lia |].
        intros i x' Hx. rewrite Hcell in Hx.
        destruct (nth_error m i) as [a |] eqn:Ea; [| discriminate].
        destruct (nth_error s i) as [b |] eqn:Eb; [| discriminate].
        injection Hx as <-.
        destruct (Hs i b Eb) as [(-> & Hfar) | (u & p & -> & Hp & Hu & Hw)].
        * left. split; [reflexivity | exact Hfar].
        * right. exists u, p. auto.
      + exfalso. destruct return_map.
        * destruct (reachable_map_state fuel g root valid' rds' rp' inv_d st Hwf Hv Hrad Hr)
            as (dist & map & Hms & _).
          rewrite Hms in Es. discriminate.
        * discriminate (Hnomap eq_refl).
    - destruct (option_map snd (mesh_to_skeleton st)); apply ret_inv in Hmerge;
        destruct Hmerge as [E _]; discriminate. }
  assert (Hnomap' : return_map = false -> mesh'' = None).
  { intros Hrm. rewrite (Hnomap Hrm) in Hmerge.
    destruct (option_map snd (mesh_to_skeleton st)); apply ret_inv in Hmerge;
      destruct Hmerge as [E _]; congruence. }
  destruct (Nat.ltb_spec 0 (length (path_lengths st))) as [Hpos | Hzero].
  - apply ret_inv in H. destruct H as [E _]. injection E as <- <- <- <-.
    split; [exact Hnomap' |].
    split; [right; exists root; auto |].
    exists [paths st]. split; [reflexivity |].
    intros m' Hm'. destruct (Hmesh m' Hm') as (m & Hm & Hlen & Hcells).
    exists m. split; [exact Hm |]. split; [exact Hlen |].
    intros i x' Hx.
    destruct (Hcells i x' Hx) as [[Hold Hfar] | (u & p & -> & Hp & Hu & Hw)].
    + left. split; [exact Hold |].
      intros paths p u [<- | []] Hp Hu. exact (Hfar p u Hp Hu).
    + right. exists u, (paths st), p. split; [reflexivity |].
      split; [left; reflexivity | auto].
  - apply ret_inv in H. destruct H as [E _]. injection E as <- <- <- <-.
    split; [exact Hnomap' |].
    split; [left; reflexivity |]. exists []. split; [rewrite app_nil_r; reflexivity |].
    intros m' Hm'. destruct (Hmesh m' Hm') as (m & Hm & Hlen & Hcells).
    exists m. split; [exact Hm |]. split; [exact Hlen |].
    intros i x' Hx.
    destruct (Hcells i x' Hx) as [[Hold Hfar] | (u & p & -> & Hp & Hu & Hw)].
    + left. split; [exact Hold | intros paths p u []].
    + exfalso. destruct (paths st); [destruct Hp | simpl in Hlens; lia].
Qed.

Lemma graph_teasar_loop_inv2 (fuel : nat) (g : csgraph) (root_index : option Z)
  (inv_d : float64) (thresh : Z) (return_map : bool) (labels counts : list nat) :
  wf_csgraph g = true -> fle (Fin 0) inv_d = true ->
  (forall r, root_index = Some r -> vertex g r) ->
  forall ks acc done acc' q,
    NoDup (done ++ ks) ->
    driver_inv2 g root_index inv_d return_map labels acc done ->
    graph_teasar_loop fuel g root_index (find_graph_root fuel) inv_d thresh return_map
      labels counts ks acc = (Ok acc', q) ->
    driver_inv2 g root_index inv_d return_map labels acc' (done ++ ks).
Proof.
  intros Hwf Hrad Hri. induction ks as [| k ks IH]; intros acc done acc' q Hnd Hinv H.
  - apply ret_inv in H. destruct H as [<- _]. rewrite app_nil_r. exact Hinv.
  - simpl in H. apply bind_inv in H. destruct H as (acc1 & q1 & q2 & Hbody & H & ->).
    replace (done ++ k :: ks) with ((done ++ [k]) ++ ks) in *
      by (rewrite <- app_assoc; reflexivity).
    refine (IH acc1 (done ++ [k]) acc' q2 Hnd _ H).
    assert (Hk : ~ In k done).
    { apply NoDup_app_remove_r in Hnd. apply NoDup_remove_2 in Hnd.
      rewrite app_nil_r in Hnd. exact Hnd. }
    destruct acc as [[[ap rt] tp] mesh]. destruct acc1 as [[[ap1 rt1] tp1] mesh1].
    destruct Hinv as (Hnomap & (kse & Hnd' & Hincl & Hlab) & Hmap).
    destruct (graph_teasar_body_more fuel g root_index inv_d thresh return_map labels counts
                ap rt tp mesh k ap1 rt1 tp1 mesh1 q1 Hwf Hrad Hri Hnomap Hbody)
      as (Hnomap1 & Hrt & np & -> & Hmesh).
    split; [exact Hnomap1 |]. split.
    + destruct Hrt as [-> | (root & -> & Hl)].
      * exists kse. split; [exact Hnd' |]. split; [| exact Hlab].
        intros k' Hk'. apply in_or_app. left. apply Hincl. exact Hk'.
      * exists (kse ++ [k]). split; [| split].
        -- apply NoDup_app; [exact Hnd' | constructor; [intros [] | constructor] |].
           intros x Hx [<- | []]. apply Hk. apply Hincl. exact Hx.
        -- intros k' Hk'. apply in_app_or in Hk'. apply in_or_app.
           destruct Hk' as [Hk' | Hk']; [left; apply Hincl; exact Hk' | right; exact Hk'].
        -- apply Forall2_app; [exact Hlab | constructor; [exact Hl | constructor]].
    + intros m' Hm'. destruct (Hmesh m' Hm') as (m & -> & Hlen & Hcells).
      destruct (Hmap m eq_refl) as [Hlm Hold].
      split; [apply Hlen; exact Hlm |].
      intros i x Hx. destruct (Hcells i x Hx) as [[Hm Hfar] | (u & paths & p & -> & Hin & Hr)].
      * destruct (Hold i x Hm) as [(-> & Hfar0) | (u & paths & p & -> & Hpaths & Hp & Hu & Hw)].
        -- left. split; [reflexivity |].
           intros paths p u Hpaths. apply in_app_or in Hpaths.
           destruct Hpaths as [Hpaths | Hpaths]; [eapply Hfar0 | eapply Hfar]; eauto.
        -- right. exists u, paths, p. split; [reflexivity |].
           split; [apply in_or_app; left; exact Hpaths | auto].
      * right. exists u, paths, p. split; [reflexivity |].
        split; [apply in_or_app; right; exact Hin | exact Hr].
Qed.

Lemma graph_teasar_inv2 (fuel : nat) (g : csgraph) (root_index : option Z)
  (inv_d : float64) (thresh : Z) (return_map : bool) (acc : teasar_output) (q : nat) :
  wf_csgraph g = true -> fle (Fin 0) inv_d = true ->
  (forall r, root_index = Some r -> vertex g r) ->
  graph_teasar fuel g root_index (find_graph_root fuel) inv_d thresh return_map
  = (Ok acc, q) ->
  exists labels,
    connected_components g = (Ok labels, O) /\
    driver_inv2 g root_index inv_d return_map labels acc (seq 0 (count_components labels)).
Proof.
  intros Hwf Hrad Hri H. unfold graph_teasar in H. cbv zeta in H.
  apply bind_inv in H. destruct H as (labels & q1 & q2 & Hl & H & ->).
  destruct (connected_components_spec g labels q1 Hwf Hl) as (-> & _).
  exists labels. split; [exact Hl |].
  refine (graph_teasar_loop_inv2 fuel g root_index inv_d thresh return_map labels _
            Hwf Hrad Hri _ _ [] acc q2 _ _ H).
  - simpl. apply seq_NoDup.
  - split; [intros ->; reflexivity |]. split.
    + exists []. split; [constructor |]. split; [intros k [] | constructor].
    + intros m Hm.
      assert (Hn : n_vertices g = shape0 g).
      { unfold n_vertices. rewrite <- (wf_csgraph_square g Hwf). apply Nat.max_id. }
      destruct return_map; [| discriminate]. injection Hm as <-.
      split; [rewrite repeat_length; exact Hn |].
      intros i x Hx. apply nth_error_In, repeat_spec in Hx. left.
      split; [exact Hx | intros paths p u []].
Qed.

(** The roots of the result of [graph_teasar] lie in pairwise different
    connected components: no two of them are joined by a walk. *)
Theorem graph_teasar_roots_apart (fuel : nat) (g : csgraph) (root_index : option Z)
  (inv_d : float64) (thresh : Z) (return_map : bool)
  (all_paths : list (list (list Z))) (roots : list Z)
  (tot_path_lengths : list (list float64)) (mesh : option (list float64)) (q : nat) :
  wf_csgraph g = true -> fle (Fin 0) inv_d = true ->
  (forall r, root_index = Some r -> vertex g r) ->
  graph_teasar fuel g root_index (find_graph_root fuel) inv_d thresh return_map
  = (Ok (all_paths, roots, tot_path_lengths, mesh), q) ->
  forall i j r1 r2 l,
    i <> j -> nth_error roots i = Some r1 -> nth_error roots j = Some r2 ->
    ~ walk g (Z.to_nat r1) (Z.to_nat r2) l.
Proof.
  intros Hwf Hrad Hri H i j r1 r2 l Hij H1 H2 Hw.
  destruct (graph_teasar_inv2 fuel g root_index inv_d thresh return_map _ q Hwf Hrad Hri H)
    as (labels & Hl & _ & (kse & Hnd & _ & Hlab) & _).
  destruct (connected_components_spec g labels O Hwf Hl) as (_ & _ & Hsame).
  destruct (Forall2_nth_left Hlab _ _ H1) as (k1 & Hk1 & Hl1 & _).
  destruct (Forall2_nth_left Hlab _ _ H2) as (k2 & Hk2 & Hl2 & _).
  pose proof (Hsame _ _ _ Hw) as E. rewrite Hl1, Hl2 in E. injection E as ->.
  apply Hij. apply (proj1 (NoDup_nth_error kse) Hnd).
  - apply nth_error_Some. congruence.
  - congruence.
Qed.

(** With exact sums, the vertex-to-skeleton map of [graph_teasar]: it has one cell per
    vertex; a cell is NaN exactly when no vertex of any path of the
    result lies within the invalidation radius of the cell's vertex, and
    otherwise it names such a path vertex. *)
Lemma exact_driver_map (fuel : nat) (g : csgraph) (root_index : option Z)
  (inv_d : float64) (thresh : Z) (return_map : bool)
  (all_paths : list (list (list Z))) (roots : list Z)
  (tot_path_lengths : list (list float64)) (m : list float64) (q : nat) :
  wf_csgraph g = true -> fle (Fin 0) inv_d = true ->
  (forall r, root_index = Some r -> vertex g r) ->
  graph_teasar fuel g root_index (find_graph_root fuel) inv_d thresh return_map
  = (Ok (all_paths, roots, tot_path_lengths, Some m), q) ->
  length m = shape0 g /\
  forall i x, nth_error m i = Some x ->
              (x = NaN /\
               forall paths p u, In paths all_paths -> In p paths -> In u p ->
                                 ~ within g u i inv_d) \/
              exists u paths p, x = Fin u /\ In paths all_paths /\ In p paths /\
                                In u p /\ within g u i inv_d.
Proof.
  intros Hwf Hrad Hri H.
  destruct (graph_teasar_inv2 fuel g root_index inv_d thresh return_map _ q Hwf Hrad Hri H)
    as (labels & _ & _ & _ & Hmap).
  exact (Hmap m eq_refl).
Qed.
(** The second graph of the test-suite, as [test_graph_teasar_all] runs
    it: two components with one path each, of lengths 2 and 1. *)
Lemma square_and_edge_run :
  graph_teasar 6 square_and_edge None (find_graph_root 6) (Fin 10000) 0 false
  = (Ok ([[[2; 1; 0]]; [[5; 4]]], [0; 4], [[Fin 2]; [Fin 1]], None), 8%nat).
Proof. vm_compute. reflexivity. Qed.

(** With [cc_vertex_thresh=3] the component of two vertices is left
    out, as [test_graph_teasar_all_cc_vertex_thresh] expects. *)
Lemma square_and_edge_thresh :
  graph_teasar 6 square_and_edge None (find_graph_root 6) (Fin 10000) 3 false
  = (Ok ([[[2; 1; 0]]], [0], [[Fin 2]], None), 4%nat).
Proof. vm_compute. reflexivity. Qed.

Lemma no_root_index : forall r : Z, @None Z = Some r -> vertex square_and_edge r.
Proof. intros r H. discriminate. Qed.

Lemma walk_4_5 : walk square_and_edge 4 5 (0 + Z.of_N 1).
Proof.
  apply (walk_edge square_and_edge 4 4 5 1%N 0).
  - apply walk_here. simpl. lia.
  - vm_compute. auto 10.
Qed.

Lemma graph_teasar_roots_apart_witness :
  (0 <> 1)%nat /\ forall l, ~ walk square_and_edge (Z.to_nat 0) (Z.to_nat 4) l.
Proof.
  split; [lia |]. intros l.
  exact (graph_teasar_roots_apart 6 square_and_edge None (Fin 10000) 0 false
           [[[2; 1; 0]]; [[5; 4]]] [0; 4] [[Fin 2]; [Fin 1]] None 8
           eq_refl eq_refl no_root_index square_and_edge_run 0%nat 1%nat 0 4 l
           (fun E : 0%nat = 1%nat => O_S 0 E) eq_refl eq_refl).
Defined.

(** The same graph with the map requested and radius 1: vertex 3, which
    is on no path, is mapped to its neighbour 0. *)
Lemma square_and_edge_map_run :
  graph_teasar 6 square_and_edge None (find_graph_root 6) (Fin 1) 0 true
  = (Ok ([[[2; 1; 0]]; [[5; 4]]], [0; 4], [[Fin 2]; [Fin 1]],
         Some [Fin 0; Fin 1; Fin 2; Fin 0; Fin 4; Fin 5]), 8%nat).
Proof. vm_compute. reflexivity. Qed.

(** ** The largest component *)

(** *** Equal labels mean connected *)

Lemma label_step_sound (g : csgraph) (L : list (option nat)) (v next : nat) :
  wf_csgraph g = true -> labels_closed g L -> (v < shape0 g)%nat ->
  (forall x c, nth_error L x = Some (Some c) -> (c < next)%nat) ->
  (forall x y c, nth_error L x = Some (Some c) -> nth_error L y = Some (Some c) ->
                 exists l, walk g x y l) ->
  forall L',
    L' = map (fun p : option nat * float64 => if isinf (snd p) then fst p else Some next)
             (combine L (fst (fst (dijkstra_arrays g [v] PInf)))) ->
    (forall x c, nth_error L' x = Some (Some c) -> (c < S next)%nat) /\
    (forall x y c, nth_error L' x = Some (Some c) -> nth_error L' y = Some (Some c) ->
                   exists l, walk g x y l).
Proof.
  intros Hwf Hcl Hv Hlt Hsound L' ->.
  destruct (label_step g L v next Hwf Hcl Hv) as (_ & Hcell & _).
  assert (Hs : forall s, In s [v] -> (s < shape0 g)%nat) by (intros s [<- | []]; exact Hv).
  pose proof (dijkstra_arrays_contract g [v] PInf Hwf Hs) as C.
  set (reach := fst (fst (dijkstra_arrays g [v] PInf))) in *.
  assert (Hcase : forall x c,
    nth_error (map (fun p : option nat * float64 => if isinf (snd p) then fst p else Some next)
                   (combine L reach)) x = Some (Some c) ->
    (nth_error L x = Some (Some c) /\ (c < next)%nat) \/
    (c = next /\ exists l, walk g v x l)).
  { intros x c Hx. rewrite Hcell in Hx.
    destruct (nth_error L x) as [lx |] eqn:ELx; [| discriminate].
    destruct (nth_error reach x) as [r |] eqn:Er; [| discriminate].
    destruct (oc_cell C _ _ Er) as [-> | [d ->]]; simpl in Hx.
    - injection Hx as ->. left. split; [reflexivity | eapply Hlt; eauto].
    - injection Hx as <-. right. split; [reflexivity |].
      destruct (oc_sound C _ _ Er) as [[(s & [<- | []] & Hw) _] _]. eauto. }
  split.
  - intros x c Hx. destruct (Hcase x c Hx) as [[_ H] | [-> _]]; lia.
  - intros x y c Hx Hy.
    destruct (Hcase x c Hx) as [[Hx' Hc] | [Ex [lx Wx]]];
      destruct (Hcase y c Hy) as [[Hy' Hc'] | [Ey [ly Wy]]]; try lia.
    + eapply Hsound; eauto.
    + exists (lx + ly). exact (walk_trans g x v y lx ly (walk_sym g v x lx Hwf Wx) Wy).
Qed.

Lemma label_components_sound (g : csgraph) :
  wf_csgraph g = true ->
  forall vs L next,
    labels_closed g L -> (forall v, In v vs -> (v < shape0 g)%nat) ->
    (forall x c, nth_error L x = Some (Some c) -> (c < next)%nat) ->
    (forall x y c, nth_error L x = Some (Some c) -> nth_error L y = Some (Some c) ->
                   exists l, walk g x y l) ->
    forall x y c, nth_error (label_components g vs L next) x = Some (Some c) ->
                  nth_error (label_components g vs L next) y = Some (Some c) ->
                  exists l, walk g x y l.
Proof.
  intros Hwf. induction vs as [| v vs IH]; intros L next Hcl Hvs Hlt Hsound.
  - exact Hsound.
  - assert (Hv : (v < shape0 g)%nat) by (apply Hvs; left; reflexivity).
    assert (Hvs' : forall x, In x vs -> (x < shape0 g)%nat) by (intros; apply Hvs; right; auto).
    simpl.
    destruct (nth v L None) as [c0 |] eqn:ELv.
    + apply IH; assumption.
    + destruct (label_step g L v next Hwf Hcl Hv) as (Hcl' & _ & _).
      destruct (label_step_sound g L v next Hwf Hcl Hv Hlt Hsound _ eq_refl) as [Hlt' Hsound'].
      apply IH; assumption.
Qed.

Lemma connected_components_sound (g : csgraph) (labels : list nat) (q : nat) :
  wf_csgraph g = true ->
  connected_components g = (Ok labels, q) ->
  forall x y c, nth_error labels x = Some c -> nth_error labels y = Some c ->
                exists l, walk g x y l.
Proof.
  intros Hwf H. unfold connected_components in H.
  rewrite <- (wf_csgraph_square g Hwf), Nat.eqb_refl in H. simpl in H.
  apply ret_inv in H. destruct H as [<- ->].
  assert (Hcl0 : labels_closed g (repeat None (shape0 g))).
  { split; [apply repeat_length |]. intros x y w c _ Hx.
    apply nth_error_In in Hx. apply repeat_spec in Hx. discriminate. }
  assert (Hrange : forall v, In v (seq 0 (shape0 g)) -> (v < shape0 g)%nat).
  { intros v Hv. apply in_seq in Hv. lia. }
  destruct (label_components_spec g Hwf (seq 0 (shape0 g)) _ O Hcl0 Hrange)
    as ([Hlen _] & _ & Hall).
  assert (Hcell : forall x c,
    nth_error (map (fun l : option nat => match l with Some c0 => c0 | None => O end)
                 (label_components g (seq 0 (shape0 g)) (repeat None (shape0 g)) 0)) x = Some c ->
    nth_error (label_components g (seq 0 (shape0 g)) (repeat None (shape0 g)) 0) x
    = Some (Some c)).
  { intros x c Hx. rewrite nth_error_map in Hx.
    assert (Hxn : (x < shape0 g)%nat).
    { rewrite <- Hlen. apply nth_error_Some. intros E. rewrite E in Hx. discriminate. }
    destruct (Hall x) as [c' Hc']; [apply in_seq; lia |].
    rewrite Hc' in Hx. simpl in Hx. congruence. }
  intros x y c Hx Hy.
  refine (label_components_sound g Hwf (seq 0 (shape0 g)) _ O Hcl0 Hrange _ _ x y c
            (Hcell x c Hx) (Hcell y c Hy)).
  - intros z c0 Hz. apply nth_error_In, repeat_spec in Hz. discriminate.
  - intros z y0 c0 Hz. apply nth_error_In, repeat_spec in Hz. discriminate.
Qed.

(** *** The mask of connected_component_slice *)

Lemma np_sum_eqb (labels : list nat) (c : nat) :
  np_sum (map (Nat.eqb c) labels) = count_occ Nat.eq_dec labels c.
Proof.
  unfold np_sum. induction labels as [| a labels IH]; [reflexivity |].
  simpl. destruct (Nat.eqb_spec c a) as [-> | Hne].
  - destruct (Nat.eq_dec a a); [| congruence]. simpl. rewrite IH. reflexivity.
  - destruct (Nat.eq_dec a c); [congruence |]. simpl. exact IH.
Qed.

Lemma np_sum_positions (mask : list bool) (s : nat) :
  length (filter (fun i => nth (i - s) mask false) (seq s (length mask))) = np_sum mask.
Proof.
  unfold np_sum. revert s. induction mask as [| b mask IH]; intros s; [reflexivity |].
  cbn [length seq filter].
  assert (E : filter (fun i => nth (i - s) (b :: mask) false) (seq (S s) (length mask))
              = filter (fun i => nth (i - S s) mask false) (seq (S s) (length mask))).
  { apply filter_ext_in. intros i Hi. apply in_seq in Hi.
    replace (i - s)%nat with (S (i - S s)) by lia. reflexivity. }
  rewrite E, Nat.sub_diag. cbn [nth]. destruct b; cbn [length count_occ]; rewrite IH.
  - destruct (bool_dec true true); [reflexivity | congruence].
  - destruct (bool_dec false true); [discriminate | reflexivity].
Qed.

Lemma np_sum_NoDup (mask : list bool) (vs : list nat) :
  NoDup vs -> (forall x, In x vs -> nth_error mask x = Some true) ->
  (length vs <= np_sum mask)%nat.
Proof.
  intros Hnd Hvs. rewrite <- (np_sum_positions mask 0).
  apply NoDup_incl_length; [exact Hnd |].
  intros x Hx. apply filter_In. pose proof (Hvs x Hx) as Hm. split.
  - apply in_seq. assert (x < length mask)%nat by (apply nth_error_Some; congruence). lia.
  - rewrite Nat.sub_0_r. exact (nth_error_nth _ _ false Hm).
Qed.

Lemma max_label_bound (labels : list nat) (c : nat) :
  In c labels -> (c <= fold_right Nat.max O labels)%nat.
Proof.
  induction labels as [| a labels IH]; intros H; [destruct H |].
  simpl. destruct H as [-> | H]; [lia | specialize (IH H); lia].
Qed.

Lemma connected_component_slice_spec (g : csgraph) (mask : list bool) (q : nat) :
  wf_csgraph g = true ->
  connected_component_slice g = (Ok mask, q) ->
  q = O /\
  exists labels ind,
    connected_components g = (Ok labels, O) /\
    mask = map (Nat.eqb ind) labels /\
    (exists v, nth_error labels v = Some ind) /\
    forall c, (count_occ Nat.eq_dec labels c <= count_occ Nat.eq_dec labels ind)%nat.
Proof.
  intros Hwf H. unfold connected_component_slice in H.
  apply bind_inv in H. destruct H as (labels & q1 & q2 & Hl & H & ->).
  destruct (connected_components_spec g labels q1 Hwf Hl) as (-> & _).
  cbv zeta in H. destruct labels as [| a0 rest] eqn:El; [discriminate |].
  rewrite <- El in *.
  apply bind_inv in H. destruct H as (ind & q3 & q4 & Hi & H & ->).
  apply lift_inv in Hi. destruct Hi as [Hi ->].
  apply ret_inv in H. destruct H as [<- ->].
  split; [reflexivity |]. exists labels, ind. split; [exact Hl |]. split; [reflexivity |].
  assert (Hnan : forall x,
            In x (map (fun l => Fin (Z.of_nat (count_occ Nat.eq_dec labels l)))
                    (seq 0 (S (fold_right Nat.max 0%nat labels)))) -> isnan x = false).
  { intros x Hx. apply in_map_iff in Hx. destruct Hx as (c & <- & _). reflexivity. }
  destruct (np_argmax_spec _ Hnan Hi) as (vm & Hvm & Hmax & _).
  rewrite nth_error_map in Hvm.
  destruct (nth_error (seq 0 (S (fold_right Nat.max 0%nat labels))) ind) as [i |] eqn:Ei;
    [| discriminate].
  assert (i = ind).
  { pose proof (nth_error_nth _ _ O Ei) as E.
    assert (Hlt : (ind < length (seq 0 (S (fold_right Nat.max 0%nat labels))))%nat)
      by (apply nth_error_Some; congruence).
    rewrite length_seq in Hlt. rewrite seq_nth in E by exact Hlt. lia. }
  subst i. simpl in Hvm. injection Hvm as <-.
  assert (Hcount : forall c, (count_occ Nat.eq_dec labels c
                              <= count_occ Nat.eq_dec labels ind)%nat).
  { intros c. destruct (Nat.eq_dec (count_occ Nat.eq_dec labels c) 0) as [-> | Hpos]; [lia |].
    assert (Hin : In c labels) by (apply (count_occ_In Nat.eq_dec); lia).
    pose proof (max_label_bound labels c Hin) as Hc.
    assert (Hcnt : In (Fin (Z.of_nat (count_occ Nat.eq_dec labels c)))
                     (map (fun l => Fin (Z.of_nat (count_occ Nat.eq_dec labels l)))
                        (seq 0 (S (fold_right Nat.max 0%nat labels))))).
    { apply in_map_iff. exists c. split; [reflexivity | apply in_seq; lia]. }
    specialize (Hmax _ Hcnt). rewrite fle_Fin in Hmax. lia. }
  split; [| exact Hcount].
  assert (Hin : In ind labels).
  { apply (count_occ_In Nat.eq_dec). specialize (Hcount a0).
    rewrite El in Hcount at 1. simpl in Hcount.
    destruct (Nat.eq_dec a0 a0); [lia | congruence]. }
  apply In_nth_error in Hin. exact Hin.
Qed.

(** [connected_component_slice(G, return_boolean=True)] marks one whole
    connected component, and no component has more vertices: the mask
    has one cell per vertex and is not empty, a marked vertex is joined
    by a walk to exactly the marked vertices, and any set of vertices
    that are all joined to one vertex is at most as large as the mask. *)
Theorem connected_component_slice_largest (g : csgraph) (mask : list bool) (q : nat) :
  wf_csgraph g = true ->
  connected_component_slice g = (Ok mask, q) ->
  length mask = shape0 g /\
  (exists v, nth_error mask v = Some true) /\
  (forall v u, nth_error mask v = Some true ->
               (nth_error mask u = Some true <-> exists l, walk g v u l)) /\
  (forall u vs, NoDup vs -> (forall x, In x vs -> exists l, walk g u x l) ->
                (length vs <= np_sum mask)%nat).
Proof.
  intros Hwf H.
  destruct (connected_component_slice_spec g mask q Hwf H)
    as (_ & labels & ind & Hl & -> & [v0 Hv0] & Hcount).
  destruct (connected_components_spec g labels O Hwf Hl) as (_ & Hlen & Hsame).
  pose proof (connected_components_sound g labels O Hwf Hl) as Hsound.
  assert (Hmask : forall v, nth_error (map (Nat.eqb ind) labels) v = Some true <->
                            nth_error labels v = Some ind).
  { intros v. rewrite nth_error_map. destruct (nth_error labels v) as [c |]; simpl.
    - destruct (Nat.eqb_spec ind c) as [-> | Hne]; split; intros E; try reflexivity;
        try discriminate. injection E as ->. congruence.
    - split; discriminate. }
  split; [rewrite length_map; exact Hlen |].
  split; [exists v0; apply Hmask; exact Hv0 |]. split.
  - intros v u Hv. apply Hmask in Hv. rewrite Hmask. split.
    + intros Hu. exact (Hsound v u ind Hv Hu).
    + intros [l Hw]. rewrite <- (Hsame v u l Hw). exact Hv.
  - intros u vs Hnd Hvs. destruct vs as [| x0 vs0] eqn:Evs; [simpl; lia |].
    rewrite <- Evs in *.
    destruct (Hvs x0) as [l0 Hw0]; [rewrite Evs; left; reflexivity |].
    destruct (walk_range Hwf Hw0) as (Hu & _ & _).
    destruct (nth_error labels u) as [c |] eqn:Ec;
      [| apply nth_error_None in Ec; lia].
    rewrite np_sum_eqb.
    apply Nat.le_trans with (count_occ Nat.eq_dec labels c); [| apply Hcount].
    rewrite <- np_sum_eqb. apply np_sum_NoDup; [exact Hnd |].
    intros x Hx. destruct (Hvs x Hx) as [l Hw].
    rewrite nth_error_map, <- (Hsame u x l Hw), Ec. simpl. rewrite Nat.eqb_refl. reflexivity.
Qed.

(** *** The call with every default *)

Lemma find_graph_root_default (fuel : nat) (g : csgraph)
  (r : Z * option (list Z) * option (list float64) * list bool) (q : nat) :
  wf_csgraph g = true ->
  find_graph_root fuel g None = (Ok r, q) ->
  exists mask, connected_component_slice g = (Ok mask, O) /\
               find_graph_root fuel g (Some mask) = (Ok r, q).
Proof.
  intros Hwf H. unfold find_graph_root in H |- *.
  apply bind_inv in H. destruct H as (mask & q1 & q2 & Hs & H & ->).
  destruct (connected_component_slice_spec g mask q1 Hwf Hs) as (-> & _).
  exists mask. split; [exact Hs |]. rewrite bind_ret. exact H.
Qed.

(** With exact sums, [graph_teasar_component(csgraph)] with every default: the root is
    taken in the mask of [connected_component_slice]; the paths hang
    from it, run along edges with exact lengths, and reach within
    [invalidation_d] of every vertex of that mask, which are the
    vertices joined to the root by a walk. *)
Lemma exact_default_component (fuel : nat) (g : csgraph)
  (root_ds : option (list float64)) (root_pred : option (list Z))
  (invalidation_d : float64) (return_map : bool)
  (ps : list (list Z)) (ls : list float64) (mp : option (list float64)) (q : nat) :
  wf_csgraph g = true ->
  fle (Fin 0) invalidation_d = true ->
  graph_teasar_component fuel g None None root_ds root_pred
    (find_graph_root fuel) invalidation_d return_map = (Ok (ps, ls, mp), q) ->
  exists root mask,
    connected_component_slice g = (Ok mask, O) /\
    vertex g root /\ nth_error mask (Z.to_nat root) = Some true /\
    attached root ps /\ Forall2 (path_ok g) ps ls /\
    (forall i, nth_error mask i = Some true -> covered g invalidation_d ps i) /\
    (forall i l, walk g (Z.to_nat root) i l -> covered g invalidation_d ps i).
Proof.
  intros Hwf Hrad Hrun.
  destruct (find_graph_root fuel g None) as [[[[[root rp] rds] valid'] | e |] q1] eqn:Hroot.
  - rewrite (component_found_root fuel g None root_ds root_pred
               (find_graph_root fuel) invalidation_d return_map root rp rds valid' q1 Hroot)
      in Hrun.
    destruct (find_graph_root_default fuel g _ q1 Hwf Hroot) as (mask & Hslice & Hroot').
    destruct (find_graph_root_inv _ _ _ _ _ _ _ _ Hroot') as (-> & a & d & Hfar).
    destruct (far_points_run fuel g mask root a rp d rds q1 Hwf Hfar) as (Hst & _).
    destruct (far_state_root _ _ _ _ _ _ _ Hst) as [Hv Hvalid].
    destruct (graph_teasar_component fuel g (Some root) (Some mask) rds rp
                (find_graph_root fuel) invalidation_d return_map)
      as [[[[ps' ls'] mp'] | e |] k] eqn:Hc; try discriminate.
    injection Hrun as -> -> -> _.
    destruct (rooted_component_covers fuel g root mask rds rp invalidation_d return_map
                ps ls mp k Hwf Hrad Hv Hc) as (Hatt & Hok & Hcov).
    exists root, mask. repeat (split; [assumption |]).
    intros i l Hw. apply Hcov.
    destruct (connected_component_slice_spec g mask O Hwf Hslice)
      as (_ & labels & ind & Hl & -> & _ & _).
    destruct (connected_components_spec g labels O Hwf Hl) as (_ & _ & Hsame).
    rewrite nth_error_map in Hvalid |- *. rewrite <- (Hsame _ _ _ Hw). exact Hvalid.
  - exfalso. unfold graph_teasar_component, teasar_setup in Hrun. cbv zeta in Hrun.
    rewrite Hroot in Hrun. discriminate.
  - exfalso. unfold graph_teasar_component, teasar_setup in Hrun. cbv zeta in Hrun.
    rewrite Hroot in Hrun. discriminate.
Qed.

Lemma square_and_edge_slice :
  connected_component_slice square_and_edge
  = (Ok [true; true; true; true; false; false], O).
Proof. vm_compute. reflexivity. Qed.

Lemma connected_component_slice_largest_witness :
  length [true; true; true; true; false; false] = shape0 square_and_edge /\
  (exists v, nth_error [true; true; true; true; false; false] v = Some true) /\
  (forall v u, nth_error [true; true; true; true; false; false] v = Some true ->
               (nth_error [true; true; true; true; false; false] u = Some true <->
                exists l, walk square_and_edge v u l)) /\
  (forall u vs, NoDup vs -> (forall x, In x vs -> exists l, walk square_and_edge u x l) ->
                (length vs <= np_sum [true; true; true; true; false; false])%nat).
Proof.
  exact (connected_component_slice_largest square_and_edge
           [true; true; true; true; false; false] O eq_refl square_and_edge_slice).
Defined.

Lemma square_and_edge_default_run :
  graph_teasar_component 6 square_and_edge None None None None
    (find_graph_root 6) (Fin 1) false
  = (Ok ([[2; 1; 0]], [Fin 2], None), 4%nat).
Proof. vm_compute. reflexivity. Qed.

(** ** The root given to the driver *)

Lemma last_default {A : Type} (l : list A) (a b c : A) : last (a :: l) b = last (a :: l) c.
Proof.
  revert a. induction l as [| x l IH]; intros a; [reflexivity |].
  change (last (x :: l) b = last (x :: l) c). apply IH.
Qed.

Lemma chain_joined (g : csgraph) (p : list Z) (a : Z) :
  chain g (a :: p) -> vertex g (last (a :: p) a) ->
  forall u, In u (a :: p) ->
            exists l, walk g (Z.to_nat u) (Z.to_nat (last (a :: p) a)) l.
Proof.
  revert a. induction p as [| b p IH]; intros a Hc Hv u Hu.
  - destruct Hu as [<- | []]. exists 0. simpl in Hv |- *. apply walk_here. destruct Hv. lia.
  - destruct Hc as [(Ha & Hb & w & Hedge) Hc].
    assert (E : last (a :: b :: p) a = last (b :: p) b).
    { change (last (b :: p) a = last (b :: p) b). apply last_default. }
    rewrite E in Hv |- *.
    destruct Hu as [<- | Hu].
    + destruct (IH b Hc Hv b (or_introl eq_refl)) as [l Hw].
      exists ((0 + Z.of_N w) + l). refine (walk_trans g _ _ _ _ _ _ Hw).
      apply (walk_edge g _ (Z.to_nat a) _ w 0); [| exact Hedge].
      apply walk_here. destruct Ha. lia.
    + exact (IH b Hc Hv u Hu).
Qed.

Lemma in_concat_firstn {A : Type} (ps : list (list A)) (i : nat) (x : A) :
  In x (concat (firstn i ps)) ->
  exists j p, (j < i)%nat /\ nth_error ps j = Some p /\ In x p.
Proof.
  revert i. induction ps as [| p0 ps IH]; intros i H.
  - rewrite firstn_nil in H. destruct H.
  - destruct i as [| i]; [destruct H |].
    cbn [firstn concat] in H. apply in_app_or in H. destruct H as [H | H].
    + exists O, p0. split; [lia |]. split; [reflexivity | exact H].
    + destruct (IH i H) as (j & p & Hj & Hp & Hx).
      exists (S j), p. split; [lia |]. split; [exact Hp | exact Hx].
Qed.

Lemma skeleton_connected (g : csgraph) (root : Z) (paths : list (list Z))
  (lens : list float64) :
  wf_csgraph g = true -> skeleton_ok g root paths lens ->
  forall p u, In p paths -> In u p ->
              exists l, walk g (Z.to_nat root) (Z.to_nat u) l.
Proof.
  intros Hwf (Hroot & _ & Hatt & Hok).
  assert (G : forall n i p u, (i < n)%nat -> nth_error paths i = Some p -> In u p ->
                              exists l, walk g (Z.to_nat root) (Z.to_nat u) l).
  { induction n as [| n IH]; intros i p u Hi Hp Hu; [lia |].
    destruct (Hatt i p Hp) as (t & tl & -> & Hlast).
    destruct (Forall2_nth_left Hok _ _ Hp) as (len & _ & Hc & t' & b & d & l' & E & Hb & _ & Hd).
    injection E as <- <-. destruct Hd as (_ & Hvb & _). rewrite <- Hb in Hvb.
    destruct (chain_joined g tl t Hc Hvb u Hu) as [l1 W1].
    assert (exists l, walk g (Z.to_nat root) (Z.to_nat (last (t :: tl) t)) l) as [l2 W2].
    { destruct Hlast as [<- | Hin].
      - exists 0. apply walk_here. destruct Hroot. lia.
      - destruct (in_concat_firstn _ _ _ Hin) as (j & pj & Hj & Hpj & Hx).
        apply (IH j pj); [lia | exact Hpj | exact Hx]. }
    exists (l2 + l1). exact (walk_trans g _ _ _ _ _ W2 (walk_sym g _ _ _ Hwf W1)). }
  intros p u Hp Hu. apply In_nth_error in Hp. destruct Hp as [i Hp].
  exact (G (S i) i p u (Nat.lt_succ_diag_r i) Hp Hu).
Qed.

(** [root_index] is honoured by [graph_teasar]: a returned root that lies
    in the component of [root_index] is [root_index] itself, and with a
    size threshold below 2 a [root_index] that has a neighbour is among
    the returned roots. *)
Theorem graph_teasar_root_index (fuel : nat) (g : csgraph) (r : Z)
  (inv_d : float64) (thresh : Z) (return_map : bool)
  (all_paths : list (list (list Z))) (roots : list Z)
  (tot_path_lengths : list (list float64)) (mesh : option (list float64)) (q : nat) :
  wf_csgraph g = true -> fle (Fin 0) inv_d = true -> vertex g r ->
  graph_teasar fuel g (Some r) (find_graph_root fuel) inv_d thresh return_map
  = (Ok (all_paths, roots, tot_path_lengths, mesh), q) ->
  (forall root l, In root roots -> walk g (Z.to_nat root) (Z.to_nat r) l -> root = r) /\
  (thresh < 2 ->
   forall u l, walk g (Z.to_nat r) u l -> u <> Z.to_nat r -> In r roots).
Proof.
  intros Hwf Hrad Hr H.
  assert (Hri : forall r0, Some r = Some r0 -> vertex g r0) by (intros r0 E; congruence).
  destruct (graph_teasar_inv2 fuel g (Some r) inv_d thresh return_map _ q Hwf Hrad Hri H)
    as (labels & Hl & _ & (kse & _ & _ & Hlab) & _).
  destruct (connected_components_spec g labels O Hwf Hl) as (_ & Hlen & Hsame).
  assert (Hfirst : forall root l, In root roots ->
                                  walk g (Z.to_nat root) (Z.to_nat r) l -> root = r).
  { intros root l Hin Hw. apply In_nth_error in Hin. destruct Hin as [i Hi].
    destruct (Forall2_nth_left Hlab _ _ Hi) as (k & _ & Hk & Hgiven).
    apply (Hgiven r eq_refl). rewrite <- (Hsame _ _ _ Hw). exact Hk. }
  split; [exact Hfirst |].
  intros Hth u l Hw Hne.
  destruct (graph_teasar_inv fuel g (Some r) inv_d thresh return_map _ q Hwf Hrad Hri H)
    as (labels' & Hl' & L1 & _ & Hent & Hcov).
  assert (labels' = labels) by congruence. subst labels'.
  destruct (walk_range Hwf Hw) as (Hv & Hu & _).
  destruct (nth_error labels (Z.to_nat r)) as [k |] eqn:Ev;
    [| apply nth_error_None in Ev; lia].
  pose proof (Hsame _ _ _ Hw) as Eu. rewrite Ev in Eu. symmetry in Eu.
  pose proof (label_lt_count labels _ k Ev) as Hk.
  destruct (Hcov k (Z.to_nat r) u) as (paths & Hpaths & p & x & Hp & Hx & _ & lx & Wx & _);
    auto.
  { apply in_seq. lia. }
  { assert (E : nth_error (map (fun l => count_occ Nat.eq_dec labels l)
                               (seq 0 (count_components labels))) k
                = Some (count_occ Nat.eq_dec labels k)).
    { rewrite nth_error_map, nth_error_seq.
      destruct (Nat.ltb_spec k (count_components labels)); [reflexivity | lia]. }
    rewrite (nth_error_nth _ _ O E).
    pose proof (count_occ_two labels k _ u Ev Eu Hne). lia. }
  apply In_nth_error in Hpaths. destruct Hpaths as [i Hi].
  assert (Hir : (i < length roots)%nat).
  { rewrite <- L1. apply nth_error_Some. congruence. }
  destruct (nth_error roots i) as [root |] eqn:Eroot; [| apply nth_error_None in Eroot; lia].
  destruct (Hent i root Eroot) as (paths' & lens & Hi' & _ & Hsk).
  assert (paths' = paths) by congruence. subst paths'.
  destruct (skeleton_connected g root paths lens Hwf Hsk p x Hp Hx) as [l1 W1].
  pose proof (walk_trans g _ _ _ _ _ W1 Wx) as W.
  rewrite <- (Hfirst root _ (nth_error_In _ _ Eroot) W). exact (nth_error_In _ _ Eroot).
Qed.

Lemma square_and_edge_root_5 :
  graph_teasar 6 square_and_edge (Some 5) (find_graph_root 6) (Fin 10000) 0 false
  = (Ok ([[[2; 1; 0]]; [[4; 5]]], [0; 5], [[Fin 2]; [Fin 1]], None), 7%nat).
Proof. vm_compute. reflexivity. Qed.

Lemma vertex_5 : vertex square_and_edge 5.
Proof. unfold vertex. simpl. lia. Qed.

Lemma graph_teasar_root_index_witness :
  (forall root l, In root [0; 5] ->
                  walk square_and_edge (Z.to_nat root) (Z.to_nat 5) l -> root = 5) /\
  (0 < 2 ->
   forall u l, walk square_and_edge (Z.to_nat 5) u l -> u <> Z.to_nat 5 -> In 5 [0; 5]).
Proof.
  exact (graph_teasar_root_index 6 square_and_edge 5 (Fin 10000) 0 false
           [[[2; 1; 0]]; [[4; 5]]] [0; 5] [[Fin 2]; [Fin 1]] None 7
           eq_refl eq_refl vertex_5 square_and_edge_root_5).
Defined.

(** ** The driver returns *)

(** *** Every label below the number of components occurs *)

Lemma closed_walk (g : csgraph) (L : list (option nat)) (x y : nat) (l : Z) (c : nat) :
  labels_closed g L -> walk g x y l ->
  nth_error L x = Some (Some c) -> nth_error L y = Some (Some c).
Proof.
  intros [_ Hcl] Hw Hx. induction Hw as [Hv | u v w l Hw IH Hedge]; [exact Hx |].
  exact (Hcl u v w c Hedge IH).
Qed.

Lemma label_components_range (g : csgraph) :
  wf_csgraph g = true ->
  forall vs L next,
    labels_closed g L -> (forall v, In v vs -> (v < shape0 g)%nat) ->
    (forall x c, nth_error L x = Some (Some c) -> (c < next)%nat) ->
    (forall c, (c < next)%nat -> exists x, nth_error L x = Some (Some c)) ->
    exists next',
      (forall x c, nth_error (label_components g vs L next) x = Some (Some c) ->
                   (c < next')%nat) /\
      (forall c, (c < next')%nat ->
                 exists x, nth_error (label_components g vs L next) x = Some (Some c)).
Proof.
  intros Hwf. induction vs as [| v vs IH]; intros L next Hcl Hvs Hlt Hocc.
  - exists next. split; assumption.
  - assert (Hv : (v < shape0 g)%nat) by (apply Hvs; left; reflexivity).
    assert (Hvs' : forall x, In x vs -> (x < shape0 g)%nat) by (intros; apply Hvs; right; auto).
    simpl.
    assert (HvL : (v < length L)%nat) by (destruct Hcl; lia).
    destruct (nth_error L v) as [lv |] eqn:ELv; [| apply nth_error_None in ELv; lia].
    rewrite (nth_error_nth _ _ None ELv).
    destruct lv as [c0 |]; [apply IH; assumption |].
    destruct (label_step g L v next Hwf Hcl Hv) as (Hcl' & Hcell & Hsrc).
    assert (Hs : forall s, In s [v] -> (s < shape0 g)%nat) by (intros s [<- | []]; exact Hv).
    pose proof (dijkstra_arrays_contract g [v] PInf Hwf Hs) as C.
    apply (IH _ (S next) Hcl' Hvs').
    + intros x c Hx. rewrite Hcell in Hx.
      destruct (nth_error L x) as [lx |] eqn:ELx; [| discriminate].
      destruct (nth_error (fst (fst (dijkstra_arrays g [v] PInf))) x) as [r |]; [| discriminate].
      destruct (isinf r); injection Hx as Hx; [| lia].
      subst lx. specialize (Hlt x c ELx). lia.
    + intros c Hc. destruct (Nat.eq_dec c next) as [-> | Hne].
      * exists v. rewrite Hcell, ELv, Hsrc. reflexivity.
      * destruct (Hocc c ltac:(lia)) as [x Hx]. exists x. rewrite Hcell, Hx.
        assert (Hxn : (x < shape0 g)%nat).
        { destruct Hcl as [HL _]. rewrite <- HL. apply nth_error_Some. congruence. }
        destruct (contract_cell_some x C Hxn) as [r Er]. rewrite Er.
        destruct (oc_cell C _ _ Er) as [-> | [d ->]]; [reflexivity |]. exfalso.
        destruct (oc_sound C _ _ Er) as [[(s & [<- | []] & Hw) _] _].
        pose proof (closed_walk g L x v d c Hcl (walk_sym g v x d Hwf Hw) Hx) as E.
        congruence.
Qed.

Lemma max_label_attained (labels : list nat) :
  labels <> [] -> In (fold_right Nat.max O labels) labels.
Proof.
  induction labels as [| a labels IH]; intros Hne; [contradiction |].
  destruct labels as [| b rest]; [left; simpl; lia |].
  assert (Hin : In (fold_right Nat.max O (b :: rest)) (b :: rest)) by (apply IH; discriminate).
  change (fold_right Nat.max O (a :: b :: rest))
    with (Nat.max a (fold_right Nat.max O (b :: rest))).
  destruct (Nat.max_spec a (fold_right Nat.max O (b :: rest))) as [[_ ->] | [_ ->]].
  - right. exact Hin.
  - left. reflexivity.
Qed.

Lemma labels_contiguous (g : csgraph) (labels : list nat) (q : nat) :
  wf_csgraph g = true ->
  connected_components g = (Ok labels, q) ->
  forall k, (k < count_components labels)%nat -> In k labels.
Proof.
  intros Hwf H k Hk.
  pose proof (connected_components_spec g labels q Hwf H) as (_ & Hlen & _).
  unfold connected_components in H.
  rewrite <- (wf_csgraph_square g Hwf), Nat.eqb_refl in H. simpl in H.
  apply ret_inv in H. destruct H as [E _].
  assert (Hcl0 : labels_closed g (repeat None (shape0 g))).
  { split; [apply repeat_length |]. intros x y w c _ Hx.
    apply nth_error_In in Hx. apply repeat_spec in Hx. discriminate. }
  assert (Hrange : forall v, In v (seq 0 (shape0 g)) -> (v < shape0 g)%nat).
  { intros v Hv. apply in_seq in Hv. lia. }
  destruct (label_components_range g Hwf (seq 0 (shape0 g)) _ O Hcl0 Hrange)
    as (next' & Hlt & Hocc).
  { intros z c0 Hz. apply nth_error_In, repeat_spec in Hz. discriminate. }
  { intros c Hc. lia. }
  assert (Hlab : forall x c,
             nth_error (label_components g (seq 0 (shape0 g)) (repeat None (shape0 g)) 0) x
             = Some (Some c) -> nth_error labels x = Some c).
  { intros x c Hx. rewrite <- E, nth_error_map, Hx. reflexivity. }
  destruct (label_components_spec g Hwf (seq 0 (shape0 g)) _ O Hcl0 Hrange)
    as (_ & _ & Hall).
  assert (Hne : labels <> []) by (intros ->; simpl in Hk; lia).
  pose proof (max_label_attained labels Hne) as Hmax.
  apply In_nth_error in Hmax. destruct Hmax as [xm Hxm].
  assert (Hxn : (xm < shape0 g)%nat).
  { rewrite <- Hlen. apply nth_error_Some. congruence. }
  destruct (Hall xm) as [cm Hcm]; [apply in_seq; lia |].
  pose proof (Hlab _ _ Hcm) as E2. rewrite Hxm in E2. injection E2 as E2.
  pose proof (Hlt _ _ Hcm) as Hcm'.
  assert (Hk' : (k < next')%nat).
  { unfold count_components in Hk. destruct labels; [contradiction |]. lia. }
  destruct (Hocc k Hk') as [x Hx].
  exact (nth_error_In _ _ (Hlab _ _ Hx)).
Qed.

(** *** The loop on the distances that find_far_points_graph returns *)

Section MaskedDistances.

Variables (g : csgraph) (root : Z) (valid0 : list bool).
Variables (rds : list float64) (rp : list Z) (inv_d : float64).
Hypothesis pre : teasar_pre g root valid0 rds rp inv_d.

(** [rdm] is [rds] with some cells of unreachable vertices overwritten. *)
Variable rdm : list float64.
Hypothesis Hlenm : length rdm = shape0 g.
Hypothesis Hagree : forall i d, nth_error rds i = Some (Fin d) -> nth_error rdm i = Some (Fin d).
Hypothesis Hcellsm : forall i x, nth_error rdm i = Some x -> x = PInf \/ exists d, x = Fin d.

Lemma select_target_masked (st : teasar_state) :
  good_state g root rds st ->
  (exists i d, nth_error (valid st) i = Some true /\ nth_error rds i = Some (Fin d) /\ 0 < d) ->
  select_target rdm (valid st) = select_target rds (valid st).
Proof.
  intros G (i0 & d0 & Hi0 & Hd0 & Hpos0).
  pose proof (pre_wf pre) as Hwf. destruct (pre_field pre) as [src0 C0].
  assert (Hsum : (0 < np_sum (valid st))%nat) by (apply np_sum_pos; eauto).
  assert (Hreachm : forall i, nth_error (valid st) i = Some true ->
                              exists d, nth_error rdm i = Some (Fin d)).
  { intros i Hi. destruct (gs_reach G i Hi) as [d Hd]. eauto. }
  destruct (select_target_cells rds (valid st)) as (te & dte & Hse & Hde & Hce).
  { rewrite (oc_len_ds C0), (gs_len G). reflexivity. }
  { intros v x Hx. destruct (field_cells Hwf C0 v x Hx) as [-> | [d [-> _]]]; eauto. }
  { exact (gs_reach G). }
  { exact Hsum. }
  destruct (select_target_cells rdm (valid st)) as (tm & dtm & Hsm & Hdm & Hcm).
  { rewrite Hlenm, (gs_len G). reflexivity. }
  { exact Hcellsm. }
  { exact Hreachm. }
  { exact Hsum. }
  rewrite Hse, Hsm.
  destruct Hce as [(Hve & Hmaxe & Hfirste) | (_ & Hall)];
    [| specialize (Hall _ _ Hi0 Hd0); lia].
  destruct Hcm as [(Hvm & Hmaxm & Hfirstm) | (_ & Hall)];
    [| specialize (Hall _ _ Hi0 (Hagree _ _ Hd0)); lia].
  pose proof (Hagree _ _ Hde) as Hde'.
  destruct (gs_reach G tm Hvm) as [e' He'].
  pose proof (Hagree _ _ He') as He''. rewrite Hdm in He''. injection He'' as <-.
  pose proof (Hmaxe _ _ Hvm He') as L1. pose proof (Hmaxm _ _ Hve Hde') as L2.
  destruct (Nat.lt_trichotomy te tm) as [Hlt | [-> | Hlt]]; [| reflexivity |].
  - pose proof (Hfirstm _ _ Hlt Hve Hde'). lia.
  - pose proof (Hfirste _ _ Hlt Hvm He'). lia.
Qed.

Lemma iteration_masked {fuel : nat} {st st' : teasar_state} {tr : iter_trace} :
  good_state g root rds st ->
  (exists i d, nth_error (valid st) i = Some true /\ nth_error rds i = Some (Fin d) /\ 0 < d) ->
  iteration_of fuel g rds (Some rp) inv_d st tr st' ->
  iteration_of fuel g rdm (Some rp) inv_d st tr st'.
Proof.
  intros G Hex Htr.
  pose proof (pre_wf pre) as Hwf. destruct (pre_field pre) as [src0 C0].
  destruct (pre_root pre) as [Hr0 Hrn].
  destruct Htr as (Hsel & Hmb & (d_target & d_branch & Hdt & Hdb & Hmpl) & Hrest).
  split; [rewrite (select_target_masked st G Hex); exact Hsel |].
  split; [exact Hmb |]. split; [| exact Hrest].
  destruct (select_target_inv Hsel) as (_ & prod & tn & dx & _ & _ & Ht & Hdx & Hinf).
  rewrite Ht, np_get_nat in Hdt. assert (dx = d_target) by congruence. subst dx.
  destruct (field_cells Hwf C0 _ _ Hdx) as [-> | [dt [-> Hdt0]]]; [discriminate |].
  destruct (find_max_branch_climbs Hmb) as [n Hclimb].
  assert (Hrootin : In (Z.of_nat (Z.to_nat root)) (visited_nodes st)).
  { rewrite Z2Nat.id by lia. exact (gs_root G). }
  assert (Hdt' : nth_error rds (Z.to_nat (it_target tr)) = Some (Fin dt)).
  { rewrite Ht, Nat2Z.id. exact Hdx. }
  destruct (climbs_bound C0 Hclimb Hrootin dt ltac:(lia) Hdt')
    as (Hb0 & Hbin & db & Hdb' & Hwalk).
  rewrite np_get_nonneg in Hdb by exact Hb0.
  assert (d_branch = Fin db) by congruence. subst d_branch.
  exists (Fin dt), (Fin db).
  split; [rewrite Ht, np_get_nat; exact (Hagree _ _ Hdx) |].
  split; [rewrite np_get_nonneg by exact Hb0; exact (Hagree _ _ Hdb') | exact Hmpl].
Qed.

Lemma positive_left (st : teasar_state) :
  good_state g root rds st -> paths st <> [] -> (0 < np_sum (valid st))%nat ->
  exists i d, nth_error (valid st) i = Some true /\ nth_error rds i = Some (Fin d) /\ 0 < d.
Proof.
  intros G Hp Hpos.
  pose proof (pre_wf pre) as Hwf. destruct (pre_field pre) as [src0 C0].
  apply np_sum_pos in Hpos. destruct Hpos as [i Hi].
  destruct (gs_reach G i Hi) as [d Hd]. exists i, d. split; [exact Hi |]. split; [exact Hd |].
  destruct (field_cells Hwf C0 _ _ Hd) as [E | [d' [E Hd']]]; [discriminate |].
  injection E as <-.
  destruct (Z.eq_dec d 0) as [-> | Hne]; [| lia].
  exfalso. apply Hp. exact (gs_zero G i Hi Hd).
Qed.

Lemma masked_loop_terminates (inner : nat) :
  (shape0 g <= inner)%nat ->
  forall fuel st,
    good_state g root rds st ->
    (paths st = [] -> (0 < np_sum (valid st))%nat ->
     exists i d, nth_error (valid st) i = Some true /\ nth_error rds i = Some (Fin d) /\ 0 < d) ->
    (np_sum (valid st) <= fuel)%nat ->
    exists st_f q, teasar_loop fuel inner g rdm (Some rp) inv_d st = (Ok st_f, q).
Proof.
  intros Hinner. induction fuel as [| fuel IH]; intros st G Hfirst Hfuel; simpl;
    destruct (Nat.ltb_spec 0 (np_sum (valid st))) as [Hpos | Hzero].
  - lia.
  - exists st, O. reflexivity.
  - destruct (iteration_runs pre inner G Hpos Hinner)
      as (tr & st' & Htr).
    assert (Hex : exists i d, nth_error (valid st) i = Some true /\
                              nth_error rds i = Some (Fin d) /\ 0 < d).
    { destruct (paths st) as [| p0 ps0] eqn:Ep.
      - apply Hfirst; [reflexivity | exact Hpos].
      - apply positive_left; [exact G | rewrite Ep; discriminate | exact Hpos]. }
    pose proof (iteration_masked G Hex Htr) as Htrm.
    pose proof (valid_decreases pre G Hpos Htr) as Hdec.
    destruct (IH st' (good_step pre G Htr)) as (st_f & q & Hloop).
    + intros Hp. exfalso.
      destruct Htr as (_ & _ & _ & _ & _ & _ & _ & _ & _ & _ & _ & _ & Hpaths & _).
      rewrite Hpaths in Hp. destruct (paths st); discriminate.
    + lia.
    + exists st_f, (2 + q)%nat.
      eapply bind_intro; [exact (teasar_iteration_of_trace Htrm) | exact Hloop].
  - exists st, O. reflexivity.
Qed.

Lemma masked_setup_runs (find_root_func : root_function) (return_map : bool) :
  teasar_setup g (Some root) (Some valid0) (Some rdm) (Some rp) find_root_func return_map
  = (Ok (rdm, Some rp, initial_state root valid0 (mesh_init g return_map)), O).
Proof.
  unfold teasar_setup. cbv zeta. rewrite !bind_ret.
  rewrite (n_vertices_wf pre), (pre_len pre), Nat.eqb_refl.
  simpl negb. cbv iota. rewrite bind_ret.
  rewrite broadcast2_same by (rewrite Hlenm, (pre_len pre); reflexivity).
  rewrite lift_Some, bind_ret.
  rewrite np_sum_zero; [reflexivity |].
  intros i Hi. rewrite (nth_error_broadcast (fun (d : float64) (v : bool) => isinf d && v)) in Hi.
  destruct (nth_error rdm i) as [x |] eqn:Hx; [| discriminate].
  destruct (nth_error valid0 i) as [b |] eqn:Hb; [| discriminate].
  injection Hi as Hi. apply andb_prop in Hi. destruct Hi as [Hinf ->].
  destruct (pre_reach pre _ Hb) as [d Hd]. rewrite (Hagree _ _ Hd) in Hx. injection Hx as <-.
  discriminate.
Qed.

Lemma masked_component_returns (fuel : nat) (find_root_func : root_function)
  (return_map : bool) :
  (shape0 g <= fuel)%nat ->
  ((0 < np_sum valid0)%nat ->
   exists i d, nth_error valid0 i = Some true /\ nth_error rds i = Some (Fin d) /\ 0 < d) ->
  exists r q,
    graph_teasar_component fuel g (Some root) (Some valid0) (Some rdm) (Some rp)
      find_root_func inv_d return_map = (Ok r, q).
Proof.
  intros Hfuel Hfirst.
  assert (Hsum : (np_sum valid0 <= fuel)%nat).
  { pose proof (count_occ_bound bool_dec true valid0) as Hb.
    unfold np_sum. rewrite (pre_len pre) in Hb. lia. }
  destruct (masked_loop_terminates fuel Hfuel fuel _
              (good_init pre return_map))
    as (st_f & q & Hloop).
  { intros _. exact Hfirst. }
  { exact Hsum. }
  eexists. exists (0 + (q + 0))%nat.
  unfold graph_teasar_component.
  eapply bind_intro; [exact (masked_setup_runs find_root_func return_map) |].
  cbv beta iota.
  eapply bind_intro; [exact Hloop | reflexivity].
Qed.

End MaskedDistances.

(** *** One component of the driver *)

Lemma far_points_returns (g : csgraph) (valid : list bool) (fuel : nat) :
  wf_csgraph g = true -> length valid = shape0 g ->
  (0 < np_sum valid)%nat -> (shape0 g < fuel)%nat ->
  exists r q, find_far_points_graph fuel g (Some valid) = (Ok r, q).
Proof.
  intros Hwf Hlen Hpos Hfuel.
  destruct (first_true_some valid Hpos) as [r Hr].
  destruct (first_true_spec _ _ Hr) as [Hvr _].
  assert (Hrv : vertex g (Z.of_nat r)).
  { assert (r < length valid)%nat by (apply nth_error_Some; congruence).
    split; lia. }
  destruct (far_loop_runs g valid Hwf Hlen fuel [] (Z.of_nat r) (Z.of_nat r)
              None (Fin 0) None Hrv (NoDup_nil _) (Forall_nil _))
    as (res & q & Hrun & _).
  - intros c' [].
  - simpl. lia.
  - exists res, q. unfold find_far_points_graph. rewrite Hr.
    rewrite lift_Some, !bind_ret. exact Hrun.
Qed.

Lemma find_graph_root_returns (g : csgraph) (mask : list bool) (fuel : nat) :
  wf_csgraph g = true -> length mask = shape0 g ->
  (0 < np_sum mask)%nat -> (shape0 g < fuel)%nat ->
  exists root pred rds q,
    find_graph_root fuel g (Some mask) = (Ok (root, pred, rds, mask), q).
Proof.
  intros Hwf Hlen Hpos Hfuel.
  destruct (far_points_returns g mask fuel Hwf Hlen Hpos Hfuel)
    as ([[[[b a] p] d] ds] & q & Hfar).
  exists b, p, ds, (q + 0)%nat. unfold find_graph_root. rewrite bind_ret.
  eapply bind_intro; [exact Hfar | reflexivity].
Qed.

Lemma clear_at_runs (valid : list bool) (root : Z) :
  0 <= root < Z.of_nat (length valid) ->
  exists valid', clear_at valid root = (Ok valid', O).
Proof.
  intros H. unfold clear_at. rewrite (np_index_vertex _ _ H), lift_Some, bind_ret.
  eexists. reflexivity.
Qed.

Lemma exact_component_returns (g : csgraph) (root : Z) (valid0 : list bool)
  (rds : list float64) (rp : list Z) (inv_d : float64) (fuel : nat)
  (find_root_func : root_function) (return_map : bool) :
  teasar_pre g root valid0 rds rp inv_d -> (shape0 g <= fuel)%nat ->
  exists r q,
    graph_teasar_component fuel g (Some root) (Some valid0) (Some rds) (Some rp)
      find_root_func inv_d return_map = (Ok r, q).
Proof.
  intros pre Hfuel.
  assert (Hsum : (np_sum valid0 <= fuel)%nat).
  { pose proof (count_occ_bound bool_dec true valid0) as Hb.
    unfold np_sum. rewrite (pre_len pre) in Hb. lia. }
  destruct (teasar_loop_terminates pre fuel Hfuel fuel _ (good_init pre return_map) Hsum)
    as (st_f & q & Hloop & _).
  eexists. exists (0 + (q + 0))%nat.
  unfold graph_teasar_component.
  eapply bind_intro; [exact (teasar_setup_runs pre find_root_func return_map) |].
  cbv beta iota.
  eapply bind_intro; [exact Hloop | reflexivity].
Qed.

Lemma fresh_component_returns (g : csgraph) (root : Z) (valid0 : list bool)
  (rds : list float64) (rp src : list Z) (rp0 : option (list Z)) (inv_d : float64)
  (fuel : nat) (find_root_func : root_function) (return_map : bool) :
  teasar_pre g root valid0 rds rp inv_d -> (shape0 g <= fuel)%nat ->
  dijkstra g [root] PInf = (Ok (rds, rp, src), 1%nat) ->
  exists r q,
    graph_teasar_component fuel g (Some root) (Some valid0) None rp0
      find_root_func inv_d return_map = (Ok r, q).
Proof.
  intros pre Hfuel Hdij.
  destruct (exact_component_returns g root valid0 rds rp inv_d fuel find_root_func
              return_map pre Hfuel) as (r & q & Hrun).
  exists r, (1 + q)%nat.
  unfold graph_teasar_component in Hrun |- *.
  assert (E : teasar_setup g (Some root) (Some valid0) None rp0 find_root_func return_map
              = (let (x, k) := teasar_setup g (Some root) (Some valid0) (Some rds) (Some rp)
                                 find_root_func return_map in (x, (1 + k)%nat))).
  { unfold teasar_setup. cbv zeta. rewrite !bind_ret. rewrite Hdij. cbn [bind ret].
    match goal with
    | |- (let (_, _) := ?m in _) = _ => destruct m as [x0 k0]
    end.
    reflexivity. }
  rewrite E.
  destruct (teasar_setup g (Some root) (Some valid0) (Some rds) (Some rp)
              find_root_func return_map) as [[[[a b] c] | e |] k0]; cbn [bind] in Hrun |- *;
    try discriminate.
  destruct (teasar_loop fuel fuel g a b inv_d c) as [[st | e |] k1]; cbn [bind] in Hrun |- *;
    try discriminate.
  cbn [ret] in Hrun |- *. injection Hrun as <- <-. reflexivity.
Qed.

Lemma component_pre (g : csgraph) (labels : list nat) (k : nat) (root : Z)
  (valid' : list bool) (ds : list float64) (p src : list Z) (inv_d : float64) :
  wf_csgraph g = true -> fle (Fin 0) inv_d = true ->
  connected_components g = (Ok labels, O) ->
  vertex g root -> nth_error labels (Z.to_nat root) = Some k ->
  dijkstra g [root] PInf = (Ok (ds, p, src), 1%nat) ->
  length valid' = shape0 g ->
  (forall i, nth_error valid' i = Some true -> nth_error labels i = Some k) ->
  teasar_pre g root valid' ds p inv_d.
Proof.
  intros Hwf Hrad Hl Hv Hk Hdij Hlen Hvalid.
  destruct (dijkstra_total g [root] PInf Hwf (Forall_cons _ Hv (Forall_nil _)) eq_refl)
    as (ds' & p' & src' & Hdij' & C).
  rewrite Hdij in Hdij'. injection Hdij' as <- <- <-. simpl in C.
  constructor; try assumption.
  - exists src. exact C.
  - intros i Hi.
    destruct (connected_components_sound g labels O Hwf Hl _ _ _ Hk (Hvalid i Hi)) as [l Hw].
    destruct (contract_reaches (Z.to_nat root) i l Hwf C (or_introl eq_refl) Hw eq_refl)
      as (d & Hd & _).
    eauto.
Qed.

Lemma component_of_label_returns (fuel : nat) (g : csgraph) (labels : list nat) (k : nat)
  (root : Z) (valid' : list bool) (rds : option (list float64)) (pred : option (list Z))
  (inv_d : float64) (return_map : bool) :
  wf_csgraph g = true -> fle (Fin 0) inv_d = true -> (shape0 g <= fuel)%nat ->
  connected_components g = (Ok labels, O) ->
  vertex g root -> nth_error labels (Z.to_nat root) = Some k ->
  length valid' = length labels ->
  (forall i, nth_error valid' i =
             if Nat.eqb i (Z.to_nat root) then nth_error valid' (Z.to_nat root)
             else nth_error (map (Nat.eqb k) labels) i) ->
  ((exists ds p src, dijkstra g [root] PInf = (Ok (ds, p, src), 1%nat) /\
                     rds = Some ds /\ pred = Some p) \/
   (exists a d, far_state g (map (Nat.eqb k) labels) root a pred d rds)) ->
  exists r q,
    graph_teasar_component fuel g (Some root) (Some valid') rds pred
      (find_graph_root fuel) inv_d return_map = (Ok r, q).
Proof.
  intros Hwf Hrad Hfuel Hl Hv Hk Hlen' Hcell Harr.
  destruct (connected_components_spec g labels O Hwf Hl) as (_ & Hlen & Hsame).
  assert (Hr0 : 0 <= root) by (destruct Hv; lia).
  destruct (dijkstra_total g [root] PInf Hwf (Forall_cons _ Hv (Forall_nil _)) eq_refl)
    as (ds0 & p0 & src0 & Hdij0 & C0).
  simpl in C0.
  assert (Hvalid : forall i, nth_error valid' i = Some true -> nth_error labels i = Some k).
  { intros i Hi. rewrite Hcell in Hi.
    destruct (Nat.eqb_spec i (Z.to_nat root)) as [E | _]; [rewrite E; exact Hk |].
    apply mask_label. exact Hi. }
  pose proof (component_pre g labels k root valid' ds0 p0 src0 inv_d Hwf Hrad Hl Hv Hk Hdij0
                ltac:(lia) Hvalid) as pre0.
  destruct Harr as [(ds & p & src & Hdij & -> & ->) |
                    (a & d & Ha & Hva &
                     [(-> & -> & _) |
                      (raw & p & src & dc & Hd & -> & -> & Hm & Hget & _ & _ & _ & Hpos)])].
  - rewrite Hdij0 in Hdij. injection Hdij as <- <- <-.
    exact (exact_component_returns g root valid' ds0 p0 inv_d fuel _ return_map pre0 Hfuel).
  - exact (fresh_component_returns g root valid' ds0 p0 src0 None inv_d fuel _ return_map
             pre0 Hfuel Hdij0).
  - rewrite Hdij0 in Hd. injection Hd as <- <- <-.
    destruct (masked_cell _ _ _ Hm) as (Hl1 & Hl2 & Hdc).
    rewrite length_map in Hl1, Hl2.
    assert (Hmask : forall i l, walk g (Z.to_nat root) i l ->
                                nth_error (map (Nat.eqb k) labels) i = Some true).
    { intros i l Hw. rewrite nth_error_map, <- (Hsame _ _ _ Hw), Hk. simpl.
      rewrite Nat.eqb_refl. reflexivity. }
    apply (masked_component_returns g root valid' ds0 p0 inv_d pre0 dc).
    + lia.
    + intros i d' Hd'.
      destruct (oc_sound C0 _ _ Hd') as [[(s & [<- | []] & Hw) _] _].
      rewrite Hdc, Hd', (Hmask _ _ Hw). reflexivity.
    + intros i x Hx. rewrite Hdc in Hx.
      destruct (nth_error ds0 i) as [y |] eqn:Ey; [| discriminate].
      destruct (nth_error (map (Nat.eqb k) labels) i) as [b |]; [| discriminate].
      injection Hx as <-. destruct b; [exact (oc_cell C0 _ _ Ey) | right; eauto].
    + exact Hfuel.
    + intros _.
      assert (Ha0 : 0 <= a) by (destruct Ha; lia).
      destruct (connected_components_sound g labels O Hwf Hl _ _ _ Hk (mask_label _ _ _ Hva))
        as [l Hw].
      destruct (contract_reaches (Z.to_nat root) (Z.to_nat a) l Hwf C0 (or_introl eq_refl)
                  Hw eq_refl) as (dd & Hdd & _).
      rewrite np_get_nonneg in Hget by exact Ha0.
      rewrite (masked_valid_cell _ _ _ _ Hm Hva), Hdd in Hget. injection Hget as <-.
      apply flt_Fin in Hpos.
      exists (Z.to_nat a), dd. split; [| split; [exact Hdd | exact Hpos]].
      rewrite Hcell. destruct (Nat.eqb_spec (Z.to_nat a) (Z.to_nat root)) as [E | _];
        [| exact Hva].
      exfalso. rewrite E in Hdd.
      destruct (oc_src C0 _ (or_introl eq_refl)) as [H0 _]. rewrite H0 in Hdd.
      injection Hdd as <-. lia.
Qed.

(** *** The loop over the components *)

Lemma root_selection_runs (fuel : nat) (g : csgraph) (root_index : option Z)
  (labels : list nat) (k : nat) :
  wf_csgraph g = true -> (shape0 g < fuel)%nat ->
  (forall r, root_index = Some r -> vertex g r) ->
  connected_components g = (Ok labels, O) -> In k labels ->
  exists root pred rds q,
    match root_index with
    | Some root =>
        l <- getitem labels root ;;
        if Nat.eqb l k then
          '(root_ds, pred, _) <- dijkstra g [root] PInf ;;
          ret (root, Some pred, Some root_ds, map (Nat.eqb k) labels)
        else find_graph_root fuel g (Some (map (Nat.eqb k) labels))
    | None => find_graph_root fuel g (Some (map (Nat.eqb k) labels))
    end = (Ok (root, pred, rds, map (Nat.eqb k) labels), q) /\
    vertex g root /\ nth_error labels (Z.to_nat root) = Some k /\
    ((exists ds p src, dijkstra g [root] PInf = (Ok (ds, p, src), 1%nat) /\
                       rds = Some ds /\ pred = Some p) \/
     (exists a d, far_state g (map (Nat.eqb k) labels) root a pred d rds)).
Proof.
  intros Hwf Hfuel Hri Hl Hk.
  destruct (connected_components_spec g labels O Hwf Hl) as (_ & Hlen & _).
  assert (Hfound : exists root pred rds q,
             find_graph_root fuel g (Some (map (Nat.eqb k) labels))
             = (Ok (root, pred, rds, map (Nat.eqb k) labels), q) /\
             vertex g root /\ nth_error labels (Z.to_nat root) = Some k /\
             exists a d, far_state g (map (Nat.eqb k) labels) root a pred d rds).
  { destruct (find_graph_root_returns g (map (Nat.eqb k) labels) fuel Hwf)
      as (root & pred & rds & q & Hroot); [rewrite length_map; exact Hlen | | exact Hfuel |].
    - apply np_sum_pos. apply In_nth_error in Hk. destruct Hk as [v Hv].
      exists v. rewrite nth_error_map, Hv. simpl. rewrite Nat.eqb_refl. reflexivity.
    - exists root, pred, rds, q. split; [exact Hroot |].
      destruct (find_graph_root_inv _ _ _ _ _ _ _ _ Hroot) as (_ & a & d & Hfar).
      destruct (far_points_run fuel g _ root a pred d rds q Hwf Hfar) as (Hst & _).
      destruct (far_state_root _ _ _ _ _ _ _ Hst) as [Hv Hvalid].
      split; [exact Hv |]. split; [exact (mask_label _ _ _ Hvalid) |]. eauto. }
  destruct root_index as [r |].
  - pose proof (Hri r eq_refl) as Hv.
    assert (Hr : (Z.to_nat r < length labels)%nat) by (destruct Hv; lia).
    destruct (nth_error labels (Z.to_nat r)) as [l |] eqn:El;
      [| apply nth_error_None in El; lia].
    assert (Hget : getitem labels r = (Ok l, O)).
    { apply getitem_some. rewrite np_get_nonneg by (destruct Hv; lia). exact El. }
    rewrite (bind_ok _ _ _ Hget).
    destruct (Nat.eqb_spec l k) as [-> | Hne].
    + destruct (dijkstra_total g [r] PInf Hwf (Forall_cons _ Hv (Forall_nil _)) eq_refl)
        as (ds & p & src & Hdij & _).
      exists r, (Some p), (Some ds), 1%nat. rewrite Hdij. cbn [bind ret].
      split; [reflexivity |]. split; [exact Hv |]. split; [exact El |].
      left. exists ds, p, src. auto.
    + destruct Hfound as (root & pred & rds & q & Hroot & Hv' & Hk' & Hfar).
      exists root, pred, rds, q. auto.
  - destruct Hfound as (root & pred & rds & q & Hroot & Hv' & Hk' & Hfar).
    exists root, pred, rds, q. auto.
Qed.

Lemma graph_teasar_body_runs (fuel : nat) (g : csgraph) (root_index : option Z)
  (inv_d : float64) (thresh : Z) (return_map : bool) (labels counts : list nat)
  (ap : list (list (list Z))) (rt : list Z) (tp : list (list float64))
  (mesh : option (list float64)) (k : nat) :
  wf_csgraph g = true -> fle (Fin 0) inv_d = true ->
  (forall r, root_index = Some r -> vertex g r) ->
  (shape0 g < fuel)%nat ->
  connected_components g = (Ok labels, O) -> In k labels ->
  match mesh with
  | Some m => return_map = true /\ length m = shape0 g
  | None => return_map = false
  end ->
  exists ap' rt' tp' mesh' q,
    graph_teasar_body fuel g root_index (find_graph_root fuel) inv_d thresh return_map
      labels counts (ap, rt, tp, mesh) k = (Ok (ap', rt', tp', mesh'), q) /\
    match mesh' with
    | Some m => return_map = true /\ length m = shape0 g
    | None => return_map = false
    end.
Proof.
  intros Hwf Hrad Hri Hfuel Hl Hk Hmesh. unfold graph_teasar_body.
  destruct (Z.of_nat (nth k counts O) >? thresh).
  2: { exists ap, rt, tp, mesh, O. split; [reflexivity | exact Hmesh]. }
  cbv zeta.
  destruct (root_selection_runs fuel g root_index labels k Hwf Hfuel Hri Hl Hk)
    as (root & pred & rds & q1 & Hsel & Hv & Hroot & Harr).
  destruct (connected_components_spec g labels O Hwf Hl) as (_ & Hlen & _).
  destruct (clear_at_runs (map (Nat.eqb k) labels) root) as [valid' Hclr].
  { rewrite length_map, Hlen. exact Hv. }
  assert (Hr0 : 0 <= root) by (destruct Hv; lia).
  destruct (clear_at_spec _ _ _ _ Hr0 Hclr) as (_ & Hlen' & _ & Hcell).
  rewrite length_map in Hlen'.
  assert (Hcell' : forall i, nth_error valid' i =
                             if Nat.eqb i (Z.to_nat root) then nth_error valid' (Z.to_nat root)
                             else nth_error (map (Nat.eqb k) labels) i).
  { intros i. destruct (Nat.eqb_spec i (Z.to_nat root)) as [-> | Hne]; [reflexivity |].
    rewrite Hcell. destruct (Nat.eqb_spec i (Z.to_nat root)); [contradiction | reflexivity]. }
  destruct (component_of_label_returns fuel g labels k root valid' rds pred inv_d return_map
              Hwf Hrad ltac:(lia) Hl Hv Hroot Hlen' Hcell' Harr)
    as ([[paths lens] single] & q2 & Hc).
  destruct (component_run Hc) as (rds' & rp' & st & Hr & _ & _ & _ & _ & Hsingle).
  assert (Hmerge : exists mesh'' q3,
             match mesh, single with
             | Some m, Some s => r <- merge_map m s ;; ret (Some r)
             | m, _ => ret m
             end = (Ok mesh'', q3) /\
             match mesh'' with
             | Some m => return_map = true /\ length m = shape0 g
             | None => return_map = false
             end).
  { destruct mesh as [m |].
    - destruct Hmesh as [-> Hm].
      destruct (reachable_map_state fuel g root valid' rds' rp' inv_d st Hwf Hv Hrad Hr)
        as (dist & mp & Hms & _ & Hlm & _).
      rewrite Hms in Hsingle. simpl in Hsingle. subst single.
      unfold merge_map. rewrite Hm, Hlm, Nat.eqb_refl. rewrite !bind_ret.
      eexists. exists O. split; [reflexivity |]. split; [reflexivity |].
      rewrite length_map, length_combine. lia.
    - exists None, O. split; [destruct single; reflexivity | exact Hmesh]. }
  destruct Hmerge as (mesh'' & q3 & Hmerge & Hmesh'').
  destruct (Nat.ltb 0 (length lens)) eqn:Hpos.
  - exists (ap ++ [paths]), (rt ++ [root]), (tp ++ [lens]), mesh'', (q1 + (0 + (q2 + (q3 + 0))))%nat.
    split; [| exact Hmesh''].
    eapply bind_intro; [exact Hsel |]. cbv beta iota.
    eapply bind_intro; [exact Hclr |].
    eapply bind_intro; [exact Hc |]. cbv beta iota.
    eapply bind_intro; [exact Hmerge |]. rewrite Hpos. reflexivity.
  - exists ap, rt, tp, mesh'', (q1 + (0 + (q2 + (q3 + 0))))%nat.
    split; [| exact Hmesh''].
    eapply bind_intro; [exact Hsel |]. cbv beta iota.
    eapply bind_intro; [exact Hclr |].
    eapply bind_intro; [exact Hc |]. cbv beta iota.
    eapply bind_intro; [exact Hmerge |]. rewrite Hpos. reflexivity.
Qed.

Lemma graph_teasar_loop_runs (fuel : nat) (g : csgraph) (root_index : option Z)
  (inv_d : float64) (thresh : Z) (return_map : bool) (labels counts : list nat) :
  wf_csgraph g = true -> fle (Fin 0) inv_d = true ->
  (forall r, root_index = Some r -> vertex g r) ->
  (shape0 g < fuel)%nat ->
  connected_components g = (Ok labels, O) ->
  forall ks ap rt tp mesh,
    (forall k, In k ks -> In k labels) ->
    match mesh with
    | Some m => return_map = true /\ length m = shape0 g
    | None => return_map = false
    end ->
    exists ap' rt' tp' mesh' q,
      graph_teasar_loop fuel g root_index (find_graph_root fuel) inv_d thresh return_map
        labels counts ks (ap, rt, tp, mesh) = (Ok (ap', rt', tp', mesh'), q) /\
      match mesh' with
      | Some m => return_map = true /\ length m = shape0 g
      | None => return_map = false
      end.
Proof.
  intros Hwf Hrad Hri Hfuel Hl.
  induction ks as [| k ks IH]; intros ap rt tp mesh Hks Hmesh.
  - exists ap, rt, tp, mesh, O. split; [reflexivity | exact Hmesh].
  - destruct (graph_teasar_body_runs fuel g root_index inv_d thresh return_map labels counts
                ap rt tp mesh k Hwf Hrad Hri Hfuel Hl (Hks k (or_introl eq_refl)) Hmesh)
      as (ap1 & rt1 & tp1 & mesh1 & q1 & Hbody & Hmesh1).
    destruct (IH ap1 rt1 tp1 mesh1 (fun k' H => Hks k' (or_intror H)) Hmesh1)
      as (ap' & rt' & tp' & mesh' & q2 & Hloop & Hmesh').
    exists ap', rt', tp', mesh', (q1 + q2)%nat. split; [| exact Hmesh'].
    simpl. eapply bind_intro; [exact Hbody | exact Hloop].
Qed.

(** With exact sums, [graph_teasar] returns: on a well-formed graph, with a non-negative
    invalidation radius, the default root function and a [root_index]
    that is absent or a vertex, the call raises nothing and ends once
    the fuel exceeds the number of vertices; the map is returned exactly
    when it was asked for, with one cell per vertex. *)
Lemma exact_driver_returns (fuel : nat) (g : csgraph) (root_index : option Z)
  (inv_d : float64) (thresh : Z) (return_map : bool) :
  wf_csgraph g = true -> fle (Fin 0) inv_d = true ->
  (forall r, root_index = Some r -> vertex g r) ->
  (shape0 g < fuel)%nat ->
  exists all_paths roots tot_path_lengths mesh q,
    graph_teasar fuel g root_index (find_graph_root fuel) inv_d thresh return_map
    = (Ok (all_paths, roots, tot_path_lengths, mesh), q) /\
    match mesh with
    | Some m => return_map = true /\ length m = shape0 g
    | None => return_map = false
    end.
Proof.
  intros Hwf Hrad Hri Hfuel.
  assert (Hcc : exists labels, connected_components g = (Ok labels, O)).
  { unfold connected_components.
    rewrite <- (wf_csgraph_square g Hwf), Nat.eqb_refl. simpl. eexists. reflexivity. }
  destruct Hcc as [labels Hl].
  assert (Hn : n_vertices g = shape0 g).
  { unfold n_vertices. rewrite <- (wf_csgraph_square g Hwf). apply Nat.max_id. }
  destruct (graph_teasar_loop_runs fuel g root_index inv_d thresh return_map labels
              (map (fun l => count_occ Nat.eq_dec labels l) (seq 0 (count_components labels)))
              Hwf Hrad Hri Hfuel Hl (seq 0 (count_components labels)) [] [] []
              (if return_map then Some (repeat NaN (n_vertices g)) else None))
    as (ap & rt & tp & mesh & q & Hloop & Hmesh).
  - intros k Hk. apply in_seq in Hk.
    apply (labels_contiguous g labels O Hwf Hl). lia.
  - destruct return_map; [| reflexivity].
    split; [reflexivity | rewrite repeat_length; exact Hn].
  - exists ap, rt, tp, mesh, (0 + q)%nat. split; [| exact Hmesh].
    unfold graph_teasar. cbv zeta.
    eapply bind_intro; [exact Hl | exact Hloop].
Qed.

(** *** The call with every default returns *)

Lemma connected_component_slice_runs (g : csgraph) :
  wf_csgraph g = true -> (0 < shape0 g)%nat ->
  exists mask, connected_component_slice g = (Ok mask, O).
Proof.
  intros Hwf Hpos.
  assert (Hcc : exists labels, connected_components g = (Ok labels, O)).
  { unfold connected_components.
    rewrite <- (wf_csgraph_square g Hwf), Nat.eqb_refl. simpl. eexists. reflexivity. }
  destruct Hcc as [labels Hl].
  destruct (connected_components_spec g labels O Hwf Hl) as (_ & Hlen & _).
  unfold connected_component_slice. rewrite (bind_ok _ _ _ Hl). cbv zeta.
  destruct labels as [| a0 rest] eqn:El; [simpl in Hlen; lia |]. rewrite <- El.
  destruct (@np_argmax_some
              (map (fun l => Fin (Z.of_nat (count_occ Nat.eq_dec labels l)))
                 (seq 0 (S (fold_right Nat.max 0%nat labels))))) as [ind Hind].
  { simpl. discriminate. }
  rewrite Hind, lift_Some, bind_ret. eexists. reflexivity.
Qed.

(** With exact sums, [graph_teasar_component(csgraph)] with every default returns: on a
    well-formed graph with at least one vertex and a non-negative
    invalidation radius the call raises nothing and ends once the fuel
    exceeds the number of vertices. *)
Lemma exact_default_returns (fuel : nat) (g : csgraph)
  (root_ds : option (list float64)) (root_pred : option (list Z))
  (inv_d : float64) (return_map : bool) :
  wf_csgraph g = true -> fle (Fin 0) inv_d = true ->
  (0 < shape0 g)%nat -> (shape0 g < fuel)%nat ->
  exists ps ls mp q,
    graph_teasar_component fuel g None None root_ds root_pred
      (find_graph_root fuel) inv_d return_map = (Ok (ps, ls, mp), q).
Proof.
  intros Hwf Hrad Hpos Hfuel.
  destruct (connected_component_slice_runs g Hwf Hpos) as [mask Hslice].
  destruct (connected_component_slice_spec g mask O Hwf Hslice)
    as (_ & labels & ind & Hl & -> & [v Hv] & _).
  destruct (connected_components_spec g labels O Hwf Hl) as (_ & Hlen & _).
  destruct (find_graph_root_returns g (map (Nat.eqb ind) labels) fuel Hwf)
    as (root & pred & rds & q1 & Hroot); [rewrite length_map; exact Hlen | | exact Hfuel |].
  { apply np_sum_pos. exists v. rewrite nth_error_map, Hv. simpl.
    rewrite Nat.eqb_refl. reflexivity. }
  assert (Hroot0 : find_graph_root fuel g None
                   = (Ok (root, pred, rds, map (Nat.eqb ind) labels), q1)).
  { unfold find_graph_root in Hroot |- *. rewrite bind_ret in Hroot.
    rewrite (bind_ok _ _ _ Hslice). exact Hroot. }
  destruct (find_graph_root_inv _ _ _ _ _ _ _ _ Hroot) as (_ & a & d & Hfar).
  destruct (far_points_run fuel g _ root a pred d rds q1 Hwf Hfar) as (Hst & _).
  destruct (far_state_root _ _ _ _ _ _ _ Hst) as [Hvr Hvalid].
  destruct (component_of_label_returns fuel g labels ind root (map (Nat.eqb ind) labels)
              rds pred inv_d return_map Hwf Hrad ltac:(lia) Hl Hvr (mask_label _ _ _ Hvalid))
    as ([[ps ls] mp] & q2 & Hc).
  - apply length_map.
  - intros i. destruct (Nat.eqb_spec i (Z.to_nat root)) as [-> | _]; reflexivity.
  - right. eauto.
  - exists ps, ls, mp, (q1 + q2)%nat.
    rewrite (component_found_root fuel g None root_ds root_pred (find_graph_root fuel)
               inv_d return_map root pred rds _ q1 Hroot0).
    rewrite Hc. reflexivity.
Qed.

(** ** connected_component_slice with its arguments *)

Lemma flatnonzero_sorted (f : nat -> bool) (s n : nat) :
  StronglySorted Z.lt (map Z.of_nat (filter f (seq s n))) /\
  Forall (fun x => Z.of_nat s <= x) (map Z.of_nat (filter f (seq s n))).
Proof.
  revert s. induction n as [| n IH]; intros s; [split; constructor |].
  destruct (IH (S s)) as [Hs Hf]. cbn [seq filter].
  assert (Hf' : Forall (fun x => Z.of_nat s < x) (map Z.of_nat (filter f (seq (S s) n)))).
  { eapply Forall_impl; [| exact Hf]. cbv beta. intros x Hx. lia. }
  destruct (f s); cbn [map].
  - split; [constructor; assumption |].
    constructor; [lia |]. eapply Forall_impl; [| exact Hf]. cbv beta. intros x Hx. lia.
  - split; [exact Hs |]. eapply Forall_impl; [| exact Hf]. cbv beta. intros x Hx. lia.
Qed.

Lemma flatnonzero_In (a : list bool) (u : Z) :
  In u (np_flatnonzero a) <-> 0 <= u /\ nth_error a (Z.to_nat u) = Some true.
Proof.
  unfold np_flatnonzero. rewrite in_map_iff. split.
  - intros (i & <- & Hi). apply filter_In in Hi. destruct Hi as [Hi Hn].
    apply in_seq in Hi. split; [lia |]. rewrite Nat2Z.id.
    destruct (nth_error a i) as [b |] eqn:E; [| apply nth_error_None in E; lia].
    rewrite (nth_error_nth _ _ false E) in Hn. congruence.
  - intros [Hu Hn]. exists (Z.to_nat u). split; [lia |]. apply filter_In. split.
    + apply in_seq. assert (Z.to_nat u < length a)%nat by (apply nth_error_Some; congruence).
      lia.
    + exact (nth_error_nth _ _ false Hn).
Qed.

(** The mask used by [find_graph_root] is the general function at
    [ind=None], [return_boolean=True]. *)
Lemma connected_component_slice_default (g : csgraph) :
  connected_component_slice_ind g None true
  = (let (r, k) := connected_component_slice g in
     (match r with
      | Ok m => Ok (SliceMask m)
      | Raise e => Raise e
      | OutOfFuel => OutOfFuel
      end, k)).
Proof.
  unfold connected_component_slice_ind, connected_component_slice.
  destruct (connected_components g) as [[labels | e |] q]; cbn [bind]; try reflexivity.
  cbv zeta. destruct labels as [| a0 rest] eqn:El; [reflexivity |]. rewrite <- El.
  assert (Ec : count_components labels = S (fold_right Nat.max 0%nat labels))
    by (rewrite El; reflexivity).
  rewrite Ec.
  destruct (np_argmax
              (map (fun l => Fin (Z.of_nat (count_occ Nat.eq_dec labels l)))
                 (seq 0 (S (fold_right Nat.max 0%nat labels))))) as [ind |] eqn:Ei;
    [| reflexivity].
  rewrite !lift_Some, !bind_ret.
  assert (Hlt : (ind < S (fold_right Nat.max 0%nat labels))%nat).
  { assert (Hs : exists x, nth_error
                   (map (fun l => Fin (Z.of_nat (count_occ Nat.eq_dec labels l)))
                      (seq 0 (S (fold_right Nat.max 0%nat labels)))) ind = Some x).
    { assert (Hnan : forall x,
                In x (map (fun l => Fin (Z.of_nat (count_occ Nat.eq_dec labels l)))
                        (seq 0 (S (fold_right Nat.max 0%nat labels)))) -> isnan x = false).
      { intros x Hx. apply in_map_iff in Hx. destruct Hx as (c & <- & _). reflexivity. }
      destruct (np_argmax_spec _ Hnan Ei) as (vm & Hvm & _). eauto. }
    destruct Hs as [x Hx].
    assert (H : (ind < length (map (fun l => Fin (Z.of_nat (count_occ Nat.eq_dec labels l)))
                                 (seq 0 (S (fold_right Nat.max 0%nat labels)))))%nat)
      by (apply nth_error_Some; congruence).
    rewrite length_map, length_seq in H. exact H. }
  assert (Hget : getitem (seq 0 (S (fold_right Nat.max 0%nat labels))) (Z.of_nat ind)
                 = (Ok ind, O)).
  { apply getitem_some. rewrite np_get_nat, nth_error_seq.
    destruct (Nat.ltb_spec ind (S (fold_right Nat.max 0%nat labels))); [reflexivity | lia]. }
  rewrite (bind_ok _ _ _ Hget). reflexivity.
Qed.

(** [connected_component_slice(G, ind=v)] reads [ind] as a vertex: for a
    vertex [v] of a well-formed graph the call returns the component of
    [v], as the mask of the vertices joined to [v] by a walk, or, with
    [return_boolean=False], as the strictly increasing list of those
    vertices. *)
Theorem connected_component_slice_of_vertex (g : csgraph) (v : Z) :
  wf_csgraph g = true -> vertex g v ->
  exists mask,
    connected_component_slice_ind g (Some v) true = (Ok (SliceMask mask), O) /\
    connected_component_slice_ind g (Some v) false
    = (Ok (SliceIndices (np_flatnonzero mask)), O) /\
    length mask = shape0 g /\
    (forall u, nth_error mask u = Some true <-> exists l, walk g (Z.to_nat v) u l) /\
    StronglySorted Z.lt (np_flatnonzero mask) /\
    (forall u, In u (np_flatnonzero mask) <->
               0 <= u /\ exists l, walk g (Z.to_nat v) (Z.to_nat u) l).
Proof.
  intros Hwf Hv.
  assert (Hcc : exists labels, connected_components g = (Ok labels, O)).
  { unfold connected_components.
    rewrite <- (wf_csgraph_square g Hwf), Nat.eqb_refl. simpl. eexists. reflexivity. }
  destruct Hcc as [labels Hl].
  destruct (connected_components_spec g labels O Hwf Hl) as (_ & Hlen & Hsame).
  pose proof (connected_components_sound g labels O Hwf Hl) as Hsound.
  destruct (nth_error labels (Z.to_nat v)) as [k |] eqn:Ek;
    [| apply nth_error_None in Ek; destruct Hv; lia].
  assert (Hget : getitem labels v = (Ok k, O)).
  { apply getitem_some. rewrite np_get_nonneg by (destruct Hv; lia). exact Ek. }
  assert (Hmask : forall u, nth_error (map (Nat.eqb k) labels) u = Some true <->
                            exists l, walk g (Z.to_nat v) u l).
  { intros u. split.
    - intros Hu. exact (Hsound _ _ _ Ek (mask_label _ _ _ Hu)).
    - intros [l Hw]. rewrite nth_error_map, <- (Hsame _ _ _ Hw), Ek. simpl.
      rewrite Nat.eqb_refl. reflexivity. }
  exists (map (Nat.eqb k) labels).
  split; [unfold connected_component_slice_ind;
          rewrite (bind_ok _ _ _ Hl), (bind_ok _ _ _ Hget); reflexivity |].
  split; [unfold connected_component_slice_ind;
          rewrite (bind_ok _ _ _ Hl), (bind_ok _ _ _ Hget); reflexivity |].
  split; [rewrite length_map; exact Hlen |]. split; [exact Hmask |].
  split; [exact (proj1 (flatnonzero_sorted _ _ _)) |].
  intros u. rewrite flatnonzero_In. rewrite Hmask. reflexivity.
Qed.

Lemma vertex_4 : vertex square_and_edge 4.
Proof. unfold vertex. simpl. lia. Qed.

Lemma connected_component_slice_of_vertex_witness :
  exists mask,
    connected_component_slice_ind square_and_edge (Some 4) true = (Ok (SliceMask mask), O) /\
    connected_component_slice_ind square_and_edge (Some 4) false
    = (Ok (SliceIndices (np_flatnonzero mask)), O) /\
    length mask = shape0 square_and_edge /\
    (forall u, nth_error mask u = Some true <->
               exists l, walk square_and_edge (Z.to_nat 4) u l) /\
    StronglySorted Z.lt (np_flatnonzero mask) /\
    (forall u, In u (np_flatnonzero mask) <->
               0 <= u /\ exists l, walk square_and_edge (Z.to_nat 4) (Z.to_nat u) l).
Proof.
  exact (connected_component_slice_of_vertex square_and_edge 4 eq_refl vertex_4).
Defined.

(** ** find_neuron_root *)

Lemma np_select_In {A : Type} (a r : list A) (mask : list bool) (i : nat) (x : A) :
  np_select a mask = Some r ->
  nth_error a i = Some x -> nth_error mask i = Some true -> In x r.
Proof.
  unfold np_select. destruct (Nat.eqb (length a) (length mask)); [| discriminate].
  intros E Ha Hm. injection E as <-.
  apply in_map_iff. exists (x, true). split; [reflexivity |].
  apply filter_In. split; [| reflexivity].
  apply (nth_error_In _ i). rewrite nth_error_combine, Ha, Hm. reflexivity.
Qed.

Lemma np_nanargmin_spec (ds : list float64) (m : nat) :
  np_nanargmin ds = Some m ->
  exists dm, nth_error ds m = Some dm /\
             forall x, In x ds -> isnan x = false ->
                       fle (if isnan dm then PInf else dm) x = true.
Proof.
  unfold np_nanargmin. destruct (forallb isnan ds); [discriminate |]. intros H.
  assert (Hnn : forall y, In y (map (fun x => if isnan x then PInf else x) ds) ->
                          isnan y = false).
  { intros y Hy. apply in_map_iff in Hy. destruct Hy as (x & <- & _).
    destruct x; reflexivity. }
  destruct (np_argmin_spec _ Hnn H) as (vm & Hvm & Hall & _).
  rewrite nth_error_map in Hvm.
  destruct (nth_error ds m) as [dm |]; [| discriminate]. injection Hvm as <-.
  exists dm. split; [reflexivity |].
  intros x Hx Hnan.
  specialize (Hall (if isnan x then PInf else x)
                (in_map (fun x => if isnan x then PInf else x) ds x Hx)).
  rewrite Hnan in Hall. exact Hall.
Qed.

(** [find_neuron_root] in soma mode, when some valid vertex is a soma
    point: the root is a valid soma point whose [soma_d] is least among
    the valid soma points (NaN ignored); the arrays are those of the
    search from the root; the returned mask holds the valid vertices that
    are not soma points, and each of them is joined to the root. *)
Theorem find_neuron_root_soma (fuel : nat) (g : csgraph) (valid soma : list bool)
  (soma_d : list float64) (root : Z) (rds : list float64) (pred : option (list Z))
  (tv : list bool) (q i0 : nat) :
  wf_csgraph g = true ->
  nth_error soma i0 = Some true -> nth_error valid i0 = Some true ->
  find_neuron_root fuel g (Some valid) (Some soma) (Some soma_d)
  = (Ok (root, rds, pred, tv), q) ->
  vertex g root /\
  nth_error soma (Z.to_nat root) = Some true /\
  nth_error valid (Z.to_nat root) = Some true /\
  (exists dr, nth_error soma_d (Z.to_nat root) = Some dr /\
              forall j dj, nth_error soma j = Some true -> nth_error valid j = Some true ->
                           nth_error soma_d j = Some dj -> isnan dj = false ->
                           fle (if isnan dr then PInf else dr) dj = true) /\
  (exists p src, pred = Some p /\ dijkstra g [root] PInf = (Ok (rds, p, src), 1%nat)) /\
  length tv = shape0 g /\
  (forall i, nth_error tv i = Some true <->
             nth_error valid i = Some true /\ nth_error soma i = Some false) /\
  (forall i, nth_error tv i = Some true -> exists l, walk g (Z.to_nat root) i l).
Proof.
  intros Hwf Hs0 Hv0 H. unfold find_neuron_root in H. cbv zeta in H.
  assert (Hn : n_vertices g = shape0 g).
  { unfold n_vertices. rewrite <- (wf_csgraph_square g Hwf). apply Nat.max_id. }
  rewrite Hn in H.
  destruct (Nat.eqb_spec (length valid) (shape0 g)) as [Lv | _]; [| discriminate].
  simpl negb in H. cbv iota in H.
  apply bind_inv in H. destruct H as ([[[root' pred'] rds'] tv1] & q1 & q2 & Hsel & H & ->).
  destruct (Nat.eqb_spec (length soma_d) (shape0 g)) as [Ld | _]; [| discriminate].
  destruct (Nat.eqb_spec (length soma) (shape0 g)) as [Ls | _]; [| discriminate].
  simpl negb in Hsel. cbv iota in Hsel.
  rewrite broadcast2_same in Hsel by lia. rewrite lift_Some, bind_ret in Hsel.
  set (ivr := map (fun p : bool * bool => fst p && snd p) (combine soma valid)) in *.
  assert (Hivr : forall i, nth_error ivr i = Some true <->
                           nth_error soma i = Some true /\ nth_error valid i = Some true).
  { intros i. unfold ivr. rewrite (nth_error_broadcast andb).
    destruct (nth_error soma i) as [[|] |], (nth_error valid i) as [[|] |]; simpl;
      split; try discriminate; try tauto; intros [? ?]; discriminate. }
  assert (Hin0 : In (Z.of_nat i0) (np_flatnonzero ivr)).
  { apply flatnonzero_In. split; [lia |]. rewrite Nat2Z.id. apply Hivr. auto. }
  destruct (Nat.ltb_spec 0 (length (np_flatnonzero ivr))) as [_ | Hz];
    [| destruct (np_flatnonzero ivr); [destruct Hin0 | simpl in Hz; lia]].
  apply bind_inv in Hsel.
  destruct Hsel as ([[[r0 p0] d0] tv0] & q3 & q4 & Hpick & Hsel & ->).
  apply bind_inv in Hsel. destruct Hsel as (tv1' & q5 & q6 & Hma & Hsel & ->).
  apply lift_inv in Hma. destruct Hma as [Hma ->].
  apply ret_inv in Hsel. destruct Hsel as [E ->]. injection E as -> -> -> ->.
  apply bind_inv in Hpick. destruct Hpick as (ds & q7 & q8 & Htake & Hpick & ->).
  destruct (take_spec Htake) as [-> HF].
  apply bind_inv in Hpick. destruct Hpick as (m & q9 & q10 & Hmin & Hpick & ->).
  apply lift_inv in Hmin. destruct Hmin as [Hmin ->].
  apply bind_inv in Hpick. destruct Hpick as (r1 & q11 & q12 & Hr1 & Hpick & ->).
  apply lift_inv in Hr1. destruct Hr1 as [Hr1 ->].
  apply bind_inv in Hpick. destruct Hpick as ([[ds1 p1] src1] & q13 & q14 & Hdij & Hpick & ->).
  apply ret_inv in Hpick. destruct Hpick as [E ->]. injection E as -> <- <- <-.
  destruct (proj1 (flatnonzero_In ivr root') (nth_error_In _ _ Hr1)) as [Hr0 Hrv].
  apply Hivr in Hrv. destruct Hrv as [Hrs Hrv].
  assert (Hvr : vertex g root').
  { split; [exact Hr0 |].
    assert (Z.to_nat root' < length valid)%nat by (apply nth_error_Some; congruence). lia. }
  destruct (dijkstra_contract Hwf Hdij) as [C ->].
  simpl in C. rewrite (norm_index_nonneg _ Hr0) in C.
  apply bind_inv in H. destruct H as (tv2 & q15 & q16 & Hclr & H & ->).
  destruct (clear_at_spec _ _ _ _ Hr0 Hclr) as (-> & Hlen2 & _ & Hcell2).
  apply bind_inv in H. destruct H as (reached & q17 & q18 & Hsel & H & ->).
  apply lift_inv in Hsel. destruct Hsel as [Hsel ->].
  destruct (existsb isinf reached) eqn:Hinf; [discriminate |].
  apply ret_inv in H. destruct H as [E ->]. injection E as <- <- <- <-.
  destruct (mask_assign_spec Hma) as (_ & Hlen1 & Hcell1).
  assert (Htv : forall i, nth_error tv2 i = Some true <->
                          nth_error valid i = Some true /\ nth_error soma i = Some false).
  { intros i. rewrite Hcell2, Hcell1.
    destruct (Nat.eqb_spec i (Z.to_nat root')) as [-> | _].
    - rewrite Hrs. split; [discriminate | intros [_ ?]; discriminate].
    - destruct (nth_error valid i) as [[|] |], (nth_error soma i) as [[|] |];
        split; try discriminate; try tauto; intros [? ?]; discriminate. }
  split; [exact Hvr |]. split; [exact Hrs |]. split; [exact Hrv |]. split.
  - destruct (np_nanargmin_spec ds m Hmin) as (dm & Hdm & Hall).
    destruct (Forall2_nth_right HF _ _ Hdm) as (r2 & Hr2 & Hget).
    assert (r2 = root') by congruence. subst r2.
    rewrite np_get_nonneg in Hget by exact Hr0.
    exists dm. split; [exact Hget |].
    intros j dj Hjs Hjv Hdj Hnan. apply Hall; [| exact Hnan].
    assert (Hj : In (Z.of_nat j) (np_flatnonzero ivr)).
    { apply flatnonzero_In. split; [lia |]. rewrite Nat2Z.id. apply Hivr. auto. }
    apply In_nth_error in Hj. destruct Hj as [t Ht].
    destruct (Forall2_nth_left HF _ _ Ht) as (x & Hx & Hgx).
    rewrite np_get_nat, Hdj in Hgx. injection Hgx as <-.
    exact (nth_error_In _ _ Hx).
  - split; [exists p1, src1; auto |].
    split; [rewrite Hlen2, Hlen1; exact Lv |]. split; [exact Htv |].
    intros i Hi.
    assert (Hin : (i < shape0 g)%nat).
    { rewrite <- Lv, <- Hlen1, <- Hlen2. apply nth_error_Some. congruence. }
    destruct (contract_cell_some i C Hin) as [x Hx].
    pose proof (np_select_In _ _ _ _ _ Hsel Hx Hi) as Hreached.
    assert (Hnotinf : isinf x = false).
    { destruct (isinf x) eqn:E; [| reflexivity].
      assert (existsb isinf reached = true) by (apply existsb_exists; eauto). congruence. }
    destruct (oc_cell C _ _ Hx) as [-> | [d ->]]; [discriminate |].
    destruct (oc_sound C _ _ Hx) as [[(s & [<- | []] & Hw) _] _]. eauto.
Qed.

(** [find_neuron_root] without soma points on a mask whose valid
    vertices are all at distance zero from the first of them (a single
    valid vertex, for one): [find_far_points_graph] hands over no
    distance array and the final check on [root_ds] raises TypeError. *)
Theorem find_neuron_root_single (fuel : nat) (g : csgraph) (valid : list bool) (r : nat)
  (soma_d : option (list float64)) :
  wf_csgraph g = true ->
  length valid = shape0 g ->
  first_true valid = Some r ->
  (forall v, nth_error valid v = Some true -> shortest g [r] v 0) ->
  (shape0 g < fuel)%nat ->
  exists q, find_neuron_root fuel g (Some valid) None soma_d = (Raise TypeError, q).
Proof.
  intros Hwf Hlen Hfirst Hzero Hfuel.
  destruct (first_true_spec _ _ Hfirst) as [Hr _].
  assert (Hpos : (0 < np_sum valid)%nat) by (apply np_sum_pos; eauto).
  destruct (far_points_returns g valid fuel Hwf Hlen Hpos Hfuel)
    as ([[[[b a] p] d] ds] & q & Hfar).
  destruct (far_points_run fuel g valid b a p d ds q Hwf Hfar) as (Hst & _).
  destruct (far_state_root _ _ _ _ _ _ _ Hst) as [Hvb Hb].
  assert (Hnone : ds = None).
  { destruct Hst as (Ha & Hva & [(_ & -> & _) |
                                 (raw & p' & src & dc & Hd & _ & _ & Hm & Hget & _ & _ & _ & Hp)]);
      [reflexivity | exfalso].
    destruct (dijkstra_contract Hwf Hd) as [C _].
    simpl in C. rewrite (norm_index_nonneg _ (proj1 Hvb)) in C.
    destruct (Hzero _ Hb) as [(s & [<- | []] & Wb) _].
    destruct (Hzero _ Hva) as [(s & [<- | []] & Wa) _].
    pose proof (walk_trans g _ _ _ _ _ (walk_sym g _ _ _ Hwf Wb) Wa) as W.
    destruct (contract_reaches _ _ _ Hwf C (or_introl eq_refl) W eq_refl) as (d0 & Hd0 & Hle & _).
    destruct (field_cells Hwf C _ _ Hd0) as [E | (d1 & E & Hge)]; [discriminate |].
    injection E as <-.
    rewrite np_get_nonneg in Hget by (destruct Ha; lia).
    rewrite (masked_valid_cell _ _ _ _ Hm Hva), Hd0 in Hget. injection Hget as <-.
    apply flt_Fin in Hp. lia. }
  subst ds.
  destruct (clear_at_runs valid b) as [valid' Hclr]; [rewrite Hlen; exact Hvb |].
  assert (Hn : n_vertices g = shape0 g).
  { unfold n_vertices. rewrite <- (wf_csgraph_square g Hwf). apply Nat.max_id. }
  exists (q + 0 + (0 + 0))%nat.
  unfold find_neuron_root. cbv zeta. rewrite Hn, Hlen, Nat.eqb_refl.
  simpl negb. cbv iota. rewrite Hfar. cbn [bind ret]. rewrite Hclr. reflexivity.
Qed.

Lemma path_soma_run :
  find_neuron_root 4 path_graph_3 (Some [true; true; true]) (Some [false; true; true])
    (Some [Fin 5; Fin 3; Fin 1])
  = (Ok (2, [Fin 2; Fin 1; Fin 0], Some [1; 2; -9999], [true; false; false]), 1%nat).
Proof. vm_compute. reflexivity. Qed.

Lemma find_neuron_root_soma_witness :
  vertex path_graph_3 2 /\
  nth_error [false; true; true] (Z.to_nat 2) = Some true /\
  nth_error [true; true; true] (Z.to_nat 2) = Some true /\
  (exists dr, nth_error [Fin 5; Fin 3; Fin 1] (Z.to_nat 2) = Some dr /\
              forall j dj, nth_error [false; true; true] j = Some true ->
                           nth_error [true; true; true] j = Some true ->
                           nth_error [Fin 5; Fin 3; Fin 1] j = Some dj -> isnan dj = false ->
                           fle (if isnan dr then PInf else dr) dj = true) /\
  (exists p src, Some [1; 2; -9999] = Some p /\
                 dijkstra path_graph_3 [2] PInf
                 = (Ok ([Fin 2; Fin 1; Fin 0], p, src), 1%nat)) /\
  length [true; false; false] = shape0 path_graph_3 /\
  (forall i, nth_error [true; false; false] i = Some true <->
             nth_error [true; true; true] i = Some true /\
             nth_error [false; true; true] i = Some false) /\
  (forall i, nth_error [true; false; false] i = Some true ->
             exists l, walk path_graph_3 (Z.to_nat 2) i l).
Proof.
  exact (find_neuron_root_soma 4 path_graph_3 [true; true; true] [false; true; true]
           [Fin 5; Fin 3; Fin 1] 2 [Fin 2; Fin 1; Fin 0] (Some [1; 2; -9999])
           [true; false; false] 1 1 eq_refl eq_refl eq_refl path_soma_run).
Defined.

Lemma one_valid_zero :
  forall v, nth_error [false; true; false] v = Some true -> shortest path_graph_3 [1%nat] v 0.
Proof.
  intros v Hv. destruct v as [| [| [| v]]]; try discriminate.
  - split.
    + exists 1%nat. split; [left; reflexivity |]. apply walk_here. simpl. lia.
    + intros s l [<- | []] Hw. destruct (walk_range (g := path_graph_3) eq_refl Hw) as (_ & _ & H).
      exact H.
  - destruct v; discriminate.
Qed.

Lemma find_neuron_root_single_witness :
  exists q, find_neuron_root 4 path_graph_3 (Some [false; true; false]) None None
            = (Raise TypeError, q).
Proof.
  exact (find_neuron_root_single 4 path_graph_3 [false; true; false] 1 None
           eq_refl eq_refl eq_refl one_valid_zero (le_n 4)).
Defined.

(** ** Rounding leaves small integers alone *)

Lemma round64_small (z : Z) : Z.abs z < 2 ^ 53 -> round64 z = Fin z.
Proof.
  intros H. unfold round64. cbv zeta.
  destruct (Z.ltb_spec (Z.abs z) (2 ^ 53)) as [_ | Hge]; [reflexivity | lia].
Qed.

Lemma fadd_small (a b : Z) : Z.abs (a + b) < 2 ^ 53 -> B64.fadd (Fin a) (Fin b) = Fin (a + b).
Proof. intros H. simpl. apply round64_small. exact H. Qed.

Lemma fsub_in_range (x y : float64) :
  in_range x = true -> in_range y = true -> B64.fsub x y = fsub x y.
Proof.
  destruct x as [a | | |], y as [b | | |]; simpl; intros Hx Hy; try reflexivity.
  apply round64_small. apply Z.ltb_lt in Hx, Hy.
  change (2 ^ 52) with 4503599627370496 in Hx, Hy.
  change (2 ^ 53) with 9007199254740992. lia.
Qed.

(** ** Weights *)

Lemma max_weight_nonneg (g : csgraph) : 0 <= max_weight g.
Proof.
  unfold max_weight. induction (entries g) as [| e es IH]; simpl; lia.
Qed.

Lemma max_weight_entry (g : csgraph) (e : nat * nat * N) :
  In e (entries g) -> Z.of_N (snd e) <= max_weight g.
Proof.
  unfold max_weight. induction (entries g) as [| e' es IH]; simpl; [tauto |].
  intros [-> | H]; [lia |]. specialize (IH H). lia.
Qed.

Lemma max_weight_neighbor (g : csgraph) (u v : nat) (w : N) :
  In (v, w) (neighbors g u) -> Z.of_N w <= max_weight g.
Proof.
  intros H. apply neighbors_spec in H.
  destruct H as [H | H]; apply max_weight_entry in H; exact H.
Qed.

Lemma small_weights_bound (g : csgraph) (k : nat) :
  small_weights g = true -> (k <= shape0 g)%nat ->
  Z.of_nat k * max_weight g < 2 ^ 52.
Proof.
  unfold small_weights. intros H Hk. apply Z.ltb_lt in H.
  pose proof (max_weight_nonneg g). nia.
Qed.

(** ** The binary64 search follows the exact search *)

Lemma sim_touch (nd64 : B64.nodes) (nd : nodes) (v : nat) (d p s : Z) :
  sim nd64 nd -> sim (B64.touch nd64 v (Fin d) p s) (touch nd v d p s).
Proof.
  intros H x. simpl. destruct (Nat.eqb x v); [auto | apply H].
Qed.

Lemma scan_edge_sim (limit : float64) (scanned : list nat) (u : nat) (du su : Z)
  (nd64 : B64.nodes) (nd : nodes) (e : nat * N) (b : Z) :
  sim nd64 nd -> bounded b nd -> 0 <= du -> du + Z.of_N (snd e) <= b -> b < 2 ^ 53 ->
  sim (B64.scan_edge limit scanned u (Fin du) su nd64 e) (scan_edge limit scanned u du su nd e) /\
  bounded b (scan_edge limit scanned u du su nd e).
Proof.
  intros Hs Hb Hdu Hw Hlt. destruct e as [v w]. simpl in Hw.
  unfold B64.scan_edge, scan_edge.
  destruct (is_scanned scanned v); [split; assumption |]. cbv zeta.
  pose proof (N2Z.is_nonneg w) as Hw0.
  rewrite (round64_small (Z.of_N w)) by lia.
  rewrite fadd_small by lia.
  destruct (fle (Fin (du + Z.of_N w)) limit); [| split; assumption].
  destruct (Hs v) as [Hv _]. rewrite Hv.
  assert (Ht : bounded b (touch nd v (du + Z.of_N w) (Z.of_nat u) su)).
  { intros x d. simpl. destruct (Nat.eqb x v); [| apply Hb].
    intros E. inversion E. lia. }
  destruct (val nd v) as [dv |]; simpl.
  - destruct (du + Z.of_N w <? dv); [| split; assumption].
    split; [apply sim_touch; exact Hs | exact Ht].
  - split; [apply sim_touch; exact Hs | exact Ht].
Qed.

Lemma scan_fold_sim (limit : float64) (scanned : list nat) (u : nat) (du su : Z) (b m : Z) :
  0 <= du -> du + m <= b -> b < 2 ^ 53 ->
  forall es nd64 nd,
    (forall e, In e es -> Z.of_N (snd e) <= m) ->
    sim nd64 nd -> bounded b nd ->
    sim (fold_left (B64.scan_edge limit scanned u (Fin du) su) es nd64)
        (fold_left (scan_edge limit scanned u du su) es nd) /\
    bounded b (fold_left (scan_edge limit scanned u du su) es nd).
Proof.
  intros Hdu Hm Hlt. induction es as [| e es IH]; intros nd64 nd Hes Hs Hb; simpl.
  - split; assumption.
  - assert (He : du + Z.of_N (snd e) <= b).
    { specialize (Hes e (or_introl eq_refl)). lia. }
    destruct (scan_edge_sim limit scanned u du su nd64 nd e b Hs Hb Hdu He Hlt) as [Hs' Hb'].
    apply IH; [intros e' He'; apply Hes; right; exact He' | exact Hs' | exact Hb'].
Qed.

Lemma min_node_sim (vals64 : nat -> option float64) (vals : nat -> option Z) :
  (forall v, vals64 v = option_map Fin (vals v)) ->
  forall cands best,
    B64.min_node vals64 cands (option_map to64 best)
    = option_map to64 (min_node vals cands best).
Proof.
  intros Hv. induction cands as [| v cs IH]; intros best; simpl; [reflexivity |].
  rewrite Hv. destruct (vals v) as [d |]; simpl; [| apply IH].
  destruct best as [[b bd] |]; simpl.
  - destruct (d <? bd); [apply (IH (Some (v, d))) | apply (IH (Some (b, bd)))].
  - apply (IH (Some (v, d))).
Qed.

Lemma remove_min_sim (n : nat) (scanned : list nat) (nd64 : B64.nodes) (nd : nodes) :
  sim nd64 nd ->
  B64.remove_min n scanned nd64 = option_map to64 (remove_min n scanned nd).
Proof.
  intros Hs. unfold B64.remove_min, remove_min.
  apply (min_node_sim (B64.val nd64) (val nd) (fun v => proj1 (Hs v)) _ None).
Qed.

Lemma bounded_mono (b b' : Z) (nd : nodes) : b <= b' -> bounded b nd -> bounded b' nd.
Proof. intros Hle H v d E. specialize (H v d E). lia. Qed.

Lemma dijkstra_loop_sim (g : csgraph) (limit : float64) :
  small_weights g = true ->
  forall fuel scanned nd64 nd,
    sim nd64 nd ->
    bounded (Z.of_nat (length scanned) * max_weight g) nd ->
    (length scanned + fuel <= shape0 g)%nat ->
    sim (snd (B64.dijkstra_loop fuel g limit scanned nd64))
        (snd (dijkstra_loop fuel g limit scanned nd)) /\
    bounded (Z.of_nat (shape0 g) * max_weight g) (snd (dijkstra_loop fuel g limit scanned nd)).
Proof.
  intros Hsmall. pose proof (max_weight_nonneg g) as Hm.
  induction fuel as [| fuel IH]; intros scanned nd64 nd Hs Hb Hlen.
  - simpl. split; [exact Hs |]. eapply bounded_mono; [| exact Hb]. nia.
  - simpl. rewrite (remove_min_sim _ _ _ _ Hs).
    destruct (remove_min (shape0 g) scanned nd) as [[u du] |] eqn:Hrm; simpl.
    + destruct (remove_min_some Hrm) as [_ [_ [Hu _]]].
      destruct (Hb u du Hu) as [Hdu0 Hdu].
      destruct (Hs u) as [_ [_ Hsrc]]. rewrite Hsrc.
      assert (Hk : Z.of_nat (length (u :: scanned)) * max_weight g < 2 ^ 52).
      { apply small_weights_bound; [exact Hsmall | simpl; lia]. }
      destruct (scan_fold_sim limit (u :: scanned) u du (source nd u)
                  (Z.of_nat (length (u :: scanned)) * max_weight g) (max_weight g))
        with (es := neighbors g u) (nd64 := nd64) (nd := nd) as [Hs' Hb'].
      * exact Hdu0.
      * simpl length. rewrite Nat2Z.inj_succ. lia.
      * change (2 ^ 52) with 4503599627370496 in Hk.
        change (2 ^ 53) with 9007199254740992. lia.
      * intros [v w] He. simpl. eapply max_weight_neighbor. exact He.
      * exact Hs.
      * eapply bounded_mono; [| exact Hb]. simpl length. rewrite Nat2Z.inj_succ. lia.
      * apply IH; [exact Hs' | exact Hb' | simpl; lia].
    + split; [exact Hs |]. eapply bounded_mono; [| exact Hb]. nia.
Qed.

Lemma sim_init (srcs : list nat) : sim (B64.init_nodes srcs) (init_nodes srcs).
Proof.
  intros v. simpl. destruct (existsb (Nat.eqb v) srcs); auto.
Qed.

Lemma bounded_init (srcs : list nat) : bounded 0 (init_nodes srcs).
Proof.
  intros v d. simpl. destruct (existsb (Nat.eqb v) srcs); [| discriminate].
  intros E. inversion E. lia.
Qed.

Lemma dijkstra_arrays_b64 (g : csgraph) (srcs : list nat) (limit : float64) :
  small_weights g = true ->
  B64.dijkstra_arrays g srcs limit = dijkstra_arrays g srcs limit.
Proof.
  intros Hsmall. unfold B64.dijkstra_arrays, dijkstra_arrays. cbv zeta.
  destruct (dijkstra_loop_sim g limit Hsmall (shape0 g) [] (B64.init_nodes srcs)
              (init_nodes srcs) (sim_init srcs)) as [Hs _].
  { simpl. apply bounded_init. }
  { simpl. lia. }
  f_equal; [f_equal |]; apply map_ext; intros v; destruct (Hs v) as [Hv [Hp Hsrc]]; auto.
  rewrite Hv. destruct (val _ v); reflexivity.
Qed.

(** On a graph with small weights the binary64 search and the exact
    search return the same arrays. *)
Lemma dijkstra_b64 (g : csgraph) (indices : list Z) (limit : float64) :
  small_weights g = true -> B64.dijkstra g indices limit = dijkstra g indices limit.
Proof.
  intros Hsmall. unfold B64.dijkstra, dijkstra.
  rewrite dijkstra_arrays_b64 by exact Hsmall. reflexivity.
Qed.

(** The distances of such a search need no rounding when subtracted. *)
Lemma dijkstra_arrays_in_range (g : csgraph) (srcs : list nat) (limit : float64) :
  small_weights g = true ->
  forall x, In x (fst (fst (dijkstra_arrays g srcs limit))) ->
            x = PInf \/ exists d, x = Fin d /\ 0 <= d < 2 ^ 52.
Proof.
  intros Hsmall x Hx. unfold dijkstra_arrays in Hx. cbv zeta in Hx. cbn [fst snd] in Hx.
  apply in_map_iff in Hx. destruct Hx as [v [Hv _]].
  destruct (dijkstra_loop_sim g limit Hsmall (shape0 g) [] (B64.init_nodes srcs)
              (init_nodes srcs) (sim_init srcs)) as [_ Hb].
  { simpl. apply bounded_init. }
  { simpl. lia. }
  destruct (val _ v) as [d |] eqn:E; simpl in Hv; subst x; [| left; reflexivity].
  right. exists d. split; [reflexivity |].
  specialize (Hb v d E).
  pose proof (small_weights_bound g (shape0 g) Hsmall (Nat.le_refl _)). lia.
Qed.

Lemma dijkstra_in_range (g : csgraph) (indices : list Z) (limit : float64)
  (ds : list float64) (p s : list Z) (q : nat) :
  small_weights g = true ->
  dijkstra g indices limit = (Ok (ds, p, s), q) ->
  forall x, In x ds -> x = PInf \/ exists d, x = Fin d /\ 0 <= d < 2 ^ 52.
Proof.
  intros Hsmall H. apply dijkstra_inv in H. destruct H as (_ & _ & _ & _ & Hr).
  intros x Hx.
  apply (dijkstra_arrays_in_range g
           (map (fun i => Z.to_nat (norm_index (shape0 g) i)) indices) limit Hsmall).
  rewrite <- Hr. exact Hx.
Qed.

Lemma in_range_cells (l : list float64) :
  (forall x, In x l -> x = PInf \/ exists d, x = Fin d /\ 0 <= d < 2 ^ 52) ->
  Forall (fun x => in_range x = true) l.
Proof.
  intros H. apply Forall_forall. intros x Hx.
  destruct (H x Hx) as [-> | [d [-> Hd]]]; [reflexivity |].
  simpl. apply Z.ltb_lt. lia.
Qed.

(** ** Where the binary64 functions and the exact functions agree *)

Lemma bind_ext_ok {A B : Type} (m : M A) (f h : A -> M B) :
  (forall a q, m = (Ok a, q) -> f a = h a) -> bind m f = bind m h.
Proof.
  intros H. destruct m as [[a | e |] q]; simpl; [rewrite (H a q eq_refl) | |]; reflexivity.
Qed.

Lemma np_get_In {A : Type} (l : list A) (i : Z) (a : A) : np_get l i = Some a -> In a l.
Proof.
  unfold np_get. destruct (np_index (length l) i) as [k |]; [| discriminate].
  apply nth_error_In.
Qed.

Lemma getitem_In {A : Type} (l : list A) (i : Z) (a : A) (q : nat) :
  getitem l i = (Ok a, q) -> In a l.
Proof. intros H. apply getitem_inv in H. destruct H as [H _]. eapply np_get_In. exact H. Qed.

Lemma far_points_loop_b64 (g : csgraph) (valid : list bool) :
  small_weights g = true ->
  forall fuel b c p mx dr,
    B64.far_points_loop fuel g valid b c p mx dr = far_points_loop fuel g valid b c p mx dr.
Proof.
  intros Hs. induction fuel as [| fuel IH]; intros b c p mx dr; simpl; [reflexivity |].
  rewrite dijkstra_b64 by exact Hs.
  apply bind_ext_ok. intros [[dc pn] s] q _.
  apply bind_ext_ok. intros dc' q1 _.
  apply bind_ext_ok. intros far q2 _.
  apply bind_ext_ok. intros cd q3 _.
  destruct (flt mx cd); [apply IH | reflexivity].
Qed.

Lemma find_far_points_graph_b64 (fuel : nat) (g : csgraph) (valid : option (list bool)) :
  small_weights g = true ->
  B64.find_far_points_graph fuel g valid = find_far_points_graph fuel g valid.
Proof.
  intros Hs. unfold B64.find_far_points_graph, find_far_points_graph.
  apply bind_ext_ok. intros [v c] q _. apply far_points_loop_b64. exact Hs.
Qed.

Lemma find_graph_root_b64 (fuel : nat) (g : csgraph) (valid : option (list bool)) :
  small_weights g = true ->
  B64.find_graph_root fuel g valid = find_graph_root fuel g valid.
Proof.
  intros Hs. unfold B64.find_graph_root, find_graph_root.
  apply bind_ext_ok. intros v q _.
  rewrite find_far_points_graph_b64 by exact Hs. reflexivity.
Qed.

Lemma teasar_iteration_b64 (fuel : nat) (g : csgraph) (rds : list float64)
  (rp : option (list Z)) (inv_d : float64) (st : teasar_state) :
  small_weights g = true -> Forall (fun x => in_range x = true) rds ->
  B64.teasar_iteration fuel g rds rp inv_d st = teasar_iteration fuel g rds rp inv_d st.
Proof.
  intros Hs Hr. unfold B64.teasar_iteration, teasar_iteration.
  rewrite Forall_forall in Hr.
  apply bind_ext_ok. intros target q1 _.
  apply bind_ext_ok. intros mb q2 _.
  apply bind_ext_ok. intros dt q3 Hdt.
  apply bind_ext_ok. intros db q4 Hdb.
  cbv zeta.
  rewrite fsub_in_range by (apply Hr; eapply getitem_In; eassumption).
  rewrite dijkstra_b64 by exact Hs.
  apply bind_ext_ok. intros [[ds pt] s] q5 _.
  apply bind_ext_ok. intros dv q6 _.
  apply bind_ext_ok. intros mn q7 _.
  apply bind_ext_ok. intros br q8 _.
  apply bind_ext_ok. intros path q9 _.
  apply bind_ext_ok. intros len q10 _.
  destruct (isinf len); [reflexivity |].
  rewrite dijkstra_b64 by exact Hs. reflexivity.
Qed.

Lemma teasar_loop_b64 (inner : nat) (g : csgraph) (rds : list float64)
  (rp : option (list Z)) (inv_d : float64) :
  small_weights g = true -> Forall (fun x => in_range x = true) rds ->
  forall fuel st,
    B64.teasar_loop fuel inner g rds rp inv_d st = teasar_loop fuel inner g rds rp inv_d st.
Proof.
  intros Hs Hr. induction fuel as [| fuel IH]; intros st; simpl; [reflexivity |].
  destruct (Nat.ltb 0 (np_sum (valid st))); [| reflexivity].
  rewrite teasar_iteration_b64 by assumption.
  apply bind_ext_ok. intros st' q _. apply IH.
Qed.

Lemma reachable_b64 (fuel : nat) (g : csgraph) (rds : list float64)
  (rp : option (list Z)) (inv_d : float64) (st0 st : teasar_state) :
  small_weights g = true -> Forall (fun x => in_range x = true) rds ->
  B64.reachable fuel g rds rp inv_d st0 st -> reachable fuel g rds rp inv_d st0 st.
Proof.
  intros Hs Hr H. induction H as [| st st' q _ IH Hpos Hit].
  - apply reach_init.
  - rewrite teasar_iteration_b64 in Hit by assumption.
    eapply reach_step; eassumption.
Qed.

Lemma iteration_of_b64 (fuel : nat) (g : csgraph) (rds : list float64)
  (rp : option (list Z)) (inv_d : float64) (st st' : teasar_state) (tr : iter_trace) :
  small_weights g = true -> Forall (fun x => in_range x = true) rds ->
  B64.iteration_of fuel g rds rp inv_d st tr st' -> iteration_of fuel g rds rp inv_d st tr st'.
Proof.
  intros Hs Hr. unfold B64.iteration_of, iteration_of. rewrite Forall_forall in Hr.
  intros (H1 & H2 & (dt & db & Hdt & Hdb & Hl) & H4 & H).
  rewrite fsub_in_range in Hl by (apply Hr; eapply np_get_In; eassumption).
  rewrite !dijkstra_b64 in * by exact Hs.
  split; [exact H1 |]. split; [exact H2 |].
  split; [exists dt, db; auto |]. split; [exact H4 | exact H].
Qed.

(** ** Distance arrays that need no rounding *)

Lemma masked_in_range (raw dc : list float64) (mask : list bool) :
  Forall (fun x => in_range x = true) raw ->
  mask_assign raw mask (Fin (-1)) = Some dc ->
  Forall (fun x => in_range x = true) dc.
Proof.
  intros Hr H. destruct (mask_assign_spec H) as (_ & _ & Hc).
  rewrite Forall_forall in *. intros x Hx.
  apply In_nth_error in Hx. destruct Hx as [i Hi]. rewrite Hc in Hi.
  destruct (nth_error raw i) as [y |] eqn:Ey; [| discriminate].
  destruct (nth_error mask i) as [[|] |]; inversion Hi; subst; [reflexivity |].
  apply Hr. eapply nth_error_In. exact Ey.
Qed.

Lemma dijkstra_range (g : csgraph) (indices : list Z) (limit : float64)
  (ds : list float64) (p s : list Z) (q : nat) :
  small_weights g = true ->
  dijkstra g indices limit = (Ok (ds, p, s), q) ->
  Forall (fun x => in_range x = true) ds.
Proof.
  intros Hs H. apply in_range_cells. eapply dijkstra_in_range; eassumption.
Qed.

Lemma far_points_loop_range (g : csgraph) (valid : list bool) :
  small_weights g = true ->
  forall fuel b c p mx dr b' c' p' mx' dr' q,
    (forall dc, dr = Some dc -> Forall (fun x => in_range x = true) dc) ->
    far_points_loop fuel g valid b c p mx dr = (Ok (b', c', p', mx', dr'), q) ->
    forall dc, dr' = Some dc -> Forall (fun x => in_range x = true) dc.
Proof.
  intros Hs. induction fuel as [| fuel IH]; intros b c p mx dr b' c' p' mx' dr' q Hdr H;
    [discriminate |].
  simpl in H.
  apply bind_inv in H. destruct H as ([[raw pn] s] & q1 & q2 & Hd & H & _).
  apply bind_inv in H. destruct H as (dc1 & q3 & q4 & Hm & H & _).
  apply lift_inv in Hm. destruct Hm as [Hm _].
  apply bind_inv in H. destruct H as (far & q5 & q6 & _ & H & _).
  apply bind_inv in H. destruct H as (cd & q7 & q8 & _ & H & _).
  destruct (flt mx cd).
  - eapply IH; [| exact H]. intros dc E. inversion E. subst dc.
    eapply masked_in_range; [| exact Hm]. eapply dijkstra_range; eassumption.
  - apply ret_inv in H. destruct H as [E _]. inversion E. subst. exact Hdr.
Qed.

Lemma find_graph_root_range (fuel : nat) (g : csgraph) (valid : option (list bool))
  (r : Z) (p : option (list Z)) (d : list float64) (v : list bool) (q : nat) :
  small_weights g = true ->
  find_graph_root fuel g valid = (Ok (r, p, Some d, v), q) ->
  Forall (fun x => in_range x = true) d.
Proof.
  intros Hs H. unfold find_graph_root in H.
  apply bind_inv in H. destruct H as (v0 & q1 & q2 & _ & H & _).
  apply bind_inv in H. destruct H as ([[[[b a] p0] mx] dr] & q3 & q4 & Hf & H & _).
  apply ret_inv in H. destruct H as [E _]. inversion E. subst.
  unfold find_far_points_graph in Hf.
  apply bind_inv in Hf. destruct Hf as ([v1 c] & q5 & q6 & _ & Hf & _).
  eapply (far_points_loop_range g v1 Hs); [| exact Hf | reflexivity]. discriminate.
Qed.

(** ** The component skeletonizer *)

Lemma teasar_setup_b64 (g : csgraph) (root : option Z) (valid : option (list bool))
  (root_ds : option (list float64)) (rp : option (list Z)) (f64 f : root_function)
  (return_map : bool) :
  small_weights g = true ->
  (root = None -> f64 g valid = f g valid) ->
  B64.teasar_setup g root valid root_ds rp f64 return_map
  = teasar_setup g root valid root_ds rp f return_map.
Proof.
  intros Hs Hf. unfold B64.teasar_setup, teasar_setup. cbv zeta.
  assert (E : match root with
              | Some root0 => ret (root0, rp, root_ds, valid)
              | None => '(root0, root_pred, root_ds0, valid0) <- f64 g valid ;;
                        ret (root0, root_pred, root_ds0, Some valid0)
              end
              = match root with
                | Some root0 => ret (root0, rp, root_ds, valid)
                | None => '(root0, root_pred, root_ds0, valid0) <- f g valid ;;
                          ret (root0, root_pred, root_ds0, Some valid0)
                end).
  { destruct root; [reflexivity |]. rewrite Hf by reflexivity. reflexivity. }
  rewrite E. clear E.
  apply bind_ext_ok. intros [[[r p] d] v] q _.
  destruct d; [reflexivity |]. rewrite dijkstra_b64 by exact Hs. reflexivity.
Qed.

Lemma teasar_setup_range (g : csgraph) (root : option Z) (valid : option (list bool))
  (root_ds : option (list float64)) (rp : option (list Z)) (f : root_function)
  (return_map : bool) (rds : list float64) (rp' : option (list Z)) (st : teasar_state)
  (q : nat) :
  small_weights g = true ->
  (forall r0 r, root = Some r0 -> root_ds = Some r -> Forall (fun x => in_range x = true) r) ->
  (root = None -> forall r p d v q, f g valid = (Ok (r, p, Some d, v), q) ->
                                    Forall (fun x => in_range x = true) d) ->
  teasar_setup g root valid root_ds rp f return_map = (Ok (rds, rp', st), q) ->
  Forall (fun x => in_range x = true) rds.
Proof.
  intros Hs Hr Hfr H. unfold teasar_setup in H. cbv zeta in H.
  apply bind_inv in H. destruct H as ([[[r p] d] v] & q1 & q2 & Hsel & H & _).
  assert (Hd : forall d0, d = Some d0 -> Forall (fun x => in_range x = true) d0).
  { intros d0 ->. destruct root as [r0 |].
    - apply ret_inv in Hsel. destruct Hsel as [E _]. inversion E. subst. eapply Hr; reflexivity.
    - apply bind_inv in Hsel. destruct Hsel as ([[[r1 p1] d1] v1] & q3 & q4 & H1 & H2 & _).
      apply ret_inv in H2. destruct H2 as [E _]. inversion E. subst.
      eapply Hfr; [reflexivity | exact H1]. }
  apply bind_inv in H. destruct H as ([rds1 rp1] & q5 & q6 & Hds & H & _).
  assert (Hrds1 : Forall (fun x => in_range x = true) rds1).
  { destruct d as [d0 |].
    - apply ret_inv in Hds. destruct Hds as [E _]. inversion E. subst. apply Hd. reflexivity.
    - apply bind_inv in Hds. destruct Hds as ([[ds0 p0] s0] & q7 & q8 & Hdij & H2 & _).
      apply ret_inv in H2. destruct H2 as [E _]. inversion E. subst.
      eapply dijkstra_range; eassumption. }
  apply bind_inv in H. destruct H as (v1 & q9 & q10 & _ & H & _).
  apply bind_inv in H. destruct H as (unr & q11 & q12 & _ & H & _).
  destruct (negb (np_sum unr =? 0)%nat); [discriminate |].
  apply ret_inv in H. destruct H as [E _]. inversion E. subst. exact Hrds1.
Qed.

Lemma component_b64 (fuel : nat) (g : csgraph) (root : option Z) (valid : option (list bool))
  (root_ds : option (list float64)) (rp : option (list Z)) (f64 f : root_function)
  (inv_d : float64) (return_map : bool) :
  small_weights g = true ->
  (forall r0 r, root = Some r0 -> root_ds = Some r -> Forall (fun x => in_range x = true) r) ->
  (root = None -> f64 g valid = f g valid) ->
  (root = None -> forall r p d v q, f g valid = (Ok (r, p, Some d, v), q) ->
                                    Forall (fun x => in_range x = true) d) ->
  B64.graph_teasar_component fuel g root valid root_ds rp f64 inv_d return_map
  = graph_teasar_component fuel g root valid root_ds rp f inv_d return_map.
Proof.
  intros Hs Hr Hf Hfr. unfold B64.graph_teasar_component, graph_teasar_component.
  rewrite (teasar_setup_b64 g root valid root_ds rp f64 f return_map Hs Hf).
  apply bind_ext_ok. intros [[rds rp'] st] q Hsetup.
  rewrite teasar_loop_b64; [reflexivity | exact Hs |].
  eapply teasar_setup_range; eassumption.
Qed.

(** The two routes the theorems use: a root passed by the caller, and
    the default root function. *)
Lemma component_rooted_b64 (fuel : nat) (g : csgraph) (root : Z) (valid : option (list bool))
  (root_ds : option (list float64)) (rp : option (list Z)) (f64 f : root_function)
  (inv_d : float64) (return_map : bool) :
  small_weights g = true ->
  (forall r, root_ds = Some r -> Forall (fun x => in_range x = true) r) ->
  B64.graph_teasar_component fuel g (Some root) valid root_ds rp f64 inv_d return_map
  = graph_teasar_component fuel g (Some root) valid root_ds rp f inv_d return_map.
Proof.
  intros Hs Hr. apply component_b64; [exact Hs | intros r0 r _; apply Hr | discriminate | discriminate].
Qed.

Lemma component_default_b64 (fuel fuel' : nat) (g : csgraph) (root : option Z)
  (valid : option (list bool)) (root_ds : option (list float64)) (rp : option (list Z))
  (inv_d : float64) (return_map : bool) :
  small_weights g = true ->
  (forall r0 r, root = Some r0 -> root_ds = Some r -> Forall (fun x => in_range x = true) r) ->
  B64.graph_teasar_component fuel g root valid root_ds rp (B64.find_graph_root fuel')
    inv_d return_map
  = graph_teasar_component fuel g root valid root_ds rp (find_graph_root fuel')
      inv_d return_map.
Proof.
  intros Hs Hr. apply component_b64; [exact Hs | exact Hr | |].
  - intros _. apply find_graph_root_b64. exact Hs.
  - intros _ r p d v q H. eapply find_graph_root_range; eassumption.
Qed.

(** ** The driver *)

Lemma graph_teasar_body_b64 (fuel fuel' : nat) (g : csgraph) (root_index : option Z)
  (inv_d : float64) (thresh : Z) (return_map : bool) (labels counts : list nat)
  (acc : teasar_output) (k : nat) :
  small_weights g = true ->
  B64.graph_teasar_body fuel g root_index (B64.find_graph_root fuel') inv_d thresh
    return_map labels counts acc k
  = graph_teasar_body fuel g root_index (find_graph_root fuel') inv_d thresh
      return_map labels counts acc k.
Proof.
  intros Hs. unfold B64.graph_teasar_body, graph_teasar_body.
  destruct acc as [[[all_paths roots] tot] mesh].
  destruct (Z.of_nat (nth k counts O) >? thresh); [| reflexivity]. cbv zeta.
  rewrite !find_graph_root_b64 by exact Hs.
  assert (E : match root_index with
              | Some root =>
                  l <- getitem labels root ;;
                  if Nat.eqb l k
                  then '(root_ds, pred, _) <- B64.dijkstra g [root] PInf ;;
                       ret (root, Some pred, Some root_ds, map (Nat.eqb k) labels)
                  else find_graph_root fuel' g (Some (map (Nat.eqb k) labels))
              | None => find_graph_root fuel' g (Some (map (Nat.eqb k) labels))
              end
              = match root_index with
                | Some root =>
                    l <- getitem labels root ;;
                    if Nat.eqb l k
                    then '(root_ds, pred, _) <- dijkstra g [root] PInf ;;
                         ret (root, Some pred, Some root_ds, map (Nat.eqb k) labels)
                    else find_graph_root fuel' g (Some (map (Nat.eqb k) labels))
                | None => find_graph_root fuel' g (Some (map (Nat.eqb k) labels))
                end).
  { destruct root_index; [| reflexivity].
    apply bind_ext_ok. intros l q _. rewrite dijkstra_b64 by exact Hs. reflexivity. }
  rewrite E. clear E.
  apply bind_ext_ok. intros [[[root pred] rds] valid] q Hsel.
  apply bind_ext_ok. intros valid' q1 _.
  rewrite (component_rooted_b64 fuel g root (Some valid') rds pred
             (B64.find_graph_root fuel) (find_graph_root fuel) inv_d return_map Hs);
    [reflexivity |].
  intros r ->. destruct root_index as [r0 |].
  - apply bind_inv in Hsel. destruct Hsel as (l & q2 & q3 & _ & Hsel & _).
    destruct (Nat.eqb l k).
    + apply bind_inv in Hsel. destruct Hsel as ([[ds p] s] & q4 & q5 & Hd & H & _).
      apply ret_inv in H. destruct H as [E _]. inversion E. subst.
      eapply dijkstra_range; eassumption.
    + eapply find_graph_root_range; eassumption.
  - eapply find_graph_root_range; eassumption.
Qed.

Lemma graph_teasar_loop_b64 (fuel fuel' : nat) (g : csgraph) (root_index : option Z)
  (inv_d : float64) (thresh : Z) (return_map : bool) (labels counts : list nat) :
  small_weights g = true ->
  forall ks acc,
    B64.graph_teasar_loop fuel g root_index (B64.find_graph_root fuel') inv_d thresh
      return_map labels counts ks acc
    = graph_teasar_loop fuel g root_index (find_graph_root fuel') inv_d thresh
        return_map labels counts ks acc.
Proof.
  intros Hs. induction ks as [| k ks IH]; intros acc; simpl; [reflexivity |].
  rewrite graph_teasar_body_b64 by exact Hs.
  apply bind_ext_ok. intros acc' q _. apply IH.
Qed.

Lemma graph_teasar_b64 (fuel fuel' : nat) (g : csgraph) (root_index : option Z)
  (inv_d : float64) (thresh : Z) (return_map : bool) :
  small_weights g = true ->
  B64.graph_teasar fuel g root_index (B64.find_graph_root fuel') inv_d thresh return_map
  = graph_teasar fuel g root_index (find_graph_root fuel') inv_d thresh return_map.
Proof.
  intros Hs. unfold B64.graph_teasar, graph_teasar. cbv zeta.
  apply bind_ext_ok. intros labels q _. apply graph_teasar_loop_b64. exact Hs.
Qed.

(** ** The field of the root on a graph with small weights *)

Lemma contract_in_range (g : csgraph) (s : nat) (ds : list float64) (p src : list Z) :
  wf_csgraph g = true -> small_weights g = true -> (s < shape0 g)%nat ->
  oracle_contract g [s] PInf ds p src ->
  Forall (fun x => in_range x = true) ds.
Proof.
  intros Hwf Hsmall Hs C. apply in_range_cells. intros x Hx.
  apply In_nth_error in Hx. destruct Hx as [v Hv].
  destruct (oc_cell C _ _ Hv) as [-> | [d ->]]; [left; reflexivity |].
  right. exists d. split; [reflexivity |].
  destruct (oc_sound C _ _ Hv) as [Hsh _].
  assert (Hsrcs : forall x, In x [s] -> (x < shape0 g)%nat).
  { intros x [<- | []]. exact Hs. }
  pose proof (dijkstra_arrays_contract g [s] PInf Hwf Hsrcs) as C'.
  pose proof (oc_complete C' _ _ Hsh eq_refl) as Hc.
  apply nth_error_In in Hc.
  destruct (dijkstra_arrays_in_range g [s] PInf Hsmall _ Hc) as [E | [d' [E Hd']]];
    [discriminate |].
  inversion E. subst. exact Hd'.
Qed.

Lemma masked_field_range (rds rdm : list float64) :
  Forall (fun x => in_range x = true) rds -> masked_field rds rdm ->
  Forall (fun x => in_range x = true) rdm.
Proof.
  intros Hr [Hlen Hc]. rewrite Forall_forall in *. intros x Hx.
  apply In_nth_error in Hx. destruct Hx as [i Hi].
  assert (Hlt : (i < length rds)%nat).
  { rewrite <- Hlen. apply nth_error_Some. congruence. }
  destruct (nth_error rds i) as [y |] eqn:Ey; [| apply nth_error_None in Ey; lia].
  destruct (Hc i y Ey) as [E | [_ E]]; rewrite Hi in E; inversion E; subst.
  - apply Hr. eapply nth_error_In. exact Ey.
  - reflexivity.
Qed.

(** With positive weights only the root is at distance 0. *)
Lemma positive_field (g : csgraph) (root : Z) (valid0 : list bool)
  (rds : list float64) (rp : list Z) (inv_d : float64) :
  teasar_pre g root valid0 rds rp inv_d -> all_positive g = true ->
  nth_error valid0 (Z.to_nat root) = Some false ->
  forall i d, nth_error valid0 i = Some true -> nth_error rds i = Some (Fin d) -> 0 < d.
Proof.
  intros pre Hpos Hroot i d Hi Hd.
  pose proof (pre_wf pre) as Hwf. destruct (pre_field pre) as [src0 C0].
  destruct (field_cells Hwf C0 _ _ Hd) as [E | [d' [E Hd']]]; [discriminate |].
  inversion E. subst d'.
  destruct (Z.eq_dec d 0) as [-> | Hne]; [| lia].
  exfalso. destruct (oc_sound C0 _ _ Hd) as [[[s [Hs Hw]] _] _].
  destruct Hs as [<- | []].
  pose proof (walk_zero g _ _ _ Hwf Hpos Hw eq_refl) as E1. subst i. congruence.
Qed.

(** ** Distances with -1 in unreachable cells *)

Section Unmasked.

Variables (g : csgraph) (root : Z) (valid0 : list bool).
Variables (rds : list float64) (rp : list Z) (inv_d : float64).
Hypothesis pre : teasar_pre g root valid0 rds rp inv_d.
Variable rdm : list float64.
Hypothesis Hm : masked_field rds rdm.

Lemma masked_len : length rdm = shape0 g.
Proof.
  destruct (pre_field pre) as [src0 C0]. destruct Hm as [Hl _].
  rewrite Hl. exact (oc_len_ds C0).
Qed.

Lemma masked_agree (i : nat) (d : Z) :
  nth_error rds i = Some (Fin d) -> nth_error rdm i = Some (Fin d).
Proof.
  intros H. destruct Hm as [_ Hc]. destruct (Hc i _ H) as [E | [E _]]; [exact E | discriminate].
Qed.

Lemma masked_cells (i : nat) (x : float64) :
  nth_error rdm i = Some x -> x = PInf \/ exists d, x = Fin d.
Proof.
  intros Hi. destruct (pre_field pre) as [src0 C0]. destruct Hm as [Hlen Hc].
  assert (Hlt : (i < length rds)%nat).
  { rewrite <- Hlen. apply nth_error_Some. congruence. }
  destruct (nth_error rds i) as [y |] eqn:Ey; [| apply nth_error_None in Ey; lia].
  destruct (Hc i y Ey) as [E | [_ E]]; rewrite Hi in E; inversion E; subst.
  - exact (oc_cell C0 _ _ Ey).
  - right. eauto.
Qed.

(** The two cells an iteration reads are cells of reached vertices. *)
Lemma masked_reads (fuel : nat) (st : teasar_state) (t mb : Z) (q1 q2 : nat) :
  good_state g root rds st ->
  select_target rds (valid st) = (Ok t, q1) ->
  find_max_branch fuel (Some rp) (visited_nodes st) t = (Ok mb, q2) ->
  np_get rdm t = np_get rds t /\ np_get rdm mb = np_get rds mb.
Proof.
  intros G Hsel Hmb.
  pose proof (pre_wf pre) as Hwf. destruct (pre_field pre) as [src0 C0].
  destruct (pre_root pre) as [Hr0 Hrn].
  destruct (select_target_inv Hsel) as (_ & prod & tn & dx & _ & _ & Ht & Hdx & Hinf).
  destruct (field_cells Hwf C0 _ _ Hdx) as [-> | [dt [-> Hdt0]]]; [discriminate |].
  destruct (find_max_branch_climbs Hmb) as [n Hclimb].
  assert (Hrootin : In (Z.of_nat (Z.to_nat root)) (visited_nodes st)).
  { rewrite Z2Nat.id by lia. exact (gs_root G). }
  assert (Hdt' : nth_error rds (Z.to_nat t) = Some (Fin dt)).
  { rewrite Ht, Nat2Z.id. exact Hdx. }
  destruct (climbs_bound C0 Hclimb Hrootin dt ltac:(lia) Hdt')
    as (Hb0 & Hbin & db & Hdb' & Hwalk).
  split.
  - rewrite Ht, !np_get_nat, Hdx. apply masked_agree. exact Hdx.
  - rewrite !np_get_nonneg by exact Hb0. rewrite Hdb'. apply masked_agree. exact Hdb'.
Qed.

Lemma teasar_iteration_unmask (fuel : nat) (st : teasar_state) :
  good_state g root rds st ->
  (exists i d, nth_error (valid st) i = Some true /\ nth_error rds i = Some (Fin d) /\ 0 < d) ->
  teasar_iteration fuel g rdm (Some rp) inv_d st
  = teasar_iteration fuel g rds (Some rp) inv_d st.
Proof.
  intros G Hex. unfold teasar_iteration.
  rewrite (select_target_masked g root valid0 rds rp inv_d pre rdm masked_len
             masked_agree masked_cells st G Hex).
  apply bind_ext_ok. intros t q1 Hsel.
  apply bind_ext_ok. intros mb q2 Hmb.
  destruct (masked_reads fuel st t mb q1 q2 G Hsel Hmb) as [E1 E2].
  unfold getitem. rewrite E1, E2. reflexivity.
Qed.

Lemma iteration_unmasked (fuel : nat) (st st' : teasar_state) (tr : iter_trace) :
  good_state g root rds st ->
  (exists i d, nth_error (valid st) i = Some true /\ nth_error rds i = Some (Fin d) /\ 0 < d) ->
  iteration_of fuel g rdm (Some rp) inv_d st tr st' ->
  iteration_of fuel g rds (Some rp) inv_d st tr st'.
Proof.
  intros G Hex (Hsel & Hmb & H3 & Hrest).
  rewrite (select_target_masked g root valid0 rds rp inv_d pre rdm masked_len
             masked_agree masked_cells st G Hex) in Hsel.
  destruct (masked_reads fuel st _ _ _ _ G Hsel Hmb) as [E1 E2].
  rewrite E1, E2 in H3. exact (conj Hsel (conj Hmb (conj H3 Hrest))).
Qed.

Hypothesis Hpos : forall i d, nth_error valid0 i = Some true ->
                              nth_error rds i = Some (Fin d) -> 0 < d.

Lemma valid_positive (fuel : nat) (return_map : bool) (st : teasar_state) :
  reachable fuel g rds (Some rp) inv_d
    (initial_state root valid0 (mesh_init g return_map)) st ->
  (0 < np_sum (valid st))%nat ->
  exists i d, nth_error (valid st) i = Some true /\ nth_error rds i = Some (Fin d) /\ 0 < d.
Proof.
  intros Hr Hp. apply np_sum_pos in Hp. destruct Hp as [i Hi].
  pose proof (reachable_good pre (good_init pre return_map) Hr) as G.
  destruct (gs_reach G i Hi) as [d Hd]. exists i, d. split; [exact Hi |].
  split; [exact Hd |]. apply (Hpos i d); [| exact Hd].
  exact (proj2 (reachable_monotone Hr) i Hi).
Qed.

Lemma reachable_unmask (fuel : nat) (return_map : bool) (st : teasar_state) :
  reachable fuel g rdm (Some rp) inv_d
    (initial_state root valid0 (mesh_init g return_map)) st ->
  reachable fuel g rds (Some rp) inv_d
    (initial_state root valid0 (mesh_init g return_map)) st.
Proof.
  intros H. induction H as [| st st' q _ IH Hp Hit]; [apply reach_init |].
  pose proof (reachable_good pre (good_init pre return_map) IH) as G.
  rewrite (teasar_iteration_unmask fuel st G (valid_positive fuel return_map st IH Hp)) in Hit.
  eapply reach_step; eassumption.
Qed.

End Unmasked.

(** ** Every route into the skeletonizer *)

Lemma setup_default_mask (g : csgraph) (r : Z) (i : nat) (root_ds : option (list float64))
  (rp : option (list Z)) (f : root_function) (return_map : bool) :
  np_index (n_vertices g) r = Some i ->
  teasar_setup g (Some r) None root_ds rp f return_map
  = teasar_setup g (Some r) (Some (all_but (n_vertices g) i)) root_ds rp f return_map.
Proof.
  intros Hi. unfold teasar_setup. cbv zeta. rewrite !bind_ret.
  apply bind_ext_ok. intros [rds' rp'] q _.
  rewrite Hi. cbn [lift]. rewrite bind_ret.
  unfold all_but. rewrite length_map, length_seq, Nat.eqb_refl. reflexivity.
Qed.

(** However the root and the mask are obtained, the call is a call with
    both of them passed. *)
Lemma component_rooted_form (fuel : nat) (g : csgraph) (root : option Z)
  (valid : option (list bool)) (root_ds : option (list float64))
  (rp : option (list Z)) (inv_d : float64) (return_map : bool)
  (ps : list (list Z)) (ls : list float64) (mp : option (list float64)) (q : nat) :
  wf_csgraph g = true ->
  (forall r, root = Some r -> vertex g r) ->
  graph_teasar_component fuel g root valid root_ds rp (find_graph_root fuel) inv_d return_map
  = (Ok (ps, ls, mp), q) ->
  exists root0 valid0 rds' rp' q',
    initial_mask g root valid valid0 /\ vertex g root0 /\
    (forall r, root = Some r -> root0 = r) /\
    graph_teasar_component fuel g (Some root0) (Some valid0) rds' rp'
      (find_graph_root fuel) inv_d return_map = (Ok (ps, ls, mp), q').
Proof.
  intros Hwf Hroot Hrun. destruct root as [r |].
  - specialize (Hroot r eq_refl). destruct valid as [v |].
    + exists r, v, root_ds, rp, q. split; [reflexivity |]. split; [exact Hroot |].
      split; [intros r0 E; inversion E; reflexivity | exact Hrun].
    + assert (Hn : n_vertices g = shape0 g).
      { unfold n_vertices. rewrite <- (wf_csgraph_square g Hwf). apply Nat.max_id. }
      assert (Hi : np_index (n_vertices g) r = Some (Z.to_nat r)).
      { apply np_index_vertex. rewrite Hn. exact Hroot. }
      unfold graph_teasar_component in Hrun.
      rewrite (setup_default_mask g r _ root_ds rp (find_graph_root fuel) return_map Hi)
        in Hrun.
      exists r, (all_but (n_vertices g) (Z.to_nat r)), root_ds, rp, q.
      split; [exists (Z.to_nat r); auto |]. split; [exact Hroot |].
      split; [intros r0 E; inversion E; reflexivity | exact Hrun].
  - destruct (find_graph_root fuel g valid) as [[[[[r p] d] v'] | e |] q1] eqn:Hfr.
    + rewrite (component_found_root fuel g valid root_ds rp (find_graph_root fuel)
                 inv_d return_map r p d v' q1 Hfr) in Hrun.
      destruct (graph_teasar_component fuel g (Some r) (Some v') d p
                  (find_graph_root fuel) inv_d return_map)
        as [[[[ps' ls'] mp'] | e |] k] eqn:Hc; try discriminate.
      injection Hrun as -> -> -> _.
      assert (Hmask : exists mask, initial_mask g None valid mask /\
                                   find_graph_root fuel g (Some mask) = (Ok (r, p, d, v'), q1)).
      { destruct valid as [v |].
        - exists v. split; [reflexivity | exact Hfr].
        - destruct (find_graph_root_default fuel g _ q1 Hwf Hfr) as (mask & Hs & Hfr').
          exists mask. split; [exact Hs | exact Hfr']. }
      destruct Hmask as (mask & Hmask & Hfr').
      destruct (find_graph_root_inv _ _ _ _ _ _ _ _ Hfr') as (-> & a & dd & Hfar).
      destruct (far_points_run fuel g mask r a p dd d q1 Hwf Hfar) as (Hst & _).
      destruct (far_state_root _ _ _ _ _ _ _ Hst) as [Hv _].
      exists r, mask, d, p, k. split; [exact Hmask |]. split; [exact Hv |].
      split; [discriminate | exact Hc].
    + exfalso. unfold graph_teasar_component, teasar_setup in Hrun. cbv zeta in Hrun.
      rewrite Hfr in Hrun. discriminate.
    + exfalso. unfold graph_teasar_component, teasar_setup in Hrun. cbv zeta in Hrun.
      rewrite Hfr in Hrun. discriminate.
Qed.

Lemma component_to_exact (fuel : nat) (g : csgraph) (root : option Z)
  (valid : option (list bool)) (root_ds : option (list float64))
  (rp : option (list Z)) (find_root_func : root_function) (inv_d : float64)
  (return_map : bool) :
  small_weights g = true ->
  (forall r0 r, root = Some r0 -> root_ds = Some r ->
                Forall (fun x => in_range x = true) r) ->
  (root = None -> find_root_func = B64.find_graph_root fuel) ->
  B64.graph_teasar_component fuel g root valid root_ds rp find_root_func inv_d return_map
  = graph_teasar_component fuel g root valid root_ds rp (find_graph_root fuel)
      inv_d return_map.
Proof.
  intros Hs Hr Hf. apply component_b64; [exact Hs | exact Hr | |].
  - intros E. rewrite (Hf E). apply find_graph_root_b64. exact Hs.
  - intros _ r p d v q0 H. eapply find_graph_root_range; eassumption.
Qed.

(** * The skeletonizer on binary64 sums *)

(** ** Coverage *)


(** ** Path validity *)


(** ** The vertex-to-skeleton map *)


(** ** Visited vertices are invalid and distinct *)


(** * Runs on binary64 sums *)

(** ** Exact distances read off the exact search *)

Lemma exact_distance (g : csgraph) (s v : nat) (d : Z) :
  wf_csgraph g = true -> (s < shape0 g)%nat ->
  nth_error (fst (fst (dijkstra_arrays g [s] PInf))) v = Some (Fin d) ->
  shortest g [s] v d.
Proof.
  intros Hwf Hs H.
  assert (Hsrcs : forall x, In x [s] -> (x < shape0 g)%nat).
  { intros x [<- | []]. exact Hs. }
  exact (proj1 (oc_sound (dijkstra_arrays_contract g [s] PInf Hwf Hsrcs) _ _ H)).
Qed.

Lemma exact_field_pre (g : csgraph) (root : Z) (valid0 : list bool) (inv_d : float64) :
  wf_csgraph g = true -> vertex g root -> fle (Fin 0) inv_d = true ->
  length valid0 = shape0 g ->
  (forall i, nth_error valid0 i = Some true ->
             exists d, nth_error (fst (fst (dijkstra_arrays g [Z.to_nat root] PInf))) i
                       = Some (Fin d)) ->
  teasar_pre g root valid0
    (fst (fst (dijkstra_arrays g [Z.to_nat root] PInf)))
    (snd (fst (dijkstra_arrays g [Z.to_nat root] PInf))) inv_d.
Proof.
  intros Hwf Hv Hrad Hlen Hreach. constructor; auto.
  exists (snd (dijkstra_arrays g [Z.to_nat root] PInf)).
  apply dijkstra_arrays_contract; [exact Hwf |].
  intros s [<- | []]. destruct Hv. lia.
Qed.

Tactic Notation "each_index" integer(n) ident(i) ident(H) :=
  do n (destruct i as [| i]; [vm_compute in H |- *; try discriminate; eauto |]);
  destruct i; discriminate.

(** ** The test graph and the unit square *)

Lemma branches_run_b64 :
  B64.graph_teasar_component 20 branches_graph (Some 0) (Some branches_valid) None None
    (B64.find_graph_root 20) (Fin 11) false
  = (Ok (branches_paths, [Fin 100; Fin 50; Fin 30], None), 7%nat).
Proof. vm_compute. reflexivity. Qed.

Lemma root_0_vertex (g : csgraph) :
  (0 < shape0 g)%nat -> forall r : Z, Some 0 = Some r -> vertex g r.
Proof. intros H r E. inversion E. subst. unfold vertex. lia. Qed.

Lemma no_root_ds (root : option Z) :
  forall r0 r, root = Some r0 -> @None (list float64) = Some r ->
               Forall (fun x => in_range x = true) r.
Proof. intros r0 r _ E. discriminate. Qed.

Lemma root_passed (f : root_function) (fuel : nat) :
  Some 0 = None -> f = B64.find_graph_root fuel.
Proof. discriminate. Qed.



Lemma square_reach_one_b64 :
  B64.reachable 4 square_graph square_root_ds (Some square_root_pred) (Fin 1)
    square_start square_after_one.
Proof.
  eapply B64.reach_step.
  - apply B64.reach_init.
  - vm_compute. lia.
  - vm_compute. reflexivity.
Qed.

Lemma square_ds_in_range : Forall (fun x => in_range x = true) square_root_ds.
Proof. repeat constructor. Qed.


(** ** The driver's distances on the square with a separate edge *)

(** Root 0 of the square, the component's mask without the root, and
    the distances with [-1] at the two vertices of the other component. *)
Lemma square_and_edge_pre :
  teasar_pre square_and_edge 0 [false; true; true; true; false; false]
    [Fin 0; Fin 1; Fin 2; Fin 1; PInf; PInf] [-9999; 0; 1; 0; -9999; -9999] (Fin 1).
Proof.
  refine (exact_field_pre square_and_edge 0 [false; true; true; true; false; false] (Fin 1)
            eq_refl _ eq_refl eq_refl _).
  - unfold vertex. simpl. lia.
  - intros i Hi. each_index 6 i Hi.
Qed.

Lemma square_and_edge_masked :
  masked_field [Fin 0; Fin 1; Fin 2; Fin 1; PInf; PInf]
    [Fin 0; Fin 1; Fin 2; Fin 1; Fin (-1); Fin (-1)].
Proof.
  split; [reflexivity |]. intros i x Hi.
  do 6 (destruct i as [| i]; [simpl in Hi |- *; inversion Hi; auto |]).
  destruct i; discriminate.
Qed.

Lemma square_and_edge_reach_one :
  B64.reachable 6 square_and_edge [Fin 0; Fin 1; Fin 2; Fin 1; Fin (-1); Fin (-1)]
    (Some [-9999; 0; 1; 0; -9999; -9999]) (Fin 1)
    (initial_state 0 [false; true; true; true; false; false] (mesh_init square_and_edge false))
    {| valid := [false; false; false; false; false; false];
       visited_nodes := [0; 2; 1];
       paths := [[2; 1; 0]];
       path_lengths := [Fin 2];
       mesh_to_skeleton := None;
       k := 1 |}.
Proof.
  eapply B64.reach_step.
  - apply B64.reach_init.
  - vm_compute. lia.
  - vm_compute. reflexivity.
Qed.


(** ** Weights beyond 2^53 *)




(** [tied_tree] with the exact field of root 0 meets the preconditions,
    has positive weights and an invalid root. *)
Lemma tied_pre : teasar_pre tied_tree 0 valid_6 tied_root_ds tied_root_pred (Fin 0).
Proof.
  refine (exact_field_pre tied_tree 0 valid_6 (Fin 0) eq_refl _ eq_refl eq_refl _).
  - unfold vertex. simpl. lia.
  - intros i Hi. each_index 6 i Hi.
Qed.


(** ** The search radius *)

(** [overshoot_path] with the exact field of root 0 meets the
    preconditions. *)
Lemma overshoot_pre :
  teasar_pre overshoot_path 0 valid_4 overshoot_root_ds overshoot_root_pred (Fin 0).
Proof.
  refine (exact_field_pre overshoot_path 0 valid_4 (Fin 0) eq_refl _ eq_refl eq_refl _).
  - unfold vertex. simpl. lia.
  - intros i Hi. each_index 4 i Hi.
Qed.

(** C2. On [overshoot_path] the preconditions hold and the distances of
    the root are exact, yet the first iteration raises IndexError: the
    search from the target accumulates 2^53 + 8 on its way to the root,
    above the radius 2^53 + 6, the root is not reached, and [get_path]
    follows the sentinel -9999.  No vertex is invalidated and the call
    does not return. *)
Theorem search_overshoots_radius :
  teasar_pre overshoot_path 0 valid_4 overshoot_root_ds overshoot_root_pred (Fin 0) /\
  B64.dijkstra overshoot_path [0] PInf
  = (Ok (overshoot_root_ds, overshoot_root_pred, [0; 0; 0; 0]), 1%nat) /\
  B64.teasar_iteration 4 overshoot_path overshoot_root_ds (Some overshoot_root_pred) (Fin 0)
    (initial_state 0 valid_4 (mesh_init overshoot_path false))
  = (Raise IndexError, 1%nat) /\
  B64.graph_teasar_component 4 overshoot_path (Some 0) (Some valid_4) None None
    (B64.find_graph_root 4) (Fin 0) false
  = (Raise IndexError, 2%nat).
Proof.
  split; [exact overshoot_pre |]. repeat split; vm_compute; reflexivity.
Qed.

(** C4. On [overshoot_path], in the first iteration the target is vertex
    3 and the first visited vertex on its predecessor chain is the root;
    the radius [root_ds[3] - root_ds[0]] is 2^53 + 6, the distance from
    the target to the root, and the search from the target with that
    radius leaves the only visited vertex, the root, at +inf with the
    sentinel predecessor: the selected branch has no finite distance. *)
Theorem branch_beyond_radius :
  select_target overshoot_root_ds valid_4 = (Ok 3, O) /\
  find_max_branch 4 (Some overshoot_root_pred) [0] 3 = (Ok 0, O) /\
  B64.fsub (Fin (2 ^ 53 + 6)) (Fin 0) = Fin (2 ^ 53 + 6) /\
  distance overshoot_path 3 0 (2 ^ 53 + 6) /\
  B64.dijkstra overshoot_path [3] (Fin (2 ^ 53 + 6))
  = (Ok ([PInf; Fin (2 ^ 53 + 4); Fin (2 ^ 53 + 2); Fin 0], [-9999; 2; 3; -9999],
         [-9999; 3; 3; 3]), 1%nat) /\
  get_path 4 3 0 [-9999; 2; 3; -9999] = (Raise IndexError, O).
Proof.
  split; [vm_compute; reflexivity |]. split; [vm_compute; reflexivity |].
  split; [vm_compute; reflexivity |]. split.
  - split; [unfold vertex; simpl; lia |]. split; [unfold vertex; simpl; lia |].
    apply exact_distance; [reflexivity | simpl; lia | vm_compute; reflexivity].
  - split; vm_compute; reflexivity.
Qed.

(** * The root finder and the driver on binary64 sums *)

(** ** find_far_points_graph *)

(** On a graph with [small_weights], the pair that
    [find_far_points_graph] returns is mutually farthest among the valid
    vertices: both are valid vertices, the returned distance is the exact
    distance between them, and no valid vertex is farther than that from
    either of them.  When some valid vertex cannot be reached, the
    returned distance is infinite and the two vertices are not
    connected. *)
Theorem far_points_mutually_farthest (fuel : nat) (g : csgraph) (valid : list bool)
  (b a : Z) (pred : option (list Z)) (d : float64) (dist : option (list float64))
  (q : nat) :
  wf_csgraph g = true ->
  small_weights g = true ->
  B64.find_far_points_graph fuel g (Some valid) = (Ok (b, a, pred, d, dist), q) ->
  vertex g b /\ vertex g a /\
  nth_error valid (Z.to_nat b) = Some true /\ nth_error valid (Z.to_nat a) = Some true /\
  ((exists dd, d = Fin dd /\ distance g b a dd /\
               forall v, nth_error valid v = Some true ->
                         (exists e, shortest g [Z.to_nat b] v e /\ e <= dd) /\
                         (exists e, shortest g [Z.to_nat a] v e /\ e <= dd)) \/
   (d = PInf /\ forall l, ~ walk g (Z.to_nat b) (Z.to_nat a) l)).
Proof.
  intros Hwf Hs Hrun. rewrite find_far_points_graph_b64 in Hrun by exact Hs.
  exact (exact_far_points_farthest fuel g valid b a pred d dist q Hwf Hrun).
Qed.

Lemma far_points_run_b64 :
  B64.find_far_points_graph 3 square_graph (Some [true; true; true; true])
  = (Ok (0, 2, Some square_root_pred, Fin 2, Some square_root_ds), 2%nat).
Proof. vm_compute. reflexivity. Qed.

Lemma far_points_mutually_farthest_witness :
  vertex square_graph 0 /\ vertex square_graph 2 /\
  nth_error [true; true; true; true] (Z.to_nat 0) = Some true /\
  nth_error [true; true; true; true] (Z.to_nat 2) = Some true /\
  ((exists dd, Fin 2 = Fin dd /\ distance square_graph 0 2 dd /\
               forall v, nth_error [true; true; true; true] v = Some true ->
                         (exists e, shortest square_graph [Z.to_nat 0] v e /\ e <= dd) /\
                         (exists e, shortest square_graph [Z.to_nat 2] v e /\ e <= dd)) \/
   (Fin 2 = PInf /\ forall l, ~ walk square_graph (Z.to_nat 0) (Z.to_nat 2) l)).
Proof.
  exact (far_points_mutually_farthest 3 square_graph [true; true; true; true] 0 2
           (Some square_root_pred) (Fin 2) (Some square_root_ds) 2 eq_refl eq_refl
           far_points_run_b64).
Defined.

(** ** graph_teasar_component without a root *)

Lemma no_root_range (root_ds : option (list float64)) :
  forall r0 r, @None Z = Some r0 -> root_ds = Some r ->
               Forall (fun x => in_range x = true) r.
Proof. intros r0 r E. discriminate. Qed.

(** On a graph with [small_weights], leaving the root to
    [find_graph_root] ([root=None] with a mask): the root it chooses is a
    valid vertex of the graph, and a normal return gives paths along
    edges with exact lengths that hang from that root and cover every
    vertex of the mask. *)
Theorem teasar_with_found_root (fuel : nat) (g : csgraph) (valid0 : list bool)
  (root_ds : option (list float64)) (root_pred : option (list Z))
  (invalidation_d : float64) (return_map : bool)
  (ps : list (list Z)) (ls : list float64) (mp : option (list float64)) (q : nat) :
  wf_csgraph g = true ->
  small_weights g = true ->
  fle (Fin 0) invalidation_d = true ->
  B64.graph_teasar_component fuel g None (Some valid0) root_ds root_pred
    (B64.find_graph_root fuel) invalidation_d return_map = (Ok (ps, ls, mp), q) ->
  exists root,
    vertex g root /\ nth_error valid0 (Z.to_nat root) = Some true /\
    attached root ps /\ Forall2 (path_ok g) ps ls /\
    forall i, nth_error valid0 i = Some true -> covered g invalidation_d ps i.
Proof.
  intros Hwf Hs Hrad Hrun.
  rewrite (component_to_exact fuel g None (Some valid0) root_ds root_pred
             (B64.find_graph_root fuel) invalidation_d return_map Hs
             (no_root_range root_ds) (fun _ => eq_refl)) in Hrun.
  exact (exact_found_root fuel g valid0 root_ds root_pred invalidation_d return_map
           ps ls mp q Hwf Hrad Hrun).
Qed.

Lemma found_root_run_b64 :
  B64.graph_teasar_component 5 square_graph None (Some [true; true; true; true]) None None
    (B64.find_graph_root 5) (Fin 1) true
  = (Ok ([[2; 1; 0]], [Fin 2], Some [Fin 0; Fin 1; Fin 2; Fin 0]), 4%nat).
Proof. vm_compute. reflexivity. Qed.

Lemma teasar_with_found_root_witness :
  exists root,
    vertex square_graph root /\
    nth_error [true; true; true; true] (Z.to_nat root) = Some true /\
    attached root [[2; 1; 0]] /\ Forall2 (path_ok square_graph) [[2; 1; 0]] [Fin 2] /\
    forall i, nth_error [true; true; true; true] i = Some true ->
              covered square_graph (Fin 1) [[2; 1; 0]] i.
Proof.
  exact (teasar_with_found_root 5 square_graph [true; true; true; true] None None
           (Fin 1) true [[2; 1; 0]] [Fin 2] (Some [Fin 0; Fin 1; Fin 2; Fin 0]) 4
           eq_refl eq_refl eq_refl found_root_run_b64).
Defined.

(** On a graph with [small_weights],
    [graph_teasar_component(csgraph)] with every default: the root is
    taken in the mask of [connected_component_slice]; the paths hang
    from it, run along edges with exact lengths, and reach within
    [invalidation_d] of every vertex of that mask, which are the
    vertices joined to the root by a walk. *)
Theorem teasar_default_component (fuel : nat) (g : csgraph)
  (root_ds : option (list float64)) (root_pred : option (list Z))
  (invalidation_d : float64) (return_map : bool)
  (ps : list (list Z)) (ls : list float64) (mp : option (list float64)) (q : nat) :
  wf_csgraph g = true ->
  small_weights g = true ->
  fle (Fin 0) invalidation_d = true ->
  B64.graph_teasar_component fuel g None None root_ds root_pred
    (B64.find_graph_root fuel) invalidation_d return_map = (Ok (ps, ls, mp), q) ->
  exists root mask,
    connected_component_slice g = (Ok mask, O) /\
    vertex g root /\ nth_error mask (Z.to_nat root) = Some true /\
    attached root ps /\ Forall2 (path_ok g) ps ls /\
    (forall i, nth_error mask i = Some true -> covered g invalidation_d ps i) /\
    (forall i l, walk g (Z.to_nat root) i l -> covered g invalidation_d ps i).
Proof.
  intros Hwf Hs Hrad Hrun.
  rewrite (component_to_exact fuel g None None root_ds root_pred
             (B64.find_graph_root fuel) invalidation_d return_map Hs
             (no_root_range root_ds) (fun _ => eq_refl)) in Hrun.
  exact (exact_default_component fuel g root_ds root_pred invalidation_d return_map
           ps ls mp q Hwf Hrad Hrun).
Qed.

Lemma square_and_edge_default_run_b64 :
  B64.graph_teasar_component 6 square_and_edge None None None None
    (B64.find_graph_root 6) (Fin 1) false
  = (Ok ([[2; 1; 0]], [Fin 2], None), 4%nat).
Proof. vm_compute. reflexivity. Qed.

Lemma teasar_default_component_witness :
  exists root mask,
    connected_component_slice square_and_edge = (Ok mask, O) /\
    vertex square_and_edge root /\ nth_error mask (Z.to_nat root) = Some true /\
    attached root [[2; 1; 0]] /\ Forall2 (path_ok square_and_edge) [[2; 1; 0]] [Fin 2] /\
    (forall i, nth_error mask i = Some true -> covered square_and_edge (Fin 1) [[2; 1; 0]] i) /\
    (forall i l, walk square_and_edge (Z.to_nat root) i l ->
                 covered square_and_edge (Fin 1) [[2; 1; 0]] i).
Proof.
  exact (teasar_default_component 6 square_and_edge None None (Fin 1) false
           [[2; 1; 0]] [Fin 2] None 4 eq_refl eq_refl eq_refl
           square_and_edge_default_run_b64).
Defined.

(** On a well-formed graph with [small_weights], at least one vertex
    and a non-negative invalidation radius,
    [graph_teasar_component(csgraph)] with every default returns: the
    call raises nothing and ends once the fuel exceeds the number of
    vertices. *)
Theorem teasar_default_returns (fuel : nat) (g : csgraph)
  (root_ds : option (list float64)) (root_pred : option (list Z))
  (inv_d : float64) (return_map : bool) :
  wf_csgraph g = true -> small_weights g = true -> fle (Fin 0) inv_d = true ->
  (0 < shape0 g)%nat -> (shape0 g < fuel)%nat ->
  exists ps ls mp q,
    B64.graph_teasar_component fuel g None None root_ds root_pred
      (B64.find_graph_root fuel) inv_d return_map = (Ok (ps, ls, mp), q).
Proof.
  intros Hwf Hs Hrad Hpos Hfuel.
  rewrite (component_to_exact fuel g None None root_ds root_pred
             (B64.find_graph_root fuel) inv_d return_map Hs
             (no_root_range root_ds) (fun _ => eq_refl)).
  exact (exact_default_returns fuel g root_ds root_pred inv_d return_map
           Hwf Hrad Hpos Hfuel).
Qed.

Lemma teasar_default_returns_witness :
  exists ps ls mp q,
    B64.graph_teasar_component 7 square_and_edge None None None None
      (B64.find_graph_root 7) (Fin 1) false = (Ok (ps, ls, mp), q).
Proof.
  exact (teasar_default_returns 7 square_and_edge None None (Fin 1) false
           eq_refl eq_refl eq_refl (Nat.lt_0_succ 5) (le_n 7)).
Defined.

(** ** graph_teasar *)

(** On a graph with [small_weights], the result of [graph_teasar] (with
    the default root function): the three lists run in parallel, and
    each entry is a non-empty list of paths hanging from the entry's
    root, a vertex of the graph; the paths run along edges and their
    lengths are exact distances. *)
Theorem graph_teasar_skeletons (fuel : nat) (g : csgraph) (root_index : option Z)
  (inv_d : float64) (thresh : Z) (return_map : bool)
  (all_paths : list (list (list Z))) (roots : list Z)
  (tot_path_lengths : list (list float64)) (mesh : option (list float64)) (q : nat) :
  wf_csgraph g = true -> small_weights g = true -> fle (Fin 0) inv_d = true ->
  (forall r, root_index = Some r -> vertex g r) ->
  B64.graph_teasar fuel g root_index (B64.find_graph_root fuel) inv_d thresh return_map
  = (Ok (all_paths, roots, tot_path_lengths, mesh), q) ->
  length all_paths = length roots /\ length tot_path_lengths = length roots /\
  forall i root, nth_error roots i = Some root ->
                 exists paths lens,
                   nth_error all_paths i = Some paths /\
                   nth_error tot_path_lengths i = Some lens /\
                   vertex g root /\ paths <> [] /\ attached root paths /\
                   Forall2 (path_ok g) paths lens.
Proof.
  intros Hwf Hs Hrad Hri H. rewrite graph_teasar_b64 in H by exact Hs.
  exact (exact_driver_skeletons fuel g root_index inv_d thresh return_map all_paths roots
           tot_path_lengths mesh q Hwf Hrad Hri H).
Qed.

(** On a graph with [small_weights], coverage by the driver (with the
    default root function and a size threshold below 2, as the default
    0): every vertex that is connected to another vertex lies within the
    invalidation radius of a vertex of a path of some component of the
    result. *)
Theorem graph_teasar_covers (fuel : nat) (g : csgraph) (root_index : option Z)
  (inv_d : float64) (thresh : Z) (return_map : bool)
  (all_paths : list (list (list Z))) (roots : list Z)
  (tot_path_lengths : list (list float64)) (mesh : option (list float64)) (q : nat)
  (v u : nat) (l : Z) :
  wf_csgraph g = true -> small_weights g = true -> fle (Fin 0) inv_d = true ->
  (forall r, root_index = Some r -> vertex g r) ->
  thresh < 2 ->
  B64.graph_teasar fuel g root_index (B64.find_graph_root fuel) inv_d thresh return_map
  = (Ok (all_paths, roots, tot_path_lengths, mesh), q) ->
  walk g v u l -> u <> v ->
  exists paths, In paths all_paths /\ covered g inv_d paths v.
Proof.
  intros Hwf Hs Hrad Hri Hth H Hw Hne. rewrite graph_teasar_b64 in H by exact Hs.
  exact (exact_driver_covers fuel g root_index inv_d thresh return_map all_paths roots
           tot_path_lengths mesh q v u l Hwf Hrad Hri Hth H Hw Hne).
Qed.

(** On a graph with [small_weights], the vertex-to-skeleton map of
    [graph_teasar]: it has one cell per vertex; a cell is NaN exactly
    when no vertex of any path of the result lies within the
    invalidation radius of the cell's vertex, and otherwise it names
    such a path vertex. *)
Theorem graph_teasar_map (fuel : nat) (g : csgraph) (root_index : option Z)
  (inv_d : float64) (thresh : Z) (return_map : bool)
  (all_paths : list (list (list Z))) (roots : list Z)
  (tot_path_lengths : list (list float64)) (m : list float64) (q : nat) :
  wf_csgraph g = true -> small_weights g = true -> fle (Fin 0) inv_d = true ->
  (forall r, root_index = Some r -> vertex g r) ->
  B64.graph_teasar fuel g root_index (B64.find_graph_root fuel) inv_d thresh return_map
  = (Ok (all_paths, roots, tot_path_lengths, Some m), q) ->
  length m = shape0 g /\
  forall i x, nth_error m i = Some x ->
              (x = NaN /\
               forall paths p u, In paths all_paths -> In p paths -> In u p ->
                                 ~ within g u i inv_d) \/
              exists u paths p, x = Fin u /\ In paths all_paths /\ In p paths /\
                                In u p /\ within g u i inv_d.
Proof.
  intros Hwf Hs Hrad Hri H. rewrite graph_teasar_b64 in H by exact Hs.
  exact (exact_driver_map fuel g root_index inv_d thresh return_map all_paths roots
           tot_path_lengths m q Hwf Hrad Hri H).
Qed.

(** On a well-formed graph with [small_weights], with a non-negative
    invalidation radius, the default root function and a [root_index]
    that is absent or a vertex, [graph_teasar] returns: the call raises
    nothing and ends once the fuel exceeds the number of vertices; the
    map is returned exactly when it was asked for, with one cell per
    vertex. *)
Theorem graph_teasar_returns (fuel : nat) (g : csgraph) (root_index : option Z)
  (inv_d : float64) (thresh : Z) (return_map : bool) :
  wf_csgraph g = true -> small_weights g = true -> fle (Fin 0) inv_d = true ->
  (forall r, root_index = Some r -> vertex g r) ->
  (shape0 g < fuel)%nat ->
  exists all_paths roots tot_path_lengths mesh q,
    B64.graph_teasar fuel g root_index (B64.find_graph_root fuel) inv_d thresh return_map
    = (Ok (all_paths, roots, tot_path_lengths, mesh), q) /\
    match mesh with
    | Some m => return_map = true /\ length m = shape0 g
    | None => return_map = false
    end.
Proof.
  intros Hwf Hs Hrad Hri Hfuel. rewrite graph_teasar_b64 by exact Hs.
  exact (exact_driver_returns fuel g root_index inv_d thresh return_map Hwf Hrad Hri Hfuel).
Qed.

(** The second graph of the test-suite, as [test_graph_teasar_all] runs
    it: two components with one path each, of lengths 2 and 1. *)
Lemma square_and_edge_run_b64 :
  B64.graph_teasar 6 square_and_edge None (B64.find_graph_root 6) (Fin 10000) 0 false
  = (Ok ([[[2; 1; 0]]; [[5; 4]]], [0; 4], [[Fin 2]; [Fin 1]], None), 8%nat).
Proof. vm_compute. reflexivity. Qed.

Lemma graph_teasar_skeletons_witness :
  length [[[2; 1; 0]]; [[5; 4]]] = length [0; 4] /\
  length [[Fin 2]; [Fin 1]] = length [0; 4] /\
  forall i root, nth_error [0; 4] i = Some root ->
                 exists paths lens,
                   nth_error [[[2; 1; 0]]; [[5; 4]]] i = Some paths /\
                   nth_error [[Fin 2]; [Fin 1]] i = Some lens /\
                   vertex square_and_edge root /\ paths <> [] /\ attached root paths /\
                   Forall2 (path_ok square_and_edge) paths lens.
Proof.
  exact (graph_teasar_skeletons 6 square_and_edge None (Fin 10000) 0 false
           [[[2; 1; 0]]; [[5; 4]]] [0; 4] [[Fin 2]; [Fin 1]] None 8
           eq_refl eq_refl eq_refl no_root_index square_and_edge_run_b64).
Defined.

Lemma graph_teasar_covers_witness :
  exists paths, In paths [[[2; 1; 0]]; [[5; 4]]] /\
                covered square_and_edge (Fin 10000) paths 4.
Proof.
  refine (graph_teasar_covers 6 square_and_edge None (Fin 10000) 0 false
            [[[2; 1; 0]]; [[5; 4]]] [0; 4] [[Fin 2]; [Fin 1]] None 8 4 5 (0 + Z.of_N 1)
            eq_refl eq_refl eq_refl no_root_index _ square_and_edge_run_b64 walk_4_5 _).
  - lia.
  - lia.
Defined.

(** The same graph with the map requested and radius 1: vertex 3, which
    is on no path, is mapped to its neighbour 0. *)
Lemma square_and_edge_map_run_b64 :
  B64.graph_teasar 6 square_and_edge None (B64.find_graph_root 6) (Fin 1) 0 true
  = (Ok ([[[2; 1; 0]]; [[5; 4]]], [0; 4], [[Fin 2]; [Fin 1]],
         Some [Fin 0; Fin 1; Fin 2; Fin 0; Fin 4; Fin 5]), 8%nat).
Proof. vm_compute. reflexivity. Qed.

Lemma graph_teasar_map_witness :
  length [Fin 0; Fin 1; Fin 2; Fin 0; Fin 4; Fin 5] = shape0 square_and_edge /\
  forall i x, nth_error [Fin 0; Fin 1; Fin 2; Fin 0; Fin 4; Fin 5] i = Some x ->
              (x = NaN /\
               forall paths p u, In paths [[[2; 1; 0]]; [[5; 4]]] -> In p paths -> In u p ->
                                 ~ within square_and_edge u i (Fin 1)) \/
              exists u paths p, x = Fin u /\ In paths [[[2; 1; 0]]; [[5; 4]]] /\ In p paths /\
                                In u p /\ within square_and_edge u i (Fin 1).
Proof.
  exact (graph_teasar_map 6 square_and_edge None (Fin 1) 0 true
           [[[2; 1; 0]]; [[5; 4]]] [0; 4] [[Fin 2]; [Fin 1]]
           [Fin 0; Fin 1; Fin 2; Fin 0; Fin 4; Fin 5] 8
           eq_refl eq_refl eq_refl no_root_index square_and_edge_map_run_b64).
Defined.

Lemma graph_teasar_returns_witness :
  exists all_paths roots tot_path_lengths mesh q,
    B64.graph_teasar 7 square_and_edge None (B64.find_graph_root 7) (Fin 1) 0 true
    = (Ok (all_paths, roots, tot_path_lengths, mesh), q) /\
    match mesh with
    | Some m => true = true /\ length m = shape0 square_and_edge
    | None => true = false
    end.
Proof.
  exact (graph_teasar_returns 7 square_and_edge None (Fin 1) 0 true
           eq_refl eq_refl eq_refl no_root_index (le_n 7)).
Defined.

(** ** Progress and the search radius *)

(** On a graph with [small_weights], under the preconditions (every
    valid vertex has finite distance from the root): in every iteration
    the mask only loses vertices, the selected target is invalidated and
    the number of valid vertices strictly decreases; the whole call
    returns normally, after at most as many iterations as the initial
    mask has valid vertices. *)
Theorem progress_with_small_weights (g : csgraph) (root : Z) (valid0 : list bool)
  (rds : list float64) (rp : list Z) (inv_d : float64)
  (find_root_func : root_function) (return_map : bool) :
  teasar_pre g root valid0 rds rp inv_d ->
  small_weights g = true ->
  (forall fuel st tr st',
      B64.reachable fuel g rds (Some rp) inv_d
        (initial_state root valid0 (mesh_init g return_map)) st ->
      (0 < np_sum (valid st))%nat ->
      B64.iteration_of fuel g rds (Some rp) inv_d st tr st' ->
      (forall i, nth_error (valid st') i = Some true -> nth_error (valid st) i = Some true) /\
      nth_error (valid st') (Z.to_nat (it_target tr)) = Some false /\
      (np_sum (valid st') < np_sum (valid st))%nat) /\
  (forall fuel, (shape0 g <= fuel)%nat ->
      exists ps ls mp q,
        B64.graph_teasar_component fuel g (Some root) (Some valid0) (Some rds) (Some rp)
          find_root_func inv_d return_map = (Ok (ps, ls, mp), q) /\
        (length ps <= np_sum valid0)%nat /\ q = (2 * length ps)%nat).
Proof.
  intros pre Hs.
  pose proof (pre_wf pre) as Hwf. destruct (pre_field pre) as [src0 C0].
  destruct (pre_root pre) as [Hr0 Hrn].
  assert (Hrange : Forall (fun x => in_range x = true) rds).
  { apply (contract_in_range g (Z.to_nat root) rds rp src0 Hwf Hs); [lia | exact C0]. }
  destruct (exact_mask_progress g root valid0 rds rp inv_d find_root_func return_map pre)
    as [Hstep Hrun].
  split.
  - intros fuel st tr st' Hr Hpos Htr.
    apply (Hstep fuel st tr st'); [| exact Hpos |].
    + exact (reachable_b64 fuel g rds (Some rp) inv_d _ st Hs Hrange Hr).
    + exact (iteration_of_b64 fuel g rds (Some rp) inv_d st st' tr Hs Hrange Htr).
  - intros fuel Hfuel.
    rewrite (component_rooted_b64 fuel g root (Some valid0) (Some rds) (Some rp)
               find_root_func find_root_func inv_d return_map Hs).
    + exact (Hrun fuel Hfuel).
    + intros r E. inversion E. subst r. exact Hrange.
Qed.

(** The run on the unit square returns, with at most three paths. *)
Lemma progress_with_small_weights_witness :
  exists ps ls mp q,
    B64.graph_teasar_component 4 square_graph (Some 0) (Some square_valid)
      (Some square_root_ds) (Some square_root_pred) (B64.find_graph_root 4) (Fin 1) true
    = (Ok (ps, ls, mp), q) /\
    (length ps <= np_sum square_valid)%nat /\ q = (2 * length ps)%nat.
Proof.
  exact (proj2 (progress_with_small_weights square_graph 0 square_valid square_root_ds
                  square_root_pred (Fin 1) (B64.find_graph_root 4) true square_pre eq_refl)
               4%nat (le_n 4)).
Defined.

(** On a graph with [small_weights], under the preconditions: in every
    iteration the limit [root_ds[target] - root_ds[max_branch]] is a
    finite number that bounds the distance from the target to the
    visited vertex [max_branch]; the selected branch is a visited vertex
    nearest to the target, its distance is finite and within the limit,
    and the iteration completes (the assertion on [ds[branch]] does not
    fail). *)
Theorem radius_with_small_weights (g : csgraph) (root : Z) (valid0 : list bool)
  (rds : list float64) (rp : list Z) (inv_d : float64) (return_map : bool)
  (fuel : nat) (st : teasar_state) :
  teasar_pre g root valid0 rds rp inv_d ->
  small_weights g = true ->
  B64.reachable fuel g rds (Some rp) inv_d
    (initial_state root valid0 (mesh_init g return_map)) st ->
  (0 < np_sum (valid st))%nat ->
  (shape0 g <= fuel)%nat ->
  (exists st', B64.teasar_iteration fuel g rds (Some rp) inv_d st = (Ok st', 2%nat)) /\
  forall tr st',
    B64.iteration_of fuel g rds (Some rp) inv_d st tr st' ->
    exists L d,
      it_max_path_length tr = Fin L /\ it_length tr = Fin d /\ d <= L /\
      In (it_max_branch tr) (visited_nodes st) /\
      (exists l, walk g (Z.to_nat (it_target tr)) (Z.to_nat (it_max_branch tr)) l /\ l <= L) /\
      In (it_branch tr) (visited_nodes st) /\
      distance g (it_target tr) (it_branch tr) d /\
      (forall v l, In v (visited_nodes st) ->
                   walk g (Z.to_nat (it_target tr)) (Z.to_nat v) l -> d <= l).
Proof.
  intros pre Hs Hr Hpos Hfuel.
  pose proof (pre_wf pre) as Hwf. destruct (pre_field pre) as [src0 C0].
  destruct (pre_root pre) as [Hr0 Hrn].
  assert (Hrange : Forall (fun x => in_range x = true) rds).
  { apply (contract_in_range g (Z.to_nat root) rds rp src0 Hwf Hs); [lia | exact C0]. }
  pose proof (reachable_b64 fuel g rds (Some rp) inv_d _ st Hs Hrange Hr) as Hr'.
  destruct (exact_branch_bound g root valid0 rds rp inv_d return_map fuel st
              pre Hr' Hpos Hfuel) as [Hrun Hb].
  split.
  - rewrite teasar_iteration_b64 by assumption. exact Hrun.
  - intros tr st' Htr. apply (Hb tr st').
    exact (iteration_of_b64 fuel g rds (Some rp) inv_d st st' tr Hs Hrange Htr).
Qed.

(** The first iteration on the unit square completes. *)
Lemma radius_with_small_weights_witness :
  exists st',
    B64.teasar_iteration 4 square_graph square_root_ds (Some square_root_pred) (Fin 1)
      square_start = (Ok st', 2%nat).
Proof.
  refine (proj1 (radius_with_small_weights square_graph 0 square_valid square_root_ds
                   square_root_pred (Fin 1) true 4 square_start square_pre eq_refl
                   (B64.reach_init _ _ _ _ _ _) _ (le_n 4))).
  vm_compute. lia.
Defined.
